(** * tangermeme: DeepLIFT/SHAP attribution engine (deep_lift_shap.py)

    A shallow embedding of [src/tangermeme/deep_lift_shap.py].

    Numbers.  The source computes on [torch] float tensors.  Here a scalar is
    a canonical rational ([Qc]): arithmetic is exact, equality is Leibniz
    equality and every definition evaluates.  Rounding, [inf] and [nan] are
    outside the model; division by zero yields [0] as in [Qcdiv], and every
    place where the source divides by a possibly-zero number is pointed out.

    Tensors.  A tensor is a nested list in row-major order: a rank-2 tensor
    (batch, targets) is a [list (list Qc)], a rank-3 tensor
    (batch, channels, length) a [list (list (list Qc))].  Every activation
    that a layer caches is rank 3, as the sequence tensor itself is.
    Operations that [torch] refuses on mismatched shapes return [None] (the
    raised exception); size-1 broadcasting is not modelled, the engine never
    relies on it. *)

From Stdlib Require Import List Bool Arith ZArith QArith Qcanon Qcabs Lia Field.
Import ListNotations.

Open Scope Qc_scope.

(** ** Scalars *)

Definition Qc_ltb (a b : Qc) : bool :=
  if Qclt_le_dec a b then true else false.

Definition Qc_max (a b : Qc) : Qc := if Qc_ltb a b then b else a.

Definition Qc_of_nat (n : nat) : Qc := Q2Qc (inject_Z (Z.of_nat n)).

Definition Qc_of_Z (z : Z) : Qc := Q2Qc (inject_Z z).

(** ** The option monad used for raised exceptions *)

Definition obind {A B} (o : option A) (k : A -> option B) : option B :=
  match o with
  | Some a => k a
  | None => None
  end.

Notation "' p <- e ;; k" := (obind e (fun p => k))
  (at level 61, p pattern, e at next level, right associativity).
Notation "x <- e ;; k" := (obind e (fun x => k))
  (at level 61, e at next level, right associativity).

(** ** Tensors as nested lists *)

Abbreviation vec := (list Qc).
Abbreviation mat := (list (list Qc)).
Abbreviation ten3 := (list (list (list Qc))).

Fixpoint map2 {A B C} (f : A -> B -> C) (l1 : list A) (l2 : list B) : list C :=
  match l1, l2 with
  | a :: l1', b :: l2' => f a b :: map2 f l1' l2'
  | _, _ => []
  end.

Fixpoint forallb2 {A B} (p : A -> B -> bool) (l1 : list A) (l2 : list B) : bool :=
  match l1, l2 with
  | [], [] => true
  | a :: l1', b :: l2' => p a b && forallb2 p l1' l2'
  | _, _ => false
  end.

(** [t1.shape == t2.shape] for rank-1 and rank-2 tensors. *)
Definition same_shape1 {A B} (a : list A) (b : list B) : bool :=
  length a =? length b.

Definition same_shape2 {A B} (a : list (list A)) (b : list (list B)) : bool :=
  forallb2 same_shape1 a b.

Definition same_shape3 {A B} (a : list (list (list A)))
  (b : list (list (list B))) : bool :=
  forallb2 same_shape2 a b.

(** Elementwise binary operations: [None] is the shape error. *)
Definition zip2 {A B C} (f : A -> B -> C) (a : list (list A))
  (b : list (list B)) : option (list (list C)) :=
  if same_shape2 a b then Some (map2 (map2 f) a b) else None.

Definition zip3 {A B C} (f : A -> B -> C) (a : list (list (list A)))
  (b : list (list (list B))) : option (list (list (list C))) :=
  if same_shape3 a b then Some (map2 (map2 (map2 f)) a b) else None.

Definition get2 (t : mat) (i j : nat) : Qc := nth j (nth i t []) 0.
Definition get3 (t : ten3) (b a p : nat) : Qc :=
  nth p (nth a (nth b t []) []) 0.

(** [t.sum()] over all elements. *)
Definition vsum (v : vec) : Qc := fold_right Qcplus 0 v.
Definition msum (t : mat) : Qc := vsum (map vsum t).
Definition tsum (t : ten3) : Qc := vsum (map msum t).

(** [t.numel()]. *)
Definition numel2 {A} (t : list (list A)) : nat :=
  fold_right Nat.add 0%nat (map (@length A) t).
Definition numel {A} (t : list (list (list A))) : nat :=
  fold_right Nat.add 0%nat (map numel2 t).

(** [torch.chunk(t, 2)] along the batch axis: chunks of [ceil(n/2)] rows.
    A tensor with one row gives a single chunk, so that unpacking it into
    the two arguments of [torch.sub] raises. *)
Definition chunk2 {A} (t : list A) : option (list A * list A) :=
  match length t with
  | 1%nat => None
  | n => let h := Nat.div2 (S n) in Some (firstn h t, skipn h t)
  end.

(** [torch.cat([a, b])] along the batch axis is [a ++ b]; [torch.sub]
    applied to the two chunks of [t.chunk(2)] is their elementwise
    difference. *)

(** [torch.where(cond, a, b)]. *)
Definition where3 (c : list (list (list bool))) (a b : ten3) : option ten3 :=
  if same_shape3 c a && same_shape3 a b
  then Some (map2 (map2 (map2 (fun (ci : bool) (p : Qc * Qc) =>
                                 if ci then fst p else snd p)))
                  c (map2 (map2 (map2 (@pair Qc Qc))) a b))
  else None.

(** [torch.abs(t) < eps]. *)
Definition abs_lt (t : ten3) (eps : Qc) : list (list (list bool)) :=
  map (map (map (fun x => Qc_ltb (Qcabs x) eps))) t.

(** ** Layers ([torch.nn.Module]) and their hooks *)

(** [type(module)]: the classes the engine knows, and any other class. *)
Inductive module_class :=
  | ReLU | ELU | LeakyReLU | Sigmoid | Tanh | Softplus
  | MaxPool1d | MaxPool2d | Softmax
  | Linear | Flatten
  | OtherClass (name : nat).

Definition module_class_eqb (a b : module_class) : bool :=
  match a, b with
  | ReLU, ReLU | ELU, ELU | LeakyReLU, LeakyReLU | Sigmoid, Sigmoid
  | Tanh, Tanh | Softplus, Softplus | MaxPool1d, MaxPool1d
  | MaxPool2d, MaxPool2d | Softmax, Softmax | Linear, Linear
  | Flatten, Flatten => true
  | OtherClass n, OtherClass m => Nat.eqb n m
  | _, _ => false
  end.

(** The hooks a module can carry: the three bound methods of the engine
    ([_fp_hook], [_f_hook], [_b_hook]) and hooks of anybody else. *)
Inductive hook := fp_hook | f_hook | b_hook | foreign_hook.

(** A hook dictionary ([module._forward_hooks] and the like): an ordered
    dictionary from handle ids to hooks. *)
Definition hook_dict := list (nat * hook).

(** A module of the model.  [forward] is the layer's function on one
    example (channels x length) and [backward] what automatic
    differentiation computes for it on one example: from the input and
    the gradient with respect to the output, the gradient with respect
    to the input.  [input] and [output] are the attributes the forward
    hooks set, [None] while unset. *)
Record Module := mkModule {
  cls : module_class;
  forward : mat -> option mat;
  backward : mat -> mat -> option mat;
  kernel_size : nat;
  stride : nat;
  input : option ten3;
  output : option ten3;
  _forward_hooks : hook_dict;
  _forward_pre_hooks : hook_dict;
  _backward_hooks : hook_dict
}.

(** ** The difference-of-differences rules

    In all three rules the quotient by [delta_in] is taken at every
    position, also where [delta_in] is [0]; [torch.where] then keeps it
    only where [|delta_in| >= eps].  With a positive [eps] the value of a
    quotient by zero ([inf] or [nan] in the source, [0] here) is never
    selected.  In [_softmax] the division by [n = grad_input[0].numel()]
    is a division by zero only for an empty tensor, which has no entry
    to subtract from. *)

Definition _nonlinear (module : Module) (grad_input grad_output : ten3)
  (eps : Qc) : option ten3 :=
  inp <- input module ;;
  '(inp_x, inp_r) <- chunk2 inp ;;
  delta_in_ <- zip3 Qcminus inp_x inp_r ;;
  out <- output module ;;
  '(out_x, out_r) <- chunk2 out ;;
  delta_out_ <- zip3 Qcminus out_x out_r ;;
  let delta_in := delta_in_ ++ delta_in_ in
  let delta_out := delta_out_ ++ delta_out_ in
  delta <- zip3 Qcdiv delta_out delta_in ;;
  let idxs := abs_lt delta_in eps in
  scaled <- zip3 Qcmult grad_output delta ;;
  where3 idxs grad_input scaled.

Definition _softmax (module : Module) (grad_input grad_output : ten3)
  (eps : Qc) : option ten3 :=
  inp <- input module ;;
  '(inp_x, inp_r) <- chunk2 inp ;;
  delta_in_ <- zip3 Qcminus inp_x inp_r ;;
  out <- output module ;;
  '(out_x, out_r) <- chunk2 out ;;
  delta_out_ <- zip3 Qcminus out_x out_r ;;
  let delta_in := delta_in_ ++ delta_in_ in
  let delta_out := delta_out_ ++ delta_out_ in
  delta <- zip3 Qcdiv delta_out delta_in ;;
  let idxs := abs_lt delta_in eps in
  scaled <- zip3 Qcmult grad_output delta ;;
  grad_input_unnorm <- where3 idxs grad_input scaled ;;
  let n := numel grad_input in
  let new_grad_inp :=
    map (map (map (fun g => g - tsum grad_input_unnorm * 1 / Qc_of_nat n)))
        grad_input_unnorm in
  Some new_grad_inp.

(** *** Max pooling

    [F.max_pool1d] and [F.max_unpool1d] on a (batch, channels, length)
    tensor, for a module whose [padding], [dilation] and [ceil_mode] are
    the defaults [0], [1] and [False]. *)

Fixpoint mapM {A B} (f : A -> option B) (l : list A) : option (list B) :=
  match l with
  | [] => Some []
  | a :: l' => b <- f a ;; bs <- mapM f l' ;; Some (b :: bs)
  end.

(** The maximum of a window and the position of its first occurrence;
    [i] is the position of the head of [w]. *)
Fixpoint argmax_aux (best : Qc) (bi i : nat) (w : vec) : Qc * nat :=
  match w with
  | [] => (best, bi)
  | x :: w' =>
      if Qc_ltb best x then argmax_aux x i (S i) w'
      else argmax_aux best bi (S i) w'
  end.

Definition window_max (start : nat) (w : vec) : option (Qc * nat) :=
  match w with
  | [] => None
  | x :: w' => Some (argmax_aux x start (S start) w')
  end.

(** One channel: [(L - k) / s + 1] windows of [k] entries, [s] apart. *)
Definition pool_row (k s : nat) (row : vec) : option (vec * list nat) :=
  if (k =? 0)%nat || (s =? 0)%nat || (length row <? k)%nat then None
  else
    r <- mapM (fun j => window_max (j * s) (firstn k (skipn (j * s) row)))
              (seq 0 ((length row - k) / s + 1)) ;;
    Some (map fst r, map snd r).

Definition max_pool1d (t : ten3) (k s : nat)
  : option (ten3 * list (list (list nat))) :=
  r <- mapM (mapM (pool_row k s)) t ;;
  Some (map (map fst) r, map (map snd) r).

Fixpoint set_nth {A} (i : nat) (v : A) (l : list A) : list A :=
  match l, i with
  | [], _ => []
  | _ :: l', O => v :: l'
  | x :: l', S i' => x :: set_nth i' v l'
  end.

(** [out[indices[j]] = values[j]] for every [j] in turn. *)
Fixpoint scatter (out : vec) (indices : list nat) (values : vec)
  : option vec :=
  match indices, values with
  | [], [] => Some out
  | i :: indices', v :: values' =>
      if (i <? length out)%nat then scatter (set_nth i v out) indices' values'
      else None
  | _, _ => None
  end.

Definition zeros (n : nat) : vec := repeat 0 n.

Fixpoint mapM2 {A B C} (f : A -> B -> option C) (l1 : list A) (l2 : list B)
  : option (list C) :=
  match l1, l2 with
  | [], [] => Some []
  | a :: l1', b :: l2' => c <- f a b ;; cs <- mapM2 f l1' l2' ;; Some (c :: cs)
  | _, _ => None
  end.

(** [output_size] is [list(module.input.shape)]; its last entry is the
    length every channel is unpooled to.  That [F.max_unpool1d] accepts
    this size (it must lie within one stride of [(n - 1) * s + k]) holds
    for every [n = (L - k) / s + 1] and is not checked again here. *)
Definition max_unpool1d (values : ten3) (indices : list (list (list nat)))
  (L : nat) : option ten3 :=
  mapM2 (mapM2 (fun v i => scatter (zeros L) i v)) values indices.

Definition shape3 {A} (t : list (list (list A))) : nat * nat * nat :=
  (length t, length (hd [] t), length (hd [] (hd [] t))).

Definition _maxpool (module : Module) (grad_input grad_output : ten3)
  (eps : Qc) : option ten3 :=
  match cls module with
  | MaxPool1d =>
      inp <- input module ;;
      '(inp_x, inp_r) <- chunk2 inp ;;
      delta_in_ <- zip3 Qcminus inp_x inp_r ;;
      let delta_in := delta_in_ ++ delta_in_ in
      out <- output module ;;
      '(output, output_ref) <- chunk2 out ;;
      delta_out_xmax <- zip3 Qc_max output output_ref ;;
      d_x <- zip3 Qcminus delta_out_xmax output_ref ;;
      d_r <- zip3 Qcminus output delta_out_xmax ;;
      let delta_out := d_x ++ d_r in
      '(_, indices) <- max_pool1d inp (kernel_size module) (stride module) ;;
      weighted <- zip3 Qcmult grad_output delta_out ;;
      unpool_ <- max_unpool1d weighted indices (snd (shape3 inp)) ;;
      '(unpool_delta, unpool_ref_delta) <- chunk2 unpool_ ;;
      unpool_delta_ <- zip3 Qcplus unpool_delta unpool_ref_delta ;;
      let unpool_delta := unpool_delta_ ++ unpool_delta_ in
      let idxs := abs_lt delta_in eps in
      quot <- zip3 Qcdiv unpool_delta delta_in ;;
      where3 idxs grad_input quot
  | MaxPool2d =>
      (* [F.max_unpool2d] refuses the three-entry [output_size] of a
         rank-3 activation *)
      None
  | _ => None
  end.

(** ** Shapes

    [has_shape3 t n c l]: [t.shape == (n, c, l)]. *)
Definition has_shape2 {A} (t : list (list A)) (c l : nat) : Prop :=
  length t = c /\ Forall (fun r => length r = l) t.

Definition has_shape3 {A} (t : list (list (list A))) (n c l : nat) : Prop :=
  length t = n /\ Forall (fun m => has_shape2 m c l) t.

(** What lines 275-284 compute on a batch of [2 * B] pairs: the common
    part of the generic and the softmax rule. *)
Definition rescaled_entry (inp out grad_input grad_output : ten3) (eps : Qc)
  (B i k j : nat) : Qc :=
  let b := (i mod B)%nat in
  let din := get3 inp b k j - get3 inp (B + b) k j in
  let dout := get3 out b k j - get3 out (B + b) k j in
  if Qc_ltb (Qcabs din) eps then get3 grad_input i k j
  else get3 grad_output i k j * (dout / din).

(** ** Small concrete layers used to run the definitions *)

(** [torch.nn.ReLU] on one example, and its derivative. *)
Definition relu (x : Qc) : Qc := Qc_max 0 x.

Definition relu_forward (x : mat) : option mat := Some (map (map relu) x).

Definition relu_backward (x g : mat) : option mat :=
  if same_shape2 x g
  then Some (map2 (map2 (fun xi gi => if Qc_ltb 0 xi then gi else 0)) x g)
  else None.

Definition relu_module (inp out : option ten3) : Module :=
  mkModule ReLU relu_forward relu_backward 0 0 inp out [] [] [].

(** A ReLU after its forward hooks ran on the pair
    (example [1, -2], reference [1, 3]). *)
Definition relu_cached : Module :=
  relu_module
    (Some ([[[Qc_of_Z 1; Qc_of_Z (-2)]]; [[Qc_of_Z 1; Qc_of_Z 3]]])%list)
    (Some ([[[Qc_of_Z 1; Qc_of_Z 0]]; [[Qc_of_Z 1; Qc_of_Z 3]]])%list).

(** ** Exceptions and Python values *)

Inductive exception :=
  | ValueError | AssertionError | RuntimeError | AttributeError
  | TypeError | KeyError | IndexError | ZeroDivisionError.

Inductive result (A : Type) :=
  | Ok (a : A)
  | Raise (e : exception).
Arguments Ok {A} a.
Arguments Raise {A} e.

Definition rbind {A B} (r : result A) (k : A -> result B) : result B :=
  match r with
  | Ok a => k a
  | Raise e => Raise e
  end.

Notation "x <-- e ;; k" := (rbind e (fun x => k))
  (at level 61, e at next level, right associativity).

(** An exception of [torch] (a shape error) raised as [e]. *)
Definition lift {A} (e : exception) (o : option A) : result A :=
  match o with
  | Some a => Ok a
  | None => Raise e
  end.

(** The values [hypothetical_attributions] may be handed: a tuple of
    objects, each a tensor or something else, or a non-tuple. *)
Inductive pyobj := PyTensor (t : ten3) | PyOther.
Inductive pyarg := PyTuple (items : list pyobj) | PyNotTuple.

(** ** The hypothetical-attribution projector *)

(** Lines 56-64, for one of the three arguments; [mshape] is
    [multipliers[0].shape], by then known to exist. *)
Definition check_arg (val : pyarg) (mshape : option (nat * nat * nat))
  : result ten3 :=
  match val with
  | PyTuple [v0] =>
      match v0 with
      | PyTensor t =>
          match mshape with
          | Some s =>
              if (fst (fst (shape3 t)) =? fst (fst s))%nat
                 && (snd (fst (shape3 t)) =? snd (fst s))%nat
                 && (snd (shape3 t) =? snd s)%nat
              then Ok t else Raise ValueError
          | None => Ok t
          end
      | PyOther => Raise ValueError
      end
  | _ => Raise ValueError
  end.

(** [torch.zeros_like(t)]. *)
Definition zeros_like (t : ten3) : ten3 := map (map (map (fun _ => 0))) t.

(** [t[:, i] = 1.0]: row [i] of every example is filled with ones. *)
Definition fill_row (i : nat) (x : Qc) (t : ten3) : ten3 :=
  map (fun m => set_nth i (map (fun _ => x) (nth i m [])) m) t.

(** [torch.sum(t, dim=1)]: for every example the sum of its rows, a
    vector over the positions. *)
Definition sum_dim1 (t : ten3) : mat :=
  map (fun m => fold_right (map2 Qcplus) (zeros (snd (shape3 t))) m) t.

(** [t[:, i] = s] for a (batch, length) tensor [s]. *)
Definition assign_row (i : nat) (s : mat) (t : ten3) : option ten3 :=
  if (length s =? length t)%nat
  then Some (map2 (fun m r => set_nth i r m) t s)
  else None.

(** One turn of the loop of lines 70-77. *)
Definition hypothetical_step (multipliers X references : ten3)
  (projected_contribs : ten3) (i : nat) : option ten3 :=
  let hypothetical_input := fill_row i 1 (zeros_like X) in
  hypothetical_diffs <- zip3 Qcminus hypothetical_input references ;;
  hypothetical_contribs <- zip3 Qcmult hypothetical_diffs multipliers ;;
  assign_row i (sum_dim1 hypothetical_contribs) projected_contribs.

Fixpoint for_each {S} (body : S -> nat -> option S) (s : S) (l : list nat)
  : option S :=
  match l with
  | [] => Some s
  | i :: l' => s' <- body s i ;; for_each body s' l'
  end.

Definition hypothetical_attributions (multipliers X references : pyarg)
  : result pyarg :=
  m0 <-- check_arg multipliers None ;;
  x0 <-- check_arg X (Some (shape3 m0)) ;;
  r0 <-- check_arg references (Some (shape3 m0)) ;;
  let projected_contribs := zeros_like r0 in
  projected_contribs <-- lift RuntimeError
    (for_each (hypothetical_step m0 x0 r0) projected_contribs
              (seq 0 (snd (fst (shape3 x0))))) ;;
  Ok (PyTuple [PyTensor projected_contribs]).

(** The sum of [f 0], ..., [f (n - 1)]. *)
Definition sum_upto (n : nat) (f : nat -> Qc) : Qc := vsum (map f (seq 0 n)).

(** The one-hot row of symbol [s]. *)
Definition indicator (s a : nat) : Qc := if (a =? s)%nat then 1 else 0.

(** The contribution of symbol [s] at position [p] of example [b]: the
    sum over the alphabet of (indicator of [s] minus reference) times
    multiplier. *)
Definition projected_entry (multipliers references : ten3) (A : nat)
  (b s p : nat) : Qc :=
  sum_upto A (fun a =>
    (indicator s a - get3 references b a p) * get3 multipliers b a p).

(** [val] is a one-element tuple of a tensor whose shape is [mshape]. *)
Definition arg_matches (mshape : nat * nat * nat) (val : pyarg) : Prop :=
  exists t, val = PyTuple [PyTensor t] /\ shape3 t = mshape.

(** The one-position example of the end-to-end scenario: multipliers
    [w = [1, -1, 0, 0]], the one-hot [A] as [X] and the one-hot [C] as
    reference. *)
Definition toy_multipliers : ten3 :=
  ([[[Qc_of_Z 1]; [Qc_of_Z (-1)]; [Qc_of_Z 0]; [Qc_of_Z 0]]])%list.
Definition toy_X : ten3 :=
  ([[[Qc_of_Z 1]; [Qc_of_Z 0]; [Qc_of_Z 0]; [Qc_of_Z 0]]])%list.
Definition toy_references : ten3 :=
  ([[[Qc_of_Z 0]; [Qc_of_Z 1]; [Qc_of_Z 0]; [Qc_of_Z 0]]])%list.

(** ** The attribution engine, class [DeepLiftShap] *)

(** A rule is a function with the signature of [_nonlinear]. *)
Definition rule := Module -> ten3 -> ten3 -> Qc -> option ten3.

(** The dictionary [_NON_LINEAR_OPS], most recent assignment first. *)
Definition ops_dict := list (module_class * rule).

Fixpoint ops_lookup (d : ops_dict) (c : module_class) : option rule :=
  match d with
  | [] => None
  | (k, r) :: d' => if module_class_eqb k c then Some r else ops_lookup d' c
  end.

(** Which of a module's three hook dictionaries a handle points into. *)
Inductive hook_kind := Forward | ForwardPre | Backward.

(** A [RemovableHandle]: the dictionary it was created for and its id.
    The module is its position in the model. *)
Record handle := mkHandle {
  h_module : nat;
  h_kind : hook_kind;
  h_id : nat
}.

(** What the interpreter holds besides the engine object: the modules of
    the model (shared by every engine built on it), the class-wide
    counter [RemovableHandle.next_id], and the warnings and prints so
    far, most recent first. *)
Inductive event :=
  | RuntimeWarning (convergence_deltas : vec)
  | Printed (convergence_deltas : vec).

Record world := mkWorld {
  modules : list Module;
  next_id : nat;
  events : list event
}.

Record DeepLiftShap := mkDeepLiftShap {
  eps : Qc;
  warning_threshold : Qc;
  verbose : bool;
  handles : list handle;
  _NON_LINEAR_OPS : ops_dict
}.

(** [DeepLiftShap.__init__] (lines 147-170). *)
Definition DeepLiftShap_init (additional_nonlinear_ops : option ops_dict)
  (eps warning_threshold : Qc) (verbose : bool) : DeepLiftShap :=
  let ops :=
    [ (ReLU, _nonlinear); (ELU, _nonlinear); (LeakyReLU, _nonlinear);
      (Sigmoid, _nonlinear); (Tanh, _nonlinear); (Softplus, _nonlinear);
      (MaxPool1d, _maxpool); (MaxPool2d, _maxpool); (Softmax, _softmax) ] in
  let ops :=
    match additional_nonlinear_ops with
    | Some extra => fold_left (fun d kv => kv :: d) extra ops
    | None => ops
    end in
  mkDeepLiftShap eps warning_threshold verbose [] ops.

(** The default [eps] of the constructor, [1e-10]. *)
Definition default_eps : Qc := Q2Qc (1 # 10000000000).

(** *** Hooks *)

Definition set_input (m : Module) (v : option ten3) : Module :=
  mkModule (cls m) (forward m) (backward m) (kernel_size m) (stride m)
    v (output m) (_forward_hooks m) (_forward_pre_hooks m) (_backward_hooks m).

Definition set_output (m : Module) (v : option ten3) : Module :=
  mkModule (cls m) (forward m) (backward m) (kernel_size m) (stride m)
    (input m) v (_forward_hooks m) (_forward_pre_hooks m) (_backward_hooks m).

Definition hooks_of (k : hook_kind) (m : Module) : hook_dict :=
  match k with
  | Forward => _forward_hooks m
  | ForwardPre => _forward_pre_hooks m
  | Backward => _backward_hooks m
  end.

Definition set_hooks (k : hook_kind) (m : Module) (d : hook_dict) : Module :=
  match k with
  | Forward =>
      mkModule (cls m) (forward m) (backward m) (kernel_size m) (stride m)
        (input m) (output m) d (_forward_pre_hooks m) (_backward_hooks m)
  | ForwardPre =>
      mkModule (cls m) (forward m) (backward m) (kernel_size m) (stride m)
        (input m) (output m) (_forward_hooks m) d (_backward_hooks m)
  | Backward =>
      mkModule (cls m) (forward m) (backward m) (kernel_size m) (stride m)
        (input m) (output m) (_forward_hooks m) (_forward_pre_hooks m) d
  end.

(** [module.register_*_hook(h)]: a fresh id, appended to the dictionary. *)
Definition register_hook (k : hook_kind) (h : hook) (pos : nat)
  (id : nat) (m : Module) : Module * handle :=
  (set_hooks k m (hooks_of k m ++ [(id, h)]), mkHandle pos k id).

(** [_register_hooks] (lines 256-264) on the module at position [pos]. *)
Definition _register_hooks (self : DeepLiftShap) (id : nat) (pos : nat)
  (module : Module) : DeepLiftShap * nat * Module :=
  if (0 <? length (_backward_hooks module))%nat then (self, id, module)
  else
    match ops_lookup (_NON_LINEAR_OPS self) (cls module) with
    | None => (self, id, module)
    | Some _ =>
        let '(module, h1) := register_hook Forward f_hook pos id module in
        let '(module, h2) :=
          register_hook ForwardPre fp_hook pos (id + 1) module in
        let '(module, h3) :=
          register_hook Backward b_hook pos (id + 2) module in
        (mkDeepLiftShap (eps self) (warning_threshold self) (verbose self)
           (handles self ++ [h1; h2; h3]) (_NON_LINEAR_OPS self),
         (id + 3)%nat, module)
    end.

(** [self.model.apply(self._register_hooks)] over the modules from
    position [pos] on. *)
Fixpoint apply_register_hooks (self : DeepLiftShap) (id : nat) (pos : nat)
  (ms : list Module) : DeepLiftShap * nat * list Module :=
  match ms with
  | [] => (self, id, [])
  | m :: ms' =>
      let '(self, id, m) := _register_hooks self id pos m in
      let '(self, id, ms') := apply_register_hooks self id (S pos) ms' in
      (self, id, m :: ms')
  end.

(** [handle.remove()]: the id is deleted from the dictionary the handle
    was created for, if it is still there. *)
Definition remove_id (id : nat) (d : hook_dict) : hook_dict :=
  filter (fun e => negb (fst e =? id)%nat) d.

Fixpoint update_nth {A} (i : nat) (f : A -> A) (l : list A) : list A :=
  match l, i with
  | [], _ => []
  | x :: l', O => f x :: l'
  | x :: l', S i' => x :: update_nth i' f l'
  end.

Definition handle_remove (h : handle) (ms : list Module) : list Module :=
  update_nth (h_module h)
    (fun m => set_hooks (h_kind h) m (remove_id (h_id h) (hooks_of (h_kind h) m)))
    ms.

(** *** The forward and the backward pass

    The model is a [torch.nn.Sequential] of the modules of the world,
    closed by a [torch.nn.Flatten] so that its output is
    (batch, n_targets).  Extra forward arguments ([args]) are absent. *)

Definition zip1 {A B C} (f : A -> B -> C) (a : list A) (b : list B)
  : option (list C) :=
  if same_shape1 a b then Some (map2 f a b) else None.

(** Calling one module on a batch: its forward pre-hooks, its function on
    every example, its forward hooks.  [_fp_hook] and [_f_hook] store the
    input and the output; a foreign hook is taken to observe only. *)
Definition run_pre_hooks (m : Module) (x : ten3) : Module :=
  fold_left (fun m e => match snd e with
                        | fp_hook => set_input m (Some x)
                        | _ => m
                        end)
            (_forward_pre_hooks m) m.

Definition run_post_hooks (m : Module) (y : ten3) : Module :=
  fold_left (fun m e => match snd e with
                        | f_hook => set_output m (Some y)
                        | _ => m
                        end)
            (_forward_hooks m) m.

Definition call_module (m : Module) (x : ten3) : Module * option ten3 :=
  let m := run_pre_hooks m x in
  match mapM (forward m) x with
  | None => (m, None)
  | Some y => (run_post_hooks m y, Some y)
  end.

(** The forward pass through the modules; besides the output it yields
    the input of every module, which automatic differentiation keeps. *)
Fixpoint forward_pass (ms : list Module) (x : ten3)
  : list Module * option (list ten3 * ten3) :=
  match ms with
  | [] => ([], Some ([], x))
  | m :: ms' =>
      match call_module m x with
      | (m', None) => (m' :: ms', None)
      | (m', Some y) =>
          let '(ms'', r) := forward_pass ms' y in
          (m' :: ms'',
           match r with
           | Some (tape, out) => Some (x :: tape, out)
           | None => None
           end)
      end
  end.

(** [_b_hook] (lines 252-254), and the backward step of one module: what
    automatic differentiation computes, then the module's backward hooks
    in turn, each replacing the gradient with respect to the input. *)
Definition _b_hook (self : DeepLiftShap) (module : Module)
  (grad_input grad_output : ten3) : option ten3 :=
  r <- ops_lookup (_NON_LINEAR_OPS self) (cls module) ;;
  r module grad_input grad_output (eps self).

Definition backward_module (self : DeepLiftShap) (m : Module) (x : ten3)
  (grad_output : ten3) : option ten3 :=
  grad_input <- mapM2 (backward m) x grad_output ;;
  fold_left (fun gi e =>
               match snd e with
               | b_hook => g <- gi ;; _b_hook self m g grad_output
               | _ => gi
               end)
            (_backward_hooks m) (Some grad_input).

Fixpoint backward_pass (self : DeepLiftShap) (ms : list Module)
  (tape : list ten3) (grad : ten3) : option ten3 :=
  match ms, tape with
  | [], [] => Some grad
  | m :: ms', x :: tape' =>
      g <- backward_pass self ms' tape' grad ;;
      backward_module self m x g
  | _, _ => None
  end.

(** The closing [Flatten] and its gradient. *)
Fixpoint unflatten_like (m : mat) (v : vec) : mat :=
  match m with
  | [] => []
  | r :: m' => firstn (length r) v :: unflatten_like m' (skipn (length r) v)
  end.

Definition onehot (n t : nat) : vec :=
  map (fun j => if (j =? t)%nat then 1 else 0) (seq 0 n).

(** The gradient of [y.sum()] with respect to the last activation, where
    [y = model(X_)[:, target]]. *)
Definition seed_gradient (out : ten3) (target : nat) : ten3 :=
  map (fun o => unflatten_like o (onehot (length (concat o)) target)) out.

Definition select_target (out : ten3) (target : nat) : option vec :=
  mapM (fun o => nth_error (concat o) target) out.

Definition shape_eqb (s1 s2 : nat * nat * nat) : bool :=
  (fst (fst s1) =? fst (fst s2))%nat && (snd (fst s1) =? snd (fst s2))%nat
  && (snd s1 =? snd s2)%nat.

(** The body of the [try] of [attribute] (lines 213-238), after the hooks
    are registered: the modules as the forward pass leaves them, and
    either the gradients with the events of the check or the exception.
    [self] is the engine after registration. *)
Definition attribute_body (self : DeepLiftShap) (ms : list Module)
  (X references : ten3) (target : nat)
  : list Module * result (ten3 * list event) :=
  let X_ := X ++ references in
  let '(ms, fw) := forward_pass ms X_ in
  (ms,
   match fw with
   | None => Raise RuntimeError
   | Some (tape, out) =>
       y <-- lift IndexError (select_target out target) ;;
       g <-- lift RuntimeError
               (backward_pass self ms tape (seed_gradient out target)) ;;
       let gradients := firstn (length X) g in
       halves <-- lift TypeError (chunk2 y) ;;
       output_diff <-- lift RuntimeError
                         (zip1 Qcminus (fst halves) (snd halves)) ;;
       diffs <-- lift RuntimeError (zip3 Qcminus X references) ;;
       contribs <-- lift RuntimeError (zip3 Qcmult diffs gradients) ;;
       let input_diff := map msum contribs in
       d <-- lift RuntimeError (zip1 Qcminus output_diff input_diff) ;;
       let convergence_deltas := map Qcabs d in
       let warned :=
         if existsb (fun x => Qc_ltb (warning_threshold self) x)
                    convergence_deltas
         then ([RuntimeWarning convergence_deltas])%list else [] in
       let printed :=
         if verbose self then ([Printed convergence_deltas])%list else [] in
       Ok (gradients, printed ++ warned)
   end).

(** The [finally] clause (lines 240-242). *)
Definition remove_handles (hs : list handle) (ms : list Module)
  : list Module :=
  fold_left (fun ms h => handle_remove h ms) hs ms.

(** [DeepLiftShap.attribute] (lines 173-244) with [args=None]: the
    outcome, the engine object and the world after the call. *)
Definition attribute (self : DeepLiftShap) (w : world)
  (X references : ten3) (target : nat)
  : result ten3 * DeepLiftShap * world :=
  if negb (shape_eqb (shape3 X) (shape3 references))
  then (Raise AssertionError, self, w)
  else
    let '(self, id, ms) :=
      apply_register_hooks self (next_id w) 0 (modules w) in
    let '(ms, r) := attribute_body self ms X references target in
    let ms := remove_handles (handles self) ms in
    match r with
    | Ok (gradients, evs) =>
        (Ok gradients, self, mkWorld ms id (evs ++ events w))
    | Raise e => (Raise e, self, mkWorld ms id (events w))
    end.

(** *** Linear layers *)

Definition vdot (u v : vec) : Qc := vsum (map2 Qcmult u v).

(** [torch.nn.Linear] with weight [W] (out x in) and bias [bias], applied
    on the last axis of one example. *)
Definition linear_row (W : mat) (bias : vec) (r : vec) : option vec :=
  if forallb (fun w => length w =? length r)%nat W
     && (length bias =? length W)%nat
  then Some (map2 (fun w b => vdot w r + b) W bias)
  else None.

Definition linear_forward (W : mat) (bias : vec) (x : mat) : option mat :=
  mapM (linear_row W bias) x.

(** The gradient with respect to the input row: [g W]. *)
Definition linear_row_backward (W : mat) (n_in : nat) (g : vec)
  : option vec :=
  if (length g =? length W)%nat
  then Some (fold_right (map2 Qcplus) (zeros n_in)
                        (map2 (fun gi w => map (Qcmult gi) w) g W))
  else None.

Definition linear_backward (W : mat) (x g : mat) : option mat :=
  mapM2 (fun r gr => linear_row_backward W (length r) gr) x g.

Definition linear_module (W : mat) (bias : vec) : Module :=
  mkModule Linear (linear_forward W bias) (linear_backward W) 0 0
    None None [] [] [].

(** [torch.nn.Flatten] followed by [torch.nn.Unflatten] to one channel:
    an example (channels x length) becomes (1 x channels * length). *)
Definition flatten_forward (x : mat) : option mat := Some ([concat x])%list.

Definition flatten_backward (x g : mat) : option mat :=
  match g with
  | gr :: nil => if (length gr =? length (concat x))%nat
            then Some (unflatten_like x gr) else None
  | _ => None
  end.

Definition flatten_module : Module :=
  mkModule Flatten flatten_forward flatten_backward 0 0 None None [] [] [].

(** The model as a function of one example, hooks apart: what [f(x)]
    means in the convergence law. *)
Fixpoint model_forward (ms : list Module) (x : mat) : option mat :=
  match ms with
  | [] => Some x
  | m :: ms' => y <- forward m x ;; model_forward ms' y
  end.

Definition model_output (ms : list Module) (target : nat) (x : mat)
  : option Qc :=
  out <- model_forward ms x ;; nth_error (concat out) target.

(** ** Instrumentation: what a module carries in its hook dictionaries *)

Definition hook_kind_eqb (a b : hook_kind) : bool :=
  match a, b with
  | Forward, Forward | ForwardPre, ForwardPre | Backward, Backward => true
  | _, _ => false
  end.

Definition hooks_view (m : Module) : hook_dict * hook_dict * hook_dict :=
  (_forward_hooks m, _forward_pre_hooks m, _backward_hooks m).

(** The dictionary of kind [k] of the module at position [p]. *)
Definition dict_at (ms : list Module) (p : nat) (k : hook_kind) : hook_dict :=
  match nth_error ms p with
  | Some m => hooks_of k m
  | None => []
  end.

(** Every id in use is below the counter [RemovableHandle.next_id]. *)
Definition ids_below (w : world) : Prop :=
  forall p k e, In e (dict_at (modules w) p k) -> (fst e < next_id w)%nat.

(** The handles an engine still holds were issued before and point to
    hooks that are gone (as after [__init__], and after every call). *)
Definition handles_stale (self : DeepLiftShap) (w : world) : Prop :=
  forall h, In h (handles self) ->
    (h_id h < next_id w)%nat /\
    forall p k e, In e (dict_at (modules w) p k) -> fst e <> h_id h.

(** Handle [h] points into dictionary [k] of the module at [p]. *)
Definition handle_for (p : nat) (k : hook_kind) (h : handle) : bool :=
  (h_module h =? p)%nat && hook_kind_eqb (h_kind h) k.

(** Two states of one layer: all but caches and hooks agree. *)
Definition same_layer (m m' : Module) : Prop :=
  cls m' = cls m /\ forward m' = forward m /\ backward m' = backward m /\
  kernel_size m' = kernel_size m /\ stride m' = stride m.

(** Two states of one engine object: all but the handles agree. *)
Definition same_engine (s s' : DeepLiftShap) : Prop :=
  eps s' = eps s /\ warning_threshold s' = warning_threshold s /\
  verbose s' = verbose s /\ _NON_LINEAR_OPS s' = _NON_LINEAR_OPS s.

(** A module that carries no hook. *)
Definition hook_free (m : Module) : Prop := hooks_view m = ([], [], []).

(** A rule that reads of the module only its class and attributes and
    what the forward hooks cached, as the three rules of the source do. *)
Definition reads_caches (r : rule) : Prop :=
  forall m m' gi go e,
    same_layer m m' -> input m' = input m -> output m' = output m ->
    r m' gi go e = r m gi go e.

(** The hooks of a module in the order they run, without their ids. *)
Definition hook_kinds (m : Module) : list hook * list hook * list hook :=
  (map snd (_forward_hooks m), map snd (_forward_pre_hooks m),
   map snd (_backward_hooks m)).

(** Two states of one layer after [_register_hooks] ran on it in two
    worlds: no hook in either, or the engine's three hooks in both. *)
Definition paired (m m' : Module) : Prop :=
  same_layer m m' /\ hook_kinds m' = hook_kinds m /\
  (hook_kinds m = ([], [], []) \/
   hook_kinds m = ([f_hook], [fp_hook], [b_hook])%list).

(** ... and after the forward pass on one input: where the hooks are,
    the caches agree. *)
Definition synced (m m' : Module) : Prop :=
  same_layer m m' /\ hook_kinds m' = hook_kinds m /\
  (hook_kinds m = ([], [], []) \/
   (hook_kinds m = ([f_hook], [fp_hook], [b_hook])%list /\
    input m' = input m /\ output m' = output m)).

(** A world [w] that calls of [attribute] may have made of [w0]: the
    layers of [w0], no hook. *)
Definition settled (w0 w : world) : Prop :=
  Forall hook_free (modules w) /\
  Forall2 same_layer (modules w0) (modules w).

(** The rules that treat every pair of a batch by itself. *)
Definition pairwise_rule (r : rule) : Prop := r = _nonlinear \/ r = _maxpool.

(** A layer of a model such rules handle alone: the engine has no rule
    for its class, or has one of these. *)
Definition pairwise_only (self : DeepLiftShap) (m : Module) : Prop :=
  match ops_lookup (_NON_LINEAR_OPS self) (cls m) with
  | None => True
  | Some r => pairwise_rule r
  end.

(** ... as [_register_hooks] leaves it: untouched, or with the three
    hooks and such a rule. *)
Definition pairwise_ready (self : DeepLiftShap) (m : Module) : Prop :=
  hook_kinds m = ([], [], []) \/
  (hook_kinds m = ([f_hook], [fp_hook], [b_hook])%list /\
   exists r, ops_lookup (_NON_LINEAR_OPS self) (cls m) = Some r /\
             pairwise_rule r).

(** The forward pass without the hooks: the inputs of the modules and
    the output, or [None] where a module raises. *)
Fixpoint forward_tape (ms : list Module) (x : ten3)
  : option (list ten3 * ten3) :=
  match ms with
  | [] => Some ([], x)
  | m :: ms' =>
      y <- mapM (forward m) x ;;
      r <- forward_tape ms' y ;;
      Some (x :: fst r, snd r)
  end.

(** A model whose second linear layer expects three features and gets
    two: the forward pass raises after the ReLU was instrumented. *)
Definition broken_world : world :=
  mkWorld ([ flatten_module;
             linear_module ([[Qc_of_Z 1; Qc_of_Z (-1); Qc_of_Z 2; Qc_of_Z 0];
                             [Qc_of_Z 0; Qc_of_Z 3; Qc_of_Z (-1); Qc_of_Z 1]])
                           ([Qc_of_Z 1; Qc_of_Z (-1)]);
             relu_module None None;
             linear_module ([[Qc_of_Z 1; Qc_of_Z (-2); Qc_of_Z 1]])
                           ([Qc_of_Z 0]) ])%list
          0 [].

(** The same model with a matching last layer. *)
Definition relu_world : world :=
  mkWorld ([ flatten_module;
             linear_module ([[Qc_of_Z 1; Qc_of_Z (-1); Qc_of_Z 2; Qc_of_Z 0];
                             [Qc_of_Z 0; Qc_of_Z 3; Qc_of_Z (-1); Qc_of_Z 1]])
                           ([Qc_of_Z 1; Qc_of_Z (-1)]);
             relu_module None None;
             linear_module ([[Qc_of_Z 1; Qc_of_Z (-2)]]) ([Qc_of_Z 0]) ])%list
          0 [].

Definition default_engine : DeepLiftShap :=
  DeepLiftShap_init None default_eps (Q2Qc (1 # 10000)) false.

(** The events of the convergence check for the deltas [ds]. *)
Definition check_events (self : DeepLiftShap) (ds : vec) : list event :=
  (if verbose self then ([Printed ds])%list else [])
  ++ (if existsb (fun x => Qc_ltb (warning_threshold self) x) ds
      then ([RuntimeWarning ds])%list else []).

(** The convergence delta of one example-reference pair for the
    multipliers [g]: [|(f(x) - f(r)) - sum((x - r) * g)|]. *)
Definition convergence_delta (ms : list Module) (target : nat)
  (x r g : mat) : option Qc :=
  fx <- model_output ms target x ;;
  fr <- model_output ms target r ;;
  Some (Qcabs ((fx - fr)
               - msum (map2 (map2 Qcmult) (map2 (map2 Qcminus) x r) g))).

(** The engine with another [warning_threshold]. *)
Definition with_threshold (self : DeepLiftShap) (th : Qc) : DeepLiftShap :=
  mkDeepLiftShap (eps self) th (verbose self) (handles self)
    (_NON_LINEAR_OPS self).

(** [sum(a * b)] over all entries of one example. *)
Definition mdot (a b : mat) : Qc := msum (map2 (map2 Qcmult) a b).

(** ** Purely linear models *)

(** A layer that is a [torch.nn.Linear] or the flattening reshape. *)
Definition linear_layer (m : Module) : Prop :=
  (exists W bias, forward m = linear_forward W bias /\
                  backward m = linear_backward W) \/
  (forward m = flatten_forward /\ backward m = flatten_backward).

(** The engine has no rule for the class of [m], and [m] carries no
    [_b_hook] left behind. *)
Definition uninstrumented (self : DeepLiftShap) (m : Module) : Prop :=
  ops_lookup (_NON_LINEAR_OPS self) (cls m) = None /\
  Forall (fun e => snd e <> b_hook) (_backward_hooks m).

(** Automatic differentiation through the model for one example [x]:
    the gradient with respect to [x] from the gradient [g] with respect
    to the output. *)
Fixpoint model_backward (ms : list Module) (x g : mat) : option mat :=
  match ms with
  | [] => Some g
  | m :: ms' =>
      y <- forward m x ;;
      g' <- model_backward ms' y g ;;
      backward m x g'
  end.

(** The gradient a layer computes is the adjoint of the layer's action on
    differences: [sum((x - r) * grad_in) = sum((y - y') * grad_out)]. *)
Definition adjoint_layer (m : Module) : Prop :=
  forall x r y y' g gin,
    forward m x = Some y -> forward m r = Some y' ->
    same_shape2 x r = true -> backward m x g = Some gin ->
    same_shape2 y y' = true /\
    mdot (map2 (map2 Qcminus) x r) gin = mdot (map2 (map2 Qcminus) y y') g.

(** ** Models the generic rule is exact on *)

(** An elementwise activation: [forward] applies one function to every
    entry of the example. *)
Definition activation_layer (m : Module) : Prop :=
  exists sigma : Qc -> Qc, forward m = fun x => Some (map (map sigma) x).

(** No entry of [x] differs from its entry of [r] by an amount strictly
    between [0] and [eps]. *)
Definition separated1 (eps : Qc) (x r : vec) : Prop :=
  Forall2 (fun a b => a - b = 0 \/ eps <= Qcabs (a - b)) x r.

Definition separated2 (eps : Qc) (x r : mat) : Prop :=
  Forall2 (separated1 eps) x r.

(** ... for every pair of a batch [t] of [B] examples followed by their
    [B] references. *)
Definition separated (eps : Qc) (B : nat) (t : ten3) : Prop :=
  forall b, (b < B)%nat -> separated2 eps (nth b t []) (nth (B + b) t []).

(** The layers of a model the generic rule is exact on: a layer whose
    gradient is the adjoint of its action on differences, left alone by
    the engine, or an elementwise activation handled by [_nonlinear]. *)
Definition rescaled_layer (self : DeepLiftShap) (m : Module) : Prop :=
  (adjoint_layer m /\ ops_lookup (_NON_LINEAR_OPS self) (cls m) = None) \/
  (activation_layer m /\
   ops_lookup (_NON_LINEAR_OPS self) (cls m) = Some _nonlinear).

(** The entry [torch.where] selects. *)
Definition pick (ci : bool) (p : Qc * Qc) : Qc := if ci then fst p else snd p.

(** What [_nonlinear] returns for one pair: from the pair's inputs [x]
    and [r], outputs [y] and [y'] and the two incoming gradients. *)
Definition rescaled_pair (eps : Qc) (x r y y' gi go : mat) : mat :=
  let din := map2 (map2 Qcminus) x r in
  let dout := map2 (map2 Qcminus) y y' in
  map2 (map2 pick)
    (map (map (fun d => Qc_ltb (Qcabs d) eps)) din)
    (map2 (map2 (@pair Qc Qc)) gi
       (map2 (map2 Qcmult) go (map2 (map2 Qcdiv) dout din))).

(** A module as registration leaves it. *)
Definition ready (self : DeepLiftShap) (m : Module) : Prop :=
  (adjoint_layer m /\ hook_kinds m = ([], [], [])) \/
  (activation_layer m /\
   hook_kinds m = ([f_hook], [fp_hook], [b_hook])%list /\
   ops_lookup (_NON_LINEAR_OPS self) (cls m) = Some _nonlinear).

(** The one-layer linear model [y = w . x] of the end-to-end scenario,
    [w = [1, -1, 0, 0]]. *)
Definition linear_world : world :=
  mkWorld ([ flatten_module;
             linear_module ([[Qc_of_Z 1; Qc_of_Z (-1); Qc_of_Z 0; Qc_of_Z 0]])
                           ([Qc_of_Z 0]) ])%list
          0 [].

(** ** The batched driver [deep_lift_shap] *)

(** How a reference generator is seeded: [random_state=s], or no seed, in
    which case what it returns depends on the state of the global random
    number generator, here the number of unseeded calls so far. *)
Inductive seed_arg := Seeded (s : Z) | Unseeded (entropy : nat).

(** A reference generator such as [dinucleotide_shuffle]:
    [references(sequences, n=n, random_state=...)] returns, for every
    sequence, [n] references. *)
Definition generator := ten3 -> nat -> seed_arg -> option (list ten3).

Inductive references_arg :=
  | RefTensor (t : list ten3)
  | RefFunc (f : generator).

(** A finalized entry of [attributions]: the averaged attribution of one
    example, or with [raw_outputs] the stacked multipliers of its pairs. *)
Inductive attribution :=
  | Processed (a : mat)
  | RawOutputs (chunk : ten3).

(** The variables of the loop of lines 505-567, with the world and the
    state of the random number generator. *)
Record loop_state := mkLoop {
  Xi : list nat;
  rj : list nat;
  attr_ : list mat;
  attributions : list attribution;
  z : nat;
  references_ : list mat;
  wld : world;
  rng : nat
}.

Definition zip2_mat (f : Qc -> Qc -> Qc) (a b : mat) : option mat :=
  zip2 f a b.

(** [torch.stack(chunk).mean(dim=0)] for a chunk of [R] tensors. *)
Fixpoint sum_mats (chunk : list mat) : option mat :=
  match chunk with
  | [] => None
  | a :: nil => Some a
  | a :: rest => s <- sum_mats rest ;; zip2_mat Qcplus a s
  end.

(** [torch.stack(l)] of tensors of one shape; an empty list raises. *)
Definition stack_check (chunk : list mat) : option ten3 :=
  match chunk with
  | [] => None
  | a :: rest =>
      if forallb (fun b => same_shape2 a b) rest then Some chunk else None
  end.

(** [attr_chunk.mean(dim=0)]; the chunk holds [n_shuffles >= 1] tensors. *)
Definition mean_dim0 (attr_chunk : ten3) : option mat :=
  s <- sum_mats attr_chunk ;;
  Some (map (map (fun x => x / Qc_of_nat (length attr_chunk))) s).

Definition same_shape_attribution (a b : attribution) : bool :=
  match a, b with
  | Processed x, Processed y => same_shape2 x y
  | RawOutputs x, RawOutputs y => same_shape3 x y
  | _, _ => false
  end.

(** The final [torch.stack(attributions)]. *)
Definition stack_attributions (l : list attribution)
  : result (list attribution) :=
  match l with
  | [] => Raise RuntimeError
  | a :: rest =>
      if forallb (same_shape_attribution a) rest then Ok l
      else Raise RuntimeError
  end.

Section Driver.

Variables (X : ten3) (target batch_size : nat) (references : references_arg).
Variables (n_shuffles : nat) (return_references hypothetical : bool).
Variables (warning_threshold : Qc).
Variables (additional_nonlinear_ops : option ops_dict).
Variables (print_convergence_deltas raw_outputs : bool).
Variable random_state : option Z.

(** Lines 498-499: a reference tensor fixes the number of shuffles. *)
Definition n_shuffles_ : nat :=
  match references with
  | RefTensor t => length (hd [] t)
  | RefFunc _ => n_shuffles
  end.

(** Lines 517-525: the references of one batch. *)
Definition resolve_references (Xi rj : list nat) (_X : ten3) (rng : nat)
  : result (ten3 * nat) :=
  match references with
  | RefTensor t =>
      _references <-- lift IndexError
        (mapM2 (fun i j => e <- nth_error t i ;; nth_error e j) Xi rj) ;;
      Ok (_references, rng)
  | RefFunc f =>
      match random_state with
      | None =>
          r <-- lift RuntimeError (f _X 1%nat (Unseeded rng)) ;;
          _references <-- lift IndexError
            (mapM (fun e => nth_error e 0) r) ;;
          Ok (_references, S rng)
      | Some s =>
          rs <-- lift RuntimeError
            (mapM2 (fun x j =>
                      r <- f (x :: nil) 1%nat (Seeded (s + Z.of_nat j)) ;;
                      mapM (fun e => nth_error e 0) r)
                   _X rj) ;;
          Ok (concat rs, rng)
      end
  end.

(** Lines 553-558: one example finalized from the chunk of its
    [n_shuffles] results. *)
Definition finalize_chunk (chunk : list mat) (z : nat) : result attribution :=
  attr_chunk <-- lift RuntimeError (stack_check chunk) ;;
  if raw_outputs then Ok (RawOutputs attr_chunk)
  else
    attr_chunk <-- lift RuntimeError (mean_dim0 attr_chunk) ;;
    if hypothetical then Ok (Processed attr_chunk)
    else
      Xz <-- lift IndexError (nth_error X z) ;;
      attr_chunk <-- lift RuntimeError (zip2_mat Qcmult attr_chunk Xz) ;;
      Ok (Processed attr_chunk).

(** Lines 552-562: finalize examples while [n_shuffles] results wait.
    Every turn takes [n_shuffles >= 1] entries off [attr_], so as many
    turns as [attr_] has entries are enough; [fuel] counts them down. *)
Fixpoint drain (fuel : nat) (attr_ : list mat)
  (attributions : list attribution) (z : nat)
  : result (list mat * list attribution * nat) :=
  if (n_shuffles_ <=? length attr_)%nat then
    match fuel with
    | O => Raise RuntimeError
    | S fuel' =>
        entry <-- finalize_chunk (firstn n_shuffles_ attr_) z ;;
        drain fuel' (skipn n_shuffles_ attr_)
              (attributions ++ entry :: nil) (S z)
    end
  else Ok (attr_, attributions, z).

(** Lines 530-541: the engine on one batch and, unless [raw_outputs],
    the projection of its multipliers; with the world after the call. *)
Definition batch_multipliers (w : world) (_X _references : ten3)
  : result ten3 * world :=
  let self := DeepLiftShap_init additional_nonlinear_ops default_eps
                warning_threshold print_convergence_deltas in
  let out := attribute self w _X _references target in
  (multipliers <-- fst (fst out) ;;
   if raw_outputs then Ok multipliers
   else
     r <-- hypothetical_attributions (PyTuple (PyTensor multipliers :: nil))
             (PyTuple (PyTensor _X :: nil))
             (PyTuple (PyTensor _references :: nil)) ;;
     match r with
     | PyTuple (PyTensor t :: _) => Ok t
     | _ => Raise TypeError
     end,
   snd out).

(** Lines 510-567: the body of the [if], run when a batch is full or the
    last pair has been reached. *)
Definition run_batch (st : loop_state) : result loop_state :=
  _X <-- lift IndexError (mapM (nth_error X) (Xi st)) ;;
  rr <-- resolve_references (Xi st) (rj st) _X (rng st) ;;
  let _references := fst rr in
  let bm := batch_multipliers (wld st) _X _references in
  multipliers <-- fst bm ;;
  let attr_ := attr_ st ++ multipliers in
  d <-- drain (length attr_) attr_ (attributions st) (z st) ;;
  let references_ :=
    if return_references then references_ st ++ _references
    else references_ st in
  Ok (mkLoop [] [] (fst (fst d)) (snd (fst d)) (snd d) references_
        (snd bm) (snd rr)).

(** One turn of the loop over the pairs (lines 505-567).  The loop runs
    only when [n = N * n_shuffles > 0], so [n_shuffles] is positive in
    [i // n_shuffles] and [i % n_shuffles]. *)
Definition loop_body (n : nat) (st : loop_state) (i : nat)
  : result loop_state :=
  let st := mkLoop (Xi st ++ (i / n_shuffles_)%nat :: nil)
                   (rj st ++ (i mod n_shuffles_)%nat :: nil)
                   (attr_ st) (attributions st) (z st) (references_ st)
                   (wld st) (rng st) in
  if (length (Xi st) =? batch_size)%nat || (i =? n - 1)%nat
  then run_batch st else Ok st.

Fixpoint for_range (body : loop_state -> nat -> result loop_state)
  (st : loop_state) (l : list nat) : result loop_state :=
  match l with
  | [] => Ok st
  | i :: l' => st' <-- body st i ;; for_range body st' l'
  end.

(** [torch.cat(references_).reshape(N, n_shuffles, ...)]. *)
Definition reshape_references (N : nat) (l : list mat) : list ten3 :=
  map (fun k => firstn n_shuffles_ (skipn (k * n_shuffles_) l)) (seq 0 N).

(** [deep_lift_shap] (lines 495-576) on the model of world [w], with
    [args=None]; [batch_size] is a natural number, a negative one would
    behave as [0] does.  The result: the attributions, the references
    when asked for, and the world and generator state afterwards. *)
Definition deep_lift_shap (w : world) (rng0 : nat)
  : result (list attribution * option (list ten3) * world * nat) :=
  let n := (length X * n_shuffles_)%nat in
  st <-- for_range (loop_body n) (mkLoop [] [] [] [] 0 [] w rng0)
           (seq 0 n) ;;
  attributions <-- stack_attributions (attributions st) ;;
  Ok (attributions,
      (if return_references
       then Some (reshape_references (length X) (references_ st))
       else None),
      wld st, rng st).

End Driver.

(** ** A normalizing layer handled by [_softmax]

    [exp] has no rational values to compute with, so the layer used to
    run the softmax rule is the normalization [y_i = x_i^2 / sum_j x_j^2]
    of every row: a user-defined module class whose outputs sum to one,
    registered as [{SquareNorm: _softmax}] through
    [additional_nonlinear_ops]. *)
Definition SquareNorm : module_class := OtherClass 0.

Definition square_norm_row (x : vec) : vec :=
  let s := vsum (map (fun a => a * a) x) in
  map (fun a => a * a / s) x.

Definition square_norm_forward (x : mat) : option mat :=
  Some (map square_norm_row x).

(** Its gradient: [2 x_k (g_k - sum_i g_i y_i) / sum_j x_j^2]. *)
Definition square_norm_row_backward (x g : vec) : vec :=
  let s := vsum (map (fun a => a * a) x) in
  let gy := vdot g (square_norm_row x) in
  map2 (fun a gk => Qc_of_Z 2 * a * (gk - gy) / s) x g.

Definition square_norm_backward (x g : mat) : option mat :=
  if same_shape2 x g then Some (map2 square_norm_row_backward x g)
  else None.

Definition square_norm_module : Module :=
  mkModule SquareNorm square_norm_forward square_norm_backward 0 0
    None None [] [] [].

(** A model with that layer between two linear layers. *)
Definition norm_world : world :=
  mkWorld ([ flatten_module;
             linear_module ([[Qc_of_Z 1; Qc_of_Z 2; Qc_of_Z 3; Qc_of_Z 4];
                             [Qc_of_Z 1; Qc_of_Z 1; Qc_of_Z 1; Qc_of_Z 1]])
                           ([Qc_of_Z 0; Qc_of_Z 0]);
             square_norm_module;
             linear_module ([[Qc_of_Z 1; Qc_of_Z 0]]) ([Qc_of_Z 0]) ])%list
          0 [].

(** Two one-position sequences, [A] and [C], each with the two
    references [G] and [T]. *)
Definition two_X : ten3 :=
  ([ [[Qc_of_Z 1]; [Qc_of_Z 0]; [Qc_of_Z 0]; [Qc_of_Z 0]];
     [[Qc_of_Z 0]; [Qc_of_Z 1]; [Qc_of_Z 0]; [Qc_of_Z 0]] ])%list.

Definition two_references : list ten3 :=
  ([ [ [[Qc_of_Z 0]; [Qc_of_Z 0]; [Qc_of_Z 1]; [Qc_of_Z 0]];
       [[Qc_of_Z 0]; [Qc_of_Z 0]; [Qc_of_Z 0]; [Qc_of_Z 1]] ];
     [ [[Qc_of_Z 0]; [Qc_of_Z 0]; [Qc_of_Z 1]; [Qc_of_Z 0]];
       [[Qc_of_Z 0]; [Qc_of_Z 0]; [Qc_of_Z 0]; [Qc_of_Z 1]] ] ])%list.

(** [deep_lift_shap(model, two_X, references=two_references,
    batch_size=..., additional_nonlinear_ops=ops, hypothetical=True)]. *)
Definition run_two (w : world) (ops : option ops_dict) (batch_size : nat)
  : result (list attribution * option (list ten3) * world * nat) :=
  deep_lift_shap two_X 0 batch_size (RefTensor two_references) 20
    false true (Q2Qc (1 # 10000)) ops false false None w 0.

Definition attributions_of
  (r : result (list attribution * option (list ten3) * world * nat))
  : option (list attribution) :=
  match r with
  | Ok (a, _, _, _) => Some a
  | Raise _ => None
  end.

(** The world and the references of an outcome of [deep_lift_shap]. *)
Definition world_of
  (r : result (list attribution * option (list ten3) * world * nat))
  : option world :=
  match r with
  | Ok (_, _, w, _) => Some w
  | Raise _ => None
  end.

Definition references_of
  (r : result (list attribution * option (list ten3) * world * nat))
  : option (list ten3) :=
  match r with
  | Ok (_, refs, _, _) => refs
  | Raise _ => None
  end.

(** Reference [j] of example [k] of [two_X], the multipliers (projected)
    of that pair when it is alone in its batch, and the entry of example
    [k] finalized from them. *)
Definition two_reference (k j : nat) : mat :=
  nth j (nth k two_references []) [].

Definition two_pair (w : world) (ops : option ops_dict) (k j : nat) : mat :=
  match fst (batch_multipliers 0 (Q2Qc (1 # 10000)) ops false false w
               (nth k two_X [] :: nil) (two_reference k j :: nil)) with
  | Ok (m :: nil) => m
  | _ => []
  end.

Definition two_final (w : world) (ops : option ops_dict) (k : nat)
  : attribution :=
  match finalize_chunk two_X true false
          (map (two_pair w ops k) (seq 0 2)) k with
  | Ok a => a
  | Raise _ => Processed []
  end.

(** [lf] is [lt] with entry [k] multiplied elementwise by [X[k]]: how
    the attributions without [hypothetical] relate to those with it. *)
Definition observed_of (X : ten3) (lf lt : list attribution) : Prop :=
  length lf = length lt /\
  forall k, (k < length lt)%nat ->
    exists m xk,
      nth_error lt k = Some (Processed m) /\
      nth_error X k = Some xk /\
      same_shape2 m xk = true /\
      nth_error lf k = Some (Processed (map2 (map2 Qcmult) m xk)).

(** Every index of [indices] points inside a channel of length [L]. *)
Definition indices_below (L : nat) (indices : list (list (list nat))) : Prop :=
  Forall (Forall (Forall (fun i => (i < L)%nat))) indices.

(** ** [torch.nn.MaxPool1d] and the toy example *)

Definition maxpool_forward (k s : nat) (x : mat) : option mat :=
  r <- mapM (pool_row k s) x ;; Some (map fst r).

Definition maxpool_backward (k s : nat) (x g : mat) : option mat :=
  r <- mapM (pool_row k s) x ;;
  mapM2 (fun gr ir => scatter (zeros (length (hd [] x))) ir gr)
        g (map snd r).

Definition maxpool_module (k s : nat) (inp out : option ten3) : Module :=
  mkModule MaxPool1d (maxpool_forward k s) (maxpool_backward k s) k s
    inp out [] [] [].

(** The toy layer after its forward hooks ran: kernel 2, stride 2, one
    channel; the example is [1, 5, 2, 8] (pooled to [5, 8]) and the
    reference [r0, r1, r2, r3] (pooled to its two maxima). *)
Definition toy_pool (r0 r1 r2 r3 : Qc) : Module :=
  maxpool_module 2 2
    (Some ([ [[Qc_of_Z 1; Qc_of_Z 5; Qc_of_Z 2; Qc_of_Z 8]];
             [[r0; r1; r2; r3]] ])%list)
    (Some ([ [[Qc_of_Z 5; Qc_of_Z 8]];
             [[Qc_max r0 r1; Qc_max r2 r3]] ])%list).

(** [torch.where(|d| < eps, a, v)] at one entry. *)
Definition pass_through (eps d a v : Qc) : Qc :=
  if Qc_ltb (Qcabs d) eps then a else v.

(** [x == 0]. *)
Definition Qc_eq_bool_zero (x : Qc) : bool :=
  if Qc_eq_dec x 0 then true else false.

(** The numbers of an attribution, as plain fractions in lowest terms. *)
Definition readout (a : attribution) : list (list (list Q)) :=
  match a with
  | Processed m => (map (map this) m :: nil)
  | RawOutputs t => map (map (map this)) t
  end.

(** [additional_nonlinear_ops={SquareNorm: _softmax}] and, for
    comparison, [{SquareNorm: _nonlinear}]. *)
Definition softmax_ops : option ops_dict :=
  Some ((SquareNorm, _softmax) :: nil).

Definition nonlinear_ops : option ops_dict :=
  Some ((SquareNorm, _nonlinear) :: nil).

(** A model with a max-pooling layer and a ReLU, two sequences of two
    positions and two references for each. *)
Definition pool_world : world :=
  mkWorld ([ maxpool_module 2 2 None None;
             flatten_module;
             linear_module ([[Qc_of_Z 1; Qc_of_Z (-1); Qc_of_Z 2; Qc_of_Z 0];
                             [Qc_of_Z 0; Qc_of_Z 3; Qc_of_Z (-1); Qc_of_Z 1]])
                           ([Qc_of_Z 1; Qc_of_Z (-1)]);
             relu_module None None;
             linear_module ([[Qc_of_Z 1; Qc_of_Z (-2)]]) ([Qc_of_Z 0]) ])%list
          0 [].

Definition pool_X : ten3 :=
  ([ [[Qc_of_Z 1; Qc_of_Z 0]; [Qc_of_Z 0; Qc_of_Z 1];
      [Qc_of_Z 0; Qc_of_Z 0]; [Qc_of_Z 0; Qc_of_Z 0]];
     [[Qc_of_Z 0; Qc_of_Z 0]; [Qc_of_Z 0; Qc_of_Z 0];
      [Qc_of_Z 1; Qc_of_Z 0]; [Qc_of_Z 0; Qc_of_Z 1]] ])%list.

Definition pool_references : list ten3 :=
  ([ [ [[Qc_of_Z 0; Qc_of_Z 0]; [Qc_of_Z 0; Qc_of_Z 0];
        [Qc_of_Z 1; Qc_of_Z 1]; [Qc_of_Z 0; Qc_of_Z 0]];
       [[Qc_of_Z 0; Qc_of_Z 1]; [Qc_of_Z 0; Qc_of_Z 0];
        [Qc_of_Z 0; Qc_of_Z 0]; [Qc_of_Z 1; Qc_of_Z 0]] ];
     [ [[Qc_of_Z 1; Qc_of_Z 1]; [Qc_of_Z 0; Qc_of_Z 0];
        [Qc_of_Z 0; Qc_of_Z 0]; [Qc_of_Z 0; Qc_of_Z 0]];
       [[Qc_of_Z 0; Qc_of_Z 0]; [Qc_of_Z 1; Qc_of_Z 0];
        [Qc_of_Z 0; Qc_of_Z 1]; [Qc_of_Z 0; Qc_of_Z 0]] ] ])%list.

(** [deep_lift_shap(model, pool_X, references=pool_references,
    batch_size=..., hypothetical=True)]. *)
Definition run_pool (batch_size : nat)
  : result (list attribution * option (list ten3) * world * nat) :=
  deep_lift_shap pool_X 0 batch_size (RefTensor pool_references) 20
    false true (Q2Qc (1 # 10000)) None false false None pool_world 0.

(** * Properties *)

(** ** Shapes and indexing *)

Lemma nth_map2 {A B C} (f : A -> B -> C) (da : A) (db : B) (dc : C) :
  forall (l1 : list A) (l2 : list B) (i : nat),
    (i < length l1)%nat -> (i < length l2)%nat ->
    nth i (map2 f l1 l2) dc = f (nth i l1 da) (nth i l2 db).
Proof.
  induction l1 as [|a l1 IH]; intros [|b l2] i H1 H2; simpl in *; try lia.
  destruct i as [|i]; [reflexivity|]. apply IH; lia.
Qed.

Lemma length_map2 {A B C} (f : A -> B -> C) :
  forall (l1 : list A) (l2 : list B),
    length l1 = length l2 -> length (map2 f l1 l2) = length l1.
Proof.
  induction l1 as [|a l1 IH]; intros [|b l2] H; simpl in *; try lia.
  rewrite IH; lia.
Qed.

Lemma forallb2_Forall2 {A B} (p : A -> B -> bool) (P : A -> B -> Prop) :
  (forall a b, P a b -> p a b = true) ->
  forall l1 l2, Forall2 P l1 l2 -> forallb2 p l1 l2 = true.
Proof.
  intros Hp l1 l2 H. induction H; simpl; [reflexivity|].
  rewrite Hp by assumption. assumption.
Qed.

Lemma Forall_Forall2 {A B} (P : A -> Prop) (Q : B -> Prop) :
  forall (l1 : list A) (l2 : list B),
    length l1 = length l2 -> Forall P l1 -> Forall Q l2 ->
    Forall2 (fun a b => P a /\ Q b) l1 l2.
Proof.
  induction l1 as [|a l1 IH]; intros [|b l2] Hl H1 H2; simpl in *;
    try discriminate; constructor.
  - inversion H1; inversion H2; auto.
  - inversion H1; inversion H2; subst. apply IH; auto.
Qed.

Lemma same_shape2_has_shape {A B} (a : list (list A)) (b : list (list B)) c l :
  has_shape2 a c l -> has_shape2 b c l -> same_shape2 a b = true.
Proof.
  intros [La Fa] [Lb Fb]. unfold same_shape2.
  apply forallb2_Forall2 with
    (P := fun x y => length x = l /\ length y = l).
  - intros x y [Hx Hy]. unfold same_shape1. apply Nat.eqb_eq. congruence.
  - apply Forall_Forall2; [congruence | assumption | assumption].
Qed.

Lemma same_shape3_has_shape {A B} (a : list (list (list A)))
  (b : list (list (list B))) n c l :
  has_shape3 a n c l -> has_shape3 b n c l -> same_shape3 a b = true.
Proof.
  intros [La Fa] [Lb Fb]. unfold same_shape3.
  apply forallb2_Forall2 with
    (P := fun x y => has_shape2 x c l /\ has_shape2 y c l).
  - intros x y [Hx Hy]. eapply same_shape2_has_shape; eassumption.
  - apply Forall_Forall2; [congruence | assumption | assumption].
Qed.

Lemma Forall_map2 {A B C} (f : A -> B -> C) (P : A -> Prop) (Q : B -> Prop)
  (R : C -> Prop) :
  (forall a b, P a -> Q b -> R (f a b)) ->
  forall l1 l2, Forall P l1 -> Forall Q l2 -> Forall R (map2 f l1 l2).
Proof.
  intros Hf. induction l1 as [|a l1 IH]; intros [|b l2] H1 H2; simpl;
    constructor; inversion H1; inversion H2; subst; auto.
Qed.

Lemma has_shape2_map2 {A B C} (f : A -> B -> C) a b c l :
  has_shape2 a c l -> has_shape2 b c l -> has_shape2 (map2 (map2 f) a b) c l.
Proof.
  intros [La Fa] [Lb Fb]. split.
  - rewrite length_map2; congruence.
  - eapply Forall_map2; [|exact Fa|exact Fb].
    intros x y Hx Hy. simpl in *. rewrite length_map2; congruence.
Qed.

Lemma has_shape3_map2 {A B C} (f : A -> B -> C) a b n c l :
  has_shape3 a n c l -> has_shape3 b n c l ->
  has_shape3 (map2 (map2 (map2 f)) a b) n c l.
Proof.
  intros [La Fa] [Lb Fb]. split.
  - rewrite length_map2; congruence.
  - eapply Forall_map2; [|exact Fa|exact Fb].
    intros x y Hx Hy. apply has_shape2_map2; assumption.
Qed.

Lemma zip3_has_shape {A B C} (f : A -> B -> C) a b n c l :
  has_shape3 a n c l -> has_shape3 b n c l ->
  zip3 f a b = Some (map2 (map2 (map2 f)) a b).
Proof.
  intros Ha Hb. unfold zip3.
  rewrite (same_shape3_has_shape a b n c l Ha Hb). reflexivity.
Qed.

Lemma div2_S_double (n : nat) : Nat.div2 (S (2 * n)) = n.
Proof.
  induction n as [|n IH]; [reflexivity|].
  replace (S (2 * S n)) with (S (S (S (2 * n)))) by lia.
  simpl Nat.div2 at 1. f_equal. exact IH.
Qed.

Lemma chunk2_even {A} (t : list A) (n : nat) :
  length t = (2 * n)%nat -> chunk2 t = Some (firstn n t, skipn n t).
Proof.
  intros H. unfold chunk2. rewrite H.
  destruct n as [|n]; [reflexivity|].
  replace (2 * S n)%nat with (S (S (2 * n))) by lia.
  replace (S (S (S (2 * n)))) with (S (2 * S n)) by lia.
  rewrite div2_S_double. reflexivity.
Qed.

Lemma has_shape3_firstn {A} (t : list (list (list A))) k n c l :
  has_shape3 t n c l -> (k <= n)%nat -> has_shape3 (firstn k t) k c l.
Proof.
  intros [Lt Ft] Hk. split.
  - rewrite length_firstn. lia.
  - rewrite <- (firstn_skipn k t) in Ft. apply Forall_app in Ft. apply Ft.
Qed.

Lemma has_shape3_skipn {A} (t : list (list (list A))) k n c l :
  has_shape3 t n c l -> has_shape3 (skipn k t) (n - k) c l.
Proof.
  intros [Lt Ft]. split.
  - rewrite length_skipn. lia.
  - rewrite <- (firstn_skipn k t) in Ft. apply Forall_app in Ft. apply Ft.
Qed.

Lemma has_shape3_app {A} (a b : list (list (list A))) n m c l :
  has_shape3 a n c l -> has_shape3 b m c l -> has_shape3 (a ++ b) (n + m) c l.
Proof.
  intros [La Fa] [Lb Fb]. split.
  - rewrite length_app. lia.
  - apply Forall_app. split; assumption.
Qed.

Lemma has_shape3_map {A B} (f : A -> B) (t : list (list (list A))) n c l :
  has_shape3 t n c l -> has_shape3 (map (map (map f)) t) n c l.
Proof.
  intros [Lt Ft]. split.
  - rewrite length_map. exact Lt.
  - apply Forall_map. eapply Forall_impl; [|exact Ft].
    intros m [Lm Fm]. split.
    + rewrite length_map. exact Lm.
    + apply Forall_map. eapply Forall_impl; [|exact Fm].
      intros r Hr. simpl. rewrite length_map. exact Hr.
Qed.

Lemma has_shape3_nth {A} (t : list (list (list A))) n c l i :
  has_shape3 t n c l -> (i < n)%nat -> has_shape2 (nth i t []) c l.
Proof.
  intros [Lt Ft] Hi. rewrite Forall_forall in Ft. apply Ft.
  apply nth_In. lia.
Qed.

Lemma has_shape2_nth {A} (t : list (list A)) c l i :
  has_shape2 t c l -> (i < c)%nat -> length (nth i t []) = l.
Proof.
  intros [Lt Ft] Hi. rewrite Forall_forall in Ft. apply Ft.
  apply nth_In. lia.
Qed.

(** Entry [(i, c, j)] of an elementwise operation. *)
Lemma nth3_map2 {A B C} (f : A -> B -> C) (da : A) (db : B) (dc : C)
  (a : list (list (list A))) (b : list (list (list B))) n c l i k j :
  has_shape3 a n c l -> has_shape3 b n c l ->
  (i < n)%nat -> (k < c)%nat -> (j < l)%nat ->
  nth j (nth k (nth i (map2 (map2 (map2 f)) a b) []) []) dc =
  f (nth j (nth k (nth i a []) []) da) (nth j (nth k (nth i b []) []) db).
Proof.
  intros Ha Hb Hi Hk Hj.
  pose proof (has_shape3_nth a n c l i Ha Hi) as Ha2.
  pose proof (has_shape3_nth b n c l i Hb Hi) as Hb2.
  pose proof (has_shape2_nth _ c l k Ha2 Hk) as Ha1.
  pose proof (has_shape2_nth _ c l k Hb2 Hk) as Hb1.
  destruct Ha as [La _], Hb as [Lb _], Ha2 as [La2 _], Hb2 as [Lb2 _].
  rewrite (nth_map2 _ [] [] []) by lia.
  rewrite (nth_map2 _ [] [] []) by lia.
  rewrite (nth_map2 _ da db dc) by lia.
  reflexivity.
Qed.

Lemma nth3_map {A B} (f : A -> B) (da : A) (db : B)
  (a : list (list (list A))) n c l i k j :
  has_shape3 a n c l -> (i < n)%nat -> (k < c)%nat -> (j < l)%nat ->
  nth j (nth k (nth i (map (map (map f)) a) []) []) db =
  f (nth j (nth k (nth i a []) []) da).
Proof.
  intros Ha Hi Hk Hj.
  pose proof (has_shape3_nth a n c l i Ha Hi) as Ha2.
  pose proof (has_shape2_nth _ c l k Ha2 Hk) as Ha1.
  destruct Ha as [La _], Ha2 as [La2 _].
  change (@nil (list B)) with (map (map f) []).
  rewrite map_nth.
  change (@nil B) with (map f []).
  rewrite map_nth.
  rewrite (nth_indep _ db (f da)) by (rewrite length_map; lia).
  apply map_nth.
Qed.

(** The two halves of a batch, and a half repeated along the batch axis. *)
Lemma nth_app_self {A} (l : list A) (d : A) n i :
  length l = n -> (i < 2 * n)%nat -> nth i (l ++ l) d = nth (i mod n) l d.
Proof.
  intros Hl Hi. destruct (Nat.lt_ge_cases i n) as [Hlt|Hge].
  - rewrite app_nth1 by lia. rewrite Nat.mod_small by lia. reflexivity.
  - rewrite app_nth2 by lia. f_equal. subst n.
    replace i with ((i - length l) + 1 * length l)%nat at 2 by lia.
    rewrite Nat.Div0.mod_add. rewrite Nat.mod_small by lia. reflexivity.
Qed.

Lemma nth_firstn_lt {A} (l : list A) (d : A) n i :
  (i < n)%nat -> nth i (firstn n l) d = nth i l d.
Proof.
  revert n i. induction l as [|x l IH]; intros [|n] [|i] H; simpl; try lia;
    try reflexivity.
  apply IH. lia.
Qed.

Lemma nth_skipn_add {A} (l : list A) (d : A) n i :
  nth i (skipn n l) d = nth (n + i) l d.
Proof.
  revert n. induction l as [|x l IH]; intros [|n]; simpl; try reflexivity.
  - destruct i; reflexivity.
  - apply IH.
Qed.

Lemma where3_has_shape (m : list (list (list bool))) (a b : ten3) n c l :
  has_shape3 m n c l -> has_shape3 a n c l -> has_shape3 b n c l ->
  exists r, where3 m a b = Some r /\ has_shape3 r n c l /\
    forall i k j, (i < n)%nat -> (k < c)%nat -> (j < l)%nat ->
      get3 r i k j =
      if nth j (nth k (nth i m []) []) false then get3 a i k j
      else get3 b i k j.
Proof.
  intros Hm Ha Hb. unfold where3.
  rewrite (same_shape3_has_shape m a n c l Hm Ha).
  rewrite (same_shape3_has_shape a b n c l Ha Hb). simpl.
  eexists. split; [reflexivity|].
  assert (Hp : has_shape3 (map2 (map2 (map2 (@pair Qc Qc))) a b) n c l)
    by (apply has_shape3_map2; assumption).
  split; [apply has_shape3_map2; assumption|].
  intros i k j Hi Hk Hj. unfold get3.
  rewrite (nth3_map2 _ false (0, 0) 0 _ _ n c l) by assumption.
  rewrite (nth3_map2 _ 0 0 (0, 0) _ _ n c l) by assumption.
  reflexivity.
Qed.

Lemma half_diff_shape (t : ten3) B c l :
  has_shape3 t (2 * B) c l ->
  has_shape3 (map2 (map2 (map2 Qcminus)) (firstn B t) (skipn B t)) B c l.
Proof.
  intros Ht. apply has_shape3_map2.
  - apply (has_shape3_firstn t B (2 * B)); [assumption | lia].
  - replace B with (2 * B - B)%nat at 2 by lia.
    apply has_shape3_skipn. assumption.
Qed.

Lemma half_diff_entry (t : ten3) B c l i k j :
  has_shape3 t (2 * B) c l -> (i < 2 * B)%nat -> (k < c)%nat -> (j < l)%nat ->
  let d := map2 (map2 (map2 Qcminus)) (firstn B t) (skipn B t) in
  get3 (d ++ d) i k j =
  get3 t (i mod B) k j - get3 t (B + i mod B) k j.
Proof.
  intros Ht Hi Hk Hj d. unfold get3.
  assert (HB : (0 < B)%nat) by lia.
  assert (Hm : (i mod B < B)%nat) by (apply Nat.mod_upper_bound; lia).
  pose proof (half_diff_shape t B c l Ht) as Hd. fold d in Hd.
  rewrite (nth_app_self d [] B i) by (apply Hd || assumption).
  unfold d.
  rewrite (nth3_map2 _ 0 0 0 _ _ B c l); try assumption.
  - rewrite nth_firstn_lt by assumption. rewrite nth_skipn_add. reflexivity.
  - apply (has_shape3_firstn t B (2 * B)); [assumption | lia].
  - replace B with (2 * B - B)%nat at 2 by lia.
    apply has_shape3_skipn. assumption.
Qed.

Lemma has_shape3_abs_lt (t : ten3) eps n c l :
  has_shape3 t n c l -> has_shape3 (abs_lt t eps) n c l.
Proof. apply has_shape3_map. Qed.

(** ** The generic rule [_nonlinear] *)

Section Rescale.

Variables (module : Module) (inp out grad_input grad_output : ten3).
Variables (eps : Qc) (B c l : nat).
Hypothesis Hinput : input module = Some inp.
Hypothesis Houtput : output module = Some out.
Hypothesis Sinp : has_shape3 inp (2 * B) c l.
Hypothesis Sout : has_shape3 out (2 * B) c l.
Hypothesis Sgi : has_shape3 grad_input (2 * B) c l.
Hypothesis Sgo : has_shape3 grad_output (2 * B) c l.

Let din_ := map2 (map2 (map2 Qcminus)) (firstn B inp) (skipn B inp).
Let dout_ := map2 (map2 (map2 Qcminus)) (firstn B out) (skipn B out).
Let delta := map2 (map2 (map2 Qcdiv)) (dout_ ++ dout_) (din_ ++ din_).
Let scaled := map2 (map2 (map2 Qcmult)) grad_output delta.

Local Lemma din_shape : has_shape3 (din_ ++ din_) (2 * B) c l.
Proof.
  replace (2 * B)%nat with (B + B)%nat by lia.
  apply has_shape3_app; apply half_diff_shape; assumption.
Qed.

Local Lemma dout_shape : has_shape3 (dout_ ++ dout_) (2 * B) c l.
Proof.
  replace (2 * B)%nat with (B + B)%nat by lia.
  apply has_shape3_app; apply half_diff_shape; assumption.
Qed.

Local Lemma delta_shape : has_shape3 delta (2 * B) c l.
Proof. apply has_shape3_map2; [apply dout_shape | apply din_shape]. Qed.

Local Lemma scaled_shape : has_shape3 scaled (2 * B) c l.
Proof. apply has_shape3_map2; [assumption | apply delta_shape]. Qed.

(** The rule does not raise on a well-shaped batch, and reduces to one
    [torch.where]. *)
Lemma nonlinear_unfold :
  _nonlinear module grad_input grad_output eps =
  where3 (abs_lt (din_ ++ din_) eps) grad_input scaled.
Proof.
  unfold _nonlinear. rewrite Hinput, Houtput. simpl obind.
  rewrite (chunk2_even inp B) by apply Sinp. simpl obind.
  rewrite (zip3_has_shape _ _ _ B c l);
    [| apply (has_shape3_firstn inp B (2 * B)); [assumption | lia]
     | replace B with (2 * B - B)%nat at 2 by lia;
       apply has_shape3_skipn; assumption ].
  simpl obind.
  rewrite (chunk2_even out B) by apply Sout. simpl obind.
  rewrite (zip3_has_shape _ _ _ B c l);
    [| apply (has_shape3_firstn out B (2 * B)); [assumption | lia]
     | replace B with (2 * B - B)%nat at 2 by lia;
       apply has_shape3_skipn; assumption ].
  simpl obind. fold din_ dout_.
  rewrite (zip3_has_shape _ _ _ (2 * B) c l dout_shape din_shape).
  simpl obind. fold delta.
  rewrite (zip3_has_shape _ _ _ (2 * B) c l Sgo delta_shape).
  reflexivity.
Qed.

Lemma nonlinear_entries :
  exists r,
    _nonlinear module grad_input grad_output eps = Some r /\
    has_shape3 r (2 * B) c l /\
    forall i k j, (i < 2 * B)%nat -> (k < c)%nat -> (j < l)%nat ->
      get3 r i k j =
      rescaled_entry inp out grad_input grad_output eps B i k j.
Proof.
  rewrite nonlinear_unfold.
  destruct (where3_has_shape (abs_lt (din_ ++ din_) eps) grad_input scaled
              (2 * B) c l) as (r & Hr & Sr & Er).
  - apply has_shape3_abs_lt, din_shape.
  - assumption.
  - apply scaled_shape.
  - exists r. split; [exact Hr|]. split; [exact Sr|].
    intros i k j Hi Hk Hj. rewrite (Er i k j Hi Hk Hj).
    unfold rescaled_entry, abs_lt.
    rewrite (nth3_map _ 0 false _ (2 * B) c l) by
      (assumption || apply din_shape).
    pose proof (half_diff_entry inp B c l i k j Sinp Hi Hk Hj) as Ein.
    pose proof (half_diff_entry out B c l i k j Sout Hi Hk Hj) as Eout.
    simpl in Ein, Eout. fold din_ in Ein. fold dout_ in Eout.
    unfold get3 in Ein. rewrite Ein. fold (get3 inp (i mod B) k j).
    fold (get3 inp (B + i mod B) k j).
    destruct (Qc_ltb _ eps); [reflexivity|].
    unfold scaled, delta, get3 at 1.
    rewrite (nth3_map2 _ 0 0 0 _ _ (2 * B) c l);
      try assumption; [| apply delta_shape].
    rewrite (nth3_map2 _ 0 0 0 _ _ (2 * B) c l);
      try assumption; [| apply dout_shape | apply din_shape].
    unfold get3 in Eout. rewrite Ein, Eout. reflexivity.
Qed.

End Rescale.

Ltac shape_tac :=
  repeat match goal with
         | |- has_shape3 _ _ _ _ => split
         | |- has_shape2 _ _ _ => split
         | |- Forall _ _ => constructor
         | |- _ => reflexivity
         end.

(** C3.  On a well-shaped batch of [B] pairs (all four tensors of shape
    [(2 * B, c, l)], examples in the first half and references in the
    second), [_nonlinear] returns a tensor of that same shape.  Its entry
    [(i, k, j)] is the incoming [grad_input] where
    [|input_example - input_reference| < eps] and otherwise the incoming
    [grad_output] times [(output_example - output_reference) /
    (input_example - input_reference)]; the differences are those of pair
    [i mod B], so both halves of the batch see the same ones. *)
Theorem nonlinear_rescale_rule :
  forall (module : Module) (inp out grad_input grad_output : ten3)
         (eps : Qc) (B c l : nat),
    input module = Some inp ->
    output module = Some out ->
    has_shape3 inp (2 * B) c l ->
    has_shape3 out (2 * B) c l ->
    has_shape3 grad_input (2 * B) c l ->
    has_shape3 grad_output (2 * B) c l ->
    exists r,
      _nonlinear module grad_input grad_output eps = Some r /\
      has_shape3 r (2 * B) c l /\
      forall i k j, (i < 2 * B)%nat -> (k < c)%nat -> (j < l)%nat ->
        let b := (i mod B)%nat in
        let din := get3 inp b k j - get3 inp (B + b) k j in
        let dout := get3 out b k j - get3 out (B + b) k j in
        get3 r i k j =
        if Qc_ltb (Qcabs din) eps then get3 grad_input i k j
        else get3 grad_output i k j * (dout / din).
Proof.
  intros module inp out gi go eps B c l Hi Ho Si So Sgi Sgo.
  exact (nonlinear_entries module inp out gi go eps B c l Hi Ho Si So Sgi Sgo).
Qed.

Lemma nonlinear_rescale_rule_witness :
  exists r,
    _nonlinear relu_cached
      ([[[Qc_of_Z 5; Qc_of_Z 7]]; [[Qc_of_Z 11; Qc_of_Z 13]]])%list
      ([[[Qc_of_Z 2; Qc_of_Z 4]]; [[Qc_of_Z 6; Qc_of_Z 8]]])%list
      (Q2Qc (1 # 100)) = Some r /\
    has_shape3 r (2 * 1) 1 2 /\
    forall i k j, (i < 2 * 1)%nat -> (k < 1)%nat -> (j < 2)%nat ->
      let b := (i mod 1)%nat in
      let din :=
        get3 ([[[Qc_of_Z 1; Qc_of_Z (-2)]]; [[Qc_of_Z 1; Qc_of_Z 3]]])%list
             b k j -
        get3 ([[[Qc_of_Z 1; Qc_of_Z (-2)]]; [[Qc_of_Z 1; Qc_of_Z 3]]])%list
             (1 + b) k j in
      let dout :=
        get3 ([[[Qc_of_Z 1; Qc_of_Z 0]]; [[Qc_of_Z 1; Qc_of_Z 3]]])%list
             b k j -
        get3 ([[[Qc_of_Z 1; Qc_of_Z 0]]; [[Qc_of_Z 1; Qc_of_Z 3]]])%list
             (1 + b) k j in
      get3 r i k j =
      if Qc_ltb (Qcabs din) (Q2Qc (1 # 100))
      then get3 ([[[Qc_of_Z 5; Qc_of_Z 7]]; [[Qc_of_Z 11; Qc_of_Z 13]]])%list
                i k j
      else get3 ([[[Qc_of_Z 2; Qc_of_Z 4]]; [[Qc_of_Z 6; Qc_of_Z 8]]])%list
                i k j * (dout / din).
Proof.
  apply (nonlinear_rescale_rule relu_cached
           ([[[Qc_of_Z 1; Qc_of_Z (-2)]]; [[Qc_of_Z 1; Qc_of_Z 3]]])%list
           ([[[Qc_of_Z 1; Qc_of_Z 0]]; [[Qc_of_Z 1; Qc_of_Z 3]]])%list);
    shape_tac.
Defined.

(** ** The softmax rule [_softmax] *)

Lemma Qc_of_nat_S (n : nat) : Qc_of_nat (S n) = 1 + Qc_of_nat n.
Proof.
  unfold Qc_of_nat, Qcplus. apply Q2Qc_eq_iff.
  rewrite Nat2Z.inj_succ, <- Z.add_1_l, inject_Z_plus.
  unfold Q2Qc, this. rewrite !Qred_correct. reflexivity.
Qed.

Lemma Qc_of_nat_add (a b : nat) :
  Qc_of_nat (a + b) = Qc_of_nat a + Qc_of_nat b.
Proof.
  induction a as [|a IH].
  - simpl. change (Qc_of_nat 0) with (Q2Qc 0). ring.
  - simpl Nat.add. rewrite !Qc_of_nat_S, IH. ring.
Qed.

Lemma Qc_of_nat_neq0 (n : nat) : n <> 0%nat -> Qc_of_nat n <> 0.
Proof.
  intros Hn H. unfold Qc_of_nat in H. apply Q2Qc_eq_iff in H.
  unfold Qeq in H. simpl in H. lia.
Qed.

Lemma vsum_shift (v : vec) (k : Qc) :
  vsum (map (fun g => g - k) v) = vsum v - Qc_of_nat (length v) * k.
Proof.
  induction v as [|x v IH]; simpl.
  - change (Qc_of_nat 0) with (Q2Qc 0). ring.
  - fold (vsum (map (fun g => g - k) v)). fold (vsum v).
    rewrite IH, Qc_of_nat_S. ring.
Qed.

Lemma msum_shift (t : mat) (k : Qc) :
  msum (map (map (fun g => g - k)) t) = msum t - Qc_of_nat (numel2 t) * k.
Proof.
  unfold msum, numel2. induction t as [|r t IH]; simpl.
  - change (Qc_of_nat 0) with (Q2Qc 0). ring.
  - fold (vsum (map vsum (map (map (fun g => g - k)) t))).
    fold (vsum (map vsum t)).
    rewrite IH, vsum_shift, Qc_of_nat_add. ring.
Qed.

Lemma tsum_shift (t : ten3) (k : Qc) :
  tsum (map (map (map (fun g => g - k))) t) = tsum t - Qc_of_nat (numel t) * k.
Proof.
  unfold tsum, numel. induction t as [|r t IH]; simpl.
  - change (Qc_of_nat 0) with (Q2Qc 0). ring.
  - fold (vsum (map msum (map (map (map (fun g => g - k))) t))).
    fold (vsum (map msum t)).
    rewrite IH, msum_shift, Qc_of_nat_add. ring.
Qed.

Lemma numel2_has_shape {A} (t : list (list A)) c l :
  has_shape2 t c l -> numel2 t = (c * l)%nat.
Proof.
  intros [Lt Ft]. subst c. unfold numel2.
  induction Ft as [|r t Hr Ft IH]; simpl; [reflexivity|].
  rewrite IH, Hr. reflexivity.
Qed.

Lemma numel_has_shape {A} (t : list (list (list A))) n c l :
  has_shape3 t n c l -> numel t = (n * (c * l))%nat.
Proof.
  intros [Lt Ft]. subst n. unfold numel.
  induction Ft as [|r t Hr Ft IH]; simpl; [reflexivity|].
  rewrite IH, (numel2_has_shape r c l Hr). reflexivity.
Qed.

Lemma tsum_numel0 (t : ten3) : numel t = 0%nat -> tsum t = 0.
Proof.
  unfold tsum, numel. induction t as [|m t IH]; simpl; intros H;
    [reflexivity|].
  fold (vsum (map msum t)). rewrite IH by lia.
  assert (Hm : numel2 m = 0%nat) by lia. clear H IH.
  assert (msum m = 0) as ->; [|ring].
  unfold msum, numel2 in *. induction m as [|r m IHm]; simpl in *;
    [reflexivity|].
  fold (vsum (map vsum m)). rewrite IHm by lia.
  destruct r; simpl in *; [ring | lia].
Qed.

(** Subtracting the mean leaves a tensor that sums to zero. *)
Lemma recenter_sum0 (t : ten3) (n : nat) :
  numel t = n ->
  tsum (map (map (map (fun g => g - tsum t * 1 / Qc_of_nat n))) t) = 0.
Proof.
  intros Hn. rewrite tsum_shift, Hn.
  destruct (Nat.eq_dec n 0) as [H0|H0].
  - subst n. rewrite (tsum_numel0 t H0), H0.
    change (Qc_of_nat 0) with (Q2Qc 0). ring.
  - field. apply Qc_of_nat_neq0. exact H0.
Qed.

(** [_softmax] runs the statements of [_nonlinear] and then re-centres. *)
Lemma softmax_as_nonlinear (module : Module) (grad_input grad_output : ten3)
  (eps : Qc) :
  _softmax module grad_input grad_output eps =
  (g <- _nonlinear module grad_input grad_output eps ;;
   Some (map (map (map (fun x =>
           x - tsum g * 1 / Qc_of_nat (numel grad_input)))) g)).
Proof.
  unfold _softmax, _nonlinear.
  destruct (input module) as [inp|]; [simpl|reflexivity].
  destruct (chunk2 inp) as [[ix ir]|]; [simpl|reflexivity].
  destruct (zip3 Qcminus ix ir) as [din|]; [simpl|reflexivity].
  destruct (output module) as [out|]; [simpl|reflexivity].
  destruct (chunk2 out) as [[ox or]|]; [simpl|reflexivity].
  destruct (zip3 Qcminus ox or) as [dout|]; [simpl|reflexivity].
  destruct (zip3 Qcdiv _ _) as [delta|]; [simpl|reflexivity].
  destruct (zip3 Qcmult _ _) as [scaled|]; [simpl|reflexivity].
  reflexivity.
Qed.

(** C5.  On a well-shaped batch, [_softmax] computes exactly the tensor
    [g] that [_nonlinear] returns for the same arguments (the identical
    din/dout correction), then subtracts from every entry the mean of [g]
    over all its elements (its sum divided by its element count); the
    returned tensor has the shape of the arguments and sums to zero. *)
Theorem softmax_recentred_rule :
  forall (module : Module) (inp out grad_input grad_output : ten3)
         (eps : Qc) (B c l : nat),
    input module = Some inp ->
    output module = Some out ->
    has_shape3 inp (2 * B) c l ->
    has_shape3 out (2 * B) c l ->
    has_shape3 grad_input (2 * B) c l ->
    has_shape3 grad_output (2 * B) c l ->
    exists g r,
      _nonlinear module grad_input grad_output eps = Some g /\
      _softmax module grad_input grad_output eps = Some r /\
      r = map (map (map (fun x => x - tsum g / Qc_of_nat (numel g)))) g /\
      has_shape3 r (2 * B) c l /\
      tsum r = 0.
Proof.
  intros module inp out gi go eps B c l Hi Ho Si So Sgi Sgo.
  destruct (nonlinear_entries module inp out gi go eps B c l
              Hi Ho Si So Sgi Sgo) as (g & Hg & Sg & _).
  assert (Hn : numel g = numel gi).
  { rewrite (numel_has_shape g _ _ _ Sg), (numel_has_shape gi _ _ _ Sgi).
    reflexivity. }
  exists g. eexists. split; [exact Hg|].
  rewrite softmax_as_nonlinear, Hg. simpl obind.
  split; [reflexivity|]. rewrite <- Hn.
  split; [|split].
  - apply map_ext. intros m. apply map_ext. intros v.
    apply map_ext. intros x. unfold Qcdiv. ring.
  - apply has_shape3_map. exact Sg.
  - apply recenter_sum0. reflexivity.
Qed.

Lemma softmax_recentred_rule_witness :
  exists g r,
    _nonlinear relu_cached
      ([[[Qc_of_Z 5; Qc_of_Z 7]]; [[Qc_of_Z 11; Qc_of_Z 13]]])%list
      ([[[Qc_of_Z 2; Qc_of_Z 4]]; [[Qc_of_Z 6; Qc_of_Z 8]]])%list
      (Q2Qc (1 # 100)) = Some g /\
    _softmax relu_cached
      ([[[Qc_of_Z 5; Qc_of_Z 7]]; [[Qc_of_Z 11; Qc_of_Z 13]]])%list
      ([[[Qc_of_Z 2; Qc_of_Z 4]]; [[Qc_of_Z 6; Qc_of_Z 8]]])%list
      (Q2Qc (1 # 100)) = Some r /\
    r = map (map (map (fun x => x - tsum g / Qc_of_nat (numel g)))) g /\
    has_shape3 r (2 * 1) 1 2 /\
    tsum r = 0.
Proof.
  apply (softmax_recentred_rule relu_cached
           ([[[Qc_of_Z 1; Qc_of_Z (-2)]]; [[Qc_of_Z 1; Qc_of_Z 3]]])%list
           ([[[Qc_of_Z 1; Qc_of_Z 0]]; [[Qc_of_Z 1; Qc_of_Z 3]]])%list);
    shape_tac.
Defined.

(** ** The projector [hypothetical_attributions] *)

Lemma length_set_nth {A} (i : nat) (v : A) (l : list A) :
  length (set_nth i v l) = length l.
Proof.
  revert i. induction l as [|x l IH]; intros [|i]; simpl; auto.
Qed.

Lemma nth_set_nth {A} (i s : nat) (v d : A) (l : list A) :
  (i < length l)%nat ->
  nth s (set_nth i v l) d = if (s =? i)%nat then v else nth s l d.
Proof.
  revert i s. induction l as [|x l IH]; intros [|i] [|s] H; simpl in *;
    try lia; try reflexivity.
  apply IH. lia.
Qed.

Lemma shape3_has_shape {A} (t : list (list (list A))) n c l :
  has_shape3 t n c l -> (0 < n)%nat -> (0 < c)%nat -> shape3 t = (n, c, l).
Proof.
  intros [Lt Ft] Hn Hc. unfold shape3.
  destruct t as [|m t]; simpl in *; [lia|].
  inversion Ft as [|? ? [Lm Fm] _]; subst.
  destruct m as [|r m]; simpl in *; [lia|].
  inversion Fm; subst. reflexivity.
Qed.

(** All tensors of one shape have the same [.shape] tuple. *)
Lemma shape3_same {A B} (a : list (list (list A))) (b : list (list (list B)))
  n c l :
  has_shape3 a n c l -> has_shape3 b n c l -> shape3 a = shape3 b.
Proof.
  intros [La Fa] [Lb Fb]. unfold shape3.
  destruct a as [|ma a], b as [|mb b]; simpl in *; try congruence.
  inversion Fa as [|? ? [Lma Fma] _]; inversion Fb as [|? ? [Lmb Fmb] _].
  subst. destruct ma as [|ra ma], mb as [|rb mb]; simpl in *;
    try congruence.
  inversion Fma; inversion Fmb; subst. congruence.
Qed.

Lemma vsum_app (u v : vec) : vsum (u ++ v) = vsum u + vsum v.
Proof.
  induction u as [|x u IH]; simpl.
  - ring.
  - fold (vsum (u ++ v)). fold (vsum u). rewrite IH. ring.
Qed.

Lemma map_nth_seq0 {A} (d : A) (l : list A) :
  map (fun a => nth a l d) (seq 0 (length l)) = l.
Proof.
  induction l as [|x l IH]; simpl; [reflexivity|]. f_equal.
  rewrite <- seq_shift, map_map. exact IH.
Qed.

Lemma vsum_map_nth {A} (f : A -> Qc) (d : A) (l : list A) :
  vsum (map f l) = sum_upto (length l) (fun a => f (nth a l d)).
Proof.
  unfold sum_upto. f_equal.
  rewrite <- (map_map (fun a => nth a l d) f). f_equal.
  symmetry. apply map_nth_seq0.
Qed.

(** Column sums: entry [p] of the sum of the rows of [m]. *)
Lemma col_sum_length (m : mat) c l :
  has_shape2 m c l -> length (fold_right (map2 Qcplus) (zeros l) m) = l.
Proof.
  intros [_ Fm]. induction Fm as [|r m Hr Fm IH]; simpl.
  - apply repeat_length.
  - rewrite length_map2; congruence.
Qed.

Lemma col_sum_entry (m : mat) c l p :
  has_shape2 m c l -> (p < l)%nat ->
  nth p (fold_right (map2 Qcplus) (zeros l) m) 0 =
  sum_upto c (fun a => get2 m a p).
Proof.
  intros Hm Hp. destruct Hm as [Lm Fm]. subst c.
  unfold get2. rewrite <- (vsum_map_nth (fun r => nth p r 0) [] m).
  induction Fm as [|r m Hr Fm IH]; simpl.
  - unfold zeros. apply nth_repeat.
  - fold (vsum (map (fun r0 : vec => nth p r0 0) m)).
    rewrite (nth_map2 _ 0 0 0).
    + rewrite IH. reflexivity.
    + lia.
    + rewrite (col_sum_length m (length m) l); [lia | split; auto].
Qed.

Lemma sum_dim1_shape (t : ten3) n c l :
  has_shape3 t n c l -> (0 < c)%nat ->
  length (sum_dim1 t) = n /\ Forall (fun r => length r = l) (sum_dim1 t).
Proof.
  intros Ht Hc. unfold sum_dim1. split.
  - rewrite length_map. apply Ht.
  - destruct (Nat.eq_dec n 0) as [Hn|Hn].
    + destruct Ht as [Lt _]. destruct t; simpl in *; [constructor | lia].
    + rewrite (shape3_has_shape t n c l Ht) by lia. simpl.
      apply Forall_map. destruct Ht as [_ Ft].
      eapply Forall_impl; [|exact Ft]. intros m Hm. simpl.
      eapply col_sum_length. exact Hm.
Qed.

Lemma sum_dim1_entry (t : ten3) n c l b p :
  has_shape3 t n c l -> (0 < c)%nat -> (b < n)%nat -> (p < l)%nat ->
  get2 (sum_dim1 t) b p = sum_upto c (fun a => get3 t b a p).
Proof.
  intros Ht Hc Hb Hp. unfold get2, sum_dim1.
  rewrite (shape3_has_shape t n c l Ht) by lia. simpl snd.
  rewrite (nth_indep _ _ (fold_right (map2 Qcplus) (zeros l) []))
    by (rewrite length_map; destruct Ht; lia).
  rewrite (map_nth (fun m : mat => fold_right (map2 Qcplus) (zeros l) m)).
  apply col_sum_entry; [|assumption].
  eapply has_shape3_nth; eassumption.
Qed.

Lemma has_shape2_set_nth {A} (m : list (list A)) (r : list A) i c l :
  has_shape2 m c l -> length r = l -> has_shape2 (set_nth i r m) c l.
Proof.
  intros [Lm Fm] Hr. split.
  - rewrite length_set_nth. exact Lm.
  - clear Lm. revert i. induction Fm as [|x m Hx Fm IH]; intros [|i]; simpl;
      constructor; auto.
Qed.

Lemma fill_row_shape (t : ten3) i x n c l :
  has_shape3 t n c l -> (i < c)%nat -> has_shape3 (fill_row i x t) n c l.
Proof.
  intros [Lt Ft] Hi. split.
  - unfold fill_row. rewrite length_map. exact Lt.
  - unfold fill_row. apply Forall_map.
    eapply Forall_impl; [|exact Ft]. intros m Hm. simpl.
    apply has_shape2_set_nth; [exact Hm|].
    rewrite length_map. exact (has_shape2_nth m c l i Hm Hi).
Qed.

Lemma fill_row_entry (t : ten3) i x n c l b a p :
  has_shape3 t n c l -> (i < c)%nat ->
  (b < n)%nat -> (a < c)%nat -> (p < l)%nat ->
  get3 (fill_row i x t) b a p = if (a =? i)%nat then x else get3 t b a p.
Proof.
  intros Ht Hi Hb Ha Hp. unfold get3, fill_row.
  pose proof (has_shape3_nth t n c l b Ht Hb) as Hm.
  rewrite (nth_indep _ _
    ((fun m : mat => set_nth i (map (fun _ => x) (nth i m [])) m) []))
    by (rewrite length_map; destruct Ht; lia).
  rewrite (map_nth (fun m : mat =>
             set_nth i (map (fun _ => x) (nth i m [])) m)).
  rewrite nth_set_nth by (destruct Hm; lia).
  destruct (a =? i)%nat; [|reflexivity].
  rewrite (nth_indep _ _ ((fun _ : Qc => x) 0))
    by (rewrite length_map, (has_shape2_nth _ c l i Hm Hi); exact Hp).
  apply (map_nth (fun _ : Qc => x) _ 0).
Qed.

Lemma zeros_like_entry (t : ten3) n c l b a p :
  has_shape3 t n c l -> (b < n)%nat -> (a < c)%nat -> (p < l)%nat ->
  get3 (zeros_like t) b a p = 0.
Proof.
  intros Ht Hb Ha Hp. unfold get3, zeros_like.
  apply (nth3_map (fun _ : Qc => 0) 0 0 t n c l); assumption.
Qed.

(** [projected_contribs[:, i] = s]. *)
Lemma assign_row_spec (t : ten3) (s : mat) i n c l :
  has_shape3 t n c l -> length s = n -> Forall (fun r => length r = l) s ->
  (i < c)%nat ->
  exists t', assign_row i s t = Some t' /\ has_shape3 t' n c l /\
    forall b a p, (b < n)%nat -> (a < c)%nat -> (p < l)%nat ->
      get3 t' b a p = if (a =? i)%nat then get2 s b p else get3 t b a p.
Proof.
  intros Ht Ls Fs Hi. unfold assign_row.
  destruct Ht as [Lt Ft]. rewrite Ls, Lt, Nat.eqb_refl.
  eexists. split; [reflexivity|]. split; [split|].
  - rewrite length_map2; congruence.
  - eapply Forall_map2; [|exact Ft|exact Fs]. intros m r Hm Hr. simpl in *.
    apply has_shape2_set_nth; assumption.
  - intros b a p Hb Ha Hp. unfold get3, get2.
    rewrite (nth_map2 _ [] [] []) by lia.
    assert (Hm : has_shape2 (nth b t []) c l).
    { rewrite Forall_forall in Ft. apply Ft, nth_In. lia. }
    rewrite nth_set_nth by (destruct Hm; lia).
    destruct (a =? i)%nat; reflexivity.
Qed.

Lemma sum_upto_ext (n : nat) (f g : nat -> Qc) :
  (forall a, (a < n)%nat -> f a = g a) -> sum_upto n f = sum_upto n g.
Proof.
  intros H. unfold sum_upto. f_equal. apply map_ext_in.
  intros a Ha. apply in_seq in Ha. apply H. lia.
Qed.

Section Projector.

Variables (multipliers X references : ten3) (n A L : nat).
Hypothesis Sm : has_shape3 multipliers n A L.
Hypothesis Sx : has_shape3 X n A L.
Hypothesis Sr : has_shape3 references n A L.

(** One turn of the loop writes row [i] and leaves the others. *)
Lemma hypothetical_step_spec (P : ten3) (i : nat) :
  has_shape3 P n A L -> (i < A)%nat ->
  exists P', hypothetical_step multipliers X references P i = Some P' /\
    has_shape3 P' n A L /\
    forall b a p, (b < n)%nat -> (a < A)%nat -> (p < L)%nat ->
      get3 P' b a p =
      if (a =? i)%nat then projected_entry multipliers references A b i p
      else get3 P b a p.
Proof.
  intros SP Hi. unfold hypothetical_step.
  assert (Sh : has_shape3 (fill_row i 1 (zeros_like X)) n A L).
  { apply fill_row_shape; [apply has_shape3_map; exact Sx | exact Hi]. }
  rewrite (zip3_has_shape _ _ _ n A L Sh Sr). simpl obind.
  assert (Sd : has_shape3 (map2 (map2 (map2 Qcminus))
                 (fill_row i 1 (zeros_like X)) references) n A L)
    by (apply has_shape3_map2; assumption).
  rewrite (zip3_has_shape _ _ _ n A L Sd Sm). simpl obind.
  set (contribs := map2 (map2 (map2 Qcmult)) _ multipliers).
  assert (Sc : has_shape3 contribs n A L)
    by (apply has_shape3_map2; assumption).
  destruct (sum_dim1_shape contribs n A L Sc) as [Ls Fs]; [lia|].
  destruct (assign_row_spec P (sum_dim1 contribs) i n A L SP Ls Fs Hi)
    as (P' & HP' & SP' & EP').
  exists P'. split; [exact HP'|]. split; [exact SP'|].
  intros b a p Hb Ha Hp. rewrite (EP' b a p Hb Ha Hp).
  destruct (a =? i)%nat; [|reflexivity].
  rewrite (sum_dim1_entry contribs n A L b p Sc) by (lia || assumption).
  unfold projected_entry. apply sum_upto_ext. intros a' Ha'.
  unfold contribs, get3 at 1.
  rewrite (nth3_map2 _ 0 0 0 _ _ n A L) by assumption.
  rewrite (nth3_map2 _ 0 0 0 _ _ n A L) by assumption.
  fold (get3 (fill_row i 1 (zeros_like X)) b a' p).
  rewrite (fill_row_entry _ i 1 n A L b a' p) by
    (assumption || apply has_shape3_map; exact Sx).
  rewrite (zeros_like_entry X n A L) by assumption.
  reflexivity.
Qed.

(** The loop over the alphabet, started at symbol [k] with the rows
    below [k] already written. *)
Lemma hypothetical_loop_spec (j : nat) :
  forall (k : nat) (P : ten3),
    (k + j)%nat = A -> has_shape3 P n A L ->
    (forall b s p, (b < n)%nat -> (s < k)%nat -> (p < L)%nat ->
       get3 P b s p = projected_entry multipliers references A b s p) ->
    exists P', for_each (hypothetical_step multipliers X references) P
                 (seq k j) = Some P' /\
      has_shape3 P' n A L /\
      forall b s p, (b < n)%nat -> (s < A)%nat -> (p < L)%nat ->
        get3 P' b s p = projected_entry multipliers references A b s p.
Proof.
  induction j as [|j IH]; intros k P Hk SP EP.
  - exists P. split; [reflexivity|]. split; [exact SP|].
    intros b s p Hb Hs Hp. apply EP; lia.
  - simpl for_each.
    destruct (hypothetical_step_spec P k SP) as (P1 & H1 & S1 & E1); [lia|].
    rewrite H1. simpl obind.
    apply (IH (S k) P1); [lia | exact S1 |].
    intros b s p Hb Hs Hp. rewrite (E1 b s p) by (lia || assumption).
    destruct (Nat.eqb_spec s k) as [->|Hne]; [reflexivity|].
    apply EP; lia.
Qed.

Lemma check_arg_ok (t : ten3) (m : ten3) :
  has_shape3 t n A L -> has_shape3 m n A L ->
  check_arg (PyTuple [PyTensor t]) (Some (shape3 m)) = Ok t.
Proof.
  intros St Smm. unfold check_arg. rewrite (shape3_same t m n A L St Smm).
  rewrite !Nat.eqb_refl. reflexivity.
Qed.

Lemma hypothetical_attributions_spec :
  exists r,
    hypothetical_attributions (PyTuple [PyTensor multipliers])
      (PyTuple [PyTensor X]) (PyTuple [PyTensor references]) =
    Ok (PyTuple [PyTensor r]) /\
    has_shape3 r n A L /\
    forall b s p, (b < n)%nat -> (s < A)%nat -> (p < L)%nat ->
      get3 r b s p = projected_entry multipliers references A b s p.
Proof.
  unfold hypothetical_attributions.
  change (check_arg (PyTuple [PyTensor multipliers]) None)
    with (Ok (A:=ten3) multipliers).
  cbn [rbind].
  rewrite (check_arg_ok X multipliers Sx Sm). cbn [rbind].
  rewrite (check_arg_ok references multipliers Sr Sm). cbn [rbind].
  destruct (Nat.eq_dec n 0) as [Hn|Hn].
  - (* an empty batch: every tensor is the empty list *)
    destruct Sx as [Lx _], Sr as [Lr _].
    destruct X; [|simpl in Lx; lia]. destruct references; [|simpl in Lr; lia].
    simpl. eexists. split; [reflexivity|]. split.
    + split; [simpl; lia | constructor].
    + intros b s p Hb. lia.
  - destruct (Nat.eq_dec A 0) as [HA|HA].
    + assert (Hs : snd (fst (shape3 X)) = 0%nat).
      { destruct Sx as [Lx Fx]. destruct X as [|m x]; [reflexivity|].
        inversion Fx as [|? ? [Lm _] _]; subst. simpl. exact Lm. }
      rewrite Hs. simpl. eexists. split; [reflexivity|].
      split; [apply has_shape3_map; exact Sr|].
      intros b s p _ Hs'. lia.
    + rewrite (shape3_has_shape X n A L Sx) by lia. simpl snd.
      destruct (hypothetical_loop_spec A 0 (zeros_like references))
        as (P' & HP' & SP' & EP').
      * lia.
      * apply has_shape3_map. exact Sr.
      * intros b s p _ Hs. lia.
      * rewrite HP'. simpl. exists P'. auto.
Qed.

End Projector.

Lemma shape_test_true (t : ten3) (s : nat * nat * nat) :
  (fst (fst (shape3 t)) =? fst (fst s))%nat
  && (snd (fst (shape3 t)) =? snd (fst s))%nat
  && (snd (shape3 t) =? snd s)%nat = true ->
  shape3 t = s.
Proof.
  intros H. apply andb_prop in H. destruct H as [H H3].
  apply andb_prop in H. destruct H as [H1 H2].
  apply Nat.eqb_eq in H1, H2, H3.
  destruct (shape3 t) as [[a b] c], s as [[a' b'] c']. simpl in *.
  congruence.
Qed.

Lemma hypothetical_attributions_raises (multipliers X references : pyarg) :
  (forall m, multipliers = PyTuple [PyTensor m] ->
     ~ (arg_matches (shape3 m) X /\ arg_matches (shape3 m) references)) ->
  hypothetical_attributions multipliers X references = Raise ValueError.
Proof.
  intros H. unfold hypothetical_attributions.
  destruct multipliers as [[|[m|] [|v items]]|]; try reflexivity.
  specialize (H m eq_refl).
  change (check_arg (PyTuple [PyTensor m]) None) with (Ok (A:=ten3) m).
  cbn [rbind].
  destruct (check_arg X (Some (shape3 m))) as [x|e] eqn:EX.
  - cbn [rbind].
    destruct (check_arg references (Some (shape3 m))) as [r|e] eqn:ER.
    + exfalso. apply H. split.
      * unfold check_arg in EX.
        destruct X as [[|[t|] [|v items]]|]; try discriminate.
        destruct (_ && _ && _)%bool eqn:E; [|discriminate].
        exists t. split; [reflexivity | apply shape_test_true; exact E].
      * unfold check_arg in ER.
        destruct references as [[|[t|] [|v items]]|]; try discriminate.
        destruct (_ && _ && _)%bool eqn:E; [|discriminate].
        exists t. split; [reflexivity | apply shape_test_true; exact E].
    + cbn [rbind]. unfold check_arg in ER.
      destruct references as [[|[t|] [|v items]]|]; try congruence.
      destruct (_ && _ && _)%bool; congruence.
  - cbn [rbind]. unfold check_arg in EX.
    destruct X as [[|[t|] [|v items]]|]; try congruence.
    destruct (_ && _ && _)%bool; congruence.
Qed.

(** C6.  For multipliers, input and references of one shape
    (batch, alphabet, length), each passed as a one-element tuple,
    [hypothetical_attributions] returns a one-element tuple of a tensor of
    that shape whose value at symbol [s] and position [p] of example [b]
    is the sum over the alphabet of (indicator of [s] - reference) x
    multiplier at position [p].  And whenever some argument is not a
    one-element tuple of a tensor whose shape is that of the multipliers,
    it raises [ValueError]. *)
Theorem hypothetical_attributions_correct :
  (forall (multipliers X references : ten3) (n A L : nat),
     has_shape3 multipliers n A L ->
     has_shape3 X n A L ->
     has_shape3 references n A L ->
     exists r,
       hypothetical_attributions (PyTuple [PyTensor multipliers])
         (PyTuple [PyTensor X]) (PyTuple [PyTensor references]) =
       Ok (PyTuple [PyTensor r]) /\
       has_shape3 r n A L /\
       forall b s p, (b < n)%nat -> (s < A)%nat -> (p < L)%nat ->
         get3 r b s p =
         sum_upto A (fun a =>
           (indicator s a - get3 references b a p) * get3 multipliers b a p))
  /\
  (forall (multipliers X references : pyarg),
     (forall m, multipliers = PyTuple [PyTensor m] ->
        ~ (arg_matches (shape3 m) X /\ arg_matches (shape3 m) references)) ->
     hypothetical_attributions multipliers X references = Raise ValueError).
Proof.
  split.
  - intros multipliers X references n A L Sm Sx Sr.
    exact (hypothetical_attributions_spec multipliers X references n A L
             Sm Sx Sr).
  - exact hypothetical_attributions_raises.
Qed.

Lemma hypothetical_attributions_correct_witness :
  (exists r,
     hypothetical_attributions (PyTuple [PyTensor toy_multipliers])
       (PyTuple [PyTensor toy_X]) (PyTuple [PyTensor toy_references]) =
     Ok (PyTuple [PyTensor r]) /\
     has_shape3 r 1 4 1 /\
     forall b s p, (b < 1)%nat -> (s < 4)%nat -> (p < 1)%nat ->
       get3 r b s p =
       sum_upto 4 (fun a =>
         (indicator s a - get3 toy_references b a p)
         * get3 toy_multipliers b a p))
  /\
  hypothetical_attributions (PyTuple [PyTensor toy_multipliers])
    PyNotTuple (PyTuple [PyTensor toy_references]) = Raise ValueError.
Proof.
  split.
  - apply (proj1 hypothetical_attributions_correct
             toy_multipliers toy_X toy_references 1%nat 4%nat 1%nat);
      unfold toy_multipliers, toy_X, toy_references; shape_tac.
  - apply (proj2 hypothetical_attributions_correct).
    intros m _ [[t [Ht _]] _]. discriminate Ht.
Defined.

(** ** Hooks: registration and removal *)

Lemma hooks_of_set_hooks (k k' : hook_kind) (m : Module) (d : hook_dict) :
  hooks_of k' (set_hooks k m d) =
  if hook_kind_eqb k k' then d else hooks_of k' m.
Proof. destruct k, k'; reflexivity. Qed.

Lemma nth_error_update_nth {A} (f : A -> A) (l : list A) (i p : nat) :
  nth_error (update_nth i f l) p =
  if (i =? p)%nat then option_map f (nth_error l p) else nth_error l p.
Proof.
  revert i p. induction l as [|x l IH]; intros i p.
  - destruct i, p; simpl; try reflexivity.
    destruct (i =? p)%nat; reflexivity.
  - destruct i as [|i], p as [|p]; simpl; try reflexivity.
    apply IH.
Qed.

Lemma length_update_nth {A} (f : A -> A) (l : list A) (i : nat) :
  length (update_nth i f l) = length l.
Proof.
  revert i. induction l as [|x l IH]; intros [|i]; simpl; auto.
Qed.

Lemma dict_at_handle_remove (h : handle) (ms : list Module) p k :
  dict_at (handle_remove h ms) p k =
  if handle_for p k h then remove_id (h_id h) (dict_at ms p k)
  else dict_at ms p k.
Proof.
  unfold dict_at, handle_remove, handle_for.
  rewrite nth_error_update_nth.
  destruct (h_module h =? p)%nat eqn:E; simpl; [|reflexivity].
  destruct (nth_error ms p) as [m|]; simpl.
  - rewrite hooks_of_set_hooks.
    destruct (hook_kind_eqb (h_kind h) k) eqn:Ek; [|reflexivity].
    destruct (h_kind h), k; try discriminate; reflexivity.
  - destruct (hook_kind_eqb (h_kind h) k); reflexivity.
Qed.

Lemma length_remove_handles (hs : list handle) (ms : list Module) :
  length (remove_handles hs ms) = length ms.
Proof.
  unfold remove_handles. revert ms.
  induction hs as [|h hs IH]; intros ms; simpl; [reflexivity|].
  rewrite IH. apply length_update_nth.
Qed.

(** Removing the handles [hs] deletes from a dictionary the entries whose
    id is that of a handle pointing into it. *)
Lemma dict_at_remove_handles (hs : list handle) (ms : list Module) p k :
  dict_at (remove_handles hs ms) p k =
  filter (fun e => negb (existsb (fun h => handle_for p k h
                                            && (h_id h =? fst e)%nat) hs))
         (dict_at ms p k).
Proof.
  unfold remove_handles. revert ms.
  induction hs as [|h hs IH]; intros ms; simpl.
  - induction (dict_at ms p k) as [|e d IHd]; simpl; congruence.
  - rewrite IH, dict_at_handle_remove.
    destruct (handle_for p k h); simpl.
    + unfold remove_id. induction (dict_at ms p k) as [|e d IHd]; simpl;
        [reflexivity|].
      rewrite (Nat.eqb_sym (h_id h) (fst e)).
      destruct (fst e =? h_id h)%nat; simpl; rewrite IHd; reflexivity.
    + reflexivity.
Qed.

Lemma same_layer_refl (m : Module) : same_layer m m.
Proof. repeat split. Qed.

Lemma same_layer_trans (a b c : Module) :
  same_layer a b -> same_layer b c -> same_layer a c.
Proof.
  unfold same_layer. intros (H1 & H2 & H3 & H4 & H5) (G1 & G2 & G3 & G4 & G5).
  repeat split; congruence.
Qed.

Lemma same_engine_refl (s : DeepLiftShap) : same_engine s s.
Proof. repeat split. Qed.

(** What [_register_hooks] does to one module: nothing, or three entries
    with fresh ids, one per dictionary, each with its handle. *)
Lemma register_hooks_one (self : DeepLiftShap) (id pos : nat) (m : Module) :
  forall self' id' m',
    _register_hooks self id pos m = (self', id', m') ->
    (id <= id')%nat /\ same_layer m m' /\ same_engine self self' /\
    input m' = input m /\ output m' = output m /\
    exists hs_new,
      handles self' = handles self ++ hs_new /\
      (forall h, In h hs_new ->
         (id <= h_id h < id')%nat /\ h_module h = pos) /\
      forall k, exists dnew,
        hooks_of k m' = hooks_of k m ++ dnew /\
        forall e, In e dnew ->
          exists h, In h hs_new /\ h_kind h = k /\ h_id h = fst e.
Proof.
  intros self' id' m' H. unfold _register_hooks in H.
  assert (Hsame : (self', id', m') = (self, id, m) ->
    (id <= id')%nat /\ same_layer m m' /\ same_engine self self' /\
    input m' = input m /\ output m' = output m /\
    exists hs_new,
      handles self' = handles self ++ hs_new /\
      (forall h, In h hs_new ->
         (id <= h_id h < id')%nat /\ h_module h = pos) /\
      forall k, exists dnew,
        hooks_of k m' = hooks_of k m ++ dnew /\
        forall e, In e dnew ->
          exists h, In h hs_new /\ h_kind h = k /\ h_id h = fst e).
  { intros E. inversion E; subst. split; [lia|].
    split; [apply same_layer_refl|]. split; [apply same_engine_refl|].
    split; [reflexivity|]. split; [reflexivity|].
    exists []. split; [symmetry; apply app_nil_r|].
    split; [intros h []|]. intros k. exists [].
    split; [symmetry; apply app_nil_r | intros e []]. }
  destruct (0 <? length (_backward_hooks m))%nat; [apply Hsame; congruence|].
  destruct (ops_lookup (_NON_LINEAR_OPS self) (cls m));
    [|apply Hsame; congruence].
  clear Hsame. simpl in H. inversion H; subst; clear H.
  split; [lia|]. split; [repeat split|]. split; [repeat split|].
  split; [reflexivity|]. split; [reflexivity|].
  eexists. split; [reflexivity|]. split.
  - intros h [<-|[<-|[<-|[]]]]; simpl; lia.
  - intros k. destruct k; simpl.
    + eexists. split; [reflexivity|]. intros e [<-|[]].
      eexists. split; [left; reflexivity|]. split; reflexivity.
    + eexists. split; [reflexivity|]. intros e [<-|[]].
      eexists. split; [right; left; reflexivity|]. split; reflexivity.
    + eexists. split; [reflexivity|]. intros e [<-|[]].
      eexists. split; [right; right; left; reflexivity|].
      split; reflexivity.
Qed.

Lemma same_engine_trans (a b c : DeepLiftShap) :
  same_engine a b -> same_engine b c -> same_engine a c.
Proof.
  unfold same_engine. intros (H1 & H2 & H3 & H4) (G1 & G2 & G3 & G4).
  repeat split; congruence.
Qed.

Lemma handle_for_true (p : nat) (k : hook_kind) (h : handle) :
  h_module h = p -> h_kind h = k -> handle_for p k h = true.
Proof.
  intros <- <-. unfold handle_for. rewrite Nat.eqb_refl.
  destruct (h_kind h); reflexivity.
Qed.

(** [self.model.apply(self._register_hooks)]: layers and caches are left
    alone; every entry added to a dictionary has a fresh id and a handle,
    appended to [self.handles], that points to it. *)
Lemma apply_register_hooks_spec (ms : list Module) :
  forall self id pos self' id' ms',
    apply_register_hooks self id pos ms = (self', id', ms') ->
    (id <= id')%nat /\
    Forall2 (fun m m' => same_layer m m' /\ input m' = input m /\
                         output m' = output m) ms ms' /\
    same_engine self self' /\
    exists hs_new,
      handles self' = handles self ++ hs_new /\
      (forall h, In h hs_new -> (id <= h_id h < id')%nat) /\
      forall p k, exists dnew,
        dict_at ms' p k = dict_at ms p k ++ dnew /\
        forall e, In e dnew ->
          exists h, In h hs_new /\ handle_for (pos + p) k h = true /\
                    h_id h = fst e.
Proof.
  induction ms as [|m ms IH]; intros self id pos self' id' ms' H.
  - simpl in H. inversion H; subst. split; [lia|]. split; [constructor|].
    split; [apply same_engine_refl|]. exists [].
    split; [symmetry; apply app_nil_r|]. split; [intros h []|].
    intros p k. exists []. split; [|intros e []].
    unfold dict_at. destruct p; reflexivity.
  - simpl in H.
    destruct (_register_hooks self id pos m) as [[s1 i1] m1] eqn:E1.
    destruct (apply_register_hooks s1 i1 (S pos) ms) as [[s2 i2] ms2] eqn:E2.
    inversion H; subst; clear H.
    destruct (register_hooks_one self id pos m s1 i1 m1 E1)
      as (L1 & SL1 & SE1 & In1 & Out1 & hs1 & Hh1 & Hid1 & Hd1).
    destruct (IH s1 i1 (S pos) self' id' ms2 E2)
      as (L2 & F2 & SE2 & hs2 & Hh2 & Hid2 & Hd2).
    split; [lia|]. split; [constructor; auto|].
    split; [eapply same_engine_trans; eassumption|].
    exists (hs1 ++ hs2). split; [rewrite Hh2, Hh1, app_assoc; reflexivity|].
    split.
    + intros h Hin. apply in_app_or in Hin. destruct Hin as [Hin|Hin].
      * destruct (Hid1 h Hin) as [? _]. lia.
      * specialize (Hid2 h Hin). lia.
    + intros [|p] k.
      * destruct (Hd1 k) as (dnew & Hdn & Hen). exists dnew.
        split; [exact Hdn|]. intros e He.
        destruct (Hen e He) as (h & Hin & Hk & Hi). exists h.
        split; [apply in_or_app; left; exact Hin|].
        split; [|exact Hi]. apply handle_for_true; [|exact Hk].
        rewrite Nat.add_0_r. apply (Hid1 h Hin).
      * destruct (Hd2 p k) as (dnew & Hdn & Hen). exists dnew.
        split; [exact Hdn|]. intros e He.
        destruct (Hen e He) as (h & Hin & Hf & Hi). exists h.
        split; [apply in_or_app; right; exact Hin|].
        split; [|exact Hi]. rewrite <- Hf. f_equal. lia.
Qed.

(** The forward pass touches the caches only. *)
Lemma fold_left_same_layer (f : Module -> nat * hook -> Module)
  (d : hook_dict) :
  (forall m e, same_layer m (f m e) /\ hooks_view (f m e) = hooks_view m) ->
  forall m, same_layer m (fold_left f d m) /\
            hooks_view (fold_left f d m) = hooks_view m.
Proof.
  intros Hf. induction d as [|e d IH]; intros m; simpl.
  - split; [apply same_layer_refl | reflexivity].
  - destruct (IH (f m e)) as [S1 V1]. destruct (Hf m e) as [S2 V2].
    split; [eapply same_layer_trans; eassumption | congruence].
Qed.

Lemma call_module_spec (m : Module) (x : ten3) :
  forall m' r, call_module m x = (m', r) ->
    same_layer m m' /\ hooks_view m' = hooks_view m /\
    r = mapM (forward m) x.
Proof.
  intros m' r H. unfold call_module in H.
  assert (P1 : same_layer m (run_pre_hooks m x) /\
               hooks_view (run_pre_hooks m x) = hooks_view m).
  { unfold run_pre_hooks. apply fold_left_same_layer.
    intros m0 e. destruct (snd e); split;
      try apply same_layer_refl; try reflexivity; repeat split. }
  destruct P1 as [S1 V1].
  assert (Ef : forward (run_pre_hooks m x) = forward m) by apply S1.
  rewrite Ef in H.
  destruct (mapM (forward m) x) as [y|]; inversion H; subst; clear H.
  - assert (P2 : same_layer (run_pre_hooks m x)
                   (run_post_hooks (run_pre_hooks m x) y) /\
                 hooks_view (run_post_hooks (run_pre_hooks m x) y) =
                 hooks_view (run_pre_hooks m x)).
    { unfold run_post_hooks. apply fold_left_same_layer.
      intros m0 e. destruct (snd e); split;
        try apply same_layer_refl; try reflexivity; repeat split. }
    destruct P2 as [S2 V2].
    split; [eapply same_layer_trans; eassumption|].
    split; [congruence | reflexivity].
  - split; [exact S1|]. split; [exact V1 | reflexivity].
Qed.

Lemma forward_pass_spec (ms : list Module) :
  forall x ms' r, forward_pass ms x = (ms', r) ->
    Forall2 (fun m m' => same_layer m m' /\ hooks_view m' = hooks_view m)
            ms ms' /\
    r = forward_tape ms x.
Proof.
  induction ms as [|m ms IH]; intros x ms' r H; simpl in H.
  - inversion H; subst. split; [constructor | reflexivity].
  - destruct (call_module m x) as [m1 [y|]] eqn:E1.
    + destruct (forward_pass ms y) as [ms2 r2] eqn:E2.
      inversion H; subst; clear H.
      destruct (call_module_spec m x m1 (Some y) E1) as (S1 & V1 & R1).
      destruct (IH y ms2 r2 E2) as (F2 & R2).
      split; [constructor; auto|].
      simpl. rewrite <- R1. simpl. rewrite <- R2.
      destruct r2 as [[tape out]|]; reflexivity.
    + inversion H; subst; clear H.
      destruct (call_module_spec m x m1 None E1) as (S1 & V1 & R1).
      split.
      * constructor; [auto|].
        clear. induction ms; constructor; auto.
        split; [apply same_layer_refl | reflexivity].
      * simpl. rewrite <- R1. reflexivity.
Qed.

Lemma attribute_body_modules (self : DeepLiftShap) (ms : list Module)
  (X references : ten3) (target : nat) :
  fst (attribute_body self ms X references target) =
  fst (forward_pass ms (X ++ references)).
Proof.
  unfold attribute_body.
  destruct (forward_pass ms (X ++ references)) as [ms' fw]. reflexivity.
Qed.

Lemma dict_at_Forall2 (ms ms' : list Module) p k :
  Forall2 (fun m m' => same_layer m m' /\ hooks_view m' = hooks_view m)
          ms ms' ->
  dict_at ms' p k = dict_at ms p k.
Proof.
  intros F. revert p. induction F as [|m m' ms ms' [_ V] F IH]; intros p.
  - reflexivity.
  - destruct p as [|p]; [|apply IH]. unfold dict_at. simpl.
    unfold hooks_view in V. inversion V. destruct k; simpl; congruence.
Qed.

Lemma hooks_view_ext (ms ms' : list Module) :
  length ms' = length ms ->
  (forall p k, dict_at ms' p k = dict_at ms p k) ->
  map hooks_view ms' = map hooks_view ms.
Proof.
  revert ms'. induction ms as [|m ms IH]; intros [|m' ms'] HL H;
    simpl in *; try discriminate; [reflexivity|]. f_equal.
  - unfold hooks_view.
    pose proof (H 0%nat Forward) as H1. pose proof (H 0%nat ForwardPre) as H2.
    pose proof (H 0%nat Backward) as H3. unfold dict_at in *. simpl in *.
    congruence.
  - apply IH; [lia|]. intros p k. apply (H (S p) k).
Qed.

Lemma filter_all {A} (f : A -> bool) (l : list A) :
  (forall x, In x l -> f x = true) -> filter f l = l.
Proof.
  induction l as [|x l IH]; intros H; simpl; [reflexivity|].
  rewrite (H x) by (left; reflexivity). f_equal. apply IH.
  intros y Hy. apply H. right. exact Hy.
Qed.

Lemma filter_none {A} (f : A -> bool) (l : list A) :
  (forall x, In x l -> f x = false) -> filter f l = [].
Proof.
  induction l as [|x l IH]; intros H; simpl; [reflexivity|].
  rewrite (H x) by (left; reflexivity). apply IH.
  intros y Hy. apply H. right. exact Hy.
Qed.

Lemma Forall2_length_eq {A B} (R : A -> B -> Prop) (l : list A) (l' : list B) :
  Forall2 R l l' -> length l' = length l.
Proof. intros F. induction F; simpl; congruence. Qed.

(** The world after [attribute], whatever the outcome: the modules as the
    forward pass left them with the engine's handles removed. *)
Lemma attribute_world (self : DeepLiftShap) (w : world)
  (X references : ten3) (target : nat) :
  forall res self' w',
    attribute self w X references target = (res, self', w') ->
    (res = Raise AssertionError /\ self' = self /\ w' = w) \/
    exists id1 ms1,
      apply_register_hooks self (next_id w) 0 (modules w) =
        (self', id1, ms1) /\
      modules w' =
        remove_handles (handles self')
          (fst (forward_pass ms1 (X ++ references))) /\
      next_id w' = id1.
Proof.
  intros res self' w' H. unfold attribute in H.
  destruct (negb (shape_eqb (shape3 X) (shape3 references))).
  - left. inversion H; auto.
  - right.
    destruct (apply_register_hooks self (next_id w) 0 (modules w))
      as [[s1 id1] ms1] eqn:E1.
    pose proof (attribute_body_modules s1 ms1 X references target) as Hb.
    destruct (attribute_body s1 ms1 X references target) as [ms2 r] eqn:E2.
    simpl in Hb. subst ms2.
    exists id1, ms1.
    destruct r as [[g evs]|e]; inversion H; subst; auto.
Qed.

Lemma attribute_hooks (self : DeepLiftShap) (w : world)
  (X references : ten3) (target : nat) :
  ids_below w -> handles_stale self w ->
  forall res self' w',
    attribute self w X references target = (res, self', w') ->
    length (modules w') = length (modules w) /\
    (forall p k, dict_at (modules w') p k = dict_at (modules w) p k) /\
    (next_id w <= next_id w')%nat /\
    handles_stale self' w'.
Proof.
  intros Hids Hstale res self' w' H.
  destruct (attribute_world self w X references target res self' w' H)
    as [(_ & -> & ->)|(id1 & ms1 & E1 & Hm & Hn)].
  { split; [reflexivity|]. split; [reflexivity|]. split; [lia|assumption]. }
  destruct (apply_register_hooks_spec (modules w) self (next_id w) 0
              self' id1 ms1 E1)
    as (Hle & F1 & _ & hs_new & Hh & Hnew & Hd).
  destruct (forward_pass ms1 (X ++ references)) as [ms2 fw] eqn:E2.
  destruct (forward_pass_spec ms1 (X ++ references) ms2 fw E2) as [F2 _].
  simpl in Hm.
  assert (Hdict : forall p k,
            dict_at (modules w') p k = dict_at (modules w) p k).
  { intros p k. rewrite Hm, dict_at_remove_handles.
    rewrite (dict_at_Forall2 ms1 ms2 p k F2).
    destruct (Hd p k) as (dnew & -> & Hdn).
    rewrite filter_app, filter_all, filter_none; [apply app_nil_r| |].
    - intros e He. destruct (Hdn e He) as (h & Hin & Hf & Hi).
      apply negb_false_iff, existsb_exists. exists h. split.
      + rewrite Hh. apply in_or_app. right. exact Hin.
      + simpl in Hf. rewrite Hf, Hi, Nat.eqb_refl. reflexivity.
    - intros e He. apply negb_true_iff.
      destruct (existsb _ (handles self')) eqn:Ex; [|reflexivity].
      exfalso. apply existsb_exists in Ex.
      destruct Ex as (h & Hin & Hb). apply andb_prop in Hb.
      destruct Hb as [_ Hb]. apply Nat.eqb_eq in Hb.
      rewrite Hh in Hin. apply in_app_or in Hin. destruct Hin as [Hin|Hin].
      + destruct (Hstale h Hin) as [_ Hs]. apply (Hs p k e He). auto.
      + specialize (Hnew h Hin). specialize (Hids p k e He). lia. }
  split.
  { rewrite Hm, length_remove_handles.
    rewrite (Forall2_length_eq _ _ _ F2). apply (Forall2_length_eq _ _ _ F1). }
  split; [exact Hdict|]. split; [lia|].
  intros h Hin. rewrite Hh in Hin. apply in_app_or in Hin. split.
  - destruct Hin as [Hin|Hin].
    + destruct (Hstale h Hin) as [Hlt _]. lia.
    + specialize (Hnew h Hin). lia.
  - intros p k e He. rewrite Hdict in He. destruct Hin as [Hin|Hin].
    + destruct (Hstale h Hin) as [_ Hs]. apply (Hs p k e He).
    + specialize (Hnew h Hin). specialize (Hids p k e He). lia.
Qed.

(** C9.  Whatever the outcome of [attribute] (the gradients, or an
    exception raised by the forward or the backward pass), every hook
    dictionary of every module is afterwards what it was before the call:
    each hook installed during the call has been removed, and nothing
    else has.  The call also re-establishes its own preconditions (ids in
    use lie below the counter, the engine's handles point to no hook), so
    the same holds for every later call. *)
Theorem attribute_removes_hooks :
  forall (self : DeepLiftShap) (w : world) (X references : ten3)
         (target : nat),
    ids_below w -> handles_stale self w ->
    let out := attribute self w X references target in
    map hooks_view (modules (snd out)) = map hooks_view (modules w) /\
    ids_below (snd out) /\
    handles_stale (snd (fst out)) (snd out).
Proof.
  intros self w X references target Hids Hstale out.
  destruct out as [[res self'] w'] eqn:E. simpl.
  destruct (attribute_hooks self w X references target Hids Hstale
              res self' w' E) as (HL & Hd & Hn & Hs).
  split; [apply hooks_view_ext; assumption|]. split; [|exact Hs].
  intros p k e He. rewrite Hd in He. specialize (Hids p k e He). lia.
Qed.

Lemma no_hooks_ids_below (ms : list Module) (n : nat) (evs : list event) :
  Forall (fun m => hooks_view m = ([], [], [])) ms ->
  ids_below (mkWorld ms n evs).
Proof.
  intros F p k e He. exfalso. unfold dict_at in He. simpl in He.
  destruct (nth_error ms p) as [m|] eqn:E; [|exact He].
  apply nth_error_In in E. rewrite Forall_forall in F.
  specialize (F m E). unfold hooks_view in F.
  injection F; intros H3 H2 H1.
  destruct k; simpl in He; [rewrite H1 in He | rewrite H2 in He
                           | rewrite H3 in He]; exact He.
Qed.

Lemma attribute_removes_hooks_witness :
  let out := attribute default_engine broken_world toy_X toy_references 0 in
  map hooks_view (modules (snd out)) =
  map hooks_view (modules broken_world) /\
  ids_below (snd out) /\
  handles_stale (snd (fst out)) (snd out).
Proof.
  apply (attribute_removes_hooks default_engine broken_world
           toy_X toy_references 0).
  - apply no_hooks_ids_below. repeat constructor.
  - intros h [].
Defined.

(** On [broken_world] the call raises, with the three hooks of the ReLU
    installed by then; on [relu_world] it returns. *)
Example attribute_raises_example :
  fst (fst (attribute default_engine broken_world toy_X toy_references 0)) =
  Raise RuntimeError /\
  length (handles (snd (fst (attribute default_engine broken_world
                               toy_X toy_references 0)))) = 3%nat.
Proof. split; vm_compute; reflexivity. Qed.

(** ** The pieces of the forward pass *)

Lemma mapM_length {A B} (f : A -> option B) (l : list A) (l' : list B) :
  mapM f l = Some l' -> length l' = length l.
Proof.
  revert l'. induction l as [|a l IH]; intros l' H; simpl in H.
  - inversion H. reflexivity.
  - destruct (f a) as [b|]; [|discriminate]. simpl in H.
    destruct (mapM f l) as [bs|]; [|discriminate]. inversion H; subst.
    simpl. f_equal. apply IH. reflexivity.
Qed.

Lemma mapM_nth {A B} (f : A -> option B) (l : list A) (l' : list B)
  (d : A) (d' : B) (i : nat) :
  mapM f l = Some l' -> (i < length l)%nat ->
  f (nth i l d) = Some (nth i l' d').
Proof.
  revert l' i. induction l as [|a l IH]; intros l' i H Hi; simpl in *;
    [lia|].
  destruct (f a) as [b|] eqn:Ea; [|discriminate]. simpl in H.
  destruct (mapM f l) as [bs|] eqn:El; [|discriminate]. inversion H; subst.
  destruct i as [|i]; simpl; [exact Ea|]. apply IH; [reflexivity | lia].
Qed.

Lemma mapM_compose {A B C} (f : A -> option B) (g : B -> option C)
  (l : list A) :
  mapM (fun a => b <- f a ;; g b) l = (l' <- mapM f l ;; mapM g l').
Proof.
  induction l as [|a l IH]; simpl; [reflexivity|].
  destruct (f a) as [b|]; simpl.
  - rewrite IH. destruct (mapM f l) as [bs|]; simpl.
    + reflexivity.
    + destruct (g b); reflexivity.
  - reflexivity.
Qed.

Lemma mapM_Some_id {A} (l : list A) : mapM (@Some A) l = Some l.
Proof.
  induction l as [|a l IH]; simpl; [reflexivity|]. rewrite IH. reflexivity.
Qed.

(** The forward pass runs the model on every example of the batch. *)
Lemma forward_tape_examples (ms : list Module) :
  forall x, option_map snd (forward_tape ms x) = mapM (model_forward ms) x.
Proof.
  induction ms as [|m ms IH]; intros x; simpl.
  - rewrite mapM_Some_id. reflexivity.
  - rewrite mapM_compose.
    destruct (mapM (forward m) x) as [y|]; simpl; [|reflexivity].
    rewrite <- IH. destruct (forward_tape ms y) as [[tape out]|]; reflexivity.
Qed.

Lemma forward_tape_same_layer (ms ms' : list Module) :
  Forall2 same_layer ms ms' ->
  forall x, forward_tape ms' x = forward_tape ms x.
Proof.
  intros F. induction F as [|m m' ms ms' S F IH]; intros x; simpl.
  - reflexivity.
  - destruct S as (_ & -> & _).
    destruct (mapM (forward m) x) as [y|]; simpl; [|reflexivity].
    rewrite IH. reflexivity.
Qed.

Lemma model_forward_same_layer (ms ms' : list Module) :
  Forall2 same_layer ms ms' ->
  forall x, model_forward ms' x = model_forward ms x.
Proof.
  intros F. induction F as [|m m' ms ms' S F IH]; intros x; simpl.
  - reflexivity.
  - destruct S as (_ & -> & _).
    destruct (forward m x) as [y|]; simpl; [|reflexivity]. apply IH.
Qed.

Lemma zip3_Some {A B C} (f : A -> B -> C) a b c :
  zip3 f a b = Some c ->
  c = map2 (map2 (map2 f)) a b /\ length a = length b.
Proof.
  unfold zip3. destruct (same_shape3 a b) eqn:E; [|discriminate].
  intros H. inversion H. split; [reflexivity|].
  unfold same_shape3 in E. clear H H1.
  revert b E. induction a as [|x a IH]; intros [|y b] E; simpl in *;
    try discriminate; [reflexivity|].
  apply andb_prop in E. f_equal. apply IH. apply E.
Qed.

Lemma zip1_Some {A B C} (f : A -> B -> C) a b c :
  zip1 f a b = Some c -> c = map2 f a b /\ length a = length b.
Proof.
  unfold zip1, same_shape1. destruct (length a =? length b)%nat eqn:E;
    [|discriminate].
  intros H. inversion H. split; [reflexivity | apply Nat.eqb_eq; exact E].
Qed.

(** A call of [attribute] that returns went through every step. *)
Lemma attribute_Ok_inv (self : DeepLiftShap) (w : world)
  (X references : ten3) (target : nat) (gradients : ten3)
  (self' : DeepLiftShap) (w' : world) :
  attribute self w X references target = (Ok gradients, self', w') ->
  shape_eqb (shape3 X) (shape3 references) = true /\
  exists id1 ms1 ms2 tape out y g output_diff diffs contribs d,
    apply_register_hooks self (next_id w) 0 (modules w) = (self', id1, ms1) /\
    forward_pass ms1 (X ++ references) = (ms2, Some (tape, out)) /\
    select_target out target = Some y /\
    backward_pass self' ms2 tape (seed_gradient out target) = Some g /\
    gradients = firstn (length X) g /\
    zip1 Qcminus (firstn (length X) y) (skipn (length X) y)
      = Some output_diff /\
    zip3 Qcminus X references = Some diffs /\
    zip3 Qcmult diffs gradients = Some contribs /\
    zip1 Qcminus output_diff (map msum contribs) = Some d /\
    events w' = check_events self' (map Qcabs d) ++ events w.
Proof.
  intros H. unfold attribute in H.
  destruct (shape_eqb (shape3 X) (shape3 references)) eqn:Es;
    [|discriminate]. split; [reflexivity|]. simpl in H.
  destruct (apply_register_hooks self (next_id w) 0 (modules w))
    as [[s1 id1] ms1] eqn:E1.
  unfold attribute_body in H.
  destruct (forward_pass ms1 (X ++ references)) as [ms2 fw] eqn:E2.
  destruct fw as [[tape out]|]; [|discriminate].
  destruct (select_target out target) as [y|] eqn:Ey; [|discriminate].
  cbn [lift rbind] in H.
  destruct (backward_pass s1 ms2 tape (seed_gradient out target))
    as [g|] eqn:Eg; [|discriminate].
  cbn [lift rbind] in H.
  destruct (chunk2 y) as [halves|] eqn:Ec; [|discriminate].
  cbn [lift rbind] in H.
  destruct (zip1 Qcminus (fst halves) (snd halves)) as [od|] eqn:Eo;
    [|discriminate].
  cbn [lift rbind] in H.
  destruct (zip3 Qcminus X references) as [diffs|] eqn:Ed; [|discriminate].
  cbn [lift rbind] in H.
  destruct (zip3 Qcmult diffs (firstn (length X) g)) as [contribs|] eqn:Ect;
    [|discriminate].
  cbn [lift rbind] in H.
  destruct (zip1 Qcminus od (map msum contribs)) as [d|] eqn:Edd;
    [|discriminate].
  cbn [lift rbind] in H. inversion H; subst; clear H.
  exists id1, ms1, ms2, tape, out, y, g, od, diffs, contribs, d.
  split; [reflexivity|]. split; [exact E2|]. split; [exact Ey|].
  split; [exact Eg|]. split; [reflexivity|].
  split; [|split; [reflexivity|split; [exact Ect|split;
           [exact Edd | reflexivity]]]].
  (* the two halves of [y] *)
  assert (Ly : length y = (2 * length X)%nat).
  { unfold select_target in Ey. apply mapM_length in Ey.
    destruct (forward_pass_spec ms1 (X ++ references) ms2 _ E2) as [_ R].
    symmetry in R. pose proof (forward_tape_examples ms1 (X ++ references))
      as Hx.
    rewrite R in Hx. simpl in Hx. symmetry in Hx. apply mapM_length in Hx.
    rewrite Ey, Hx, length_app.
    apply zip3_Some in Ed. destruct Ed as [_ Ed]. lia. }
  rewrite (chunk2_even y (length X) Ly) in Ec. inversion Ec; subst.
  exact Eo.
Qed.

(** ** The convergence check *)

Lemma register_hooks_threshold (self : DeepLiftShap) (th : Qc) id pos m :
  _register_hooks (with_threshold self th) id pos m =
  let '(s, i, m') := _register_hooks self id pos m in
  (with_threshold s th, i, m').
Proof.
  unfold _register_hooks. simpl.
  destruct (0 <? length (_backward_hooks m))%nat; [reflexivity|].
  destruct (ops_lookup (_NON_LINEAR_OPS self) (cls m)); reflexivity.
Qed.

Lemma apply_register_hooks_threshold (th : Qc) (ms : list Module) :
  forall self id pos,
    apply_register_hooks (with_threshold self th) id pos ms =
    let '(s, i, ms') := apply_register_hooks self id pos ms in
    (with_threshold s th, i, ms').
Proof.
  induction ms as [|m ms IH]; intros self id pos; simpl; [reflexivity|].
  rewrite register_hooks_threshold.
  destruct (_register_hooks self id pos m) as [[s1 i1] m1].
  rewrite IH.
  destruct (apply_register_hooks s1 i1 (S pos) ms) as [[s2 i2] ms2].
  reflexivity.
Qed.

Lemma backward_pass_threshold (th : Qc) (self : DeepLiftShap)
  (ms : list Module) :
  forall tape g,
    backward_pass (with_threshold self th) ms tape g =
    backward_pass self ms tape g.
Proof.
  induction ms as [|m ms IH]; intros [|x tape] g; simpl; try reflexivity.
  rewrite IH. reflexivity.
Qed.

(** The outcome of [attribute] is the same for every threshold. *)
Lemma attribute_threshold (self : DeepLiftShap) (w : world)
  (X references : ten3) (target : nat) (th : Qc) :
  fst (fst (attribute (with_threshold self th) w X references target)) =
  fst (fst (attribute self w X references target)).
Proof.
  unfold attribute.
  destruct (negb (shape_eqb (shape3 X) (shape3 references)));
    [reflexivity|].
  rewrite apply_register_hooks_threshold.
  destruct (apply_register_hooks self (next_id w) 0 (modules w))
    as [[s1 id1] ms1].
  unfold attribute_body.
  destruct (forward_pass ms1 (X ++ references)) as [ms2 fw].
  destruct fw as [[tape out]|]; [|reflexivity].
  destruct (select_target out target) as [y|]; [|reflexivity].
  cbn [lift rbind]. rewrite backward_pass_threshold.
  destruct (backward_pass s1 ms2 tape (seed_gradient out target)) as [g|];
    [|reflexivity].
  cbn [lift rbind].
  destruct (chunk2 y) as [halves|]; [|reflexivity]. cbn [lift rbind].
  destruct (zip1 Qcminus (fst halves) (snd halves)) as [od|];
    [|reflexivity].
  cbn [lift rbind].
  destruct (zip3 Qcminus X references) as [diffs|]; [|reflexivity].
  cbn [lift rbind].
  destruct (zip3 Qcmult diffs (firstn (length X) g)) as [contribs|];
    [|reflexivity].
  cbn [lift rbind].
  destruct (zip1 Qcminus od (map msum contribs)) as [d|]; reflexivity.
Qed.

Lemma Forall2_same_layer_weaken (ms ms' : list Module) (P : Module -> Module -> Prop) :
  Forall2 (fun m m' => same_layer m m' /\ P m m') ms ms' ->
  Forall2 same_layer ms ms'.
Proof.
  intros F. induction F as [|m m' ms ms' [S _] F IH]; constructor; auto.
Qed.

Lemma nth_map_default {A B} (f : A -> B) (l : list A) (d : A) (d' : B) i :
  (i < length l)%nat -> nth i (map f l) d' = f (nth i l d).
Proof.
  intros H. rewrite (nth_indep _ d' (f d)) by (rewrite length_map; exact H).
  apply map_nth.
Qed.

Lemma model_output_batch (ms : list Module) (x out : ten3) (y : vec)
  (target b : nat) :
  mapM (model_forward ms) x = Some out ->
  select_target out target = Some y ->
  (b < length x)%nat ->
  model_output ms target (nth b x []) = Some (nth b y 0).
Proof.
  intros Hf Hy Hb. unfold model_output.
  rewrite (mapM_nth _ x out [] [] b Hf Hb). simpl.
  unfold select_target in Hy.
  apply (mapM_nth _ out y [] 0 b Hy).
  rewrite (mapM_length _ _ _ Hf). exact Hb.
Qed.

Lemma attribute_deltas (self : DeepLiftShap) (w : world)
  (X references : ten3) (target : nat) (gradients : ten3)
  (self' : DeepLiftShap) (w' : world) :
  attribute self w X references target = (Ok gradients, self', w') ->
  exists deltas,
    length deltas = length X /\
    length references = length X /\
    length gradients = length X /\
    (forall b, (b < length X)%nat ->
       convergence_delta (modules w) target (nth b X []) (nth b references [])
         (nth b gradients []) = Some (nth b deltas 0)) /\
    events w' = check_events self' deltas ++ events w /\
    same_engine self self'.
Proof.
  intros H. apply attribute_Ok_inv in H.
  destruct H as (_ & id1 & ms1 & ms2 & tape & out & y & g & od & diffs &
                 contribs & d & E1 & E2 & Ey & Eg & -> & Eo & Ed & Ect &
                 Edd & Eev).
  apply zip3_Some in Ed. destruct Ed as [-> LXR].
  apply zip3_Some in Ect. destruct Ect as [-> LG].
  rewrite length_map2 in LG by exact LXR.
  apply zip1_Some in Eo. destruct Eo as [-> Lhalf].
  apply zip1_Some in Edd. destruct Edd as [-> Ld].
  destruct (apply_register_hooks_spec _ _ _ _ _ _ _ E1)
    as (_ & F1 & SE & _).
  apply Forall2_same_layer_weaken in F1.
  destruct (forward_pass_spec _ _ _ _ E2) as [_ R2].
  pose proof (forward_tape_examples ms1 (X ++ references)) as Hx.
  rewrite <- R2 in Hx. simpl in Hx. symmetry in Hx.
  assert (Ly : length y = (2 * length X)%nat).
  { unfold select_target in Ey. apply mapM_length in Ey.
    apply mapM_length in Hx. rewrite Ey, Hx, length_app. lia. }
  assert (Lod : length (map2 Qcminus (firstn (length X) y)
                          (skipn (length X) y)) = length X).
  { rewrite length_map2; [|exact Lhalf]. rewrite length_firstn. lia. }
  rewrite Lod in Ld.
  exists (map Qcabs (map2 Qcminus
            (map2 Qcminus (firstn (length X) y) (skipn (length X) y))
            (map msum (map2 (map2 (map2 Qcmult))
                         (map2 (map2 (map2 Qcminus)) X references)
                         (firstn (length X) g))))).
  split; [rewrite length_map, length_map2; [exact Lod | congruence]|].
  split; [symmetry; exact LXR|]. split; [symmetry; exact LG|].
  split; [|split; [exact Eev | exact SE]].
  intros b Hb. unfold convergence_delta.
  assert (HX : model_output ms1 target (nth b X []) = Some (nth b y 0)).
  { pose proof (model_output_batch ms1 (X ++ references) out y target b
                  Hx Ey) as Hm.
    rewrite app_nth1 in Hm by exact Hb. apply Hm.
    rewrite length_app. lia. }
  assert (HR : model_output ms1 target (nth b references []) =
               Some (nth (length X + b) y 0)).
  { pose proof (model_output_batch ms1 (X ++ references) out y target
                  (length X + b) Hx Ey) as Hm.
    rewrite app_nth2 in Hm by lia.
    replace (length X + b - length X)%nat with b in Hm by lia.
    apply Hm. rewrite length_app. lia. }
  unfold model_output in HX, HR |- *.
  rewrite (model_forward_same_layer _ _ F1) in HX, HR.
  rewrite HX, HR. simpl. f_equal.
  assert (Ldf : length (map2 (map2 (map2 Qcminus)) X references) = length X)
    by (apply length_map2; exact LXR).
  assert (Lc : length (map2 (map2 (map2 Qcmult))
                        (map2 (map2 (map2 Qcminus)) X references)
                        (firstn (length X) g)) = length X)
    by (rewrite length_map2; congruence).
  rewrite (nth_map_default Qcabs _ 0) by
    (rewrite length_map2; rewrite ?length_map; congruence).
  f_equal.
  rewrite (nth_map2 Qcminus 0 0 0) by (rewrite ?length_map; lia).
  rewrite (nth_map2 Qcminus 0 0 0) by
    (rewrite ?length_firstn, ?length_skipn; lia).
  rewrite !nth_firstn_lt by exact Hb. rewrite nth_skipn_add.
  f_equal.
  rewrite (nth_map_default msum _ []) by lia.
  f_equal.
  rewrite (nth_map2 _ [] [] []) by lia.
  rewrite (nth_map2 _ [] [] []) by lia.
  rewrite nth_firstn_lt by exact Hb.
  reflexivity.
Qed.

Lemma Qc_ltb_lt (a b : Qc) : Qc_ltb a b = true <-> a < b.
Proof.
  unfold Qc_ltb. destruct (Qclt_le_dec a b) as [H|H].
  - split; auto.
  - split; [discriminate|]. intros Hlt. exfalso.
    apply (Qcle_not_lt _ _ H Hlt).
Qed.

Lemma existsb_nth_lt (th : Qc) (ds : vec) :
  existsb (fun x => Qc_ltb th x) ds = true <->
  exists b, (b < length ds)%nat /\ th < nth b ds 0.
Proof.
  rewrite existsb_exists. split.
  - intros (x & Hin & Hx). apply (In_nth _ _ 0) in Hin.
    destruct Hin as (b & Hb & <-). exists b. split; [exact Hb|].
    apply Qc_ltb_lt. exact Hx.
  - intros (b & Hb & Hlt). exists (nth b ds 0).
    split; [apply nth_In; exact Hb | apply Qc_ltb_lt; exact Hlt].
Qed.

Lemma check_events_warning (self : DeepLiftShap) (deltas ds : vec) :
  In (RuntimeWarning ds) (check_events self deltas) <->
  ds = deltas /\
  exists b, (b < length deltas)%nat /\
            warning_threshold self < nth b deltas 0.
Proof.
  unfold check_events. rewrite in_app_iff, <- existsb_nth_lt. split.
  - intros [H|H].
    + destruct (verbose self); simpl in H; [|contradiction].
      destruct H as [H|[]]. discriminate H.
    + destruct (existsb _ deltas); simpl in H; [|contradiction].
      destruct H as [H|[]]. inversion H. auto.
  - intros [-> H]. right. rewrite H. left. reflexivity.
Qed.

(** C8.  A call of [attribute] that returns has computed, for every
    example-reference pair [b], the delta
    [|(f(X_b) - f(ref_b)) - sum((X_b - ref_b) * gradient_b)|]; it has
    issued a [RuntimeWarning] (carrying these deltas) if and only if some
    delta exceeds [warning_threshold]; and what the call returns is the
    same for every threshold, so the gradients come back whether or not
    the warning was issued and the violation never becomes an exception. *)
Theorem attribute_convergence_warning :
  forall (self : DeepLiftShap) (w : world) (X references : ten3)
         (target : nat),
    let out := attribute self w X references target in
    (forall th,
       fst (fst (attribute (with_threshold self th) w X references target))
       = fst (fst out)) /\
    forall gradients,
      fst (fst out) = Ok gradients ->
      exists deltas new,
        length deltas = length X /\
        (forall b, (b < length X)%nat ->
           convergence_delta (modules w) target (nth b X [])
             (nth b references []) (nth b gradients [])
           = Some (nth b deltas 0)) /\
        events (snd out) = new ++ events w /\
        forall ds,
          In (RuntimeWarning ds) new <->
          ds = deltas /\
          exists b, (b < length X)%nat /\
                    warning_threshold self < nth b deltas 0.
Proof.
  intros self w X references target out. split.
  - intros th. apply attribute_threshold.
  - intros gradients Hok. destruct out as [[res self'] w'] eqn:E.
    simpl in Hok. subst res.
    destruct (attribute_deltas self w X references target gradients
                self' w' E) as (deltas & Ld & _ & _ & Hd & Hev & SE).
    exists deltas, (check_events self' deltas).
    split; [exact Ld|]. split; [exact Hd|]. split; [exact Hev|].
    intros ds. rewrite check_events_warning, Ld.
    destruct SE as (_ & -> & _). reflexivity.
Qed.

Lemma attribute_convergence_warning_witness :
  let out := attribute default_engine relu_world toy_X toy_references 0 in
  let gradients := match fst (fst out) with Ok g => g | Raise _ => [] end in
  exists deltas new,
    length deltas = length toy_X /\
    (forall b, (b < length toy_X)%nat ->
       convergence_delta (modules relu_world) 0 (nth b toy_X [])
         (nth b toy_references []) (nth b gradients [])
       = Some (nth b deltas 0)) /\
    events (snd out) = new ++ events relu_world /\
    forall ds,
      In (RuntimeWarning ds) new <->
      ds = deltas /\
      exists b, (b < length toy_X)%nat /\
                warning_threshold default_engine < nth b deltas 0.
Proof.
  intros out gradients.
  apply (proj2 (attribute_convergence_warning default_engine relu_world
                  toy_X toy_references 0) gradients).
  vm_compute. reflexivity.
Defined.

(** ** Linear algebra on lists *)

Lemma vdot_minus_l (u v w : vec) :
  length u = length v ->
  vdot (map2 Qcminus u v) w = vdot u w - vdot v w.
Proof.
  unfold vdot. revert v w.
  induction u as [|a u IH]; intros [|b v] [|c w] H; simpl in *;
    try discriminate; try ring.
  fold (vsum (map2 Qcmult (map2 Qcminus u v) w)).
  fold (vsum (map2 Qcmult u w)). fold (vsum (map2 Qcmult v w)).
  rewrite IH by lia. ring.
Qed.

Lemma vdot_comm (u v : vec) : vdot u v = vdot v u.
Proof.
  unfold vdot. revert v. induction u as [|a u IH]; intros [|b v]; simpl;
    try reflexivity.
  fold (vsum (map2 Qcmult u v)). fold (vsum (map2 Qcmult v u)).
  rewrite IH. ring.
Qed.

Lemma vdot_minus_r (w u v : vec) :
  length u = length v ->
  vdot w (map2 Qcminus u v) = vdot w u - vdot w v.
Proof.
  intros H. rewrite vdot_comm, vdot_minus_l by exact H.
  rewrite (vdot_comm u), (vdot_comm v). reflexivity.
Qed.

Lemma vdot_zeros (u : vec) (n : nat) : vdot u (zeros n) = 0.
Proof.
  unfold vdot, zeros. revert n. induction u as [|a u IH]; intros [|n];
    simpl; try reflexivity.
  fold (vsum (map2 Qcmult u (repeat 0 n))). rewrite IH. ring.
Qed.

Lemma vdot_plus_r (u v w : vec) :
  length v = length w ->
  vdot u (map2 Qcplus v w) = vdot u v + vdot u w.
Proof.
  unfold vdot. revert v w.
  induction u as [|a u IH]; intros [|b v] [|c w] H; simpl in *;
    try discriminate; try ring.
  fold (vsum (map2 Qcmult u (map2 Qcplus v w))).
  fold (vsum (map2 Qcmult u v)). fold (vsum (map2 Qcmult u w)).
  rewrite IH by lia. ring.
Qed.

Lemma vdot_scale_r (u w : vec) (k : Qc) :
  vdot u (map (Qcmult k) w) = k * vdot u w.
Proof.
  unfold vdot. revert w. induction u as [|a u IH]; intros [|b w]; simpl;
    try ring.
  fold (vsum (map2 Qcmult u (map (Qcmult k) w))).
  fold (vsum (map2 Qcmult u w)). rewrite IH. ring.
Qed.

(** [u . (g W) = sum_i g_i (W_i . u)]. *)
Lemma vdot_row_backward (W : mat) (g u : vec) (n : nat) :
  Forall (fun w => length w = n) W ->
  length (fold_right (map2 Qcplus) (zeros n)
            (map2 (fun gi w => map (Qcmult gi) w) g W)) = n /\
  vdot u (fold_right (map2 Qcplus) (zeros n)
            (map2 (fun gi w => map (Qcmult gi) w) g W)) =
  vsum (map2 (fun gi w => gi * vdot w u) g W).
Proof.
  intros F. revert g. induction F as [|w W Hw F IH]; intros [|gi g]; simpl;
    try (split; [apply repeat_length | apply vdot_zeros]).
  destruct (IH g) as [L E].
  split.
  - rewrite length_map2; rewrite length_map; congruence.
  - fold (vsum (map2 (fun gi0 w0 => gi0 * vdot w0 u) g W)).
    rewrite vdot_plus_r by (rewrite length_map; congruence).
    rewrite E, vdot_scale_r, (vdot_comm u w). reflexivity.
Qed.

Lemma forallb_length (W : mat) (n : nat) :
  forallb (fun w => length w =? n)%nat W = true ->
  Forall (fun w => length w = n) W.
Proof.
  intros H. apply Forall_forall. intros w Hw.
  rewrite forallb_forall in H. apply Nat.eqb_eq. apply H. exact Hw.
Qed.

(** One row through [torch.nn.Linear]: the gradient is the adjoint. *)
Lemma linear_row_adjoint (W : mat) (bias x r y y' g gin : vec) :
  linear_row W bias x = Some y ->
  linear_row W bias r = Some y' ->
  length x = length r ->
  linear_row_backward W (length x) g = Some gin ->
  length y = length y' /\ length gin = length x /\
  vdot (map2 Qcminus x r) gin = vdot (map2 Qcminus y y') g.
Proof.
  unfold linear_row, linear_row_backward. intros Hy Hy' Hl Hg.
  destruct (forallb (fun w => length w =? length x)%nat W) eqn:EW;
    [|discriminate].
  destruct (length bias =? length W)%nat eqn:Eb; [|discriminate].
  rewrite <- Hl, EW in Hy'. simpl in Hy, Hy'.
  destruct (length g =? length W)%nat eqn:Eg; [|discriminate].
  inversion Hy; inversion Hy'; inversion Hg; subst; clear Hy Hy' Hg.
  apply forallb_length in EW. apply Nat.eqb_eq in Eb, Eg.
  destruct (vdot_row_backward W g (map2 Qcminus x r) (length x) EW)
    as [L E].
  split; [rewrite !length_map2; congruence|]. split; [exact L|].
  rewrite E. clear L E.
  revert g bias Eb Eg. induction EW as [|w W Hw F IH];
    intros [|gi g] [|b bias] Eb Eg; simpl in *; try discriminate;
    try reflexivity.
  unfold vdot at 3. simpl.
  fold (vdot (map2 Qcminus
                (map2 (fun w0 b0 => vdot w0 x + b0) W bias)
                (map2 (fun w0 b0 => vdot w0 r + b0) W bias)) g).
  fold (vsum (map2 (fun gi0 w0 => gi0 * vdot w0 (map2 Qcminus x r)) g W)).
  rewrite (IH g bias) by lia. rewrite vdot_minus_r by exact Hl. ring.
Qed.

Lemma mdot_cons (a b : vec) (A B : mat) :
  mdot (a :: A) (b :: B) = vdot a b + mdot A B.
Proof. reflexivity. Qed.

Lemma linear_adjoint (W : mat) (bias : vec) :
  forall x r y y' g gin,
    linear_forward W bias x = Some y -> linear_forward W bias r = Some y' ->
    same_shape2 x r = true -> linear_backward W x g = Some gin ->
    same_shape2 y y' = true /\
    mdot (map2 (map2 Qcminus) x r) gin = mdot (map2 (map2 Qcminus) y y') g.
Proof.
  unfold linear_forward, linear_backward, same_shape2.
  induction x as [|xr x IH]; intros [|rr r] y y' g gin Hy Hy' Hs Hg;
    simpl in *; try discriminate.
  - inversion Hy; inversion Hy'; subst. split; reflexivity.
  - destruct (linear_row W bias xr) as [yr|] eqn:E1; [|discriminate].
    destruct (mapM (linear_row W bias) x) as [ys|] eqn:E2; [|discriminate].
    destruct (linear_row W bias rr) as [yr'|] eqn:E3; [|discriminate].
    destruct (mapM (linear_row W bias) r) as [ys'|] eqn:E4; [|discriminate].
    simpl in Hy, Hy'. inversion Hy; inversion Hy'; subst; clear Hy Hy'.
    destruct g as [|gr g]; [discriminate|]. simpl in Hg.
    destruct (linear_row_backward W (length xr) gr) as [gi|] eqn:E5;
      [|discriminate].
    simpl in Hg.
    destruct (mapM2 _ x g) as [gis|] eqn:E6; [|discriminate].
    inversion Hg; subst; clear Hg.
    apply andb_prop in Hs. destruct Hs as [Hs1 Hs2].
    unfold same_shape1 in Hs1. apply Nat.eqb_eq in Hs1.
    destruct (linear_row_adjoint W bias xr rr yr yr' gr gi E1 E3 Hs1 E5)
      as (L1 & _ & D1).
    destruct (IH r ys ys' g gis eq_refl E4 Hs2 E6) as [S2 D2].
    split.
    + simpl. unfold same_shape1 at 1. rewrite L1, Nat.eqb_refl. exact S2.
    + rewrite !mdot_cons, D1, D2. reflexivity.
Qed.

Lemma map2_app {A B C} (f : A -> B -> C) (a a' : list A) (b b' : list B) :
  length a = length b ->
  map2 f (a ++ a') (b ++ b') = map2 f a b ++ map2 f a' b'.
Proof.
  revert b. induction a as [|x a IH]; intros [|y b] H; simpl in *;
    try discriminate; [reflexivity|]. f_equal. apply IH. lia.
Qed.

Lemma concat_map2 {A B C} (f : A -> B -> C) (x : list (list A))
  (r : list (list B)) :
  same_shape2 x r = true ->
  concat (map2 (map2 f) x r) = map2 f (concat x) (concat r) /\
  length (concat x) = length (concat r).
Proof.
  unfold same_shape2. revert r.
  induction x as [|a x IH]; intros [|b r] H; simpl in *; try discriminate.
  - split; reflexivity.
  - apply andb_prop in H. destruct H as [H1 H2].
    unfold same_shape1 in H1. apply Nat.eqb_eq in H1.
    destruct (IH r H2) as [E L]. split.
    + rewrite map2_app by exact H1. rewrite E. reflexivity.
    + rewrite !length_app. lia.
Qed.

Lemma vdot_app (a a' b b' : vec) :
  length a = length b ->
  vdot (a ++ a') (b ++ b') = vdot a b + vdot a' b'.
Proof.
  intros H. unfold vdot. rewrite map2_app by exact H. apply vsum_app.
Qed.

(** [sum(u * v.view(x.shape)) = sum(u.flatten() * v)]. *)
Lemma mdot_unflatten (x : mat) :
  forall (u : mat) (v : vec),
    same_shape2 u x = true -> length v = length (concat x) ->
    mdot u (unflatten_like x v) = vdot (concat u) v.
Proof.
  unfold same_shape2.
  induction x as [|a x IH]; intros [|b u] v Hs Hv; simpl in *;
    try discriminate.
  - destruct v; [reflexivity | discriminate].
  - apply andb_prop in Hs. destruct Hs as [H1 H2].
    unfold same_shape1 in H1. apply Nat.eqb_eq in H1.
    rewrite length_app in Hv.
    rewrite mdot_cons, IH; [|exact H2 | rewrite length_skipn; lia].
    rewrite <- (firstn_skipn (length a) v) at 3.
    rewrite vdot_app; [reflexivity|].
    rewrite length_firstn. lia.
Qed.

Lemma same_shape2_map2_l {A B C} (f : A -> B -> C) (x : list (list A))
  (r : list (list B)) :
  same_shape2 x r = true -> same_shape2 (map2 (map2 f) x r) x = true.
Proof.
  unfold same_shape2. revert r.
  induction x as [|a x IH]; intros [|b r] H; simpl in *; try discriminate;
    [reflexivity|].
  apply andb_prop in H. destruct H as [H1 H2].
  rewrite (IH r H2), andb_true_r. unfold same_shape1 in *.
  apply Nat.eqb_eq in H1. apply Nat.eqb_eq. apply length_map2. exact H1.
Qed.

Lemma flatten_adjoint :
  forall x r y y' g gin,
    flatten_forward x = Some y -> flatten_forward r = Some y' ->
    same_shape2 x r = true -> flatten_backward x g = Some gin ->
    same_shape2 y y' = true /\
    mdot (map2 (map2 Qcminus) x r) gin = mdot (map2 (map2 Qcminus) y y') g.
Proof.
  unfold flatten_forward, flatten_backward.
  intros x r y y' g gin Hy Hy' Hs Hg.
  inversion Hy; inversion Hy'; subst; clear Hy Hy'.
  destruct g as [|gr [|g2 g]]; try discriminate.
  destruct (length gr =? length (concat x))%nat eqn:El; [|discriminate].
  apply Nat.eqb_eq in El. inversion Hg; subst; clear Hg.
  destruct (concat_map2 Qcminus x r Hs) as [Ec Lc].
  split.
  - unfold same_shape2, forallb2, same_shape1.
    rewrite Lc, Nat.eqb_refl. reflexivity.
  - rewrite mdot_unflatten;
      [| apply same_shape2_map2_l; exact Hs | exact El].
    rewrite Ec. simpl. rewrite mdot_cons.
    change (mdot [] []) with (Q2Qc 0). ring.
Qed.

Lemma linear_layer_adjoint (m : Module) : linear_layer m -> adjoint_layer m.
Proof.
  intros [(W & bias & Hf & Hb)|[Hf Hb]] x r y y' g gin; rewrite Hf, Hb.
  - apply linear_adjoint.
  - apply flatten_adjoint.
Qed.

(** The adjoint identity through a whole model. *)
Lemma model_adjoint (ms : list Module) :
  Forall adjoint_layer ms ->
  forall x r ox or g gin,
    model_forward ms x = Some ox -> model_forward ms r = Some or ->
    same_shape2 x r = true -> model_backward ms x g = Some gin ->
    same_shape2 ox or = true /\
    mdot (map2 (map2 Qcminus) x r) gin =
    mdot (map2 (map2 Qcminus) ox or) g.
Proof.
  intros F. induction F as [|m ms Hm F IH]; intros x r ox or g gin Hx Hr Hs Hg;
    simpl in *.
  - inversion Hx; inversion Hr; inversion Hg; subst. auto.
  - destruct (forward m x) as [y|] eqn:Ey; [|discriminate].
    destruct (forward m r) as [y'|] eqn:Ey'; [|discriminate].
    simpl in *.
    destruct (model_backward ms y g) as [g'|] eqn:Eg; [|discriminate].
    simpl in Hg.
    destruct (Hm x r y y' g' gin Ey Ey' Hs Hg) as [S1 D1].
    destruct (IH y y' ox or g g' Hx Hr S1 Eg) as [S2 D2].
    split; [exact S2 | congruence].
Qed.

Lemma vdot_onehot_from (u : vec) (s t : nat) :
  vdot u (map (fun j => if (j =? t)%nat then 1 else 0) (seq s (length u))) =
  if (s <=? t)%nat then nth (t - s) u 0 else 0.
Proof.
  unfold vdot. revert s. induction u as [|a u IH]; intros s; simpl.
  - destruct (s <=? t)%nat; [destruct (t - s)%nat|]; reflexivity.
  - fold (vsum (map2 Qcmult u
            (map (fun j => if (j =? t)%nat then 1 else 0)
                 (seq (S s) (length u))))).
    rewrite IH.
    destruct (Nat.eqb_spec s t) as [->|Hne].
    + rewrite Nat.leb_refl, Nat.sub_diag.
      destruct (Nat.leb_spec (S t) t); [lia|]. ring.
    + destruct (Nat.leb_spec s t) as [Hle|Hgt].
      * destruct (Nat.leb_spec (S s) t); [|lia].
        replace (t - s)%nat with (S (t - S s)) by lia. ring.
      * destruct (Nat.leb_spec (S s) t); [lia|]. ring.
Qed.

Lemma vdot_onehot (u : vec) (t : nat) :
  vdot u (onehot (length u) t) = nth t u 0.
Proof.
  unfold onehot. rewrite vdot_onehot_from. simpl.
  rewrite Nat.sub_0_r. reflexivity.
Qed.

(** The seed gradient picks the target output. *)
Lemma seed_adjoint (ox or : mat) (t : nat) (fx fr : Qc) :
  same_shape2 ox or = true ->
  nth_error (concat ox) t = Some fx -> nth_error (concat or) t = Some fr ->
  mdot (map2 (map2 Qcminus) ox or)
       (unflatten_like ox (onehot (length (concat ox)) t)) = fx - fr.
Proof.
  intros Hs Hx Hr. destruct (concat_map2 Qcminus ox or Hs) as [Ec Lc].
  rewrite mdot_unflatten;
    [| apply same_shape2_map2_l; exact Hs
     | unfold onehot; rewrite length_map, length_seq; reflexivity].
  rewrite Ec, vdot_minus_l by exact Lc.
  rewrite vdot_onehot. rewrite Lc, vdot_onehot.
  rewrite (nth_error_nth _ _ 0 Hx), (nth_error_nth _ _ 0 Hr). reflexivity.
Qed.

(** ** The engine on a purely linear model *)

Lemma mapM2_nth {A B C} (f : A -> B -> option C) (l1 : list A) (l2 : list B)
  (l3 : list C) (d1 : A) (d2 : B) (d3 : C) :
  mapM2 f l1 l2 = Some l3 ->
  length l2 = length l1 /\ length l3 = length l1 /\
  forall i, (i < length l1)%nat ->
    f (nth i l1 d1) (nth i l2 d2) = Some (nth i l3 d3).
Proof.
  revert l2 l3. induction l1 as [|a l1 IH]; intros [|b l2] l3 H;
    simpl in H; try discriminate.
  - inversion H; subst. repeat split. intros i Hi. simpl in Hi. lia.
  - destruct (f a b) as [c|] eqn:E; [|discriminate]. simpl in H.
    destruct (mapM2 f l1 l2) as [cs|] eqn:E2; [|discriminate].
    inversion H; subst.
    destruct (IH l2 cs E2) as (L2 & L3 & Hn).
    simpl. repeat split; try lia.
    intros [|i] Hi; [exact E | apply Hn; lia].
Qed.

Lemma backward_module_plain (self : DeepLiftShap) (m : Module) (x g : ten3) :
  Forall (fun e => snd e <> b_hook) (_backward_hooks m) ->
  backward_module self m x g = mapM2 (backward m) x g.
Proof.
  intros F. unfold backward_module.
  destruct (mapM2 (backward m) x g) as [gi|]; [|reflexivity]. simpl.
  generalize (Some gi). induction F as [|e d He F IH]; intros o; simpl.
  - reflexivity.
  - rewrite <- IH. f_equal. destruct (snd e); congruence.
Qed.

Lemma backward_pass_examples (self : DeepLiftShap) (ms : list Module) :
  Forall (fun m => Forall (fun e => snd e <> b_hook) (_backward_hooks m)) ms ->
  forall x tape out gout gin,
    forward_tape ms x = Some (tape, out) ->
    backward_pass self ms tape gout = Some gin ->
    forall i, (i < length x)%nat ->
      model_backward ms (nth i x []) (nth i gout []) = Some (nth i gin []).
Proof.
  intros F. induction F as [|m ms Hm F IH];
    intros x tape out gout gin Hf Hb i Hi; simpl in *.
  - inversion Hf; subst. simpl in Hb. inversion Hb; subst. reflexivity.
  - destruct (mapM (forward m) x) as [y|] eqn:Ey; [|discriminate].
    simpl in Hf.
    destruct (forward_tape ms y) as [[tape' out']|] eqn:Et; [|discriminate].
    simpl in Hf. inversion Hf; subst; clear Hf. simpl in Hb.
    destruct (backward_pass self ms tape' gout) as [g'|] eqn:Eg;
      [|discriminate].
    simpl in Hb. rewrite backward_module_plain in Hb by exact Hm.
    destruct (mapM2_nth _ _ _ _ [] [] [] Hb) as (L2 & L3 & Hn).
    rewrite (mapM_nth _ x y [] [] i Ey Hi). simpl.
    rewrite (IH y tape' out gout g' Et Eg i)
      by (rewrite (mapM_length _ _ _ Ey); exact Hi).
    simpl. apply Hn. exact Hi.
Qed.

Lemma model_backward_same_layer (ms ms' : list Module) :
  Forall2 same_layer ms ms' ->
  forall x g, model_backward ms' x g = model_backward ms x g.
Proof.
  intros F. induction F as [|m m' ms ms' S F IH]; intros x g; simpl.
  - reflexivity.
  - destruct S as (_ & -> & -> & _).
    destruct (forward m x) as [y|]; simpl; [|reflexivity].
    rewrite IH. reflexivity.
Qed.

Lemma apply_register_hooks_none (ms : list Module) :
  forall self id pos,
    Forall (fun m => ops_lookup (_NON_LINEAR_OPS self) (cls m) = None) ms ->
    apply_register_hooks self id pos ms = (self, id, ms).
Proof.
  induction ms as [|m ms IH]; intros self id pos F; simpl; [reflexivity|].
  inversion F as [|? ? Hm F']; subst.
  unfold _register_hooks. rewrite Hm.
  destruct (0 <? length (_backward_hooks m))%nat; rewrite IH by exact F';
    reflexivity.
Qed.

Lemma same_shape3_nth {A B} (a : list (list (list A)))
  (b : list (list (list B))) i :
  same_shape3 a b = true -> (i < length a)%nat ->
  same_shape2 (nth i a []) (nth i b []) = true.
Proof.
  unfold same_shape3. revert b i.
  induction a as [|x a IH]; intros [|y b] i H Hi; simpl in *;
    try discriminate; try lia.
  apply andb_prop in H. destruct H as [H1 H2].
  destruct i as [|i]; [exact H1 | apply IH; [exact H2 | lia]].
Qed.

Lemma same_shape3_of_zip3 {A B C} (f : A -> B -> C) a b c :
  zip3 f a b = Some c -> same_shape3 a b = true.
Proof.
  unfold zip3. destruct (same_shape3 a b); [reflexivity | discriminate].
Qed.

(** Where no layer is instrumented and every layer's gradient is the
    adjoint, the multipliers [attribute] returns satisfy the convergence
    law for every pair. *)
Lemma attribute_adjoint (self : DeepLiftShap) (w : world)
  (X references : ten3) (target : nat) (gradients : ten3)
  (self' : DeepLiftShap) (w' : world) :
  Forall adjoint_layer (modules w) ->
  Forall (uninstrumented self) (modules w) ->
  attribute self w X references target = (Ok gradients, self', w') ->
  forall b, (b < length X)%nat ->
    exists fx fr,
      model_output (modules w) target (nth b X []) = Some fx /\
      model_output (modules w) target (nth b references []) = Some fr /\
      mdot (map2 (map2 Qcminus) (nth b X []) (nth b references []))
           (nth b gradients []) = fx - fr.
Proof.
  intros Fadj Fun H b Hb.
  pose proof (attribute_Ok_inv _ _ _ _ _ _ _ _ H) as Hinv.
  destruct Hinv as (_ & id1 & ms1 & ms2 & tape & out & y & g & od & diffs &
                    contribs & d & E1 & E2 & Ey & Eg & -> & Eo & Ed & Ect &
                    Edd & Eev).
  rewrite apply_register_hooks_none in E1
    by (eapply Forall_impl; [|exact Fun]; intros m Hm; apply Hm).
  inversion E1; subst self' id1 ms1; clear E1.
  destruct (forward_pass_spec _ _ _ _ E2) as [F2 R2].
  assert (F2' : Forall2 same_layer (modules w) ms2)
    by (eapply Forall2_same_layer_weaken; exact F2).
  (* the modules the backward pass sees carry no engine hook *)
  assert (Fnb : Forall (fun m => Forall (fun e => snd e <> b_hook)
                                        (_backward_hooks m)) ms2).
  { clear - F2 Fun. induction F2 as [|m m' ms ms' [_ V] F IH];
      constructor; inversion Fun; subst.
    - unfold hooks_view in V. injection V; intros -> _ _.
      match goal with Hu : uninstrumented _ m |- _ => apply Hu end.
    - apply IH. assumption. }
  symmetry in R2. rewrite <- (forward_tape_same_layer _ _ F2') in R2.
  pose proof (backward_pass_examples self ms2 Fnb _ _ _ _ _ R2 Eg b) as Hbk.
  rewrite app_nth1 in Hbk by exact Hb.
  rewrite length_app in Hbk. specialize (Hbk ltac:(lia)).
  rewrite (model_backward_same_layer _ _ F2') in Hbk.
  (* the outputs of the pair *)
  pose proof (forward_tape_examples ms2 (X ++ references)) as Hx.
  rewrite R2 in Hx. simpl in Hx. symmetry in Hx.
  pose proof (same_shape3_of_zip3 _ _ _ _ Ed) as HsXR.
  apply zip3_Some in Ed. destruct Ed as [_ LXR].
  assert (Lout : length out = (length X + length references)%nat)
    by (rewrite (mapM_length _ _ _ Hx), length_app; reflexivity).
  pose proof (mapM_nth _ _ _ [] [] b Hx) as Hox.
  rewrite app_nth1 in Hox by exact Hb.
  rewrite length_app in Hox. specialize (Hox ltac:(lia)).
  pose proof (mapM_nth _ _ _ [] [] (length X + b) Hx) as Hor.
  rewrite app_nth2 in Hor by lia.
  replace (length X + b - length X)%nat with b in Hor by lia.
  rewrite length_app in Hor. specialize (Hor ltac:(lia)).
  rewrite (model_forward_same_layer _ _ F2') in Hox, Hor.
  unfold select_target in Ey.
  pose proof (mapM_nth _ _ _ [] 0 b Ey ltac:(lia)) as Hfx.
  pose proof (mapM_nth _ _ _ [] 0 (length X + b) Ey ltac:(lia)) as Hfr.
  simpl in Hfx, Hfr.
  exists (nth b y 0), (nth (length X + b) y 0).
  unfold model_output. rewrite Hox, Hor. simpl.
  split; [exact Hfx|]. split; [exact Hfr|].
  unfold seed_gradient in Hbk.
  rewrite (nth_map_default _ out []) in Hbk by lia.
  pose proof (same_shape3_nth X references b HsXR Hb) as HsB.
  destruct (model_adjoint (modules w) Fadj _ _ _ _ _ _ Hox Hor HsB Hbk)
    as [Sout D].
  rewrite nth_firstn_lt by exact Hb. rewrite D.
  apply seed_adjoint; assumption.
Qed.

(** On the end-to-end scenario the multipliers are the weights. *)
Example linear_world_multipliers :
  fst (fst (attribute default_engine linear_world toy_X toy_references 0)) =
  Ok toy_multipliers.
Proof.
  unfold toy_multipliers. vm_compute.
  repeat (f_equal; try (apply Qc_is_canon; reflexivity)).
Qed.

(** ** The batched driver *)

(** C10.  With no example in [X] the number of pairs is [0], the loop
    over the pairs leaves its initial state untouched ([attributions]
    stays empty), and the final [torch.stack] of the empty list raises:
    [deep_lift_shap] raises instead of returning an empty tensor. *)
Theorem deep_lift_shap_empty_raises :
  forall (target batch_size : nat) (references : references_arg)
         (n_shuffles : nat) (return_references hypothetical : bool)
         (warning_threshold : Qc)
         (additional_nonlinear_ops : option ops_dict)
         (print_convergence_deltas raw_outputs : bool)
         (random_state : option Z) (w : world) (rng0 : nat),
    let n := (length (@nil (list (list Qc))) * n_shuffles_ references n_shuffles)%nat in
    n = 0%nat /\
    for_range
      (loop_body [] target batch_size references n_shuffles
         return_references hypothetical warning_threshold
         additional_nonlinear_ops print_convergence_deltas raw_outputs
         random_state n)
      (mkLoop [] [] [] [] 0 [] w rng0) (seq 0 n)
    = Ok (mkLoop [] [] [] [] 0 [] w rng0) /\
    deep_lift_shap [] target batch_size references n_shuffles
      return_references hypothetical warning_threshold
      additional_nonlinear_ops print_convergence_deltas raw_outputs
      random_state w rng0
    = Raise RuntimeError.
Proof.
  intros. split; [reflexivity|]. split; reflexivity.
Qed.

Lemma same_shape1_sym {A B} (a : list A) (b : list B) :
  same_shape1 a b = same_shape1 b a.
Proof. unfold same_shape1. apply Nat.eqb_sym. Qed.

Lemma same_shape2_sym {A B} (a : list (list A)) (b : list (list B)) :
  same_shape2 a b = same_shape2 b a.
Proof.
  unfold same_shape2. revert b.
  induction a as [|x a IH]; intros [|y b]; simpl; try reflexivity.
  rewrite IH, same_shape1_sym. reflexivity.
Qed.

Lemma same_shape2_trans {A B C} (a : list (list A)) (b : list (list B))
  (c : list (list C)) :
  same_shape2 a b = true -> same_shape2 b c = true -> same_shape2 a c = true.
Proof.
  unfold same_shape2. revert b c.
  induction a as [|x a IH]; intros [|y b] [|z c] H1 H2; simpl in *;
    try discriminate; [reflexivity|].
  apply andb_prop in H1. apply andb_prop in H2.
  destruct H1 as [H1 H1'], H2 as [H2 H2'].
  rewrite (IH b c H1' H2'), andb_true_r. unfold same_shape1 in *.
  apply Nat.eqb_eq in H1, H2. apply Nat.eqb_eq. congruence.
Qed.

Section Hypothetical.

Variables (X : ten3) (target batch_size : nat) (references : references_arg).
Variables (n_shuffles : nat) (return_references : bool).
Variables (warning_threshold : Qc).
Variables (additional_nonlinear_ops : option ops_dict).
Variables (print_convergence_deltas : bool) (random_state : option Z).

Let R := n_shuffles_ references n_shuffles.

Let drain_of (hypothetical : bool) :=
  drain X references n_shuffles hypothetical false.

Let run_batch_of (hypothetical : bool) :=
  run_batch X target references n_shuffles return_references hypothetical
    warning_threshold additional_nonlinear_ops print_convergence_deltas
    false random_state.

Let loop_body_of (hypothetical : bool) :=
  loop_body X target batch_size references n_shuffles return_references
    hypothetical warning_threshold additional_nonlinear_ops
    print_convergence_deltas false random_state.

Lemma observed_of_snoc (lf lt : list attribution) (m xk : mat) :
  observed_of X lf lt ->
  nth_error X (length lt) = Some xk ->
  same_shape2 m xk = true ->
  observed_of X (lf ++ [Processed (map2 (map2 Qcmult) m xk)])
                (lt ++ [Processed m]).
Proof.
  intros [L H] Hx Hs. split; [rewrite !length_app; simpl; lia|].
  intros k Hk. rewrite length_app in Hk. simpl in Hk.
  destruct (Nat.lt_ge_cases k (length lt)) as [Hlt|Hge].
  - destruct (H k Hlt) as (m' & x' & H1 & H2 & H3 & H4).
    exists m', x'. rewrite !nth_error_app1 by lia. auto.
  - assert (k = length lt) by lia. subst k.
    exists m, xk. rewrite nth_error_app2 by lia.
    rewrite nth_error_app2 by lia. rewrite L, !Nat.sub_diag. simpl. auto.
Qed.

(** Finalizing examples, without and with [hypothetical]. *)
Lemma drain_observed (fuel : nat) :
  forall attr_ lf lt a' lf' z',
    observed_of X lf lt ->
    drain_of false fuel attr_ lf (length lt) = Ok (a', lf', z') ->
    exists lt',
      drain_of true fuel attr_ lt (length lt) = Ok (a', lt', z') /\
      observed_of X lf' lt' /\ z' = length lt'.
Proof.
  unfold drain_of. induction fuel as [|fuel IH];
    intros attr_ lf lt a' lf' z' Hrel H; simpl in *.
  - destruct (n_shuffles_ references n_shuffles <=? length attr_)%nat;
      [discriminate|].
    inversion H; subst. exists lt. auto.
  - destruct (n_shuffles_ references n_shuffles <=? length attr_)%nat;
      [|inversion H; subst; exists lt; auto].
    unfold finalize_chunk in *.
    destruct (stack_check (firstn (n_shuffles_ references n_shuffles) attr_))
      as [chunk|]; [|discriminate].
    cbn [lift rbind] in *.
    destruct (mean_dim0 chunk) as [m|]; [|discriminate].
    cbn [lift rbind] in *.
    destruct (nth_error X (length lt)) as [xk|] eqn:Ex; [|discriminate].
    cbn [lift rbind] in H.
    destruct (zip2_mat Qcmult m xk) as [mx|] eqn:Ez; [|discriminate].
    cbn [lift rbind] in H.
    unfold zip2_mat, zip2 in Ez.
    destruct (same_shape2 m xk) eqn:Es; [|discriminate].
    inversion Ez; subst mx; clear Ez.
    pose proof (observed_of_snoc lf lt m xk Hrel Ex Es) as Hrel'.
    replace (S (length lt)) with (length (lt ++ [Processed m])) in H |- *
      by (rewrite length_app; simpl; lia).
    apply (IH _ _ _ _ _ _ Hrel' H).
Qed.

(** The two runs agree on everything but [attributions]. *)
Let related (sf st : loop_state) : Prop :=
  Xi sf = Xi st /\ rj sf = rj st /\ attr_ sf = attr_ st /\ z sf = z st /\
  references_ sf = references_ st /\ wld sf = wld st /\ rng sf = rng st /\
  observed_of X (attributions sf) (attributions st) /\
  z st = length (attributions st).

Lemma run_batch_observed (sf st sf' : loop_state) :
  related sf st ->
  run_batch_of false sf = Ok sf' ->
  exists st', run_batch_of true st = Ok st' /\ related sf' st'.
Proof.
  intros (H1 & H2 & H3 & H4 & H5 & H6 & H7 & Hobs & Hz) H.
  unfold run_batch_of, run_batch, batch_multipliers in *.
  rewrite H1, H2, H3, H4, H5, H6, H7 in H.
  destruct (mapM (nth_error X) (Xi st)) as [_X|]; [|discriminate].
  cbn [lift rbind] in *.
  destruct (resolve_references references random_state (Xi st) (rj st) _X
              (rng st)) as [rr|]; [|discriminate].
  cbn [rbind fst snd] in *.
  destruct (fst (fst (attribute _ (wld st) _X (fst rr) target)))
    as [mult|]; [|discriminate].
  cbn [rbind] in *.
  destruct (hypothetical_attributions _ _ _) as [r|]; [|discriminate].
  cbn [rbind] in *.
  destruct r as [[|[t|] items]|]; try discriminate.
  cbn [rbind] in *. rewrite Hz in *.
  destruct (drain X references n_shuffles false false _ _ _ _)
    as [[[a' lf'] z']|] eqn:Ed; [|discriminate].
  cbn [rbind] in H. inversion H; subst sf'; clear H.
  destruct (drain_observed _ _ _ _ _ _ _ Hobs Ed) as (lt' & Ed' & Hobs' & Hz').
  unfold drain_of in Ed'. rewrite Ed'. cbn [rbind fst snd].
  eexists. split; [reflexivity|]. unfold related. simpl.
  repeat split; auto; apply Hobs'.
Qed.

Lemma loop_body_observed (n i : nat) (sf st sf' : loop_state) :
  related sf st ->
  loop_body_of false n sf i = Ok sf' ->
  exists st', loop_body_of true n st i = Ok st' /\ related sf' st'.
Proof.
  intros Hrel H. unfold loop_body_of, loop_body in *.
  destruct Hrel as (H1 & H2 & H3 & H4 & H5 & H6 & H7 & Hobs & Hz).
  cbn [Xi] in *. rewrite H1 in H.
  set (sf1 := mkLoop (Xi st ++ _) (rj sf ++ _) (attr_ sf) (attributions sf)
                (z sf) (references_ sf) (wld sf) (rng sf)) in H.
  set (st1 := mkLoop (Xi st ++ _) (rj st ++ _) (attr_ st) (attributions st)
                (z st) (references_ st) (wld st) (rng st)).
  assert (Hrel1 : related sf1 st1).
  { unfold related, sf1, st1. simpl. rewrite H2.
    repeat split; auto; apply Hobs. }
  destruct ((length (Xi st ++ _) =? batch_size)%nat || (i =? n - 1)%nat).
  - exact (run_batch_observed sf1 st1 sf' Hrel1 H).
  - inversion H; subst sf'; clear H. exists st1. split; [reflexivity|].
    exact Hrel1.
Qed.

Lemma for_range_observed (n : nat) (l : list nat) :
  forall sf st sf',
    related sf st ->
    for_range (loop_body_of false n) sf l = Ok sf' ->
    exists st', for_range (loop_body_of true n) st l = Ok st' /\
                related sf' st'.
Proof.
  induction l as [|i l IH]; intros sf st sf' Hrel H; simpl in *.
  - inversion H; subst. exists st. auto.
  - destruct (loop_body_of false n sf i) as [sf1|] eqn:E; [|discriminate].
    cbn [rbind] in H.
    destruct (loop_body_observed n i sf st sf1 Hrel E) as (st1 & E1 & Hrel1).
    rewrite E1. cbn [rbind]. apply (IH sf1 st1 sf' Hrel1 H).
Qed.

End Hypothetical.

Lemma nth_map2_mult (u v : vec) (p : nat) :
  length u = length v ->
  nth p (map2 Qcmult u v) 0 = nth p u 0 * nth p v 0.
Proof.
  revert v p. induction u as [|a u IH]; intros [|b v] p H; simpl in *;
    try discriminate.
  - destruct p; ring.
  - destruct p as [|p]; [reflexivity | apply IH; lia].
Qed.

Lemma get2_map2_mult (m x : mat) (a p : nat) :
  same_shape2 m x = true ->
  get2 (map2 (map2 Qcmult) m x) a p = get2 m a p * get2 x a p.
Proof.
  unfold get2, same_shape2. revert x a.
  induction m as [|r m IH]; intros [|s x] a H; simpl in *; try discriminate.
  - destruct a; destruct p; simpl; ring.
  - apply andb_prop in H. destruct H as [H1 H2].
    destruct a as [|a]; [|apply IH; exact H2].
    apply nth_map2_mult. apply Nat.eqb_eq. exact H1.
Qed.

Lemma stack_attributions_Ok (l l' : list attribution) :
  stack_attributions l = Ok l' -> l' = l.
Proof.
  unfold stack_attributions. destruct l as [|a rest]; [discriminate|].
  destruct (forallb _ rest); [|discriminate]. intros H. inversion H.
  reflexivity.
Qed.

Lemma stack_observed (X : ten3) (lf lt : list attribution) :
  observed_of X lf lt ->
  stack_attributions lf = Ok lf -> stack_attributions lt = Ok lt.
Proof.
  intros [L H] Hs. unfold stack_attributions in *.
  destruct lf as [|af restf]; [discriminate|].
  destruct lt as [|bt restt]; [discriminate|].
  destruct (forallb (same_shape_attribution af) restf) eqn:Ef;
    [|discriminate].
  assert (Et : forallb (same_shape_attribution bt) restt = true);
    [|rewrite Et; reflexivity].
  apply forallb_forall. intros c Hc.
  apply In_nth_error in Hc. destruct Hc as [k Hk].
  assert (Hk' : (S k < length (bt :: restt))%nat).
  { simpl. apply -> Nat.succ_lt_mono. apply nth_error_Some. congruence. }
  destruct (H 0%nat ltac:(simpl; lia)) as (m0 & x0 & A1 & A2 & A3 & A4).
  destruct (H (S k) Hk') as (mk & xk & B1 & B2 & B3 & B4).
  simpl in A1, A4, B1, B4. inversion A1; inversion A4; subst bt af.
  rewrite Hk in B1. inversion B1; subst c. simpl.
  rewrite forallb_forall in Ef. apply nth_error_In in B4.
  specialize (Ef _ B4). simpl in Ef.
  apply (same_shape2_trans m0 (map2 (map2 Qcmult) m0 x0) mk).
  - rewrite same_shape2_sym. apply same_shape2_map2_l. exact A3.
  - apply (same_shape2_trans _ (map2 (map2 Qcmult) mk xk) mk); [exact Ef|].
    apply same_shape2_map2_l. exact B3.
Qed.

(** C7.  Whenever [deep_lift_shap] returns without [hypothetical] (and
    without [raw_outputs]), the same call with [hypothetical=True]
    returns too, with the same references and the same effects, and
    every attribution of the first is that of the second multiplied
    elementwise by the example [X[k]]: equal where the one-hot entry is
    [1], zero where it is [0]. *)
Theorem hypothetical_observed_consistency :
  forall (X : ten3) (target batch_size : nat) (references : references_arg)
         (n_shuffles : nat) (return_references : bool)
         (warning_threshold : Qc)
         (additional_nonlinear_ops : option ops_dict)
         (print_convergence_deltas : bool) (random_state : option Z)
         (w : world) (rng0 : nat)
         (attrs_f : list attribution) (refs : option (list ten3))
         (w' : world) (rng' : nat),
    deep_lift_shap X target batch_size references n_shuffles
      return_references false warning_threshold additional_nonlinear_ops
      print_convergence_deltas false random_state w rng0
    = Ok (attrs_f, refs, w', rng') ->
    exists attrs_t,
      deep_lift_shap X target batch_size references n_shuffles
        return_references true warning_threshold additional_nonlinear_ops
        print_convergence_deltas false random_state w rng0
      = Ok (attrs_t, refs, w', rng') /\
      length attrs_f = length attrs_t /\
      forall k, (k < length attrs_t)%nat ->
        exists m_t m_f xk,
          nth_error attrs_t k = Some (Processed m_t) /\
          nth_error attrs_f k = Some (Processed m_f) /\
          nth_error X k = Some xk /\
          forall a p,
            get2 m_f a p = get2 m_t a p * get2 xk a p /\
            (get2 xk a p = 1 -> get2 m_f a p = get2 m_t a p) /\
            (get2 xk a p = 0 -> get2 m_f a p = 0).
Proof.
  intros X target batch_size references n_shuffles return_references
    warning_threshold additional_nonlinear_ops print_convergence_deltas
    random_state w rng0 attrs_f refs w' rng' H.
  unfold deep_lift_shap in *.
  destruct (for_range _ _ _) as [sf|] eqn:Ef in H; [|discriminate].
  cbn [rbind] in H.
  destruct (for_range_observed X target batch_size references n_shuffles
              return_references warning_threshold additional_nonlinear_ops
              print_convergence_deltas random_state
              (length X * n_shuffles_ references n_shuffles)
              (seq 0 (length X * n_shuffles_ references n_shuffles))
              (mkLoop [] [] [] [] 0 [] w rng0)
              (mkLoop [] [] [] [] 0 [] w rng0) sf)
    as (st & Et & Hrel).
  { repeat split; simpl; auto. intros k Hk. simpl in Hk. lia. }
  { exact Ef. }
  rewrite Et. cbn [rbind].
  destruct Hrel as (_ & _ & _ & _ & H5 & H6 & H7 & Hobs & _).
  destruct (stack_attributions (attributions sf)) as [lf|] eqn:Es;
    [|discriminate].
  cbn [rbind] in H. inversion H; subst; clear H.
  pose proof (stack_attributions_Ok _ _ Es) as ->.
  rewrite (stack_observed X _ _ Hobs Es). cbn [rbind].
  exists (attributions st). rewrite H5, H6, H7.
  split; [reflexivity|]. split; [apply Hobs|].
  intros k Hk. destruct Hobs as [_ Hobs].
  destruct (Hobs k Hk) as (m & xk & A1 & A2 & A3 & A4).
  exists m, (map2 (map2 Qcmult) m xk), xk.
  split; [exact A1|]. split; [exact A4|]. split; [exact A2|].
  intros a p. rewrite (get2_map2_mult m xk a p A3).
  split; [reflexivity|]. split; intros ->; ring.
Qed.

Lemma hypothetical_observed_consistency_witness :
  let v :=
    match deep_lift_shap two_X 0 3 (RefTensor two_references) 20 false
            false (Q2Qc (1 # 10000)) None false false None relu_world 0 with
    | Ok v => v
    | Raise _ => ([], None, relu_world, 0%nat)
    end in
  exists attrs_t,
    deep_lift_shap two_X 0 3 (RefTensor two_references) 20 false
      true (Q2Qc (1 # 10000)) None false false None relu_world 0
    = Ok (attrs_t, snd (fst (fst v)), snd (fst v), snd v) /\
    length (fst (fst (fst v))) = length attrs_t /\
    forall k, (k < length attrs_t)%nat ->
      exists m_t m_f xk,
        nth_error attrs_t k = Some (Processed m_t) /\
        nth_error (fst (fst (fst v))) k = Some (Processed m_f) /\
        nth_error two_X k = Some xk /\
        forall a p,
          get2 m_f a p = get2 m_t a p * get2 xk a p /\
          (get2 xk a p = 1 -> get2 m_f a p = get2 m_t a p) /\
          (get2 xk a p = 0 -> get2 m_f a p = 0).
Proof.
  intros v.
  apply (hypothetical_observed_consistency two_X 0 3
           (RefTensor two_references) 20 false (Q2Qc (1 # 10000)) None
           false None relu_world 0 (fst (fst (fst v)))).
  vm_compute. reflexivity.
Defined.

(** ** Max pooling and the rule [_maxpool] *)

Lemma argmax_aux_range (w : vec) :
  forall best bi i lo,
    (lo <= bi < i)%nat ->
    (lo <= snd (argmax_aux best bi i w) < i + length w)%nat.
Proof.
  induction w as [|x w IH]; intros best bi i lo H; simpl.
  - lia.
  - destruct (Qc_ltb best x).
    + specialize (IH x i (S i) lo). lia.
    + specialize (IH best bi (S i) lo). lia.
Qed.

Lemma window_max_range (start : nat) (w : vec) :
  w <> [] ->
  exists v idx, window_max start w = Some (v, idx) /\
                (start <= idx < start + length w)%nat.
Proof.
  destruct w as [|x w]; [congruence|]. intros _. simpl.
  destruct (argmax_aux x start (S start) w) as [v idx] eqn:E.
  exists v, idx. split; [reflexivity|].
  pose proof (argmax_aux_range w x start (S start) start ltac:(lia)) as H.
  rewrite E in H. simpl in H. lia.
Qed.

Lemma mapM_Forall_Some {A B} (f : A -> option B) (P : B -> Prop)
  (l : list A) :
  (forall a, In a l -> exists b, f a = Some b /\ P b) ->
  exists l', mapM f l = Some l' /\ Forall P l' /\ length l' = length l.
Proof.
  induction l as [|a l IH]; intros H; simpl.
  - exists []. repeat split. constructor.
  - destruct (H a (or_introl eq_refl)) as (b & Eb & Pb).
    destruct IH as (l' & El & Fl & Ll).
    { intros a' Ha'. apply H. right. exact Ha'. }
    rewrite Eb, El. simpl. exists (b :: l').
    repeat split; [constructor; assumption | simpl; lia].
Qed.

(** Pooling one channel: as many windows as the output is long, each
    with an index inside the channel. *)
Lemma pool_row_spec (k s : nat) (row : vec) :
  (0 < k)%nat -> (0 < s)%nat -> (k <= length row)%nat ->
  exists v idx,
    pool_row k s row = Some (v, idx) /\
    length v = ((length row - k) / s + 1)%nat /\
    length idx = ((length row - k) / s + 1)%nat /\
    Forall (fun i => (i < length row)%nat) idx.
Proof.
  intros Hk Hs HL. unfold pool_row.
  destruct (Nat.eqb_spec k 0); [lia|]. destruct (Nat.eqb_spec s 0); [lia|].
  destruct (Nat.ltb_spec (length row) k); [lia|]. simpl.
  destruct (mapM_Forall_Some
              (fun j => window_max (j * s) (firstn k (skipn (j * s) row)))
              (fun vi => (snd vi < length row)%nat)
              (seq 0 ((length row - k) / s + 1))) as (r & Er & Fr & Lr).
  { intros j Hj. apply in_seq in Hj.
    assert (Hjs : (j * s <= length row - k)%nat).
    { assert (j <= (length row - k) / s)%nat by lia.
      transitivity (((length row - k) / s) * s)%nat.
      - apply Nat.mul_le_mono_r. assumption.
      - rewrite Nat.mul_comm. apply Nat.Div0.mul_div_le. }
    assert (Hlen : length (firstn k (skipn (j * s) row)) = k).
    { rewrite length_firstn, length_skipn. lia. }
    destruct (window_max_range (j * s) (firstn k (skipn (j * s) row)))
      as (v & idx & E & Hr).
    { intros Hnil. rewrite Hnil in Hlen. simpl in Hlen. lia. }
    exists (v, idx). split; [exact E|]. simpl. lia. }
  rewrite Er. simpl. exists (map fst r), (map snd r).
  split; [reflexivity|]. rewrite !length_map, Lr, length_seq.
  split; [reflexivity|]. split; [reflexivity|].
  apply Forall_map. exact Fr.
Qed.

Lemma max_pool1d_rows (k s : nat) (m : mat) C L :
  (0 < k)%nat -> (0 < s)%nat -> (k <= L)%nat -> has_shape2 m C L ->
  exists r, mapM (pool_row k s) m = Some r /\
    has_shape2 (map fst r) C ((L - k) / s + 1) /\
    has_shape2 (map snd r) C ((L - k) / s + 1) /\
    Forall (Forall (fun i => (i < L)%nat)) (map snd r).
Proof.
  intros Hk Hs HL [Lm Fm]. subst C.
  induction Fm as [|row m Hrow Fm IH]; simpl.
  - exists []. repeat split; constructor.
  - destruct (pool_row_spec k s row Hk Hs ltac:(lia))
      as (v & idx & E & Lv & Li & Fi).
    destruct IH as (r & Er & (L1 & F1) & (L2 & F2) & F3).
    rewrite E, Er. simpl. exists ((v, idx) :: r). rewrite Hrow in *.
    split; [reflexivity|].
    split; [split; [simpl; rewrite length_map in *; lia
                   | constructor; assumption]|].
    split; [split; [simpl; rewrite length_map in *; lia
                   | constructor; assumption]|].
    constructor; assumption.
Qed.

Lemma max_pool1d_spec (t : ten3) (k s n C L : nat) :
  (0 < k)%nat -> (0 < s)%nat -> (k <= L)%nat -> has_shape3 t n C L ->
  exists values indices,
    max_pool1d t k s = Some (values, indices) /\
    has_shape3 values n C ((L - k) / s + 1) /\
    has_shape3 indices n C ((L - k) / s + 1) /\
    indices_below L indices.
Proof.
  intros Hk Hs HL [Lt Ft]. subst n. unfold max_pool1d.
  assert (H : exists r, mapM (mapM (pool_row k s)) t = Some r /\
            has_shape3 (map (map fst) r) (length t) C ((L - k) / s + 1) /\
            has_shape3 (map (map snd) r) (length t) C ((L - k) / s + 1) /\
            indices_below L (map (map snd) r)).
  { induction Ft as [|m t Hm Ft IH]; simpl.
    - exists []. repeat split; constructor.
    - destruct (max_pool1d_rows k s m C L Hk Hs HL Hm)
        as (r1 & E1 & S1 & S2 & F3).
      destruct IH as (r & Er & (L1 & F1) & (L2 & F2) & F4).
      rewrite E1, Er. simpl. exists (r1 :: r).
      split; [reflexivity|].
      split; [split; [simpl; rewrite length_map in *; lia
                     | constructor; assumption]|].
      split; [split; [simpl; rewrite length_map in *; lia
                     | constructor; assumption]|].
      constructor; assumption. }
  destruct H as (r & Er & S1 & S2 & F). rewrite Er. simpl.
  exists (map (map fst) r), (map (map snd) r). auto.
Qed.

Lemma scatter_spec (indices : list nat) :
  forall (out values : vec),
    length values = length indices ->
    Forall (fun i => (i < length out)%nat) indices ->
    exists r, scatter out indices values = Some r /\ length r = length out.
Proof.
  induction indices as [|i indices IH]; intros out [|v values] HL F;
    simpl in *; try discriminate.
  - exists out. auto.
  - inversion F as [|? ? Hi F']; subst.
    destruct (Nat.ltb_spec i (length out)); [|lia].
    destruct (IH (set_nth i v out) values) as (r & Er & Lr).
    + lia.
    + rewrite length_set_nth. exact F'.
    + exists r. rewrite length_set_nth in Lr. auto.
Qed.

Lemma max_unpool1d_rows (v : mat) (idx : list (list nat)) C Lo L :
  has_shape2 v C Lo -> has_shape2 idx C Lo ->
  Forall (Forall (fun i => (i < L)%nat)) idx ->
  exists u, mapM2 (fun v i => scatter (zeros L) i v) v idx = Some u /\
            has_shape2 u C L.
Proof.
  intros [Lv Fv] [Li Fi] Fb. subst C. revert idx Li Fi Fb.
  induction Fv as [|row v Hrow Fv IH]; intros [|irow idx] Li Fi Fb;
    simpl in *; try discriminate.
  - exists []. repeat split; constructor.
  - inversion Fi as [|? ? Hirow Fi']; inversion Fb as [|? ? Hb Fb']; subst.
    destruct (scatter_spec irow (zeros L) row) as (r & Er & Lr).
    { congruence. }
    { unfold zeros. rewrite repeat_length. exact Hb. }
    destruct (IH idx ltac:(lia) Fi' Fb') as (u & Eu & (Lu & Fu)).
    rewrite Er, Eu. simpl. exists (r :: u). split; [reflexivity|].
    split; [simpl; lia|]. constructor; [|exact Fu].
    rewrite Lr. unfold zeros. apply repeat_length.
Qed.

Lemma max_unpool1d_spec (values : ten3) (indices : list (list (list nat)))
  n C Lo L :
  has_shape3 values n C Lo -> has_shape3 indices n C Lo ->
  indices_below L indices ->
  exists u, max_unpool1d values indices L = Some u /\ has_shape3 u n C L.
Proof.
  intros [Lv Fv] [Li Fi] Fb. subst n. unfold max_unpool1d.
  revert indices Li Fi Fb.
  induction Fv as [|m values Hm Fv IH]; intros [|im indices] Li Fi Fb;
    simpl in *; try discriminate.
  - exists []. repeat split; constructor.
  - inversion Fi as [|? ? Him Fi']; inversion Fb as [|? ? Hb Fb']; subst.
    destruct (max_unpool1d_rows m im C Lo L Hm Him Hb) as (u1 & E1 & S1).
    destruct (IH indices ltac:(lia) Fi' Fb') as (u & Eu & (Lu & Fu)).
    rewrite E1, Eu. simpl. exists (u1 :: u). split; [reflexivity|].
    split; [simpl; lia | constructor; assumption].
Qed.

Lemma half_zip_shape (f : Qc -> Qc -> Qc) (t : ten3) B c l :
  has_shape3 t (2 * B) c l ->
  has_shape3 (map2 (map2 (map2 f)) (firstn B t) (skipn B t)) B c l.
Proof.
  intros Ht. apply has_shape3_map2.
  - apply (has_shape3_firstn t B (2 * B)); [assumption | lia].
  - replace B with (2 * B - B)%nat at 2 by lia.
    apply has_shape3_skipn. assumption.
Qed.

Lemma half_zip_entry (f : Qc -> Qc -> Qc) (t : ten3) B c l i k j :
  has_shape3 t (2 * B) c l -> (i < B)%nat -> (k < c)%nat -> (j < l)%nat ->
  get3 (map2 (map2 (map2 f)) (firstn B t) (skipn B t)) i k j =
  f (get3 t i k j) (get3 t (B + i) k j).
Proof.
  intros Ht Hi Hk Hj. unfold get3.
  rewrite (nth3_map2 _ 0 0 0 _ _ B c l); try assumption.
  - rewrite nth_firstn_lt by assumption. rewrite nth_skipn_add. reflexivity.
  - apply (has_shape3_firstn t B (2 * B)); [assumption | lia].
  - replace B with (2 * B - B)%nat at 2 by lia.
    apply has_shape3_skipn. assumption.
Qed.

Lemma get3_app_self (d : ten3) B i k j :
  length d = B -> (i < 2 * B)%nat ->
  get3 (d ++ d) i k j = get3 d (i mod B) k j.
Proof.
  intros Hd Hi. unfold get3. rewrite (nth_app_self d [] B i Hd Hi).
  reflexivity.
Qed.

Section MaxPool.

Variables (module : Module) (inp out grad_input grad_output : ten3).
Variables (eps : Qc) (B C L : nat).
Let k := kernel_size module.
Let s := stride module.
Let Lo := ((L - k) / s + 1)%nat.
Hypothesis Hcls : cls module = MaxPool1d.
Hypothesis Hinput : input module = Some inp.
Hypothesis Houtput : output module = Some out.
Hypothesis Hk : (0 < k)%nat.
Hypothesis Hs : (0 < s)%nat.
Hypothesis HL : (k <= L)%nat.
Hypothesis HB : (0 < B)%nat.
Hypothesis HC : (0 < C)%nat.
Hypothesis Sinp : has_shape3 inp (2 * B) C L.
Hypothesis Sout : has_shape3 out (2 * B) C Lo.
Hypothesis Sgi : has_shape3 grad_input (2 * B) C L.
Hypothesis Sgo : has_shape3 grad_output (2 * B) C Lo.

Let din_ := map2 (map2 (map2 Qcminus)) (firstn B inp) (skipn B inp).
Let xmax := map2 (map2 (map2 Qc_max)) (firstn B out) (skipn B out).
Let d_x := map2 (map2 (map2 Qcminus)) xmax (skipn B out).
Let d_r := map2 (map2 (map2 Qcminus)) (firstn B out) xmax.
Let weighted := map2 (map2 (map2 Qcmult)) grad_output (d_x ++ d_r).

Local Lemma out_halves :
  has_shape3 (firstn B out) B C Lo /\ has_shape3 (skipn B out) B C Lo.
Proof.
  split.
  - apply (has_shape3_firstn out B (2 * B)); [assumption | lia].
  - replace B with (2 * B - B)%nat at 2 by lia.
    apply has_shape3_skipn. assumption.
Qed.

Local Lemma weighted_shape : has_shape3 weighted (2 * B) C Lo.
Proof.
  destruct out_halves as [S1 S2].
  assert (Sx : has_shape3 xmax B C Lo) by (apply has_shape3_map2; assumption).
  apply has_shape3_map2; [assumption|].
  replace (2 * B)%nat with (B + B)%nat by lia.
  apply has_shape3_app; apply has_shape3_map2; assumption.
Qed.

(** The rule on a well-shaped batch: the indices the forward pooling of
    the cached input selects, the weighted gradient unpooled to them,
    and the result. *)
Lemma maxpool_entries :
  exists values indices unpool_ r,
    max_pool1d inp k s = Some (values, indices) /\
    indices_below L indices /\
    max_unpool1d weighted indices L = Some unpool_ /\
    has_shape3 unpool_ (2 * B) C L /\
    _maxpool module grad_input grad_output eps = Some r /\
    has_shape3 r (2 * B) C L /\
    forall i c j, (i < 2 * B)%nat -> (c < C)%nat -> (j < L)%nat ->
      let b := (i mod B)%nat in
      let din := get3 inp b c j - get3 inp (B + b) c j in
      get3 r i c j =
      if Qc_ltb (Qcabs din) eps then get3 grad_input i c j
      else (get3 unpool_ b c j + get3 unpool_ (B + b) c j) / din.
Proof.
  destruct out_halves as [So1 So2].
  destruct (max_pool1d_spec inp k s (2 * B) C L Hk Hs HL Sinp)
    as (values & indices & Ep & Sv & Si & Fi).
  destruct (max_unpool1d_spec weighted indices (2 * B) C Lo L
              weighted_shape Si Fi) as (u & Eu & Su).
  assert (Sdin : has_shape3 (din_ ++ din_) (2 * B) C L).
  { replace (2 * B)%nat with (B + B)%nat by lia.
    apply has_shape3_app; apply half_zip_shape; assumption. }
  set (usum := map2 (map2 (map2 Qcplus)) (firstn B u) (skipn B u)).
  assert (Susum : has_shape3 (usum ++ usum) (2 * B) C L).
  { replace (2 * B)%nat with (B + B)%nat by lia.
    apply has_shape3_app; apply half_zip_shape; assumption. }
  set (quot := map2 (map2 (map2 Qcdiv)) (usum ++ usum) (din_ ++ din_)).
  assert (Squot : has_shape3 quot (2 * B) C L)
    by (apply has_shape3_map2; assumption).
  destruct (where3_has_shape (abs_lt (din_ ++ din_) eps) grad_input quot
              (2 * B) C L) as (r & Er & Sr & Hr);
    [apply has_shape3_abs_lt; exact Sdin | exact Sgi | exact Squot |].
  exists values, indices, u, r.
  split; [exact Ep|]. split; [exact Fi|]. split; [exact Eu|].
  split; [exact Su|]. split; [|split; [exact Sr|]].
  - unfold _maxpool. rewrite Hcls, Hinput. cbn [obind].
    rewrite (chunk2_even inp B) by apply Sinp. cbn [obind].
    rewrite (zip3_has_shape _ _ _ B C L);
      [| apply (has_shape3_firstn inp B (2 * B)); [assumption | lia]
       | replace B with (2 * B - B)%nat at 2 by lia;
         apply has_shape3_skipn; assumption ].
    cbn [obind]. rewrite Houtput. cbn [obind].
    rewrite (chunk2_even out B) by apply Sout. cbn [obind].
    rewrite (zip3_has_shape _ _ _ B C Lo So1 So2). cbn [obind].
    fold xmax.
    assert (Sx : has_shape3 xmax B C Lo)
      by (apply has_shape3_map2; assumption).
    rewrite (zip3_has_shape _ _ _ B C Lo Sx So2). cbn [obind].
    rewrite (zip3_has_shape _ _ _ B C Lo So1 Sx). cbn [obind].
    fold k s. rewrite Ep. cbn [obind].
    fold d_x d_r.
    rewrite (zip3_has_shape _ grad_output (d_x ++ d_r) (2 * B) C Lo);
      [| exact Sgo
       | replace (2 * B)%nat with (B + B)%nat by lia;
         apply has_shape3_app; apply has_shape3_map2; assumption ].
    cbn [obind]. fold weighted.
    rewrite (shape3_has_shape inp (2 * B) C L Sinp) by lia. cbn [snd].
    rewrite Eu. cbn [obind].
    rewrite (chunk2_even u B) by apply Su. cbn [obind].
    rewrite (zip3_has_shape _ _ _ B C L);
      [| apply (has_shape3_firstn u B (2 * B)); [assumption | lia]
       | replace B with (2 * B - B)%nat at 2 by lia;
         apply has_shape3_skipn; assumption ].
    cbn [obind]. fold usum din_.
    rewrite (zip3_has_shape _ _ _ (2 * B) C L Susum Sdin). cbn [obind].
    fold quot. exact Er.
  - intros i c j Hi Hc Hj. cbv zeta. rewrite (Hr i c j Hi Hc Hj).
    unfold abs_lt.
    rewrite (nth3_map _ 0 false _ (2 * B) C L) by assumption.
    assert (Hb : (i mod B < B)%nat) by (apply Nat.mod_upper_bound; lia).
    assert (Ein : get3 (din_ ++ din_) i c j =
                  get3 inp (i mod B) c j - get3 inp (B + i mod B) c j).
    { rewrite (get3_app_self din_ B) by
        (assumption || apply (half_zip_shape Qcminus inp B C L Sinp)).
      apply (half_zip_entry Qcminus inp B C L); assumption. }
    fold (get3 (din_ ++ din_) i c j). rewrite Ein.
    destruct (Qc_ltb _ eps); [reflexivity|].
    unfold quot, get3 at 1.
    rewrite (nth3_map2 _ 0 0 0 _ _ (2 * B) C L) by assumption.
    fold (get3 (usum ++ usum) i c j). fold (get3 (din_ ++ din_) i c j).
    rewrite Ein. f_equal.
    rewrite (get3_app_self usum B) by
      (assumption || apply (half_zip_shape Qcplus u B C L Su)).
    apply (half_zip_entry Qcplus u B C L); assumption.
Qed.

End MaxPool.

Lemma Qc_max_l (a b : Qc) : b <= a -> Qc_max a b = a.
Proof.
  intros H. unfold Qc_max, Qc_ltb.
  destruct (Qclt_le_dec a b) as [Hlt|Hle]; [|reflexivity].
  exfalso. apply (Qcle_not_lt _ _ H Hlt).
Qed.

Ltac tensor_entries :=
  repeat match goal with
         | |- Some _ = Some _ => apply f_equal
         | |- (_ :: _) = (_ :: _) => apply f_equal2
         | |- @nil _ = @nil _ => reflexivity
         | |- (if ?c then _ else _) = _ =>
             destruct c; [reflexivity | unfold Qcdiv; ring]
         end.

(** The toy layer, for every reference whose pooled maxima do not exceed
    those of the example, every incoming pair of gradients and every
    [eps]: outside the region where [grad_input] is passed through, the
    result is zero at positions 0 and 2 and carries the example's
    downstream gradient at the argmax positions 1 and 3. *)
Lemma toy_pool_rule
  (r0 r1 r2 r3 eps a0 a1 a2 a3 b0 b1 b2 b3 g0 g1 h0 h1 : Qc) :
  Qc_max r0 r1 <= Qc_of_Z 5 -> Qc_max r2 r3 <= Qc_of_Z 8 ->
  _maxpool (toy_pool r0 r1 r2 r3)
    ([[[a0; a1; a2; a3]]; [[b0; b1; b2; b3]]])%list
    ([[[g0; g1]]; [[h0; h1]]])%list eps =
  Some ([ [[ pass_through eps (Qc_of_Z 1 - r0) a0 0;
             pass_through eps (Qc_of_Z 5 - r1) a1
               (g0 * (Qc_of_Z 5 - Qc_max r0 r1) / (Qc_of_Z 5 - r1));
             pass_through eps (Qc_of_Z 2 - r2) a2 0;
             pass_through eps (Qc_of_Z 8 - r3) a3
               (g1 * (Qc_of_Z 8 - Qc_max r2 r3) / (Qc_of_Z 8 - r3)) ]];
          [[ pass_through eps (Qc_of_Z 1 - r0) b0 0;
             pass_through eps (Qc_of_Z 5 - r1) b1
               (g0 * (Qc_of_Z 5 - Qc_max r0 r1) / (Qc_of_Z 5 - r1));
             pass_through eps (Qc_of_Z 2 - r2) b2 0;
             pass_through eps (Qc_of_Z 8 - r3) b3
               (g1 * (Qc_of_Z 8 - Qc_max r2 r3) / (Qc_of_Z 8 - r3)) ]] ])%list.
Proof.
  intros H1 H2.
  assert (F1 : Qc_ltb (Qc_of_Z 1) (Qc_of_Z 5) = true)
    by (vm_compute; reflexivity).
  assert (F2 : Qc_ltb (Qc_of_Z 2) (Qc_of_Z 8) = true)
    by (vm_compute; reflexivity).
  unfold _maxpool, toy_pool, maxpool_module, pass_through.
  cbn -[Qcplus Qcminus Qcmult Qcdiv Qcabs Qc_ltb Qc_of_Z Q2Qc Qc_max].
  rewrite F1, F2, (Qc_max_l _ _ H1), (Qc_max_l _ _ H2).
  destruct (Qc_ltb r0 r1), (Qc_ltb r2 r3);
    cbn -[Qcplus Qcminus Qcmult Qcdiv Qcabs Qc_ltb Qc_of_Z Q2Qc Qc_max];
    tensor_entries.
Qed.

Lemma pass_through_outside (eps d a v : Qc) :
  eps <= Qcabs d -> pass_through eps d a v = v.
Proof.
  intros H. unfold pass_through.
  destruct (Qc_ltb (Qcabs d) eps) eqn:E; [|reflexivity].
  apply Qc_ltb_lt in E. exfalso. apply (Qcle_not_lt _ _ H E).
Qed.

(** With no pass-through at positions 0 and 2 the entries there are
    zero, in both halves. *)
Lemma toy_pool_zero_entries
  (r0 r1 r2 r3 eps a0 a1 a2 a3 b0 b1 b2 b3 g0 g1 h0 h1 : Qc) :
  Qc_max r0 r1 <= Qc_of_Z 5 -> Qc_max r2 r3 <= Qc_of_Z 8 ->
  eps <= Qcabs (Qc_of_Z 1 - r0) -> eps <= Qcabs (Qc_of_Z 2 - r2) ->
  exists r,
    _maxpool (toy_pool r0 r1 r2 r3)
      ([[[a0; a1; a2; a3]]; [[b0; b1; b2; b3]]])%list
      ([[[g0; g1]]; [[h0; h1]]])%list eps = Some r /\
    forall i, (i < 2)%nat -> get3 r i 0 0 = 0 /\ get3 r i 0 2 = 0.
Proof.
  intros H1 H2 E0 E2. eexists. split.
  - apply toy_pool_rule; assumption.
  - intros i Hi. unfold get3.
    destruct i as [|[|i]]; [| |lia]; simpl;
      rewrite !pass_through_outside by assumption; split; reflexivity.
Qed.

(** Where the reference wins a window (here [9 > 5] in the first), the
    credit of that window goes to the reference's winning position 0. *)
Example toy_pool_reference_wins :
  option_map (map (map (map Qc_eq_bool_zero)))
    (_maxpool (toy_pool (Qc_of_Z 9) 0 0 0)
       ([[[0; Qc_of_Z 7; 0; Qc_of_Z 9]]; [[Qc_of_Z 7; 0; Qc_of_Z 9; 0]]])%list
       ([[[Qc_of_Z 7; Qc_of_Z 9]]; [[Qc_of_Z 7; Qc_of_Z 9]]])%list
       default_eps)
  = Some ([[[false; true; true; false]]; [[false; true; true; false]]])%list.
Proof. vm_compute. reflexivity. Qed.

(** C4.  On a well-shaped batch of [B] pairs through a [MaxPool1d],
    [_maxpool] computes [dout] as the two pieces
    [max(output_example, output_reference) - output_reference] (example
    half) and [output_example - max(output_example, output_reference)]
    (reference half), unpools the downstream gradient weighted by them
    to the argmax indices that pooling the cached input gives, adds the
    two halves and divides by [din] outside the pass-through region.
    For the toy input [1, 5, 2, 8] with kernel 2 and stride 2 (pooled
    [5, 8]), and a reference whose pooled maxima do not exceed the
    example's, the reconstructed gradient lives at the argmax positions
    1 and 3 only: the second part gives every entry, the third says that
    the entries at positions 0 and 2 are zero unless [grad_input] is
    passed through there. *)
Theorem maxpool_rule_routes_to_argmax :
  (forall (module : Module) (inp out grad_input grad_output : ten3)
          (eps : Qc) (B C L : nat),
     let k := kernel_size module in
     let s := stride module in
     cls module = MaxPool1d ->
     input module = Some inp ->
     output module = Some out ->
     (0 < k)%nat -> (0 < s)%nat -> (k <= L)%nat ->
     (0 < B)%nat -> (0 < C)%nat ->
     has_shape3 inp (2 * B) C L ->
     has_shape3 out (2 * B) C ((L - k) / s + 1) ->
     has_shape3 grad_input (2 * B) C L ->
     has_shape3 grad_output (2 * B) C ((L - k) / s + 1) ->
     let xmax := map2 (map2 (map2 Qc_max)) (firstn B out) (skipn B out) in
     let delta_out :=
       map2 (map2 (map2 Qcminus)) xmax (skipn B out)
       ++ map2 (map2 (map2 Qcminus)) (firstn B out) xmax in
     exists values indices unpool_ r,
       max_pool1d inp k s = Some (values, indices) /\
       indices_below L indices /\
       max_unpool1d (map2 (map2 (map2 Qcmult)) grad_output delta_out)
         indices L = Some unpool_ /\
       has_shape3 unpool_ (2 * B) C L /\
       _maxpool module grad_input grad_output eps = Some r /\
       has_shape3 r (2 * B) C L /\
       forall i c j, (i < 2 * B)%nat -> (c < C)%nat -> (j < L)%nat ->
         let b := (i mod B)%nat in
         let din := get3 inp b c j - get3 inp (B + b) c j in
         get3 r i c j =
         if Qc_ltb (Qcabs din) eps then get3 grad_input i c j
         else (get3 unpool_ b c j + get3 unpool_ (B + b) c j) / din)
  /\
  (forall r0 r1 r2 r3 eps a0 a1 a2 a3 b0 b1 b2 b3 g0 g1 h0 h1 : Qc,
     Qc_max r0 r1 <= Qc_of_Z 5 -> Qc_max r2 r3 <= Qc_of_Z 8 ->
     _maxpool (toy_pool r0 r1 r2 r3)
       ([[[a0; a1; a2; a3]]; [[b0; b1; b2; b3]]])%list
       ([[[g0; g1]]; [[h0; h1]]])%list eps =
     Some ([ [[ pass_through eps (Qc_of_Z 1 - r0) a0 0;
                pass_through eps (Qc_of_Z 5 - r1) a1
                  (g0 * (Qc_of_Z 5 - Qc_max r0 r1) / (Qc_of_Z 5 - r1));
                pass_through eps (Qc_of_Z 2 - r2) a2 0;
                pass_through eps (Qc_of_Z 8 - r3) a3
                  (g1 * (Qc_of_Z 8 - Qc_max r2 r3) / (Qc_of_Z 8 - r3)) ]];
             [[ pass_through eps (Qc_of_Z 1 - r0) b0 0;
                pass_through eps (Qc_of_Z 5 - r1) b1
                  (g0 * (Qc_of_Z 5 - Qc_max r0 r1) / (Qc_of_Z 5 - r1));
                pass_through eps (Qc_of_Z 2 - r2) b2 0;
                pass_through eps (Qc_of_Z 8 - r3) b3
                  (g1 * (Qc_of_Z 8 - Qc_max r2 r3) / (Qc_of_Z 8 - r3)) ]]
           ])%list)
  /\
  (forall r0 r1 r2 r3 eps a0 a1 a2 a3 b0 b1 b2 b3 g0 g1 h0 h1 : Qc,
     Qc_max r0 r1 <= Qc_of_Z 5 -> Qc_max r2 r3 <= Qc_of_Z 8 ->
     eps <= Qcabs (Qc_of_Z 1 - r0) -> eps <= Qcabs (Qc_of_Z 2 - r2) ->
     exists r,
       _maxpool (toy_pool r0 r1 r2 r3)
         ([[[a0; a1; a2; a3]]; [[b0; b1; b2; b3]]])%list
         ([[[g0; g1]]; [[h0; h1]]])%list eps = Some r /\
       forall i, (i < 2)%nat -> get3 r i 0 0 = 0 /\ get3 r i 0 2 = 0).
Proof.
  split; [|split].
  - intros module inp out gi go eps B C L k s Hcls Hi Ho Hk Hs HL HB HC
      Si So Sgi Sgo xmax delta_out.
    exact (maxpool_entries module inp out gi go eps B C L
             Hcls Hi Ho Hk Hs HL HB HC Si So Sgi Sgo).
  - exact toy_pool_rule.
  - exact toy_pool_zero_entries.
Qed.

(** With the all-zero reference and [eps = 1e-10] nothing is passed
    through. *)
Lemma maxpool_rule_routes_to_argmax_witness :
  exists r,
    _maxpool (toy_pool 0 0 0 0)
      ([[[0; Qc_of_Z 7; 0; Qc_of_Z 9]]; [[Qc_of_Z 7; 0; Qc_of_Z 9; 0]]])%list
      ([[[Qc_of_Z 7; Qc_of_Z 9]]; [[Qc_of_Z 7; Qc_of_Z 9]]])%list
      default_eps = Some r /\
    forall i, (i < 2)%nat -> get3 r i 0 0 = 0 /\ get3 r i 0 2 = 0.
Proof.
  apply (proj2 (proj2 maxpool_rule_routes_to_argmax));
    vm_compute; intros H; discriminate H.
Defined.

Example toy_pool_zero_reference :
  option_map (map (map (map Qc_eq_bool_zero)))
    (_maxpool (toy_pool 0 0 0 0)
       ([[[0; Qc_of_Z 7; 0; Qc_of_Z 9]]; [[Qc_of_Z 7; 0; Qc_of_Z 9; 0]]])%list
       ([[[Qc_of_Z 7; Qc_of_Z 9]]; [[Qc_of_Z 7; Qc_of_Z 9]]])%list
       default_eps)
  = Some ([[[true; false; true; false]]; [[true; false; true; false]]])%list.
Proof. vm_compute. reflexivity. Qed.

(** ** The outcome of [attribute] and the world it runs in *)

Lemma register_paired (s s' : DeepLiftShap) (id id' pos pos' : nat)
  (m m' : Module) :
  same_layer m m' -> hook_free m -> hook_free m' -> same_engine s s' ->
  paired (snd (_register_hooks s id pos m))
         (snd (_register_hooks s' id' pos' m')) /\
  same_engine (fst (fst (_register_hooks s id pos m)))
              (fst (fst (_register_hooks s' id' pos' m'))).
Proof.
  intros Hl Hm Hm' Hs. pose proof Hl as (Hc & _). pose proof Hs as (_ & _ & _ & Ho).
  unfold hook_free, hooks_view in Hm, Hm'.
  injection Hm as Hf Hp Hb. injection Hm' as Hf' Hp' Hb'.
  unfold _register_hooks. rewrite Hb, Hb', Ho, Hc.
  change (0 <? length (@nil (nat * hook)))%nat with false. cbv iota.
  destruct (ops_lookup (_NON_LINEAR_OPS s) (cls m)) as [r|].
  - unfold register_hook. cbn [fst snd]. split.
    + unfold paired, hook_kinds. simpl. rewrite Hf, Hp, Hb, Hf', Hp', Hb'.
      simpl. split; [|split; [reflexivity|right; reflexivity]].
      destruct Hl as (A & B & C & D & E). repeat split; simpl; assumption.
    + destruct Hs as (A & B & C & D). repeat split; simpl; assumption.
  - cbn [fst snd]. split; [|exact Hs].
    unfold paired, hook_kinds. rewrite Hf, Hp, Hb, Hf', Hp', Hb'. simpl.
    split; [exact Hl|]. split; [reflexivity|left; reflexivity].
Qed.

Lemma apply_register_paired (ms : list Module) :
  forall ms' s s' id id' pos pos',
    Forall2 same_layer ms ms' ->
    Forall hook_free ms -> Forall hook_free ms' -> same_engine s s' ->
    Forall2 paired (snd (apply_register_hooks s id pos ms))
                   (snd (apply_register_hooks s' id' pos' ms')) /\
    same_engine (fst (fst (apply_register_hooks s id pos ms)))
                (fst (fst (apply_register_hooks s' id' pos' ms'))).
Proof.
  induction ms as [|m ms IH]; intros ms' s s' id id' pos pos' H Hf Hf' Hs;
    inversion H as [|? m' ? ms'' Hm Hms]; subst; simpl.
  - split; [constructor|exact Hs].
  - inversion Hf; subst. inversion Hf'; subst.
    destruct (register_paired s s' id id' pos pos' m m') as [Hp Hs1]; auto.
    destruct (_register_hooks s id pos m) as [[s1 i1] m1].
    destruct (_register_hooks s' id' pos' m') as [[s1' i1'] m1'].
    cbn [fst snd] in Hp, Hs1.
    destruct (IH ms'' s1 s1' i1 i1' (S pos) (S pos')) as [Hq Hs2]; auto.
    destruct (apply_register_hooks s1 i1 (S pos) ms) as [[s2 i2] ms2].
    destruct (apply_register_hooks s1' i1' (S pos') ms'') as [[s2' i2'] ms2'].
    cbn [fst snd] in *. split; [constructor; assumption|assumption].
Qed.

Lemma map_snd_one {A B} (d : list (A * B)) (b : B) :
  map snd d = (b :: nil) -> exists a, d = ((a, b) :: nil).
Proof.
  destruct d as [|[a b'] [|e d]]; simpl; intros H; try discriminate.
  injection H as ->. exists a. reflexivity.
Qed.

Lemma call_module_paired (m m' : Module) (x : ten3) :
  paired m m' ->
  snd (call_module m' x) = snd (call_module m x) /\
  paired (fst (call_module m x)) (fst (call_module m' x)) /\
  (snd (call_module m x) <> None ->
   synced (fst (call_module m x)) (fst (call_module m' x))).
Proof.
  intros (Hl & Hk & Hcase). pose proof Hl as (Hc & Hfw & Hbw & Hks & Hst).
  unfold hook_kinds in Hk, Hcase.
  injection Hk as Kf Kp Kb.
  destruct Hcase as [H0|H1].
  - injection H0 as Ef Ep Eb. rewrite Ef in Kf. rewrite Ep in Kp.
    rewrite Eb in Kb.
    apply map_eq_nil in Ef, Ep, Eb, Kf, Kp, Kb.
    unfold call_module, run_pre_hooks, run_post_hooks.
    rewrite Ep, Kp. simpl fold_left. rewrite Hfw.
    destruct (mapM (forward m) x) as [y|]; cbn [fst snd].
    + rewrite Ef, Kf. simpl fold_left. split; [reflexivity|].
      assert (P : paired m m').
      { split; [exact Hl|]. unfold hook_kinds.
        rewrite Ef, Ep, Eb, Kf, Kp, Kb. simpl. auto. }
      split; [exact P|]. intros _. destruct P as (A & B & C).
      split; [exact A|]. split; [exact B|]. left.
      unfold hook_kinds. rewrite Ef, Ep, Eb. reflexivity.
    + split; [reflexivity|]. split; [|intros H; contradiction H; reflexivity].
      split; [exact Hl|]. unfold hook_kinds.
      rewrite Ef, Ep, Eb, Kf, Kp, Kb. simpl. auto.
  - injection H1 as Ef Ep Eb. rewrite Ef in Kf. rewrite Ep in Kp.
    rewrite Eb in Kb.
    destruct (map_snd_one _ _ Ef) as (i1 & Df).
    destruct (map_snd_one _ _ Ep) as (i2 & Dp).
    destruct (map_snd_one _ _ Eb) as (i3 & Db).
    destruct (map_snd_one _ _ Kf) as (j1 & Df').
    destruct (map_snd_one _ _ Kp) as (j2 & Dp').
    destruct (map_snd_one _ _ Kb) as (j3 & Db').
    unfold call_module, run_pre_hooks, run_post_hooks.
    rewrite Dp, Dp'. simpl fold_left. simpl forward. rewrite Hfw.
    destruct (mapM (forward m) x) as [y|]; cbn [fst snd].
    + simpl _forward_hooks. rewrite Df, Df'. simpl fold_left.
      split; [reflexivity|].
      assert (L : same_layer (set_output (set_input m (Some x)) (Some y))
                             (set_output (set_input m' (Some x)) (Some y))).
      { repeat split; simpl; assumption. }
      assert (K : hook_kinds (set_output (set_input m (Some x)) (Some y))
                  = ([f_hook], [fp_hook], [b_hook])%list).
      { unfold hook_kinds. simpl. rewrite Df, Dp, Db. reflexivity. }
      assert (K' : hook_kinds (set_output (set_input m' (Some x)) (Some y))
                   = ([f_hook], [fp_hook], [b_hook])%list).
      { unfold hook_kinds. simpl. rewrite Df', Dp', Db'. reflexivity. }
      split.
      * split; [exact L|]. rewrite K, K'. auto.
      * intros _. split; [exact L|]. rewrite K, K'.
        split; [reflexivity|]. right. simpl. auto.
    + split; [reflexivity|]. split; [|intros H; contradiction H; reflexivity].
      split; [repeat split; simpl; assumption|].
      unfold hook_kinds. simpl. rewrite Df, Dp, Db, Df', Dp', Db'. simpl. auto.
Qed.

Lemma forward_pass_paired (ms : list Module) :
  forall ms' x,
    Forall2 paired ms ms' ->
    snd (forward_pass ms' x) = snd (forward_pass ms x) /\
    (snd (forward_pass ms x) <> None ->
     Forall2 synced (fst (forward_pass ms x)) (fst (forward_pass ms' x))).
Proof.
  induction ms as [|m ms IH]; intros ms' x H;
    inversion H as [|? m' ? ms'' Hm Hms]; subst; simpl.
  - split; [reflexivity|]. intros _. constructor.
  - destruct (call_module_paired m m' x Hm) as (Hr & _ & Hsync).
    destruct (call_module m x) as [m1 [y|]];
      destruct (call_module m' x) as [m1' [y'|]]; cbn [fst snd] in *;
      try discriminate.
    + injection Hr as ->.
      destruct (IH ms'' y Hms) as (Hr2 & Hs2).
      destruct (forward_pass ms y) as [ms2 r2].
      destruct (forward_pass ms'' y) as [ms2' r2']. cbn [fst snd] in *.
      subst r2'. split; [reflexivity|].
      intros Hne. constructor.
      * apply Hsync. discriminate.
      * apply Hs2. destruct r2 as [[tape out]|]; [discriminate|].
        contradiction Hne; reflexivity.
    + split; [reflexivity|]. intros Hne. contradiction Hne; reflexivity.
Qed.

Lemma ops_lookup_In (d : ops_dict) (c : module_class) (r : rule) :
  ops_lookup d c = Some r -> In r (map snd d).
Proof.
  induction d as [|[k r'] d IH]; simpl; [discriminate|].
  destruct (module_class_eqb k c).
  - intros H. injection H as ->. left. reflexivity.
  - intros H. right. apply IH, H.
Qed.

Lemma backward_module_synced (s s' : DeepLiftShap) (m m' : Module)
  (x g : ten3) :
  same_engine s s' ->
  Forall reads_caches (map snd (_NON_LINEAR_OPS s)) ->
  synced m m' ->
  backward_module s' m' x g = backward_module s m x g.
Proof.
  intros (He & _ & _ & Ho) Hrules (Hl & Hk & Hcase).
  pose proof Hl as (Hc & Hfw & Hbw & _).
  unfold hook_kinds in Hk, Hcase. injection Hk as _ _ Kb.
  unfold backward_module. rewrite Hbw.
  destruct (mapM2 (backward m) x g) as [gi|]; [|reflexivity].
  cbn [obind].
  destruct Hcase as [H0|(H1 & Hin & Hout)].
  - injection H0 as _ _ Eb. rewrite Eb in Kb.
    apply map_eq_nil in Eb, Kb. rewrite Eb, Kb. reflexivity.
  - injection H1 as _ _ Eb. rewrite Eb in Kb.
    destruct (map_snd_one _ _ Eb) as (i & ->).
    destruct (map_snd_one _ _ Kb) as (j & ->).
    simpl. unfold _b_hook. rewrite Ho, Hc, He.
    destruct (ops_lookup (_NON_LINEAR_OPS s) (cls m)) as [r|] eqn:E;
      [|reflexivity].
    cbn [obind]. apply ops_lookup_In in E.
    rewrite Forall_forall in Hrules. apply (Hrules r E); assumption.
Qed.

Lemma backward_pass_synced (s s' : DeepLiftShap) (ms : list Module) :
  forall ms' tape g,
    same_engine s s' ->
    Forall reads_caches (map snd (_NON_LINEAR_OPS s)) ->
    Forall2 synced ms ms' ->
    backward_pass s' ms' tape g = backward_pass s ms tape g.
Proof.
  induction ms as [|m ms IH]; intros ms' tape g Hs Hr H;
    inversion H as [|? m' ? ms'' Hm Hms]; subst; simpl; [reflexivity|].
  destruct tape as [|x tape]; [reflexivity|].
  rewrite (IH ms'' tape g Hs Hr Hms).
  destruct (backward_pass s ms tape g) as [g'|]; [|reflexivity].
  cbn [obind]. apply backward_module_synced; assumption.
Qed.

Lemma attribute_body_paired (s s' : DeepLiftShap) (ms ms' : list Module)
  (X references : ten3) (target : nat) :
  same_engine s s' ->
  Forall reads_caches (map snd (_NON_LINEAR_OPS s)) ->
  Forall2 paired ms ms' ->
  snd (attribute_body s' ms' X references target)
  = snd (attribute_body s ms X references target).
Proof.
  intros Hs Hr H. unfold attribute_body.
  destruct (forward_pass_paired ms ms' (X ++ references) H) as (Hfw & Hsync).
  destruct (forward_pass ms (X ++ references)) as [ms1 r1].
  destruct (forward_pass ms' (X ++ references)) as [ms1' r1'].
  cbn [fst snd] in *. subst r1'.
  destruct r1 as [[tape out]|]; [|reflexivity].
  rewrite (backward_pass_synced s s' ms1 ms1' tape _ Hs Hr)
    by (apply Hsync; discriminate).
  destruct Hs as (_ & -> & -> & _). reflexivity.
Qed.

(** The outcome of [attribute] does not depend on what earlier calls
    left in the world: the caches of the modules and the counter of the
    handle ids. *)
Lemma attribute_world_independent (self : DeepLiftShap) (w w' : world)
  (X references : ten3) (target : nat) :
  Forall reads_caches (map snd (_NON_LINEAR_OPS self)) ->
  Forall hook_free (modules w) -> Forall hook_free (modules w') ->
  Forall2 same_layer (modules w) (modules w') ->
  fst (fst (attribute self w' X references target))
  = fst (fst (attribute self w X references target)).
Proof.
  intros Hr Hf Hf' Hl. unfold attribute.
  destruct (negb (shape_eqb (shape3 X) (shape3 references)));
    [reflexivity|].
  destruct (apply_register_paired (modules w) (modules w') self self
              (next_id w) (next_id w') 0 0 Hl Hf Hf' (same_engine_refl self))
    as (Hp & Hs).
  pose proof (apply_register_hooks_spec (modules w) self (next_id w) 0) as Hspec.
  destruct (apply_register_hooks self (next_id w) 0 (modules w))
    as [[s1 i1] ms1].
  destruct (apply_register_hooks self (next_id w') 0 (modules w'))
    as [[s1' i1'] ms1'].
  cbn [fst snd] in Hp, Hs.
  destruct (Hspec s1 i1 ms1 eq_refl) as (_ & _ & (_ & _ & _ & Ho) & _).
  rewrite <- Ho in Hr.
  pose proof (attribute_body_paired s1 s1' ms1 ms1' X references target
                Hs Hr Hp) as Hb.
  destruct (attribute_body s1 ms1 X references target) as [ms2 r].
  destruct (attribute_body s1' ms1' X references target) as [ms2' r'].
  cbn [snd] in Hb. subst r'.
  destruct r as [[g evs]|e]; reflexivity.
Qed.

Lemma nonlinear_reads_caches : reads_caches _nonlinear.
Proof.
  intros m m' gi go e _ Hi Ho. unfold _nonlinear. rewrite Hi, Ho. reflexivity.
Qed.

Lemma softmax_reads_caches : reads_caches _softmax.
Proof.
  intros m m' gi go e _ Hi Ho. unfold _softmax. rewrite Hi, Ho. reflexivity.
Qed.

Lemma maxpool_reads_caches : reads_caches _maxpool.
Proof.
  intros m m' gi go e (Hc & _ & _ & Hk & Hs) Hi Ho. unfold _maxpool.
  rewrite Hc, Hi, Ho, Hk, Hs. reflexivity.
Qed.

Lemma fold_cons_Forall {A} (P : A -> Prop) (extra : list A) :
  forall d, Forall P d -> Forall P extra ->
            Forall P (fold_left (fun d kv => kv :: d) extra d).
Proof.
  induction extra as [|a extra IH]; intros d Hd He; simpl; [exact Hd|].
  inversion He; subst. apply IH; [constructor|]; assumption.
Qed.

Lemma init_reads_caches (extra : option ops_dict) (e t : Qc) (v : bool) :
  match extra with
  | Some d => Forall (fun kr => reads_caches (snd kr)) d
  | None => True
  end ->
  Forall reads_caches (map snd (_NON_LINEAR_OPS (DeepLiftShap_init extra e t v))).
Proof.
  intros H. apply Forall_map. unfold DeepLiftShap_init. cbn [_NON_LINEAR_OPS].
  assert (B : Forall (fun kr : module_class * rule => reads_caches (snd kr))
                ([ (ReLU, _nonlinear); (ELU, _nonlinear);
                   (LeakyReLU, _nonlinear); (Sigmoid, _nonlinear);
                   (Tanh, _nonlinear); (Softplus, _nonlinear);
                   (MaxPool1d, _maxpool); (MaxPool2d, _maxpool);
                   (Softmax, _softmax) ])%list).
  { repeat constructor; simpl;
      first [apply nonlinear_reads_caches | apply maxpool_reads_caches
            | apply softmax_reads_caches]. }
  destruct extra as [d|]; [|exact B]. apply fold_cons_Forall; assumption.
Qed.

Lemma Forall2_same_layer_trans (a b c : list Module) :
  Forall2 same_layer a b -> Forall2 same_layer b c -> Forall2 same_layer a c.
Proof.
  intros H. revert c. induction H as [|x y a b Hxy _ IH]; intros c Hc;
    inversion Hc; subst; constructor.
  - eapply same_layer_trans; eassumption.
  - apply IH. assumption.
Qed.

Lemma Forall2_same_layer_refl (a : list Module) : Forall2 same_layer a a.
Proof. induction a; constructor; [apply same_layer_refl|assumption]. Qed.

Lemma update_nth_same_layer (f : Module -> Module) (i : nat)
  (ms : list Module) :
  (forall m, same_layer m (f m)) -> Forall2 same_layer ms (update_nth i f ms).
Proof.
  intros Hf. revert i. induction ms as [|m ms IH]; intros i;
    destruct i; simpl; constructor;
    auto using same_layer_refl, Forall2_same_layer_refl.
Qed.

Lemma remove_handles_same_layer (hs : list handle) :
  forall ms, Forall2 same_layer ms (remove_handles hs ms).
Proof.
  unfold remove_handles.
  induction hs as [|h hs IH]; intros ms; simpl;
    [apply Forall2_same_layer_refl|].
  eapply Forall2_same_layer_trans; [|apply IH].
  unfold handle_remove. apply update_nth_same_layer.
  intros m. destruct (h_kind h); repeat split; reflexivity.
Qed.

Lemma Forall2_weaken {A B} (P Q : A -> B -> Prop) (l : list A) (l' : list B) :
  (forall a b, P a b -> Q a b) -> Forall2 P l l' -> Forall2 Q l l'.
Proof. intros H. induction 1; constructor; auto. Qed.

(** A call of [attribute] leaves the layers what they were and, in a
    world without hooks, leaves no hook. *)
Lemma attribute_keeps_layers (self : DeepLiftShap) (w : world)
  (X references : ten3) (target : nat) :
  Forall2 same_layer (modules w)
    (modules (snd (attribute self w X references target))).
Proof.
  destruct (attribute self w X references target) as [[res self'] w'] eqn:E.
  destruct (attribute_world self w X references target res self' w' E)
    as [(_ & _ & ->)|(id1 & ms1 & Hreg & Hms & _)];
    [apply Forall2_same_layer_refl|].
  cbn [snd]. rewrite Hms.
  destruct (apply_register_hooks_spec _ _ _ _ _ _ _ Hreg) as (_ & H1 & _).
  destruct (forward_pass ms1 (X ++ references)) as [ms2 r] eqn:Ef.
  destruct (forward_pass_spec _ _ _ _ Ef) as (H2 & _). cbn [fst].
  eapply Forall2_same_layer_trans;
    [|eapply Forall2_same_layer_trans; [|apply remove_handles_same_layer]].
  - eapply Forall2_weaken; [|exact H1]. intros a b (H & _). exact H.
  - eapply Forall2_weaken; [|exact H2]. intros a b (H & _). exact H.
Qed.

Lemma attribute_keeps_hook_free (self : DeepLiftShap) (w : world)
  (X references : ten3) (target : nat) :
  handles self = [] ->
  Forall hook_free (modules w) ->
  Forall hook_free (modules (snd (attribute self w X references target))).
Proof.
  intros Hh Hf.
  destruct (attribute self w X references target) as [[res self'] w'] eqn:E.
  cbn [snd].
  destruct (attribute_hooks self w X references target) with (3 := E)
    as (Hlen & Hd & _).
  - destruct w as [ms n evs]. apply no_hooks_ids_below. exact Hf.
  - intros h Hin. rewrite Hh in Hin. contradiction Hin.
  - pose proof (hooks_view_ext _ _ Hlen Hd) as Hv.
    apply Forall_forall. intros m Hm.
    apply (in_map hooks_view) in Hm. rewrite Hv in Hm.
    apply in_map_iff in Hm. destruct Hm as (m0 & Hm0 & Hin).
    rewrite Forall_forall in Hf. unfold hook_free.
    rewrite <- Hm0. apply Hf, Hin.
Qed.

(** ** The loop of the driver *)

Lemma seq_from (a len : nat) :
  seq a len = map (fun j => (a + j)%nat) (seq 0 len).
Proof.
  induction len as [|len IH]; [reflexivity|].
  rewrite !seq_S, map_app, <- IH. reflexivity.
Qed.

Lemma seq_split (a m k : nat) :
  (k <= m)%nat -> seq a m = seq a k ++ seq (a + k) (m - k).
Proof.
  intros H. replace m with (k + (m - k))%nat at 1 by lia. apply seq_app.
Qed.

Lemma mapM_lookup {A} (l : list A) (d : A) (idx : list nat) :
  Forall (fun i => (i < length l)%nat) idx ->
  mapM (nth_error l) idx = Some (map (fun i => nth i l d) idx).
Proof.
  induction 1 as [|i idx Hi _ IH]; [reflexivity|].
  simpl. rewrite (nth_error_nth' l d Hi). simpl. rewrite IH. reflexivity.
Qed.

Section Streaming.

Variables (X : ten3) (target : nat) (references : references_arg).
Variables (n_shuffles : nat) (return_references hypothetical : bool).
Variables (warning_threshold : Qc).
Variables (additional_nonlinear_ops : option ops_dict).
Variables (print_convergence_deltas raw_outputs : bool).
Variable random_state : option Z.

Let R := n_shuffles_ references n_shuffles.
Let N := length X.

(** The reference and the multipliers of the pair of example [k] and its
    [j]-th reference, the finalized entry of example [k], and what holds
    of the worlds the engine is run in. *)
Variable pair_reference : nat -> nat -> mat.
Variable pair_multipliers : nat -> nat -> mat.
Variable final : nat -> attribution.
Variable Inv : world -> Prop.

(** Pair [q] of the loop is example [q / R] with reference [q mod R]. *)
Let example_of (q : nat) : mat := nth (q / R) X [].
Let reference_of (q : nat) : mat := pair_reference (q / R) (q mod R).
Let multipliers_of (q : nat) : mat := pair_multipliers (q / R) (q mod R).

Hypothesis R_pos : (0 < R)%nat.

Hypothesis references_fixed : forall p len rng,
  (p + len <= N * R)%nat ->
  resolve_references references random_state
    (map (fun q => q / R)%nat (seq p len))
    (map (fun q => q mod R)%nat (seq p len))
    (map example_of (seq p len)) rng
  = Ok (map reference_of (seq p len), rng).

Hypothesis engine_pairwise : forall w p len,
  Inv w -> (0 < len)%nat -> (p + len <= N * R)%nat ->
  fst (batch_multipliers target warning_threshold additional_nonlinear_ops
         print_convergence_deltas raw_outputs w
         (map example_of (seq p len)) (map reference_of (seq p len)))
  = Ok (map multipliers_of (seq p len)) /\
  Inv (snd (batch_multipliers target warning_threshold
              additional_nonlinear_ops print_convergence_deltas raw_outputs w
              (map example_of (seq p len)) (map reference_of (seq p len)))).

Hypothesis finalized : forall k,
  (k < N)%nat ->
  finalize_chunk X hypothetical raw_outputs
    (map (pair_multipliers k) (seq 0 R)) k = Ok (final k).

Hypothesis one_shape : forall k,
  (k < N)%nat -> same_shape_attribution (final 0) (final k) = true.

Lemma pair_index (k j : nat) :
  (j < R)%nat -> ((k * R + j) / R = k /\ (k * R + j) mod R = j)%nat.
Proof.
  intros Hj. split.
  - rewrite Nat.add_comm, Nat.div_add by lia. rewrite Nat.div_small; lia.
  - rewrite Nat.add_comm, Nat.Div0.mod_add. apply Nat.mod_small, Hj.
Qed.

Lemma chunk_of_example (k : nat) :
  map multipliers_of (seq (k * R) R) = map (pair_multipliers k) (seq 0 R).
Proof.
  rewrite seq_from, map_map. apply map_ext_in. intros j Hj.
  apply in_seq in Hj. unfold multipliers_of.
  destruct (pair_index k j) as [-> ->]; [lia|reflexivity].
Qed.

Lemma examples_found (p len : nat) :
  (p + len <= N * R)%nat ->
  mapM (nth_error X) (map (fun q => q / R)%nat (seq p len))
  = Some (map example_of (seq p len)).
Proof.
  intros H. rewrite (mapM_lookup X [] _), map_map; [reflexivity|].
  apply Forall_forall. intros i Hi. apply in_map_iff in Hi.
  destruct Hi as (q & <- & Hq). apply in_seq in Hq. fold N.
  apply Nat.Div0.div_lt_upper_bound. lia.
Qed.

(** The [while] loop finalizes every example whose [R] results have
    arrived and keeps the others. *)
Lemma drain_chunks (fuel : nat) :
  forall m k,
    (m <= fuel)%nat -> (k * R + m <= N * R)%nat ->
    drain X references n_shuffles hypothetical raw_outputs fuel
      (map multipliers_of (seq (k * R) m)) (map final (seq 0 k)) k
    = Ok (map multipliers_of (seq ((k + m / R) * R) (m mod R)),
          map final (seq 0 (k + m / R)), (k + m / R)%nat).
Proof.
  induction fuel as [|fuel IH]; intros m k Hm Hk; simpl;
    fold R; rewrite length_map, length_seq.
  - assert (m = 0)%nat by lia. subst m.
    destruct (R <=? 0)%nat eqn:E; [apply Nat.leb_le in E; lia|].
    rewrite Nat.div_small, Nat.mod_small, Nat.add_0_r by lia. reflexivity.
  - destruct (R <=? m)%nat eqn:E.
    + apply Nat.leb_le in E.
      rewrite (seq_split (k * R) m R E), map_app.
      rewrite firstn_app, firstn_all2
        by (rewrite length_map, length_seq; lia).
      rewrite length_map, length_seq, Nat.sub_diag. simpl firstn.
      rewrite app_nil_r, chunk_of_example, finalized by nia.
      cbn [rbind].
      rewrite skipn_app, skipn_all2
        by (rewrite length_map, length_seq; lia).
      rewrite length_map, length_seq, Nat.sub_diag. simpl skipn.
      replace (map final (seq 0 k) ++ [final k])
        with (map final (seq 0 (S k)))
        by (rewrite seq_S, map_app; reflexivity).
      replace (k * R + R)%nat with (S k * R)%nat by lia.
      rewrite app_nil_l, (IH (m - R)%nat (S k)) by (simpl; lia).
      assert (Hd : (m / R = S ((m - R) / R))%nat).
      { replace m with ((m - R) + 1 * R)%nat at 1 by lia.
        rewrite Nat.div_add by lia. lia. }
      assert (Hr : (m mod R = (m - R) mod R)%nat).
      { replace m with ((m - R) + 1 * R)%nat at 1 by lia.
        apply Nat.Div0.mod_add. }
      rewrite Hd, Hr.
      replace (S k + (m - R) / R)%nat with (k + S ((m - R) / R))%nat by lia.
      reflexivity.
    + apply Nat.leb_gt in E.
      rewrite Nat.div_small, Nat.mod_small, Nat.add_0_r by lia. reflexivity.
Qed.


(** The loop after [i] pairs: the pairs from [p] on wait in [Xi] and
    [rj], the results of the pairs before [p] have arrived, and those of
    the first [k] examples are finalized. *)
Let loop_inv (n i : nat) (rng0 : nat) (st : loop_state) : Prop :=
  exists p k,
    (p <= i)%nat /\ (k * R <= p)%nat /\ (p < k * R + R)%nat /\
    (i = n -> p = n) /\
    Xi st = map (fun q => q / R)%nat (seq p (i - p)) /\
    rj st = map (fun q => q mod R)%nat (seq p (i - p)) /\
    attr_ st = map multipliers_of (seq (k * R) (p - k * R)) /\
    attributions st = map final (seq 0 k) /\
    z st = k /\
    references_ st =
      (if return_references then map reference_of (seq 0 p) else []) /\
    Inv (wld st) /\ rng st = rng0.

Lemma loop_body_inv (batch_size i rng0 : nat) (st : loop_state) :
  (i < N * R)%nat ->
  loop_inv (N * R) i rng0 st ->
  exists st',
    loop_body X target batch_size references n_shuffles return_references
      hypothetical warning_threshold additional_nonlinear_ops
      print_convergence_deltas raw_outputs random_state (N * R) st i
    = Ok st' /\
    loop_inv (N * R) (S i) rng0 st'.
Proof.
  intros Hi (p & k & Hp & Hk1 & Hk2 & _ & HXi & Hrj & Hat & Hfin & Hz &
             Hrefs & Hw & Hrng).
  unfold loop_body. fold R. cbn [Xi rj attr_ attributions z references_ wld rng].
  assert (HXi' : Xi st ++ [(i / R)%nat]
                 = map (fun q => q / R)%nat (seq p (S i - p))).
  { replace (S i - p)%nat with (S (i - p)) by lia.
    rewrite seq_S, map_app, HXi. simpl.
    replace (p + (i - p))%nat with i by lia. reflexivity. }
  assert (Hrj' : rj st ++ [(i mod R)%nat]
                 = map (fun q => q mod R)%nat (seq p (S i - p))).
  { replace (S i - p)%nat with (S (i - p)) by lia.
    rewrite seq_S, map_app, Hrj. simpl.
    replace (p + (i - p))%nat with i by lia. reflexivity. }
  rewrite HXi', Hrj'.
  destruct ((length (map (fun q => q / R)%nat (seq p (S i - p)))
             =? batch_size)%nat || (i =? N * R - 1)%nat) eqn:Erun.
  - unfold run_batch.
    cbn [Xi rj attr_ attributions z references_ wld rng].
    rewrite examples_found by lia. cbn [lift rbind].
    rewrite references_fixed by lia. cbn [rbind fst snd].
    destruct (engine_pairwise (wld st) p (S i - p)) as [Hm Hw'];
      [exact Hw|lia|lia|].
    rewrite Hm. cbn [rbind]. rewrite Hat, <- map_app.
    assert (Hseq : seq (k * R) (p - k * R) ++ seq p (S i - p)
                   = seq (k * R) (S i - k * R)).
    { rewrite (seq_split (k * R) (S i - k * R) (p - k * R)) by lia.
      f_equal. f_equal; lia. }
    rewrite Hseq, length_map, length_seq, Hfin, Hz.
    rewrite (drain_chunks _ _ k) by lia.
    cbn [rbind fst snd].
    set (m := (S i - k * R)%nat).
    pose proof (Nat.div_mod_eq m R) as Hdm.
    pose proof (Nat.mod_upper_bound m R ltac:(lia)) as Hmod.
    eexists. split; [reflexivity|].
    exists (S i), (k + m / R)%nat.
    cbn [Xi rj attr_ attributions z references_ wld rng].
    rewrite Nat.sub_diag.
    assert (Hk' : ((k + m / R) * R = k * R + R * (m / R))%nat) by lia.
    repeat split; try lia; try reflexivity; try exact Hw'; try exact Hrng.
    + f_equal. f_equal. lia.
    + rewrite Hrefs. destruct return_references; [|reflexivity].
      rewrite <- map_app. f_equal.
      rewrite (seq_split 0 (S i) p) by lia. reflexivity.
  - apply orb_false_iff in Erun. destruct Erun as [_ Elast].
    apply Nat.eqb_neq in Elast.
    eexists. split; [reflexivity|].
    exists p, k. cbn [Xi rj attr_ attributions z references_ wld rng].
    repeat split; try lia; auto.
Qed.

Lemma for_range_inv (batch_size rng0 : nat) (len : nat) :
  forall i st,
    (i + len = N * R)%nat ->
    loop_inv (N * R) i rng0 st ->
    exists st',
      for_range
        (loop_body X target batch_size references n_shuffles
           return_references hypothetical warning_threshold
           additional_nonlinear_ops print_convergence_deltas raw_outputs
           random_state (N * R)) st (seq i len)
      = Ok st' /\
      loop_inv (N * R) (N * R) rng0 st'.
Proof.
  induction len as [|len IH]; intros i st Hlen Hinv; simpl.
  - exists st. split; [reflexivity|].
    replace (N * R)%nat with i at 2 by lia. exact Hinv.
  - destruct (loop_body_inv batch_size i rng0 st) as (st1 & E1 & Hinv1);
      [lia|exact Hinv|].
    rewrite E1. cbn [rbind]. apply IH; [lia|exact Hinv1].
Qed.

(** With an engine that treats the pairs of a batch one by one the
    driver returns, for every batch size, the finalized entries of the
    examples in their order. *)
Lemma deep_lift_shap_streams (batch_size : nat) (w : world) (rng0 : nat) :
  Inv w -> (0 < N)%nat ->
  exists w',
    deep_lift_shap X target batch_size references n_shuffles
      return_references hypothetical warning_threshold
      additional_nonlinear_ops print_convergence_deltas raw_outputs
      random_state w rng0
    = Ok (map final (seq 0 N),
          (if return_references
           then Some (reshape_references references n_shuffles N
                        (map reference_of (seq 0 (N * R))))
           else None),
          w', rng0) /\
    Inv w'.
Proof.
  intros Hw HN. unfold deep_lift_shap. fold R N.
  destruct (for_range_inv batch_size rng0 (N * R) 0
              (mkLoop [] [] [] [] 0 [] w rng0))
    as (st & E & p & k & Hp & Hk1 & Hk2 & Hend & _ & _ & Hat & Hfin & Hz &
        Hrefs & Hw' & Hrng); [lia| |].
  - exists 0%nat, 0%nat. simpl.
    repeat split; try lia; auto.
    destruct return_references; reflexivity.
  - rewrite E. cbn [rbind].
    assert (p = N * R)%nat by (apply Hend; reflexivity). subst p.
    assert (Hk : k = N) by nia.
    rewrite Hfin, Hk.
    assert (Hstack : stack_attributions (map final (seq 0 N))
                     = Ok (map final (seq 0 N))).
    { destruct (Nat.lt_exists_pred 0 N HN) as (N' & EN & _).
      rewrite EN. simpl.
      replace (forallb (same_shape_attribution (final 0))
                 (map final (seq 1 N'))) with true; [reflexivity|].
      symmetry. apply forallb_forall. intros a Ha.
      apply in_map_iff in Ha. destruct Ha as (j & <- & Hj).
      apply in_seq in Hj. apply one_shape. lia. }
    rewrite Hstack. cbn [rbind]. exists (wld st).
    rewrite Hrefs, Hrng. split; [|exact Hw'].
    destruct return_references; reflexivity.
Qed.

End Streaming.

Lemma batch_multipliers_world_independent (target : nat) (t : Qc)
  (ops : option ops_dict) (v raw : bool) (w w' : world) (X R : ten3) :
  match ops with
  | Some d => Forall (fun kr => reads_caches (snd kr)) d
  | None => True
  end ->
  Forall hook_free (modules w) -> settled w w' ->
  fst (batch_multipliers target t ops v raw w' X R)
  = fst (batch_multipliers target t ops v raw w X R).
Proof.
  intros Hops Hf (Hf' & Hl). unfold batch_multipliers. cbn [fst].
  rewrite (attribute_world_independent _ w w') by
    (auto using init_reads_caches).
  reflexivity.
Qed.

Lemma batch_multipliers_settled (target : nat) (t : Qc)
  (ops : option ops_dict) (v raw : bool) (w0 w : world) (X R : ten3) :
  settled w0 w ->
  settled w0 (snd (batch_multipliers target t ops v raw w X R)).
Proof.
  intros (Hf & Hl). unfold batch_multipliers. cbn [snd]. split.
  - apply attribute_keeps_hook_free; [|exact Hf].
    unfold DeepLiftShap_init. reflexivity.
  - eapply Forall2_same_layer_trans; [exact Hl|].
    apply attribute_keeps_layers.
Qed.

Lemma norm_world_settled : settled norm_world norm_world.
Proof.
  split; [|apply Forall2_same_layer_refl].
  repeat constructor.
Qed.

(** On [norm_world] under the generic rule, whatever the batch size,
    every example's entry is what its pairs give one by one. *)
Lemma nonlinear_rule_streams :
  forall batch_size,
    attributions_of (run_two norm_world nonlinear_ops batch_size)
    = Some (map (two_final norm_world nonlinear_ops) (seq 0 2)).
Proof.
  intros batch_size. unfold run_two.
  assert (Hn : (length two_X
                * n_shuffles_ (RefTensor two_references) 20 = 4)%nat)
    by reflexivity.
  destruct (deep_lift_shap_streams two_X 0 (RefTensor two_references) 20
              false true (Q2Qc (1 # 10000)) nonlinear_ops false false None
              two_reference (two_pair norm_world nonlinear_ops)
              (two_final norm_world nonlinear_ops) (settled norm_world))
    with (batch_size := batch_size) (w := norm_world) (rng0 := 0%nat)
    as (w' & E & _).
  - vm_compute. lia.
  - intros p len rng H. rewrite Hn in H.
    do 5 (destruct p as [|p];
          [do 5 (destruct len as [|len];
                 [first [exfalso; lia | reflexivity]|]);
           exfalso; lia|]).
    exfalso; lia.
  - intros w p len Hw Hlen H. rewrite Hn in H. split.
    + rewrite (batch_multipliers_world_independent _ _ _ _ _ norm_world w);
        [| repeat constructor; apply nonlinear_reads_caches
         | apply norm_world_settled | exact Hw ].
      do 5 (destruct p as [|p];
            [do 5 (destruct len as [|len];
                   [first [exfalso; lia | vm_compute; reflexivity]|]);
             exfalso; lia|]).
      exfalso; lia.
    + apply batch_multipliers_settled, Hw.
  - intros k Hk. change (length two_X) with 2%nat in Hk.
    destruct k as [|[|k]]; [vm_compute; reflexivity..|lia].
  - intros k Hk. change (length two_X) with 2%nat in Hk.
    destruct k as [|[|k]]; [vm_compute; reflexivity..|lia].
  - apply norm_world_settled.
  - vm_compute. lia.
  - rewrite E. reflexivity.
Qed.

(** ** Batch size and the softmax rule *)

(** The attributions of [two_X] on [norm_world] under the softmax rule,
    with one pair per batch and with all four pairs in one batch. *)
Example softmax_rule_batch_size_1 :
  option_map (map readout) (attributions_of (run_two norm_world softmax_ops 1))
  = Some ([ [[ [-70437 # 115600]; [-10439 # 28900]; [-523 # 4624];
               [27 # 200] ]];
            [[ [-22511 # 57800]; [-26643 # 115600]; [-1033 # 14450];
               [7 # 80] ]] ])%list.
Proof. vm_compute. reflexivity. Qed.

Example softmax_rule_batch_size_4 :
  option_map (map readout) (attributions_of (run_two norm_world softmax_ops 4))
  = Some ([ [[ [-14009 # 23120]; [-8283 # 23120]; [-2557 # 23120];
               [3169 # 23120] ]];
            [[ [-1809 # 4624]; [-5359 # 23120]; [-1673 # 23120];
               [2013 # 23120] ]] ])%list.
Proof. vm_compute. reflexivity. Qed.

(** The same model and inputs under the generic rule: one result for
    every batch size. *)
Example nonlinear_rule_batch_sizes :
  forall batch_size,
    option_map (map readout)
      (attributions_of (run_two norm_world nonlinear_ops batch_size))
    = Some ([ [[ [-143 # 340]; [-21 # 85]; [-5 # 68]; [1 # 10] ]];
              [[ [-7 # 34]; [-41 # 340]; [-3 # 85]; [1 # 20] ]] ])%list.
Proof.
  intros batch_size. rewrite nonlinear_rule_streams.
  vm_compute. reflexivity.
Qed.

(** C2.  On [norm_world], whose normalizing layer is handled by
    [_softmax], [deep_lift_shap] returns for the same [X] and the same
    precomputed references different attributions with [batch_size=1]
    and with [batch_size=4] ([N * R = 4]): the rule subtracts the mean of
    the corrected gradient over the whole batch, so the multipliers of a
    pair depend on the pairs that share its batch. *)
Theorem softmax_rule_breaks_batch_invariance :
  exists a1 a4,
    attributions_of (run_two norm_world softmax_ops 1) = Some a1 /\
    attributions_of (run_two norm_world softmax_ops 4) = Some a4 /\
    map readout a1 <> map readout a4.
Proof.
  destruct (attributions_of (run_two norm_world softmax_ops 1))
    as [a1|] eqn:E1;
    [|apply (f_equal (option_map (map readout))) in E1;
      rewrite softmax_rule_batch_size_1 in E1; discriminate E1].
  destruct (attributions_of (run_two norm_world softmax_ops 4))
    as [a4|] eqn:E4;
    [|apply (f_equal (option_map (map readout))) in E4;
      rewrite softmax_rule_batch_size_4 in E4; discriminate E4].
  exists a1, a4. split; [reflexivity|]. split; [reflexivity|].
  apply (f_equal (option_map (map readout))) in E1, E4.
  rewrite softmax_rule_batch_size_1 in E1.
  rewrite softmax_rule_batch_size_4 in E4.
  simpl in E1, E4. injection E1 as H1. injection E4 as H4.
  intros H. rewrite <- H1, <- H4 in H. discriminate H.
Qed.

(** ** The engine returns on a purely linear model *)

Lemma mapM2_Some {A B C} (f : A -> B -> option C) (P : A -> C -> Prop)
  (l1 : list A) :
  forall (l2 : list B),
    length l2 = length l1 ->
    (forall i a b, nth_error l1 i = Some a -> nth_error l2 i = Some b ->
       exists c, f a b = Some c /\ P a c) ->
    exists l3, mapM2 f l1 l2 = Some l3 /\ Forall2 P l1 l3.
Proof.
  induction l1 as [|a l1 IH]; intros [|b l2] HL H; simpl in *;
    try discriminate.
  - exists []. split; [reflexivity | constructor].
  - destruct (H 0%nat a b eq_refl eq_refl) as (c & Ec & Pc).
    destruct (IH l2 ltac:(lia)) as (l3 & E3 & F3).
    { intros i a' b' Ha Hb. apply (H (S i) a' b'); assumption. }
    rewrite Ec, E3. simpl. exists (c :: l3).
    split; [reflexivity | constructor; assumption].
Qed.

Lemma linear_row_backward_total (W : mat) (bias x y g : vec) :
  linear_row W bias x = Some y -> length g = length y ->
  exists gin, linear_row_backward W (length x) g = Some gin /\
              length gin = length x.
Proof.
  unfold linear_row, linear_row_backward. intros Hy Hg.
  destruct (forallb (fun w => length w =? length x)%nat W) eqn:EW;
    [|discriminate].
  destruct (length bias =? length W)%nat eqn:Eb; [|discriminate].
  simpl in Hy. inversion Hy; subst; clear Hy.
  apply Nat.eqb_eq in Eb. rewrite length_map2 in Hg by congruence.
  rewrite Hg, Nat.eqb_refl. eexists. split; [reflexivity|].
  apply forallb_length in EW.
  apply (vdot_row_backward W g [] (length x) EW).
Qed.

Lemma same_shape2_lengths {A B} (a : list (list A)) (b : list (list B)) :
  same_shape2 a b = true ->
  length a = length b /\
  forall i ra rb, nth_error a i = Some ra -> nth_error b i = Some rb ->
    length ra = length rb.
Proof.
  unfold same_shape2. revert b.
  induction a as [|x a IH]; intros [|y b] H; simpl in *; try discriminate.
  - split; [reflexivity|]. intros [|i] ra rb Ha; discriminate Ha.
  - apply andb_prop in H. destruct H as [H1 H2].
    destruct (IH b H2) as [L Hn]. split; [lia|].
    intros [|i] ra rb Ha Hb; simpl in *.
    + inversion Ha; inversion Hb; subst. apply Nat.eqb_eq. exact H1.
    + apply (Hn i); assumption.
Qed.

Lemma same_shape2_of_lengths {A B} (a : list (list A)) (b : list (list B)) :
  Forall2 (fun ra rb => length ra = length rb) a b ->
  same_shape2 a b = true.
Proof.
  intros F. unfold same_shape2. induction F as [|x y a b H F IH]; simpl.
  - reflexivity.
  - unfold same_shape1 at 1. rewrite H, Nat.eqb_refl. exact IH.
Qed.

Lemma same_shape2_unflatten (x : mat) :
  forall v, length v = length (concat x) ->
            same_shape2 (unflatten_like x v) x = true.
Proof.
  unfold same_shape2. induction x as [|r x IH]; intros v Hv; simpl in *.
  - reflexivity.
  - rewrite length_app in Hv. rewrite IH by (rewrite length_skipn; lia).
    rewrite andb_true_r. unfold same_shape1. apply Nat.eqb_eq.
    rewrite length_firstn. lia.
Qed.

(** A linear layer's gradient exists for every output gradient of the
    shape of its output, and has the shape of its input. *)
Lemma linear_layer_backward_total (m : Module) (x y g : mat) :
  linear_layer m -> forward m x = Some y -> same_shape2 g y = true ->
  exists gin, backward m x g = Some gin /\ same_shape2 gin x = true.
Proof.
  intros [(W & bias & Hf & Hb)|[Hf Hb]] Hy Hs; rewrite Hf in Hy; rewrite Hb.
  - unfold linear_forward in Hy. unfold linear_backward.
    destruct (same_shape2_lengths g y Hs) as [Lg Hrows].
    pose proof (mapM_length _ _ _ Hy) as Ly.
    destruct (mapM2_Some (fun r gr => linear_row_backward W (length r) gr)
                (fun r gi => length gi = length r) x g) as (gin & Eg & Fg).
    + congruence.
    + intros i a b Ha Hb'.
      assert (Hi : (i < length x)%nat)
        by (apply nth_error_Some; congruence).
      pose proof (mapM_nth _ x y [] [] i Hy Hi) as Hrow.
      rewrite (nth_error_nth _ _ [] Ha) in Hrow.
      apply (linear_row_backward_total W bias a _ b Hrow).
      apply (Hrows i b (nth i y [])); [exact Hb'|].
      apply nth_error_nth'. lia.
    + exists gin. split; [exact Eg|]. apply same_shape2_of_lengths.
      clear - Fg. induction Fg; constructor; auto.
  - unfold flatten_forward in Hy. inversion Hy; subst; clear Hy.
    unfold flatten_backward. unfold same_shape2 in Hs.
    destruct g as [|gr g]; [discriminate Hs|].
    destruct g as [|g2 g];
      [|simpl in Hs; rewrite andb_false_r in Hs; discriminate Hs].
    simpl in Hs. rewrite andb_true_r in Hs.
    unfold same_shape1 in Hs. rewrite Hs. eexists. split; [reflexivity|].
    apply same_shape2_unflatten. apply Nat.eqb_eq. exact Hs.
Qed.

Lemma model_backward_total (ms : list Module) :
  Forall linear_layer ms ->
  forall x ox g,
    model_forward ms x = Some ox -> same_shape2 g ox = true ->
    exists gin, model_backward ms x g = Some gin /\
                same_shape2 gin x = true.
Proof.
  intros F. induction F as [|m ms Hm F IH]; intros x ox g Hx Hs; simpl in *.
  - inversion Hx; subst. exists g. auto.
  - destruct (forward m x) as [y|] eqn:Ey; [|discriminate]. simpl in *.
    destruct (IH y ox g Hx Hs) as (g' & Eg' & Sg').
    rewrite Eg'. simpl.
    apply (linear_layer_backward_total m x y g' Hm Ey Sg').
Qed.

Lemma mapM2_pointwise {A B C} (f : A -> B -> option C) (da : A) (db : B)
  (l1 : list A) :
  forall (l2 : list B),
    length l2 = length l1 ->
    (forall i, (i < length l1)%nat ->
       exists c, f (nth i l1 da) (nth i l2 db) = Some c) ->
    exists l3, mapM2 f l1 l2 = Some l3.
Proof.
  induction l1 as [|a l1 IH]; intros [|b l2] HL H; simpl in *;
    try discriminate.
  - exists []. reflexivity.
  - destruct (H 0%nat ltac:(lia)) as (c & Ec). simpl in Ec.
    destruct (IH l2 ltac:(lia)) as (l3 & E3).
    { intros i Hi. apply (H (S i)). lia. }
    rewrite Ec, E3. simpl. eexists. reflexivity.
Qed.

Lemma backward_pass_length (self : DeepLiftShap) (ms : list Module) :
  Forall (fun m => Forall (fun e => snd e <> b_hook) (_backward_hooks m)) ms ->
  forall x tape out gout gin,
    forward_tape ms x = Some (tape, out) ->
    backward_pass self ms tape gout = Some gin ->
    length gout = length out -> length gin = length x.
Proof.
  intros F. induction F as [|m ms Hm F IH];
    intros x tape out gout gin Hf Hb HL; simpl in *.
  - inversion Hf; subst. simpl in Hb. inversion Hb; subst. exact HL.
  - destruct (mapM (forward m) x) as [y|] eqn:Ey; [|discriminate].
    simpl in Hf.
    destruct (forward_tape ms y) as [[tape' out']|] eqn:Et; [|discriminate].
    simpl in Hf. inversion Hf; subst; clear Hf. simpl in Hb.
    destruct (backward_pass self ms tape' gout) as [g'|] eqn:Eg;
      [|discriminate].
    simpl in Hb. rewrite backward_module_plain in Hb by exact Hm.
    destruct (mapM2_nth _ _ _ _ [] [] [] Hb) as (_ & L3 & _). exact L3.
Qed.

Lemma backward_pass_total (self : DeepLiftShap) (ms : list Module) :
  Forall (fun m => Forall (fun e => snd e <> b_hook) (_backward_hooks m)) ms ->
  forall x tape out gout,
    forward_tape ms x = Some (tape, out) ->
    length gout = length out ->
    (forall i, (i < length x)%nat ->
       exists gi, model_backward ms (nth i x []) (nth i gout []) = Some gi) ->
    exists gin, backward_pass self ms tape gout = Some gin.
Proof.
  intros F. induction F as [|m ms Hm F IH];
    intros x tape out gout Hf HL H; simpl in *.
  - inversion Hf; subst. simpl. eexists. reflexivity.
  - destruct (mapM (forward m) x) as [y|] eqn:Ey; [|discriminate].
    simpl in Hf.
    destruct (forward_tape ms y) as [[tape' out']|] eqn:Et; [|discriminate].
    simpl in Hf. inversion Hf; subst; clear Hf. simpl.
    pose proof (mapM_length _ _ _ Ey) as Ly.
    assert (H' : forall i, (i < length x)%nat ->
              exists g' gi,
                model_backward ms (nth i y []) (nth i gout []) = Some g' /\
                backward m (nth i x []) g' = Some gi).
    { intros i Hi. destruct (H i Hi) as (gi & Hgi).
      rewrite (mapM_nth _ x y [] [] i Ey Hi) in Hgi. simpl in Hgi.
      destruct (model_backward ms (nth i y []) (nth i gout [])) as [g'|];
        [|discriminate].
      simpl in Hgi. exists g', gi. auto. }
    destruct (IH y tape' out gout Et HL) as (g' & Eg').
    { intros i Hi. rewrite Ly in Hi. destruct (H' i Hi) as (g1 & _ & E1 & _).
      exists g1. exact E1. }
    rewrite Eg'. simpl. rewrite backward_module_plain by exact Hm.
    apply (mapM2_pointwise _ [] []).
    + rewrite (backward_pass_length self ms F y tape' out gout g' Et Eg' HL).
      exact Ly.
    + intros i Hi. destruct (H' i Hi) as (g1 & gi & E1 & E2).
      pose proof (backward_pass_examples self ms F y tape' out gout g'
                    Et Eg' i ltac:(lia)) as E3.
      rewrite E1 in E3. inversion E3; subst. exists gi. exact E2.
Qed.

Lemma mapM_pointwise {A B} (f : A -> option B) (l : list A) :
  (forall a, In a l -> f a <> None) -> exists l', mapM f l = Some l'.
Proof.
  induction l as [|a l IH]; intros H; simpl.
  - exists []. reflexivity.
  - destruct (f a) as [b|] eqn:E;
      [|exfalso; apply (H a); [left; reflexivity | exact E]].
    destruct IH as (l' & El).
    { intros a' Ha'. apply H. right. exact Ha'. }
    rewrite El. simpl. eexists. reflexivity.
Qed.

Lemma same_shape3_of_nth {A B} (a : list (list (list A)))
  (b : list (list (list B))) :
  length a = length b ->
  (forall i, (i < length a)%nat ->
     same_shape2 (nth i a []) (nth i b []) = true) ->
  same_shape3 a b = true.
Proof.
  unfold same_shape3. revert b.
  induction a as [|x a IH]; intros [|y b] HL H; simpl in *;
    try discriminate; [reflexivity|].
  rewrite (H 0%nat ltac:(lia)). simpl. apply IH; [lia|].
  intros i Hi. apply (H (S i)). lia.
Qed.

Lemma In_app_nth {A} (X R : list A) (a d : A) :
  In a (X ++ R) ->
  (exists b, (b < length X)%nat /\ a = nth b X d) \/
  (exists b, (b < length R)%nat /\ a = nth b R d).
Proof.
  intros H. apply in_app_or in H. destruct H as [H|H];
    apply (In_nth _ _ d) in H; destruct H as (b & Hb & E); [left|right];
    exists b; auto.
Qed.

(** On a purely linear model [attribute] returns whenever the model
    itself accepts every example and every reference. *)
Lemma attribute_linear_returns (self : DeepLiftShap) (w : world)
  (X references : ten3) (target : nat) :
  Forall linear_layer (modules w) ->
  Forall (uninstrumented self) (modules w) ->
  shape_eqb (shape3 X) (shape3 references) = true ->
  same_shape3 X references = true ->
  (forall b, (b < length X)%nat ->
     model_output (modules w) target (nth b X []) <> None) ->
  (forall b, (b < length references)%nat ->
     model_output (modules w) target (nth b references []) <> None) ->
  exists gradients,
    fst (fst (attribute self w X references target)) = Ok gradients.
Proof.
  intros Flin Fun Hshape HsXR HX HR.
  assert (LXR : length X = length references).
  { revert HsXR. unfold same_shape3. clear.
    revert references. induction X as [|x X IH]; intros [|r R] H;
      simpl in *; try discriminate; [reflexivity|].
    apply andb_prop in H. f_equal. apply IH. apply H. }
  unfold attribute. rewrite Hshape. simpl negb. cbv iota.
  rewrite apply_register_hooks_none
    by (eapply Forall_impl; [|exact Fun]; intros m Hm; apply Hm).
  unfold attribute_body.
  destruct (forward_pass (modules w) (X ++ references)) as [ms2 fw] eqn:E2.
  destruct (forward_pass_spec _ _ _ _ E2) as [F2 R2].
  assert (F2' : Forall2 same_layer (modules w) ms2)
    by (eapply Forall2_same_layer_weaken; exact F2).
  assert (Fnb : Forall (fun m => Forall (fun e => snd e <> b_hook)
                                        (_backward_hooks m)) ms2).
  { clear - F2 Fun. induction F2 as [|m m' ms ms' [_ V] F IH];
      constructor; inversion Fun; subst.
    - unfold hooks_view in V. injection V; intros -> _ _.
      match goal with Hu : uninstrumented _ m |- _ => apply Hu end.
    - apply IH. assumption. }
  (* the forward pass *)
  destruct (mapM_pointwise (model_forward (modules w)) (X ++ references))
    as (out & Eout).
  { intros a Ha Hnone.
    destruct (In_app_nth X references a [] Ha) as [(b & Hb & ->)|(b & Hb & ->)].
    - apply (HX b Hb). unfold model_output. rewrite Hnone. reflexivity.
    - apply (HR b Hb). unfold model_output. rewrite Hnone. reflexivity. }
  pose proof (forward_tape_examples (modules w) (X ++ references)) as Hx.
  rewrite Eout in Hx.
  destruct (forward_tape (modules w) (X ++ references))
    as [[tape out']|] eqn:Et; [|discriminate].
  simpl in Hx. inversion Hx; subst out'; clear Hx. subst fw.
  pose proof (mapM_length _ _ _ Eout) as Lout. rewrite length_app in Lout.
  (* the target output of every example *)
  destruct (mapM_pointwise (fun o => nth_error (concat o) target) out)
    as (y & Ey).
  { intros o Ho Hnone. apply (In_nth _ _ []) in Ho.
    destruct Ho as (i & Hi & <-).
    pose proof (mapM_nth _ _ _ [] [] i Eout ltac:(rewrite length_app; lia))
      as Hfi.
    assert (Hin : In (nth i (X ++ references) []) (X ++ references))
      by (apply nth_In; rewrite length_app; lia).
    destruct (In_app_nth X references _ [] Hin)
      as [(b & Hb & Eb)|(b & Hb & Eb)]; rewrite Eb in Hfi.
    - apply (HX b Hb). unfold model_output. rewrite Hfi. exact Hnone.
    - apply (HR b Hb). unfold model_output. rewrite Hfi. exact Hnone. }
  unfold select_target. rewrite Ey. cbn [lift rbind].
  pose proof (mapM_length _ _ _ Ey) as Ly.
  (* the backward pass *)
  assert (Ht2 : forward_tape ms2 (X ++ references) = Some (tape, out))
    by (rewrite (forward_tape_same_layer _ _ F2'); exact Et).
  assert (Hbk : forall i, (i < length (X ++ references))%nat ->
            exists gi,
              model_backward (modules w) (nth i (X ++ references) [])
                (nth i (seed_gradient out target) []) = Some gi /\
              same_shape2 gi (nth i (X ++ references) []) = true).
  { intros i Hi. rewrite length_app in Hi.
    apply (model_backward_total (modules w) Flin _ (nth i out [])).
    - apply (mapM_nth _ _ _ [] [] i Eout). rewrite length_app. lia.
    - unfold seed_gradient. rewrite (nth_map_default _ out []) by lia.
      apply same_shape2_unflatten. unfold onehot.
      rewrite length_map, length_seq. reflexivity. }
  destruct (backward_pass_total self ms2 Fnb (X ++ references) tape out
              (seed_gradient out target) Ht2) as (g & Eg).
  { unfold seed_gradient. apply length_map. }
  { intros i Hi. destruct (Hbk i Hi) as (gi & Egi & _). exists gi.
    rewrite (model_backward_same_layer _ _ F2'). exact Egi. }
  rewrite Eg. cbn [lift rbind].
  pose proof (backward_pass_length self ms2 Fnb _ _ _ _ _ Ht2 Eg
                ltac:(unfold seed_gradient; apply length_map)) as Lg.
  rewrite length_app in Lg.
  (* the convergence check *)
  rewrite (chunk2_even y (length X)) by lia. cbn [lift rbind fst snd].
  unfold zip1 at 1. unfold same_shape1.
  rewrite length_firstn, length_skipn.
  replace (Nat.min (length X) (length y) =? length y - length X)%nat
    with true by (symmetry; apply Nat.eqb_eq; lia).
  cbn [lift rbind].
  unfold zip3 at 1. rewrite HsXR. cbn [lift rbind].
  assert (Hsg : same_shape3 (map2 (map2 (map2 Qcminus)) X references)
                  (firstn (length X) g) = true).
  { apply same_shape3_of_nth.
    - rewrite length_map2 by exact LXR. rewrite length_firstn. lia.
    - intros i Hi. rewrite length_map2 in Hi by exact LXR.
      rewrite (nth_map2 _ [] [] []) by lia.
      rewrite nth_firstn_lt by exact Hi.
      destruct (Hbk i ltac:(rewrite length_app; lia)) as (gi & Egi & Sgi).
      pose proof (backward_pass_examples self ms2 Fnb _ _ _ _ _ Ht2 Eg i
                    ltac:(rewrite length_app; lia)) as E3.
      rewrite (model_backward_same_layer _ _ F2') in E3.
      rewrite Egi in E3. inversion E3 as [E4]. rewrite <- E4.
      rewrite app_nth1 in Sgi by exact Hi.
      apply (same_shape2_trans _ (nth i X [])).
      + apply same_shape2_map2_l.
        apply (same_shape3_nth X references i HsXR Hi).
      + rewrite same_shape2_sym. exact Sgi. }
  unfold zip3. rewrite Hsg. cbn [lift rbind].
  unfold zip1, same_shape1.
  rewrite length_map2 by (rewrite length_firstn, length_skipn; lia).
  rewrite length_firstn, length_map, length_map2;
    [|rewrite length_map2 by exact LXR; rewrite length_firstn; lia].
  rewrite length_map2 by exact LXR.
  replace (Nat.min (length X) (length y) =? length X)%nat with true
    by (symmetry; apply Nat.eqb_eq; lia).
  cbn [lift rbind]. eexists. reflexivity.
Qed.

(** C1.  For a model made of linear layers only, and examples [X] and
    references of one shape that the model accepts: [attribute] returns,
    and the multipliers it returns satisfy the convergence law for every
    pair [b]: the sum over the alphabet and length axes of
    [(X_b - ref_b) * multiplier_b] equals [f(X_b) - f(ref_b)], where [f]
    is the model's output at [target]; the equality is exact, so the
    convergence delta is zero. *)
Theorem linear_model_convergence :
  forall (self : DeepLiftShap) (w : world) (X references : ten3)
         (target n A L : nat),
    Forall linear_layer (modules w) ->
    Forall (uninstrumented self) (modules w) ->
    has_shape3 X n A L ->
    has_shape3 references n A L ->
    (forall b, (b < n)%nat ->
       model_output (modules w) target (nth b X []) <> None /\
       model_output (modules w) target (nth b references []) <> None) ->
    exists gradients,
      fst (fst (attribute self w X references target)) = Ok gradients /\
      forall b, (b < n)%nat ->
        exists fx fr,
          model_output (modules w) target (nth b X []) = Some fx /\
          model_output (modules w) target (nth b references []) = Some fr /\
          msum (map2 (map2 Qcmult)
                  (map2 (map2 Qcminus) (nth b X []) (nth b references []))
                  (nth b gradients [])) = fx - fr /\
          convergence_delta (modules w) target (nth b X [])
            (nth b references []) (nth b gradients []) = Some 0.
Proof.
  intros self w X references target n A L Flin Fun SX SR Hacc.
  assert (LX : length X = n) by apply SX.
  assert (LR : length references = n) by apply SR.
  destruct (attribute_linear_returns self w X references target Flin Fun)
    as (gradients & Hok).
  { rewrite (shape3_same X references n A L SX SR).
    unfold shape_eqb. rewrite !Nat.eqb_refl. reflexivity. }
  { apply (same_shape3_has_shape X references n A L SX SR). }
  { intros b Hb. apply Hacc. lia. }
  { intros b Hb. apply Hacc. lia. }
  exists gradients. split; [exact Hok|]. intros b Hb.
  destruct (attribute self w X references target) as [[res self'] w'] eqn:E.
  simpl in Hok. subst res.
  assert (Fadj : Forall adjoint_layer (modules w))
    by (eapply Forall_impl; [|exact Flin]; apply linear_layer_adjoint).
  destruct (attribute_adjoint self w X references target gradients self' w'
              Fadj Fun E b ltac:(lia)) as (fx & fr & Hx & Hr & Hd).
  exists fx, fr. split; [exact Hx|]. split; [exact Hr|].
  split; [exact Hd|].
  unfold convergence_delta. rewrite Hx, Hr. simpl. f_equal.
  unfold mdot in Hd. rewrite Hd.
  replace (fx - fr - (fx - fr)) with (Q2Qc 0) by ring.
  apply Qcabs_pos. apply Qcle_refl.
Qed.

Lemma linear_model_convergence_witness :
  exists gradients,
    fst (fst (attribute default_engine linear_world toy_X toy_references 0))
    = Ok gradients /\
    forall b, (b < 1)%nat ->
      exists fx fr,
        model_output (modules linear_world) 0 (nth b toy_X []) = Some fx /\
        model_output (modules linear_world) 0 (nth b toy_references [])
          = Some fr /\
        msum (map2 (map2 Qcmult)
                (map2 (map2 Qcminus) (nth b toy_X [])
                   (nth b toy_references []))
                (nth b gradients [])) = fx - fr /\
        convergence_delta (modules linear_world) 0 (nth b toy_X [])
          (nth b toy_references []) (nth b gradients []) = Some 0.
Proof.
  apply (linear_model_convergence default_engine linear_world
           toy_X toy_references 0 1 4 1).
  - constructor; [right; split; reflexivity|].
    constructor; [|constructor]. left. eexists. eexists.
    split; reflexivity.
  - repeat constructor.
  - unfold toy_X. shape_tac.
  - unfold toy_references. shape_tac.
  - intros b Hb. assert (b = 0%nat) by lia. subst b.
    split; vm_compute; discriminate.
Defined.


(** ** More on [hypothetical_attributions] *)

Lemma zeros_like_same_shape (X : ten3) :
  forall X', same_shape3 X X' = true -> zeros_like X = zeros_like X'.
Proof.
  unfold same_shape3, zeros_like.
  induction X as [|m X IH]; intros [|m' X'] H; simpl in *;
    try discriminate; [reflexivity|].
  apply andb_true_iff in H. destruct H as [H1 H2].
  f_equal; [|apply IH, H2]. clear IH H2. unfold same_shape2 in H1.
  revert m' H1. induction m as [|r m IH]; intros [|r' m'] H; simpl in *;
    try discriminate; [reflexivity|].
  apply andb_true_iff in H. destruct H as [H1 H2].
  f_equal; [|apply IH, H2]. clear IH H2. unfold same_shape1 in H1.
  apply Nat.eqb_eq in H1.
  revert r' H1. induction r as [|a r IH]; intros [|a' r'] H; simpl in *;
    try discriminate; [reflexivity|].
  f_equal. apply IH. lia.
Qed.

Lemma shape3_same_shape (X : ten3) (X' : ten3) :
  same_shape3 X X' = true -> shape3 X = shape3 X'.
Proof.
  unfold same_shape3, shape3.
  destruct X as [|m X], X' as [|m' X']; simpl; try discriminate;
    [reflexivity|].
  intros H. apply andb_true_iff in H. destruct H as [H1 H2].
  assert (L : length X = length X').
  { clear H1. revert X' H2. induction X as [|a X IH]; intros [|a' X'] H;
      simpl in *; try discriminate; [reflexivity|].
    apply andb_true_iff in H. destruct H as [_ H]. f_equal. apply IH, H. }
  rewrite L. unfold same_shape2 in H1.
  destruct m as [|r m], m' as [|r' m']; simpl in *; try discriminate;
    [reflexivity|].
  apply andb_true_iff in H1. destruct H1 as [H1 H3].
  unfold same_shape1 in H1. apply Nat.eqb_eq in H1. rewrite H1.
  assert (L2 : length m = length m').
  { revert m' H3. induction m as [|a m IH]; intros [|a' m'] H;
      simpl in *; try discriminate; [reflexivity|].
    apply andb_true_iff in H. destruct H as [_ H]. f_equal. apply IH, H. }
  rewrite L2. reflexivity.
Qed.

(** X1.  [hypothetical_attributions] uses of [X] its shape only: two
    inputs of one shape give the same outcome, the same tensor or the
    same exception, whatever their values. *)
Theorem hypothetical_attributions_ignores_X_values :
  forall (multipliers references : pyarg) (X X' : ten3),
    same_shape3 X X' = true ->
    hypothetical_attributions multipliers (PyTuple [PyTensor X]) references
    = hypothetical_attributions multipliers (PyTuple [PyTensor X'])
        references.
Proof.
  intros multipliers references X X' H.
  unfold hypothetical_attributions.
  destruct (check_arg multipliers None) as [m0|e]; [|reflexivity].
  cbn [rbind]. unfold check_arg at 1 3.
  rewrite (shape3_same_shape X X' H).
  destruct (_ && _ && _)%bool; [|reflexivity].
  cbn [rbind].
  destruct (check_arg references (Some (shape3 m0))) as [r0|e];
    [|reflexivity].
  cbn [rbind]. unfold hypothetical_step.
  rewrite (zeros_like_same_shape X X' H), (shape3_same_shape X X' H).
  reflexivity.
Qed.

Lemma hypothetical_attributions_ignores_X_values_witness :
  hypothetical_attributions (PyTuple [PyTensor toy_multipliers])
    (PyTuple [PyTensor toy_X]) (PyTuple [PyTensor toy_references])
  = hypothetical_attributions (PyTuple [PyTensor toy_multipliers])
      (PyTuple [PyTensor toy_references]) (PyTuple [PyTensor toy_references]).
Proof.
  apply (hypothetical_attributions_ignores_X_values
           (PyTuple [PyTensor toy_multipliers])
           (PyTuple [PyTensor toy_references]) toy_X toy_references).
  reflexivity.
Defined.

Lemma sum_upto_S (n : nat) (f : nat -> Qc) :
  sum_upto (S n) f = sum_upto n f + f n.
Proof.
  unfold sum_upto. rewrite seq_S, map_app, vsum_app. simpl. ring.
Qed.

Lemma sum_upto_plus (n : nat) (f g : nat -> Qc) :
  sum_upto n (fun a => f a + g a) = sum_upto n f + sum_upto n g.
Proof.
  induction n as [|n IH]; [unfold sum_upto; simpl; ring|].
  rewrite !sum_upto_S, IH. ring.
Qed.

Lemma sum_upto_scale (n : nat) (c : Qc) (f : nat -> Qc) :
  sum_upto n (fun a => c * f a) = c * sum_upto n f.
Proof.
  induction n as [|n IH]; [unfold sum_upto; simpl; ring|].
  rewrite !sum_upto_S, IH. ring.
Qed.

Lemma sum_upto_indicator (n s : nat) (f : nat -> Qc) :
  sum_upto n (fun a => indicator s a * f a)
  = if (s <? n)%nat then f s else 0.
Proof.
  induction n as [|n IH]; [unfold sum_upto; simpl; reflexivity|].
  rewrite sum_upto_S, IH. unfold indicator.
  destruct (Nat.eqb_spec n s) as [->|Hne].
  - rewrite Nat.ltb_irrefl.
    replace (s <? S s)%nat with true by (symmetry; apply Nat.ltb_lt; lia).
    ring.
  - destruct (s <? n)%nat eqn:E.
    + replace (s <? S n)%nat with true
        by (symmetry; apply Nat.ltb_lt; apply Nat.ltb_lt in E; lia).
      ring.
    + replace (s <? S n)%nat with false
        by (symmetry; apply Nat.ltb_ge; apply Nat.ltb_ge in E; lia).
      ring.
Qed.

(** The entry of symbol [s]: its multiplier minus the reference's
    weighted sum of multipliers. *)
Lemma projected_entry_split (multipliers references : ten3) (A b s p : nat) :
  (s < A)%nat ->
  projected_entry multipliers references A b s p
  = get3 multipliers b s p
    - sum_upto A (fun a => get3 references b a p * get3 multipliers b a p).
Proof.
  intros Hs. unfold projected_entry.
  rewrite (sum_upto_ext A _
             (fun a => indicator s a * get3 multipliers b a p
                       + (-(1)) * (get3 references b a p
                                   * get3 multipliers b a p)))
    by (intros; ring).
  rewrite sum_upto_plus, sum_upto_scale, sum_upto_indicator.
  replace (s <? A)%nat with true by (symmetry; apply Nat.ltb_lt; exact Hs).
  ring.
Qed.

(** X2.  The projection keeps the completeness sum.  For an input whose
    channels sum to one at every position, as a one-hot encoding does,
    the attributions of the observed characters, [X * projected], sum
    over the alphabet to what the raw contributions
    [(X - references) * multipliers] sum to. *)
Theorem hypothetical_attributions_keep_sum :
  forall (multipliers X references : ten3) (n A L : nat),
    has_shape3 multipliers n A L ->
    has_shape3 X n A L ->
    has_shape3 references n A L ->
    (forall b p, (b < n)%nat -> (p < L)%nat ->
       sum_upto A (fun s => get3 X b s p) = 1) ->
    exists r,
      hypothetical_attributions (PyTuple [PyTensor multipliers])
        (PyTuple [PyTensor X]) (PyTuple [PyTensor references])
      = Ok (PyTuple [PyTensor r]) /\
      forall b p, (b < n)%nat -> (p < L)%nat ->
        sum_upto A (fun s => get3 X b s p * get3 r b s p)
        = sum_upto A (fun a =>
            (get3 X b a p - get3 references b a p)
            * get3 multipliers b a p).
Proof.
  intros multipliers X references n A L Sm Sx Sr Hone.
  destruct (hypothetical_attributions_spec multipliers X references n A L
              Sm Sx Sr) as (r & Hr & _ & Hent).
  exists r. split; [exact Hr|]. intros b p Hb Hp.
  set (K := sum_upto A (fun a => get3 references b a p
                                 * get3 multipliers b a p)).
  rewrite (sum_upto_ext A _
             (fun s => get3 X b s p * get3 multipliers b s p
                       + (- K) * get3 X b s p)).
  - rewrite sum_upto_plus, sum_upto_scale, (Hone b p Hb Hp).
    rewrite (sum_upto_ext A (fun a => (get3 X b a p - get3 references b a p)
                                      * get3 multipliers b a p)
               (fun a => get3 X b a p * get3 multipliers b a p
                         + (-(1)) * (get3 references b a p
                                     * get3 multipliers b a p)))
      by (intros; ring).
    rewrite sum_upto_plus, sum_upto_scale. fold K. ring.
  - intros s Hs. rewrite (Hent b s p Hb Hs Hp).
    rewrite projected_entry_split by exact Hs. fold K. ring.
Qed.

Lemma hypothetical_attributions_keep_sum_witness :
  exists r,
    hypothetical_attributions (PyTuple [PyTensor toy_multipliers])
      (PyTuple [PyTensor toy_X]) (PyTuple [PyTensor toy_references])
    = Ok (PyTuple [PyTensor r]) /\
    forall b p, (b < 1)%nat -> (p < 1)%nat ->
      sum_upto 4 (fun s => get3 toy_X b s p * get3 r b s p)
      = sum_upto 4 (fun a =>
          (get3 toy_X b a p - get3 toy_references b a p)
          * get3 toy_multipliers b a p).
Proof.
  apply (hypothetical_attributions_keep_sum toy_multipliers toy_X
           toy_references 1 4 1).
  - repeat constructor.
  - repeat constructor.
  - repeat constructor.
  - intros b p Hb Hp.
    assert (b = 0)%nat by lia. assert (p = 0)%nat by lia. subst.
    vm_compute. reflexivity.
Defined.

(** X3.  Against a reference that is one-hot at a position, with symbol
    [c], the projected value of a symbol there is its multiplier minus
    the multiplier of [c]; at [c] itself it is zero. *)
Theorem hypothetical_attributions_one_hot_reference :
  forall (multipliers X references : ten3) (n A L b p c : nat),
    has_shape3 multipliers n A L ->
    has_shape3 X n A L ->
    has_shape3 references n A L ->
    (b < n)%nat -> (p < L)%nat -> (c < A)%nat ->
    (forall a, (a < A)%nat -> get3 references b a p = indicator c a) ->
    exists r,
      hypothetical_attributions (PyTuple [PyTensor multipliers])
        (PyTuple [PyTensor X]) (PyTuple [PyTensor references])
      = Ok (PyTuple [PyTensor r]) /\
      get3 r b c p = 0 /\
      forall s, (s < A)%nat ->
        get3 r b s p = get3 multipliers b s p - get3 multipliers b c p.
Proof.
  intros multipliers X references n A L b p c Sm Sx Sr Hb Hp Hc Hhot.
  destruct (hypothetical_attributions_spec multipliers X references n A L
              Sm Sx Sr) as (r & Hr & _ & Hent).
  exists r. split; [exact Hr|].
  assert (E : forall s, (s < A)%nat ->
            get3 r b s p = get3 multipliers b s p - get3 multipliers b c p).
  { intros s Hs. rewrite (Hent b s p Hb Hs Hp).
    rewrite projected_entry_split by exact Hs.
    rewrite (sum_upto_ext A _
               (fun a => indicator c a * get3 multipliers b a p))
      by (intros a Ha; rewrite (Hhot a Ha); reflexivity).
    rewrite sum_upto_indicator.
    replace (c <? A)%nat with true by (symmetry; apply Nat.ltb_lt; exact Hc).
    reflexivity. }
  split; [rewrite (E c Hc); ring|exact E].
Qed.

Lemma hypothetical_attributions_one_hot_reference_witness :
  exists r,
    hypothetical_attributions (PyTuple [PyTensor toy_multipliers])
      (PyTuple [PyTensor toy_X]) (PyTuple [PyTensor toy_references])
    = Ok (PyTuple [PyTensor r]) /\
    get3 r 0 1 0 = 0 /\
    forall s, (s < 4)%nat ->
      get3 r 0 s 0 = get3 toy_multipliers 0 s 0 - get3 toy_multipliers 0 1 0.
Proof.
  apply (hypothetical_attributions_one_hot_reference toy_multipliers toy_X
           toy_references 1 4 1 0 0 1);
    try (repeat constructor; fail); try lia.
  intros a Ha.
  destruct a as [|[|[|[|a]]]]; [vm_compute; reflexivity..|lia].
Defined.

(** ** The table of rules *)

Lemma fold_cons_rev {A} (extra : list A) :
  forall d, fold_left (fun d kv => kv :: d) extra d = rev extra ++ d.
Proof.
  induction extra as [|a extra IH]; intros d; simpl; [reflexivity|].
  rewrite IH, <- app_assoc. reflexivity.
Qed.

Lemma ops_lookup_app (d1 d2 : ops_dict) (c : module_class) :
  ops_lookup (d1 ++ d2) c
  = match ops_lookup d1 c with
    | Some r => Some r
    | None => ops_lookup d2 c
    end.
Proof.
  induction d1 as [|[k r] d1 IH]; simpl; [reflexivity|].
  destruct (module_class_eqb k c); [reflexivity|exact IH].
Qed.

(** X4.  The rule the engine holds for a class after [__init__]: the one
    [additional_nonlinear_ops] assigns to it (the last one, should the
    class be assigned twice), and the built-in one for a class that
    [additional_nonlinear_ops] does not mention.  So an entry for a
    built-in class overrides it and nothing else changes. *)
Theorem init_additional_ops_override :
  forall (extra : ops_dict) (e t : Qc) (v : bool) (c : module_class),
    ops_lookup (_NON_LINEAR_OPS (DeepLiftShap_init (Some extra) e t v)) c
    = match ops_lookup (rev extra) c with
      | Some r => Some r
      | None =>
          ops_lookup (_NON_LINEAR_OPS (DeepLiftShap_init None e t v)) c
      end.
Proof.
  intros extra e t v c. unfold DeepLiftShap_init. cbn [_NON_LINEAR_OPS].
  rewrite fold_cons_rev. apply ops_lookup_app.
Qed.

(** ** The driver: flags and batch sizes that make no difference *)

Lemma for_range_ext (f g : loop_state -> nat -> result loop_state)
  (l : list nat) :
  (forall st i, f st i = g st i) ->
  forall st, for_range f st l = for_range g st l.
Proof.
  intros H. induction l as [|i l IH]; intros st; simpl; [reflexivity|].
  rewrite H. destruct (g st i) as [st'|e]; simpl; [apply IH|reflexivity].
Qed.

Section RawOutputs.

Variables (X : ten3) (target batch_size : nat) (references : references_arg).
Variables (n_shuffles : nat) (return_references : bool).
Variables (warning_threshold : Qc).
Variables (additional_nonlinear_ops : option ops_dict).
Variables (print_convergence_deltas : bool) (random_state : option Z).

Lemma drain_raw (h h' : bool) (fuel : nat) :
  forall attr_ attributions z,
    drain X references n_shuffles h true fuel attr_ attributions z
    = drain X references n_shuffles h' true fuel attr_ attributions z.
Proof.
  induction fuel as [|fuel IH]; intros attr_ attributions z; simpl;
    [reflexivity|].
  destruct (n_shuffles_ references n_shuffles <=? length attr_)%nat;
    [|reflexivity].
  unfold finalize_chunk.
  destruct (stack_check _) as [chunk|]; cbn [lift rbind]; [|reflexivity].
  apply IH.
Qed.

Lemma run_batch_raw (h h' : bool) (st : loop_state) :
  run_batch X target references n_shuffles return_references h
    warning_threshold additional_nonlinear_ops print_convergence_deltas
    true random_state st
  = run_batch X target references n_shuffles return_references h'
      warning_threshold additional_nonlinear_ops print_convergence_deltas
      true random_state st.
Proof.
  unfold run_batch.
  destruct (lift IndexError _) as [_X|e]; cbn [rbind]; [|reflexivity].
  destruct (resolve_references _ _ _ _ _ _) as [rr|e]; cbn [rbind];
    [|reflexivity].
  destruct (fst (batch_multipliers _ _ _ _ _ _ _ _)) as [m|e]; cbn [rbind];
    [|reflexivity].
  rewrite (drain_raw h h'). reflexivity.
Qed.

(** X13.  With [raw_outputs=True] the flag [hypothetical] is never
    consulted: the two values give the same outcome. *)
Theorem raw_outputs_ignore_hypothetical :
  forall (w : world) (rng0 : nat),
    deep_lift_shap X target batch_size references n_shuffles
      return_references true warning_threshold additional_nonlinear_ops
      print_convergence_deltas true random_state w rng0
    = deep_lift_shap X target batch_size references n_shuffles
        return_references false warning_threshold additional_nonlinear_ops
        print_convergence_deltas true random_state w rng0.
Proof.
  intros w rng0. unfold deep_lift_shap.
  rewrite (for_range_ext _
             (loop_body X target batch_size references n_shuffles
                return_references false warning_threshold
                additional_nonlinear_ops print_convergence_deltas true
                random_state
                (length X * n_shuffles_ references n_shuffles))).
  - reflexivity.
  - intros st i. unfold loop_body.
    destruct (_ || _)%bool; [apply run_batch_raw|reflexivity].
Qed.

End RawOutputs.

Section OneBatch.

Variables (X : ten3) (target : nat) (references : references_arg).
Variables (n_shuffles : nat) (return_references hypothetical : bool).
Variables (warning_threshold : Qc).
Variables (additional_nonlinear_ops : option ops_dict).
Variables (print_convergence_deltas raw_outputs : bool).
Variable random_state : option Z.

Let n := (length X * n_shuffles_ references n_shuffles)%nat.

Let body (batch_size : nat) :=
  loop_body X target batch_size references n_shuffles return_references
    hypothetical warning_threshold additional_nonlinear_ops
    print_convergence_deltas raw_outputs random_state n.

Lemma for_range_one_batch (batch_size : nat) (len : nat) :
  batch_size = 0%nat \/ (n <= batch_size)%nat ->
  forall i st,
    (i + len = n)%nat -> length (Xi st) = i ->
    for_range (body batch_size) st (seq i len)
    = for_range (body n) st (seq i len).
Proof.
  intros Hbs. induction len as [|len IH]; intros i st Hlen HXi; simpl;
    [reflexivity|].
  unfold body at 1 3. unfold loop_body.
  cbn [Xi rj attr_ attributions z references_ wld rng].
  rewrite length_app, HXi. cbn [length]. fold n.
  destruct (Nat.eqb_spec i (n - 1)) as [Hlast|Hnot].
  - rewrite !orb_true_r.
    destruct (run_batch _ _ _ _ _ _ _ _ _ _ _ _) as [st'|e]; cbn [rbind];
      [|reflexivity].
    assert (len = 0)%nat by lia. subst len. reflexivity.
  - rewrite !orb_false_r.
    replace (i + 1 =? batch_size)%nat with false
      by (symmetry; apply Nat.eqb_neq; lia).
    replace (i + 1 =? n)%nat with false
      by (symmetry; apply Nat.eqb_neq; lia).
    cbn [rbind]. apply IH; [lia|].
    cbn [Xi]. rewrite length_app, HXi. simpl. lia.
Qed.

(** X9.  A [batch_size] of [0], or one that no number of pairs reaches,
    is one batch: the driver then does what it does with [batch_size]
    equal to the number of pairs [N * n_shuffles], running the engine
    once, after the last pair. *)
Theorem deep_lift_shap_one_batch :
  forall (batch_size : nat) (w : world) (rng0 : nat),
    batch_size = 0%nat
    \/ (length X * n_shuffles_ references n_shuffles <= batch_size)%nat ->
    deep_lift_shap X target batch_size references n_shuffles
      return_references hypothetical warning_threshold
      additional_nonlinear_ops print_convergence_deltas raw_outputs
      random_state w rng0
    = deep_lift_shap X target
        (length X * n_shuffles_ references n_shuffles) references
        n_shuffles return_references hypothetical warning_threshold
        additional_nonlinear_ops print_convergence_deltas raw_outputs
        random_state w rng0.
Proof.
  intros batch_size w rng0 Hbs. unfold deep_lift_shap. fold n.
  fold (body batch_size). fold (body n).
  rewrite (for_range_one_batch batch_size n Hbs 0) by (simpl; lia).
  reflexivity.
Qed.

End OneBatch.

Lemma deep_lift_shap_one_batch_witness :
  deep_lift_shap two_X 0 0 (RefTensor two_references) 20 false true
    (Q2Qc (1 # 10000)) nonlinear_ops false false None norm_world 0
  = deep_lift_shap two_X 0
      (length two_X * n_shuffles_ (RefTensor two_references) 20)
      (RefTensor two_references) 20 false true
      (Q2Qc (1 # 10000)) nonlinear_ops false false None norm_world 0.
Proof.
  apply (deep_lift_shap_one_batch two_X 0 (RefTensor two_references) 20
           false true (Q2Qc (1 # 10000)) nonlinear_ops false false None
           0 norm_world 0).
  left. reflexivity.
Defined.

(** ** Registration twice *)

Lemma register_hooks_settled (s s' : DeepLiftShap) (id pos id' pos' : nat)
  (m : Module) :
  _NON_LINEAR_OPS s' = _NON_LINEAR_OPS s ->
  _register_hooks s' id' pos' (snd (_register_hooks s id pos m))
  = (s', id', snd (_register_hooks s id pos m)).
Proof.
  intros Ho.
  assert (H : (0 <? length (_backward_hooks
                              (snd (_register_hooks s id pos m))))%nat = true
              \/ ((0 <? length (_backward_hooks
                                 (snd (_register_hooks s id pos m))))%nat
                  = false /\
                  ops_lookup (_NON_LINEAR_OPS s)
                    (cls (snd (_register_hooks s id pos m))) = None)).
  { unfold _register_hooks.
    destruct (0 <? length (_backward_hooks m))%nat eqn:E;
      [left; exact E|].
    destruct (ops_lookup (_NON_LINEAR_OPS s) (cls m)) as [r|] eqn:El.
    - left. unfold register_hook. cbn [fst snd].
      cbn [_backward_hooks hooks_of set_hooks].
      rewrite length_app. apply Nat.ltb_lt. simpl. lia.
    - right. cbn [snd]. auto. }
  remember (snd (_register_hooks s id pos m)) as m1 eqn:Em1. clear Em1.
  unfold _register_hooks.
  destruct H as [H|[H1 H2]].
  - rewrite H. reflexivity.
  - rewrite H1, Ho, H2. reflexivity.
Qed.

Lemma register_hooks_ops (s : DeepLiftShap) (id pos : nat) (m : Module) :
  _NON_LINEAR_OPS (fst (fst (_register_hooks s id pos m)))
  = _NON_LINEAR_OPS s.
Proof.
  unfold _register_hooks.
  destruct (0 <? length (_backward_hooks m))%nat; [reflexivity|].
  destruct (ops_lookup (_NON_LINEAR_OPS s) (cls m)); reflexivity.
Qed.

Lemma apply_register_hooks_ops (ms : list Module) :
  forall s id pos,
    _NON_LINEAR_OPS (fst (fst (apply_register_hooks s id pos ms)))
    = _NON_LINEAR_OPS s.
Proof.
  induction ms as [|m ms IH]; intros s id pos; simpl; [reflexivity|].
  pose proof (register_hooks_ops s id pos m) as H1.
  destruct (_register_hooks s id pos m) as [[s1 i1] m1].
  pose proof (IH s1 i1 (S pos)) as H2.
  destruct (apply_register_hooks s1 i1 (S pos) ms) as [[s2 i2] ms2].
  cbn [fst snd] in *. congruence.
Qed.

Lemma apply_register_hooks_settled (ms : list Module) :
  forall s s' id pos id' pos',
    _NON_LINEAR_OPS s' = _NON_LINEAR_OPS s ->
    apply_register_hooks s' id' pos' (snd (apply_register_hooks s id pos ms))
    = (s', id', snd (apply_register_hooks s id pos ms)).
Proof.
  induction ms as [|m ms IH]; intros s s' id pos id' pos' Ho; simpl;
    [reflexivity|].
  pose proof (register_hooks_settled s s' id pos id' pos' m Ho) as H1.
  pose proof (register_hooks_ops s id pos m) as Ho1.
  destruct (_register_hooks s id pos m) as [[s1 i1] m1].
  cbn [fst snd] in H1, Ho1.
  pose proof (IH s1 s' i1 (S pos) id' (S pos')) as H2.
  destruct (apply_register_hooks s1 i1 (S pos) ms) as [[s2 i2] ms2].
  cbn [fst snd] in *. simpl. rewrite H1.
  rewrite H2 by congruence. reflexivity.
Qed.

(** X5.  A second [self.model.apply(self._register_hooks)] changes
    nothing: every module the first pass gave hooks to is skipped for
    its backward hook, so no module gets a second set of hooks, no
    handle is added and no handle id is used up. *)
Theorem register_hooks_idempotent :
  forall (self : DeepLiftShap) (id pos : nat) (ms : list Module),
    let once := apply_register_hooks self id pos ms in
    apply_register_hooks (fst (fst once)) (snd (fst once)) pos (snd once)
    = once.
Proof.
  intros self id pos ms once. unfold once.
  rewrite apply_register_hooks_settled
    by (apply apply_register_hooks_ops).
  destruct (apply_register_hooks self id pos ms) as [[s1 i1] ms1].
  reflexivity.
Qed.

(** ** The shape of what [attribute] returns *)

Lemma same_shape3_map2_l {A B C} (f : A -> B -> C)
  (x : list (list (list A))) :
  forall (r : list (list (list B))),
    same_shape3 x r = true ->
    same_shape3 (map2 (map2 (map2 f)) x r) x = true.
Proof.
  unfold same_shape3.
  induction x as [|a x IH]; intros [|b r] H; simpl in *;
    try discriminate; [reflexivity|].
  apply andb_true_iff in H. destruct H as [H1 H2].
  rewrite (same_shape2_map2_l f a b H1). simpl. apply IH, H2.
Qed.

Lemma same_shape3_sym {A B} (a : list (list (list A))) :
  forall (b : list (list (list B))), same_shape3 a b = same_shape3 b a.
Proof.
  unfold same_shape3.
  induction a as [|x a IH]; intros [|y b]; simpl; try reflexivity.
  rewrite same_shape2_sym, IH. reflexivity.
Qed.

Lemma same_shape3_trans {A B C} (a : list (list (list A))) :
  forall (b : list (list (list B))) (c : list (list (list C))),
    same_shape3 a b = true -> same_shape3 b c = true ->
    same_shape3 a c = true.
Proof.
  unfold same_shape3.
  induction a as [|x a IH]; intros [|y b] [|z c] H1 H2; simpl in *;
    try discriminate; [reflexivity|].
  apply andb_true_iff in H1, H2. destruct H1 as [H1 H1'], H2 as [H2 H2'].
  rewrite (same_shape2_trans x y z H1 H2). simpl. eapply IH; eassumption.
Qed.

(** X6.  Whenever [attribute] returns, the gradients have exactly the
    shape of [X] (and [X] that of the references), whatever the model
    and whatever rules were registered: the convergence check multiplies
    them elementwise with [X - references]. *)
Theorem attribute_result_shape :
  forall (self : DeepLiftShap) (w : world) (X references : ten3)
         (target : nat) (gradients : ten3),
    fst (fst (attribute self w X references target)) = Ok gradients ->
    same_shape3 gradients X = true /\ same_shape3 X references = true.
Proof.
  intros self w X references target gradients H.
  destruct (attribute self w X references target) as [[res self'] w'] eqn:E.
  cbn [fst] in H. subst res.
  destruct (attribute_Ok_inv _ _ _ _ _ _ _ _ E)
    as (_ & id1 & ms1 & ms2 & tape & out & y & g & od & diffs & contribs &
        d & _ & _ & _ & _ & _ & _ & Hd & Hc & _).
  pose proof (same_shape3_of_zip3 _ _ _ _ Hd) as S1.
  pose proof (same_shape3_of_zip3 _ _ _ _ Hc) as S2.
  destruct (zip3_Some _ _ _ _ Hd) as [-> _].
  split; [|exact S1].
  rewrite same_shape3_sym.
  eapply same_shape3_trans; [|exact S2].
  rewrite same_shape3_sym. apply same_shape3_map2_l, S1.
Qed.

Lemma attribute_result_shape_witness :
  same_shape3
    (match fst (fst (attribute default_engine relu_world toy_X
                       toy_references 0)) with
     | Ok g => g
     | Raise _ => []
     end) toy_X = true /\
  same_shape3 toy_X toy_references = true.
Proof.
  apply (attribute_result_shape default_engine relu_world toy_X
           toy_references 0).
  vm_compute. reflexivity.
Defined.

(** ** Calling [attribute] again *)

Lemma attribute_outcome_independent (s s' : DeepLiftShap) (w w' : world)
  (X references : ten3) (target : nat) :
  same_engine s s' ->
  Forall reads_caches (map snd (_NON_LINEAR_OPS s)) ->
  Forall hook_free (modules w) -> Forall hook_free (modules w') ->
  Forall2 same_layer (modules w) (modules w') ->
  fst (fst (attribute s' w' X references target))
  = fst (fst (attribute s w X references target)).
Proof.
  intros Hs0 Hr Hf Hf' Hl. unfold attribute.
  destruct (negb (shape_eqb (shape3 X) (shape3 references)));
    [reflexivity|].
  destruct (apply_register_paired (modules w) (modules w') s s'
              (next_id w) (next_id w') 0 0 Hl Hf Hf' Hs0)
    as (Hp & Hs).
  pose proof (apply_register_hooks_spec (modules w) s (next_id w) 0) as Hspec.
  destruct (apply_register_hooks s (next_id w) 0 (modules w))
    as [[s1 i1] ms1].
  destruct (apply_register_hooks s' (next_id w') 0 (modules w'))
    as [[s1' i1'] ms1'].
  cbn [fst snd] in Hp, Hs.
  destruct (Hspec s1 i1 ms1 eq_refl) as (_ & _ & (_ & _ & _ & Ho) & _).
  rewrite <- Ho in Hr.
  pose proof (attribute_body_paired s1 s1' ms1 ms1' X references target
                Hs Hr Hp) as Hb.
  destruct (attribute_body s1 ms1 X references target) as [ms2 r].
  destruct (attribute_body s1' ms1' X references target) as [ms2' r'].
  cbn [snd] in Hb. subst r'.
  destruct r as [[g evs]|e]; reflexivity.
Qed.

Lemma attribute_same_engine (self : DeepLiftShap) (w : world)
  (X references : ten3) (target : nat) :
  same_engine self (snd (fst (attribute self w X references target))).
Proof.
  destruct (attribute self w X references target) as [[res self'] w'] eqn:E.
  destruct (attribute_world self w X references target res self' w' E)
    as [(_ & -> & _)|(id1 & ms1 & Hreg & _)];
    [apply same_engine_refl|].
  cbn [fst snd].
  destruct (apply_register_hooks_spec _ _ _ _ _ _ _ Hreg) as (_ & _ & H & _).
  exact H.
Qed.

Lemma attribute_stays_hook_free (self : DeepLiftShap) (w : world)
  (X references : ten3) (target : nat) :
  handles_stale self w ->
  Forall hook_free (modules w) ->
  Forall hook_free (modules (snd (attribute self w X references target))).
Proof.
  intros Hh Hf.
  destruct (attribute self w X references target) as [[res self'] w'] eqn:E.
  cbn [snd].
  destruct (attribute_hooks self w X references target) with (3 := E)
    as (Hlen & Hd & _).
  - destruct w as [ms n evs]. apply no_hooks_ids_below. exact Hf.
  - exact Hh.
  - pose proof (hooks_view_ext _ _ Hlen Hd) as Hv.
    apply Forall_forall. intros m Hm.
    apply (in_map hooks_view) in Hm. rewrite Hv in Hm.
    apply in_map_iff in Hm. destruct Hm as (m0 & Hm0 & Hin).
    rewrite Forall_forall in Hf. unfold hook_free.
    rewrite <- Hm0. apply Hf, Hin.
Qed.

(** X7.  An engine object and a model can be used again: on a model
    without hooks, with rules that read of a module only what the hooks
    cached, a call of [attribute] made after an earlier call (on any
    input) returns what it would have returned without the earlier call.
    Neither the caches nor the handles the first call left behind
    matter. *)
Theorem attribute_again :
  forall (self : DeepLiftShap) (w : world)
         (X0 references0 : ten3) (target0 : nat)
         (X references : ten3) (target : nat),
    Forall reads_caches (map snd (_NON_LINEAR_OPS self)) ->
    Forall hook_free (modules w) ->
    handles_stale self w ->
    let first := attribute self w X0 references0 target0 in
    fst (fst (attribute (snd (fst first)) (snd first) X references target))
    = fst (fst (attribute self w X references target)).
Proof.
  intros self w X0 R0 t0 X R t Hr Hf Hh first.
  apply attribute_outcome_independent.
  - apply attribute_same_engine.
  - exact Hr.
  - exact Hf.
  - apply attribute_stays_hook_free; assumption.
  - apply attribute_keeps_layers.
Qed.

Lemma attribute_again_witness :
  let first := attribute default_engine relu_world toy_references toy_X 0 in
  fst (fst (attribute (snd (fst first)) (snd first) toy_X toy_references 0))
  = fst (fst (attribute default_engine relu_world toy_X toy_references 0)).
Proof.
  apply (attribute_again default_engine relu_world toy_references toy_X 0
           toy_X toy_references 0).
  - apply (init_reads_caches None). exact I.
  - repeat constructor.
  - intros h Hin. contradiction Hin.
Defined.

(** ** What holds whenever the driver returns *)

Lemma assign_row_length (i : nat) (s : mat) (t t' : ten3) :
  assign_row i s t = Some t' -> length t' = length t.
Proof.
  unfold assign_row. destruct (length s =? length t)%nat eqn:E;
    [|discriminate].
  intros H. injection H as <-. apply Nat.eqb_eq in E.
  rewrite length_map2; [reflexivity|symmetry; exact E].
Qed.

Lemma hypothetical_loop_length (m x r : ten3) (l : list nat) :
  forall P P',
    for_each (hypothetical_step m x r) P l = Some P' ->
    length P' = length P.
Proof.
  induction l as [|i l IH]; intros P P' H; simpl in H.
  - injection H as <-. reflexivity.
  - destruct (hypothetical_step m x r P i) as [P1|] eqn:E; [|discriminate].
    cbn [obind] in H. rewrite (IH _ _ H).
    unfold hypothetical_step in E.
    destruct (zip3 Qcminus _ r) as [d|]; [|discriminate]. cbn [obind] in E.
    destruct (zip3 Qcmult d m) as [c|]; [|discriminate]. cbn [obind] in E.
    apply (assign_row_length _ _ _ _ E).
Qed.

Lemma hypothetical_attributions_length (m x r t : ten3)
  (rest : list pyobj) :
  hypothetical_attributions (PyTuple [PyTensor m]) (PyTuple [PyTensor x])
    (PyTuple [PyTensor r]) = Ok (PyTuple (PyTensor t :: rest)) ->
  length t = length m.
Proof.
  unfold hypothetical_attributions.
  change (check_arg (PyTuple [PyTensor m]) None) with (Ok (A:=ten3) m).
  cbn [rbind]. unfold check_arg.
  destruct (_ && _ && _)%bool; [|discriminate]. cbn [rbind].
  destruct (_ && _ && _)%bool eqn:Er; [|discriminate]. cbn [rbind].
  destruct (for_each _ _ _) as [P|] eqn:E; [|discriminate].
  cbn [lift rbind]. intros H. injection H as <- _.
  rewrite (hypothetical_loop_length _ _ _ _ _ _ E).
  unfold zeros_like. rewrite length_map.
  apply andb_true_iff in Er. destruct Er as [Er _].
  apply andb_true_iff in Er. destruct Er as [Er _].
  apply Nat.eqb_eq in Er. exact Er.
Qed.

Lemma batch_multipliers_length (target : nat) (t : Qc)
  (ops : option ops_dict) (v raw : bool) (w : world) (X R m : ten3) :
  fst (batch_multipliers target t ops v raw w X R) = Ok m ->
  length m = length X.
Proof.
  unfold batch_multipliers. cbn [fst].
  destruct (attribute _ w X R target) as [[res self'] w'] eqn:E.
  cbn [fst]. destruct res as [g|e]; [|discriminate]. cbn [rbind].
  destruct (attribute_deltas _ _ _ _ _ _ _ _ E) as (_ & _ & _ & Hg & _).
  destruct raw.
  - intros H. injection H as <-. exact Hg.
  - destruct (hypothetical_attributions _ _ _) as [r|e] eqn:Eh;
      [|discriminate].
    cbn [rbind]. destruct r as [[|[t'|] rest]|]; try discriminate.
    intros H. injection H as <-.
    rewrite (hypothetical_attributions_length _ _ _ _ _ Eh). exact Hg.
Qed.

Section Returns.

Variables (X : ten3) (target batch_size : nat) (references : references_arg).
Variables (n_shuffles : nat) (return_references hypothetical : bool).
Variables (warning_threshold : Qc).
Variables (additional_nonlinear_ops : option ops_dict).
Variables (print_convergence_deltas raw_outputs : bool).
Variable random_state : option Z.

Let R := n_shuffles_ references n_shuffles.
Let N := length X.

(** What is to hold of the worlds and of the references gathered so
    far, after the pairs before [p]. *)
Variable Inv : world -> Prop.
Variable Q : nat -> list mat -> Prop.

Hypothesis Inv_kept : forall w _X _references,
  Inv w ->
  Inv (snd (batch_multipliers target warning_threshold
              additional_nonlinear_ops print_convergence_deltas raw_outputs
              w _X _references)).

Hypothesis Q_kept : forall p len _X rng refs rng' l,
  Q p l ->
  resolve_references references random_state
    (map (fun q => q / R)%nat (seq p len))
    (map (fun q => q mod R)%nat (seq p len)) _X rng = Ok (refs, rng') ->
  Q (p + len)%nat (if return_references then l ++ refs else l).

Lemma drain_lengths (fuel : nat) :
  forall attr_ atts z a' atts' z',
    (0 < R)%nat ->
    drain X references n_shuffles hypothetical raw_outputs fuel attr_ atts z
    = Ok (a', atts', z') ->
    length atts = z ->
    (length a' + R * z' = length attr_ + R * z)%nat /\
    length atts' = z' /\ (length a' < R)%nat.
Proof.
  induction fuel as [|fuel IH]; intros attr_ atts z a' atts' z' HR H Hz;
    simpl in H; fold R in H.
  - destruct (R <=? length attr_)%nat eqn:E; [discriminate|].
    injection H as <- <- <-. apply Nat.leb_gt in E. auto.
  - destruct (R <=? length attr_)%nat eqn:E.
    + apply Nat.leb_le in E.
      destruct (finalize_chunk _ _ _ _ _) as [entry|e]; [|discriminate].
      cbn [rbind] in H.
      destruct (IH _ _ _ _ _ _ HR H) as (H1 & H2 & H3).
      { rewrite length_app. simpl. lia. }
      rewrite length_skipn in H1. split; [lia|]. auto.
    + injection H as <- <- <-. apply Nat.leb_gt in E. auto.
Qed.

Let ret_inv (i : nat) (st : loop_state) : Prop :=
  exists p,
    (p <= i)%nat /\
    Xi st = map (fun q => q / R)%nat (seq p (i - p)) /\
    rj st = map (fun q => q mod R)%nat (seq p (i - p)) /\
    (length (attr_ st) + R * z st = p)%nat /\
    length (attributions st) = z st /\
    (length (attr_ st) < R)%nat /\
    (i = N * R -> p = N * R)%nat /\
    Inv (wld st) /\ Q p (references_ st).

Lemma loop_body_returns (i : nat) (st st' : loop_state) :
  (0 < R)%nat -> (i < N * R)%nat ->
  ret_inv i st ->
  loop_body X target batch_size references n_shuffles return_references
    hypothetical warning_threshold additional_nonlinear_ops
    print_convergence_deltas raw_outputs random_state (N * R) st i
  = Ok st' ->
  ret_inv (S i) st'.
Proof.
  intros HR Hi (p & Hp & HXi & Hrj & Hat & Hfin & Hlt & _ & Hw & Hq) H.
  unfold loop_body in H. fold R in H.
  cbn [Xi rj attr_ attributions z references_ wld rng] in H.
  assert (HXi' : Xi st ++ [(i / R)%nat]
                 = map (fun q => q / R)%nat (seq p (S i - p))).
  { replace (S i - p)%nat with (S (i - p)) by lia.
    rewrite seq_S, map_app, HXi. simpl.
    replace (p + (i - p))%nat with i by lia. reflexivity. }
  assert (Hrj' : rj st ++ [(i mod R)%nat]
                 = map (fun q => q mod R)%nat (seq p (S i - p))).
  { replace (S i - p)%nat with (S (i - p)) by lia.
    rewrite seq_S, map_app, Hrj. simpl.
    replace (p + (i - p))%nat with i by lia. reflexivity. }
  rewrite HXi', Hrj' in H.
  destruct ((length (map (fun q => q / R)%nat (seq p (S i - p)))
             =? batch_size)%nat || (i =? N * R - 1)%nat) eqn:Erun.
  - unfold run_batch in H.
    cbn [Xi rj attr_ attributions z references_ wld rng] in H.
    destruct (mapM (nth_error X) _) as [_X|] eqn:EX; [|discriminate].
    cbn [lift rbind] in H.
    destruct (resolve_references _ _ _ _ _ _) as [[refs rng']|e] eqn:Er;
      [|discriminate].
    cbn [rbind fst snd] in H.
    pose proof (Inv_kept (wld st) _X refs Hw) as Hw'.
    pose proof (batch_multipliers_length target warning_threshold
                  additional_nonlinear_ops print_convergence_deltas
                  raw_outputs (wld st) _X refs) as Hlen.
    destruct (fst (batch_multipliers _ _ _ _ _ (wld st) _X refs))
      as [m|e]; [|discriminate].
    cbn [rbind] in H. specialize (Hlen m eq_refl).
    apply mapM_length in EX. rewrite length_map, length_seq in EX.
    destruct (drain _ _ _ _ _ _ _ _ _) as [[[a' atts'] z']|e] eqn:Ed;
      [|discriminate].
    cbn [rbind fst snd] in H. injection H as <-.
    destruct (drain_lengths _ _ _ _ _ _ _ HR Ed Hfin) as (H1 & H2 & H3).
    rewrite length_app in H1.
    exists (S i). cbn [Xi rj attr_ attributions z references_ wld rng].
    rewrite Nat.sub_diag. simpl seq. simpl map.
    repeat split; auto; try lia.
    replace (S i) with (p + (S i - p))%nat at 1 by lia.
    apply (Q_kept p (S i - p) _X (rng st) refs rng' _ Hq Er).
  - injection H as <-. apply orb_false_iff in Erun.
    destruct Erun as [_ Elast]. apply Nat.eqb_neq in Elast.
    exists p. cbn [Xi rj attr_ attributions z references_ wld rng].
    repeat split; auto; try lia.
Qed.

Lemma for_range_returns (len : nat) :
  forall i st st',
    (0 < R)%nat -> (i + len = N * R)%nat ->
    ret_inv i st ->
    for_range
      (loop_body X target batch_size references n_shuffles
         return_references hypothetical warning_threshold
         additional_nonlinear_ops print_convergence_deltas raw_outputs
         random_state (N * R)) st (seq i len)
    = Ok st' ->
    ret_inv (N * R) st'.
Proof.
  induction len as [|len IH]; intros i st st' HR Hlen Hinv H; simpl in H.
  - injection H as <-. replace (N * R)%nat with i by lia. exact Hinv.
  - destruct (loop_body _ _ _ _ _ _ _ _ _ _ _ _ _ st i) as [st1|e] eqn:E1;
      [|discriminate].
    cbn [rbind] in H.
    apply (IH (S i) st1 st' HR); [lia| |exact H].
    apply (loop_body_returns i st st1 HR); [lia|exact Hinv|exact E1].
Qed.

Lemma deep_lift_shap_returns (w : world) (rng0 : nat)
  (a : list attribution) (refs : option (list ten3)) (w' : world)
  (rng' : nat) :
  Inv w -> Q 0 [] ->
  deep_lift_shap X target batch_size references n_shuffles
    return_references hypothetical warning_threshold
    additional_nonlinear_ops print_convergence_deltas raw_outputs
    random_state w rng0 = Ok (a, refs, w', rng') ->
  (0 < N)%nat /\ (0 < R)%nat /\ length a = N /\ Inv w' /\
  exists l,
    Q (N * R)%nat l /\
    refs = if return_references
           then Some (reshape_references references n_shuffles N l)
           else None.
Proof.
  intros Hw Hq H. unfold deep_lift_shap in H. fold R N in H.
  destruct (for_range _ _ _) as [st|e] eqn:E; [|discriminate].
  cbn [rbind] in H.
  destruct (stack_attributions (attributions st)) as [a0|e] eqn:Es;
    [|discriminate].
  cbn [rbind] in H. injection H as <- <- <- <-.
  apply stack_attributions_Ok in Es as Ea. subst a0.
  destruct (Nat.eq_dec (N * R) 0) as [Hz|Hnz].
  { rewrite Hz in E. simpl in E. injection E as <-. discriminate Es. }
  assert (HN : (0 < N)%nat) by (destruct N; [simpl in Hnz|]; lia).
  assert (HR : (0 < R)%nat) by (destruct R; [rewrite Nat.mul_0_r in Hnz|]; lia).
  destruct (for_range_returns (N * R) 0 (mkLoop [] [] [] [] 0 [] w rng0)
              st HR) with (3 := E)
    as (p & _ & _ & _ & Hat & Hfin & Hlt & Hend & Hw' & Hq'); [lia| |].
  - exists 0%nat. simpl. repeat split; auto; lia.
  - assert (Hp : (p = N * R)%nat) by (apply Hend; reflexivity).
    rewrite Hp in Hat, Hq'.
    split; [exact HN|]. split; [exact HR|].
    split; [rewrite Hfin; nia|]. split; [exact Hw'|].
    exists (references_ st). split; [exact Hq'|reflexivity].
Qed.

End Returns.

(** X10.  Whenever [deep_lift_shap] returns, for whatever model, rules
    and batch size, it returns one entry for every example of [X]; and
    it returns only if there is an example and a shuffle. *)
Theorem deep_lift_shap_one_entry_per_example :
  forall (X : ten3) (target batch_size : nat) (references : references_arg)
         (n_shuffles : nat) (return_references hypothetical : bool)
         (warning_threshold : Qc)
         (additional_nonlinear_ops : option ops_dict)
         (print_convergence_deltas raw_outputs : bool)
         (random_state : option Z) (w : world) (rng0 : nat)
         (a : list attribution),
    attributions_of
      (deep_lift_shap X target batch_size references n_shuffles
         return_references hypothetical warning_threshold
         additional_nonlinear_ops print_convergence_deltas raw_outputs
         random_state w rng0) = Some a ->
    length a = length X /\ (0 < length X)%nat /\
    (0 < n_shuffles_ references n_shuffles)%nat.
Proof.
  intros X target batch_size references n_shuffles return_references
    hypothetical warning_threshold additional_nonlinear_ops
    print_convergence_deltas raw_outputs random_state w rng0 a H.
  destruct (deep_lift_shap _ _ _ _ _ _ _ _ _ _ _ _ _ _)
    as [[[[a0 refs] w'] rng']|e] eqn:E; [|discriminate].
  simpl in H. injection H as ->.
  destruct (deep_lift_shap_returns X target batch_size references
              n_shuffles return_references hypothetical warning_threshold
              additional_nonlinear_ops print_convergence_deltas raw_outputs
              random_state (fun _ => True) (fun _ _ => True)
              (fun _ _ _ _ => I) (fun _ _ _ _ _ _ _ _ _ => I)
              w rng0 a refs w' rng' I I E) as (H1 & H2 & H3 & _).
  auto.
Qed.

Lemma deep_lift_shap_one_entry_per_example_witness :
  length (map (two_final norm_world nonlinear_ops) (seq 0 2))
  = length two_X /\ (0 < length two_X)%nat /\
  (0 < n_shuffles_ (RefTensor two_references) 20)%nat.
Proof.
  apply (deep_lift_shap_one_entry_per_example two_X 0 3
           (RefTensor two_references) 20 false true (Q2Qc (1 # 10000))
           nonlinear_ops false false None norm_world 0).
  vm_compute. reflexivity.
Defined.

(** X12.  When [deep_lift_shap] returns, the model is left as it was
    found: a model that carried no hook carries none afterwards, and
    its layers are the same. *)
Theorem deep_lift_shap_leaves_no_hooks :
  forall (X : ten3) (target batch_size : nat) (references : references_arg)
         (n_shuffles : nat) (return_references hypothetical : bool)
         (warning_threshold : Qc)
         (additional_nonlinear_ops : option ops_dict)
         (print_convergence_deltas raw_outputs : bool)
         (random_state : option Z) (w : world) (rng0 : nat) (w' : world),
    Forall hook_free (modules w) ->
    world_of
      (deep_lift_shap X target batch_size references n_shuffles
         return_references hypothetical warning_threshold
         additional_nonlinear_ops print_convergence_deltas raw_outputs
         random_state w rng0) = Some w' ->
    Forall hook_free (modules w') /\
    Forall2 same_layer (modules w) (modules w').
Proof.
  intros X target batch_size references n_shuffles return_references
    hypothetical warning_threshold additional_nonlinear_ops
    print_convergence_deltas raw_outputs random_state w rng0 w' Hf H.
  destruct (deep_lift_shap _ _ _ _ _ _ _ _ _ _ _ _ _ _)
    as [[[[a refs] w1] rng']|e] eqn:E; [|discriminate].
  simpl in H. injection H as ->.
  destruct (deep_lift_shap_returns X target batch_size references
              n_shuffles return_references hypothetical warning_threshold
              additional_nonlinear_ops print_convergence_deltas raw_outputs
              random_state (settled w) (fun _ _ => True)
              (fun w1 x r H => batch_multipliers_settled _ _ _ _ _ w w1 x r H)
              (fun _ _ _ _ _ _ _ _ _ => I)
              w rng0 a refs w' rng')
    as (_ & _ & _ & Hs & _); [|exact I|exact E|exact Hs].
  split; [exact Hf|apply Forall2_same_layer_refl].
Qed.

Lemma run_two_eq (w : world) (ops : option ops_dict) (batch_size : nat) :
  run_two w ops batch_size
  = deep_lift_shap two_X 0 batch_size (RefTensor two_references) 20
      false true (Q2Qc (1 # 10000)) ops false false None w 0.
Proof. reflexivity. Qed.

Lemma deep_lift_shap_leaves_no_hooks_witness :
  exists w',
    world_of (run_two norm_world nonlinear_ops 3) = Some w' /\
    Forall hook_free (modules w') /\
    Forall2 same_layer (modules norm_world) (modules w').
Proof.
  pose proof (nonlinear_rule_streams 3) as Ha.
  rewrite run_two_eq in Ha |- *.
  destruct (world_of (deep_lift_shap two_X 0 3 (RefTensor two_references)
                        20 false true (Q2Qc (1 # 10000)) nonlinear_ops
                        false false None norm_world 0)) as [w'|] eqn:E.
  - exists w'. split; [reflexivity|].
    apply (deep_lift_shap_leaves_no_hooks two_X 0 3
             (RefTensor two_references) 20 false true (Q2Qc (1 # 10000))
             nonlinear_ops false false None norm_world 0 w').
    + repeat constructor.
    + exact E.
  - exfalso.
    destruct (deep_lift_shap two_X 0 3 (RefTensor two_references) 20 false
                true (Q2Qc (1 # 10000)) nonlinear_ops false false None
                norm_world 0) as [[[[a refs] w1] rng']|e];
      simpl in E, Ha; discriminate.
Defined.

(** ** The references the driver returns *)

Lemma div_mod_pair (R k j : nat) :
  (j < R)%nat -> ((k * R + j) / R = k /\ (k * R + j) mod R = j)%nat.
Proof.
  intros Hj. split.
  - rewrite Nat.add_comm, Nat.div_add by lia. rewrite Nat.div_small; lia.
  - rewrite Nat.add_comm, Nat.Div0.mod_add. apply Nat.mod_small, Hj.
Qed.

Lemma mapM2_lookup (t : list ten3) (f g : nat -> nat) (l : list nat) :
  forall refs,
    mapM2 (fun i j => e <- nth_error t i ;; nth_error e j)
          (map f l) (map g l) = Some refs ->
    refs = map (fun q => nth (g q) (nth (f q) t []) []) l.
Proof.
  induction l as [|q l IH]; intros refs H; simpl in H.
  - injection H as <-. reflexivity.
  - destruct (nth_error t (f q)) as [e|] eqn:E1; [|discriminate].
    cbn [obind] in H.
    destruct (nth_error e (g q)) as [v|] eqn:E2; [|discriminate].
    cbn [obind] in H.
    destruct (mapM2 _ (map f l) (map g l)) as [rest|]; [|discriminate].
    cbn [obind] in H. injection H as <-. simpl.
    rewrite (IH rest eq_refl).
    rewrite (nth_error_nth _ _ _ E1), (nth_error_nth _ _ _ E2). reflexivity.
Qed.

Lemma reshape_of_tensor (t : list ten3) (ns N : nat) :
  length t = N ->
  Forall (fun e => length e = n_shuffles_ (RefTensor t) ns) t ->
  (0 < n_shuffles_ (RefTensor t) ns)%nat ->
  reshape_references (RefTensor t) ns N
    (map (fun q => nth (q mod n_shuffles_ (RefTensor t) ns)
                     (nth (q / n_shuffles_ (RefTensor t) ns) t []) [])
         (seq 0 (N * n_shuffles_ (RefTensor t) ns)))
  = t.
Proof.
  intros HN Hrect HR. unfold reshape_references.
  set (R := n_shuffles_ (RefTensor t) ns) in *.
  transitivity (map (fun a => nth a t []) (seq 0 (length t)));
    [|apply map_nth_seq0].
  rewrite HN.
  apply map_ext_in. intros k Hk. apply in_seq in Hk.
  rewrite skipn_map, firstn_map.
  rewrite (seq_split 0 (N * R) (k * R)) by nia.
  rewrite skipn_app, skipn_all2 by (rewrite length_seq; lia).
  rewrite length_seq, Nat.sub_diag. simpl skipn. simpl app.
  rewrite (seq_split (k * R) (N * R - k * R) R) by nia.
  rewrite firstn_app, firstn_all2 by (rewrite length_seq; lia).
  rewrite length_seq, Nat.sub_diag. simpl firstn. rewrite app_nil_r.
  rewrite seq_from, map_map.
  assert (Hlen : length (nth k t []) = R).
  { rewrite Forall_forall in Hrect. apply Hrect. apply nth_In. lia. }
  transitivity (map (fun a => nth a (nth k t []) []) (seq 0 (length (nth k t []))));
    [|apply map_nth_seq0].
  rewrite Hlen.
  apply map_ext_in. intros j Hj. apply in_seq in Hj.
  destruct (div_mod_pair R k j) as [-> ->]; [lia|reflexivity].
Qed.

(** X11.  With a tensor of references (one row of [n_shuffles]
    references for every example) and [return_references=True],
    whenever [deep_lift_shap] returns, the references it returns are the
    tensor it was given, whatever the batch size. *)
Theorem deep_lift_shap_returns_given_references :
  forall (X : ten3) (target batch_size : nat) (t : list ten3)
         (n_shuffles : nat) (hypothetical : bool)
         (warning_threshold : Qc)
         (additional_nonlinear_ops : option ops_dict)
         (print_convergence_deltas raw_outputs : bool)
         (random_state : option Z) (w : world) (rng0 : nat),
    length t = length X ->
    Forall (fun e => length e = length (hd [] t)) t ->
    attributions_of
      (deep_lift_shap X target batch_size (RefTensor t) n_shuffles
         true hypothetical warning_threshold additional_nonlinear_ops
         print_convergence_deltas raw_outputs random_state w rng0)
    <> None ->
    references_of
      (deep_lift_shap X target batch_size (RefTensor t) n_shuffles
         true hypothetical warning_threshold additional_nonlinear_ops
         print_convergence_deltas raw_outputs random_state w rng0)
    = Some t.
Proof.
  intros X target batch_size t n_shuffles hypothetical warning_threshold
    additional_nonlinear_ops print_convergence_deltas raw_outputs
    random_state w rng0 Hlen Hrect Hret.
  destruct (deep_lift_shap _ _ _ _ _ _ _ _ _ _ _ _ _ _)
    as [[[[a refs] w'] rng']|e] eqn:E; [|contradiction Hret; reflexivity].
  cbn [references_of].
  set (Q := fun (p : nat) (l : list mat) =>
              l = map (fun q =>
                         nth (q mod n_shuffles_ (RefTensor t) n_shuffles)
                           (nth (q / n_shuffles_ (RefTensor t) n_shuffles)
                              t []) [])
                      (seq 0 p)).
  assert (HQ : forall p len _X rng refs0 rng1 l0,
            Q p l0 ->
            resolve_references (RefTensor t) random_state
              (map (fun q => q / n_shuffles_ (RefTensor t) n_shuffles)%nat
                   (seq p len))
              (map (fun q => q mod n_shuffles_ (RefTensor t) n_shuffles)%nat
                   (seq p len)) _X rng = Ok (refs0, rng1) ->
            Q (p + len)%nat (if true then l0 ++ refs0 else l0)).
  { intros p len _X rng refs0 rng1 l0 Hl0 Hres. unfold Q in *. subst l0.
    unfold resolve_references in Hres.
    destruct (mapM2 _ _ _) as [r|] eqn:Er; [|discriminate].
    cbn [lift rbind] in Hres. injection Hres as <- _.
    rewrite (mapM2_lookup _ _ _ _ _ Er), <- map_app.
    rewrite (seq_split 0 (p + len) p) by lia.
    replace (p + len - p)%nat with len by lia. reflexivity. }
  destruct (deep_lift_shap_returns X target batch_size (RefTensor t)
              n_shuffles true hypothetical warning_threshold
              additional_nonlinear_ops print_convergence_deltas raw_outputs
              random_state (fun _ => True) Q (fun _ _ _ _ => I) HQ
              w rng0 a refs w' rng' I eq_refl E)
    as (_ & HR & _ & _ & l & Hl & ->).
  unfold Q in Hl. rewrite Hl. f_equal.
  apply reshape_of_tensor; assumption.
Qed.

Lemma deep_lift_shap_returns_given_references_witness :
  references_of
    (deep_lift_shap two_X 0 3 (RefTensor two_references) 20 true true
       (Q2Qc (1 # 10000)) nonlinear_ops false false None norm_world 0)
  = Some two_references.
Proof.
  apply (deep_lift_shap_returns_given_references two_X 0 3 two_references
           20 true (Q2Qc (1 # 10000)) nonlinear_ops false false None
           norm_world 0).
  - reflexivity.
  - repeat constructor.
  - vm_compute. discriminate.
Defined.

(** ** Batch size *)

Section BatchSize.

Variables (X : ten3) (target : nat) (references : references_arg).
Variables (n_shuffles : nat) (return_references hypothetical : bool).
Variables (warning_threshold : Qc).
Variables (additional_nonlinear_ops : option ops_dict).
Variables (print_convergence_deltas raw_outputs : bool).
Variable random_state : option Z.

Let R := n_shuffles_ references n_shuffles.
Let N := length X.

Variable pair_reference : nat -> nat -> mat.
Variable pair_multipliers : nat -> nat -> mat.
Variable final : nat -> attribution.
Variable Inv : world -> Prop.

Hypothesis R_pos : (0 < R)%nat.

Hypothesis references_fixed : forall p len rng,
  (p + len <= N * R)%nat ->
  resolve_references references random_state
    (map (fun q => q / R)%nat (seq p len))
    (map (fun q => q mod R)%nat (seq p len))
    (map (fun q => nth (q / R) X []) (seq p len)) rng
  = Ok (map (fun q => pair_reference (q / R) (q mod R)) (seq p len), rng).

Hypothesis engine_pairwise : forall w p len,
  Inv w -> (0 < len)%nat -> (p + len <= N * R)%nat ->
  fst (batch_multipliers target warning_threshold additional_nonlinear_ops
         print_convergence_deltas raw_outputs w
         (map (fun q => nth (q / R) X []) (seq p len))
         (map (fun q => pair_reference (q / R) (q mod R)) (seq p len)))
  = Ok (map (fun q => pair_multipliers (q / R) (q mod R)) (seq p len)) /\
  Inv (snd (batch_multipliers target warning_threshold
              additional_nonlinear_ops print_convergence_deltas raw_outputs w
              (map (fun q => nth (q / R) X []) (seq p len))
              (map (fun q => pair_reference (q / R) (q mod R)) (seq p len)))).

Hypothesis finalized : forall k,
  (k < N)%nat ->
  finalize_chunk X hypothetical raw_outputs
    (map (pair_multipliers k) (seq 0 R)) k = Ok (final k).

Hypothesis one_shape : forall k,
  (k < N)%nat -> same_shape_attribution (final 0) (final k) = true.

(** X8.  The attributions do not depend on the batch size when the
    engine treats the pairs of a batch one by one.  Precisely: let the
    references be fixed per pair (a tensor, or a seeded generator); let
    the engine, on every run of consecutive pairs of the loop, return
    for each pair the multipliers [pair_multipliers] that pair has by
    itself, in worlds [Inv] that it keeps; and let every example's
    [n_shuffles] multipliers finalize to [final k].  Then for every
    batch size [deep_lift_shap] returns [final 0, ..., final (N - 1)],
    the examples in their order, none finalized early or late. *)
Theorem deep_lift_shap_batch_size_independent :
  forall (b1 b2 : nat) (w1 w2 : world) (rng1 rng2 : nat),
    Inv w1 -> Inv w2 -> (0 < length X)%nat ->
    attributions_of
      (deep_lift_shap X target b1 references n_shuffles return_references
         hypothetical warning_threshold additional_nonlinear_ops
         print_convergence_deltas raw_outputs random_state w1 rng1)
    = Some (map final (seq 0 (length X))) /\
    attributions_of
      (deep_lift_shap X target b2 references n_shuffles return_references
         hypothetical warning_threshold additional_nonlinear_ops
         print_convergence_deltas raw_outputs random_state w2 rng2)
    = attributions_of
        (deep_lift_shap X target b1 references n_shuffles return_references
           hypothetical warning_threshold additional_nonlinear_ops
           print_convergence_deltas raw_outputs random_state w1 rng1).
Proof.
  intros b1 b2 w1 w2 rng1 rng2 H1 H2 HN.
  destruct (deep_lift_shap_streams X target references n_shuffles
              return_references hypothetical warning_threshold
              additional_nonlinear_ops print_convergence_deltas raw_outputs
              random_state pair_reference pair_multipliers final Inv
              R_pos references_fixed engine_pairwise finalized one_shape
              b1 w1 rng1 H1 HN) as (w1' & E1 & _).
  destruct (deep_lift_shap_streams X target references n_shuffles
              return_references hypothetical warning_threshold
              additional_nonlinear_ops print_convergence_deltas raw_outputs
              random_state pair_reference pair_multipliers final Inv
              R_pos references_fixed engine_pairwise finalized one_shape
              b2 w2 rng2 H2 HN) as (w2' & E2 & _).
  rewrite E1, E2. split; reflexivity.
Qed.

End BatchSize.

Lemma deep_lift_shap_batch_size_independent_witness :
  attributions_of
    (deep_lift_shap two_X 0 1 (RefTensor two_references) 20 false true
       (Q2Qc (1 # 10000)) nonlinear_ops false false None norm_world 0)
  = Some (map (two_final norm_world nonlinear_ops) (seq 0 (length two_X))) /\
  attributions_of
    (deep_lift_shap two_X 0 4 (RefTensor two_references) 20 false true
       (Q2Qc (1 # 10000)) nonlinear_ops false false None norm_world 0)
  = attributions_of
      (deep_lift_shap two_X 0 1 (RefTensor two_references) 20 false true
         (Q2Qc (1 # 10000)) nonlinear_ops false false None norm_world 0).
Proof.
  assert (Hn : (length two_X
                * n_shuffles_ (RefTensor two_references) 20 = 4)%nat)
    by reflexivity.
  apply (deep_lift_shap_batch_size_independent two_X 0
           (RefTensor two_references) 20 false true (Q2Qc (1 # 10000))
           nonlinear_ops false false None two_reference
           (two_pair norm_world nonlinear_ops)
           (two_final norm_world nonlinear_ops) (settled norm_world)).
  - vm_compute. lia.
  - intros p len rng H. rewrite Hn in H.
    do 5 (destruct p as [|p];
          [do 5 (destruct len as [|len];
                 [first [exfalso; lia | reflexivity]|]);
           exfalso; lia|]).
    exfalso; lia.
  - intros w p len Hw Hlen H. rewrite Hn in H. split.
    + rewrite (batch_multipliers_world_independent _ _ _ _ _ norm_world w);
        [| repeat constructor; apply nonlinear_reads_caches
         | apply norm_world_settled | exact Hw ].
      do 5 (destruct p as [|p];
            [do 5 (destruct len as [|len];
                   [first [exfalso; lia | vm_compute; reflexivity]|]);
             exfalso; lia|]).
      exfalso; lia.
    + apply batch_multipliers_settled, Hw.
  - intros k Hk. change (length two_X) with 2%nat in Hk.
    destruct k as [|[|k]]; [vm_compute; reflexivity..|lia].
  - intros k Hk. change (length two_X) with 2%nat in Hk.
    destruct k as [|[|k]]; [vm_compute; reflexivity..|lia].
  - apply norm_world_settled.
  - apply norm_world_settled.
  - vm_compute. lia.
Defined.

(** ** The references of a batch *)

Lemma mapM2_app {A B C} (f : A -> B -> option C) (a1 : list A) :
  forall (b1 : list B) (a2 : list A) (b2 : list B),
    length b1 = length a1 ->
    mapM2 f (a1 ++ a2) (b1 ++ b2)
    = (x <- mapM2 f a1 b1 ;; y <- mapM2 f a2 b2 ;; Some (x ++ y)).
Proof.
  induction a1 as [|a a1 IH]; intros [|b b1] a2 b2 H; simpl in *;
    try discriminate.
  - destruct (mapM2 f a2 b2); reflexivity.
  - destruct (f a b) as [c|]; [|reflexivity]. cbn [obind].
    rewrite IH by lia.
    destruct (mapM2 f a1 b1) as [x|]; [|reflexivity]. cbn [obind].
    destruct (mapM2 f a2 b2) as [y|]; reflexivity.
Qed.

(** X14.  With a tensor of references, or a generator and an integer
    [random_state], the references of a batch are those of its parts,
    one after the other: where the loop cuts the pairs into batches does
    not change any pair's reference.  (Without [random_state] a
    generator is called once per batch on the global random state.) *)
Theorem resolve_references_of_parts :
  forall (references : references_arg) (random_state : option Z)
         (Xi1 rj1 : list nat) (X1 : ten3)
         (Xi2 rj2 : list nat) (X2 : ten3) (rng : nat),
    match references with
    | RefTensor _ => True
    | RefFunc _ => random_state <> None
    end ->
    length rj1 = length Xi1 -> length X1 = length Xi1 ->
    resolve_references references random_state
      (Xi1 ++ Xi2) (rj1 ++ rj2) (X1 ++ X2) rng
    = (r1 <-- resolve_references references random_state Xi1 rj1 X1 rng ;;
       r2 <-- resolve_references references random_state Xi2 rj2 X2 rng ;;
       Ok (fst r1 ++ fst r2, rng)).
Proof.
  intros references random_state Xi1 rj1 X1 Xi2 rj2 X2 rng Hfix H1 H2.
  unfold resolve_references. destruct references as [t|f].
  - rewrite mapM2_app by exact H1.
    destruct (mapM2 _ Xi1 rj1) as [x|]; [|reflexivity]. cbn [obind lift rbind].
    destruct (mapM2 _ Xi2 rj2) as [y|]; reflexivity.
  - destruct random_state as [s|]; [|contradiction Hfix; reflexivity].
    rewrite mapM2_app by lia.
    destruct (mapM2 _ X1 rj1) as [x|]; [|reflexivity]. cbn [obind lift rbind].
    destruct (mapM2 _ X2 rj2) as [y|]; [|reflexivity]. cbn [obind lift rbind].
    rewrite concat_app. reflexivity.
Qed.

Lemma resolve_references_of_parts_witness :
  resolve_references (RefTensor two_references) None
    ((0 :: nil) ++ (0 :: 1 :: nil))%nat ((0 :: nil) ++ (1 :: 0 :: nil))%nat
    ((nth 0 two_X [] :: nil) ++ (nth 0 two_X [] :: nth 1 two_X [] :: nil)) 0
  = (r1 <-- resolve_references (RefTensor two_references) None
              (0 :: nil)%nat (0 :: nil)%nat (nth 0 two_X [] :: nil) 0 ;;
     r2 <-- resolve_references (RefTensor two_references) None
              (0 :: 1 :: nil)%nat (1 :: 0 :: nil)%nat
              (nth 0 two_X [] :: nth 1 two_X [] :: nil) 0 ;;
     Ok (fst r1 ++ fst r2, 0%nat)).
Proof.
  apply (resolve_references_of_parts (RefTensor two_references) None
           (0 :: nil)%nat (0 :: nil)%nat (nth 0 two_X [] :: nil)
           (0 :: 1 :: nil)%nat (1 :: 0 :: nil)%nat
           (nth 0 two_X [] :: nth 1 two_X [] :: nil) 0).
  - exact I.
  - reflexivity.
  - reflexivity.
Defined.

(** ** The rescale rule is exact *)

Lemma rescale_vec (sigma : Qc -> Qc) (eps : Qc) (x r : vec) :
  separated1 eps x r ->
  forall gi go,
    length gi = length x -> length go = length x ->
    vdot (map2 Qcminus x r)
      (map2 pick (map (fun d => Qc_ltb (Qcabs d) eps) (map2 Qcminus x r))
         (map2 (@pair Qc Qc) gi
            (map2 Qcmult go
               (map2 Qcdiv (map2 Qcminus (map sigma x) (map sigma r))
                  (map2 Qcminus x r)))))
    = vdot (map2 Qcminus (map sigma x) (map sigma r)) go.
Proof.
  unfold vdot.
  induction 1 as [|a b x r Hab Hxr IH]; intros gi go Hgi Hgo;
    [reflexivity|].
  destruct gi as [|g1 gi]; [discriminate|].
  destruct go as [|g2 go]; [discriminate|].
  simpl in Hgi, Hgo. simpl.
  rewrite IH by lia. f_equal. unfold pick.
  destruct (Qc_eq_dec (a - b) 0) as [Hz|Hnz].
  - assert (a = b)
      by (transitivity ((a - b) + b); [ring|rewrite Hz; ring]).
    subst b. rewrite Hz. ring.
  - destruct Hab as [Hz|Hge]; [contradiction|].
    replace (Qc_ltb (Qcabs (a - b)) eps) with false.
    + cbn [snd]. field. exact Hnz.
    + symmetry. destruct (Qc_ltb (Qcabs (a - b)) eps) eqn:E; [|reflexivity].
      apply Qc_ltb_lt in E. exfalso. apply (Qcle_not_lt _ _ Hge E).
Qed.

Lemma rescale_mat (sigma : Qc -> Qc) (eps : Qc) (x r : mat) :
  separated2 eps x r ->
  forall gi go,
    same_shape2 gi x = true -> same_shape2 go x = true ->
    mdot (map2 (map2 Qcminus) x r)
      (rescaled_pair eps x r (map (map sigma) x) (map (map sigma) r) gi go)
    = mdot (map2 (map2 Qcminus) (map (map sigma) x) (map (map sigma) r)) go.
Proof.
  unfold rescaled_pair, same_shape2.
  induction 1 as [|a b x r Hab Hxr IH]; intros gi go Hgi Hgo.
  - destruct go; [reflexivity|discriminate].
  - destruct gi as [|g1 gi]; [discriminate|].
    destruct go as [|g2 go]; [discriminate|].
    simpl in Hgi, Hgo.
    apply andb_true_iff in Hgi. destruct Hgi as [H1 H1'].
    apply andb_true_iff in Hgo. destruct Hgo as [H2 H2'].
    apply Nat.eqb_eq in H1, H2.
    cbn [map map2]. rewrite !mdot_cons.
    rewrite (rescale_vec sigma eps a b Hab g1 g2 H1 H2).
    rewrite (IH gi go H1' H2'). reflexivity.
Qed.

Lemma same_shape2_map {A B} (f : A -> B) (a : list (list A)) :
  same_shape2 (map (map f) a) a = true.
Proof.
  unfold same_shape2. induction a as [|r a IH]; [reflexivity|].
  simpl. rewrite IH. unfold same_shape1. rewrite length_map, Nat.eqb_refl.
  reflexivity.
Qed.

Lemma same_shape3_length {A B} (a : list (list (list A))) :
  forall (b : list (list (list B))),
    same_shape3 a b = true -> length a = length b.
Proof.
  unfold same_shape3.
  induction a as [|x a IH]; intros [|y b] H; simpl in *; try discriminate;
    [reflexivity|].
  apply andb_true_iff in H. destruct H as [_ H]. f_equal. apply IH, H.
Qed.

Lemma separated2_same_shape (eps : Qc) (x r : mat) :
  separated2 eps x r -> same_shape2 x r = true.
Proof.
  intros H. apply same_shape2_of_lengths.
  induction H as [|a b x r Hab _ IH]; constructor; [|exact IH].
  clear - Hab. induction Hab; simpl; [reflexivity|]. f_equal. assumption.
Qed.

(** What the generic rule returns for pair [b] of a batch: the module
    cached the batch [x] and its image under the activation. *)
Lemma nonlinear_pair (sigma : Qc -> Qc) (m : Module) (x gi go res : ten3)
  (eps : Qc) (B : nat) :
  input m = Some x ->
  output m = Some (map (map (map sigma)) x) ->
  length x = (2 * B)%nat ->
  _nonlinear m gi go eps = Some res ->
  forall b, (b < B)%nat ->
    nth b res [] =
    rescaled_pair eps (nth b x []) (nth (B + b) x [])
      (map (map sigma) (nth b x [])) (map (map sigma) (nth (B + b) x []))
      (nth b gi []) (nth b go []) /\
    same_shape2 (nth b x []) (nth (B + b) x []) = true /\
    same_shape2 (nth b gi []) (nth b x []) = true /\
    same_shape2 (nth b go []) (nth b x []) = true.
Proof.
  intros Hin Hout Hlen H b Hb. unfold _nonlinear in H.
  rewrite Hin, Hout in H. cbn [obind] in H.
  rewrite (chunk2_even x B Hlen) in H. cbn [obind] in H.
  destruct (zip3 Qcminus (firstn B x) (skipn B x)) as [din|] eqn:Edin;
    [|discriminate].
  cbn [obind] in H.
  rewrite (chunk2_even _ B) in H by (rewrite !length_map; exact Hlen).
  cbn [obind] in H.
  destruct (zip3 Qcminus (firstn B (map (map (map sigma)) x))
              (skipn B (map (map (map sigma)) x))) as [dout|] eqn:Edout;
    [|discriminate].
  cbn [obind] in H.
  destruct (zip3 Qcdiv (dout ++ dout) (din ++ din)) as [delta|] eqn:Edelta;
    [|discriminate].
  cbn [obind] in H.
  destruct (zip3 Qcmult go delta) as [scaled|] eqn:Escaled; [|discriminate].
  cbn [obind] in H.
  unfold where3 in H.
  destruct (same_shape3 (abs_lt (din ++ din) eps) gi
            && same_shape3 gi scaled)%bool eqn:Ew; [|discriminate].
  injection H as <-.
  apply andb_true_iff in Ew. destruct Ew as [Ew1 Ew2].
  pose proof (same_shape3_of_zip3 _ _ _ _ Edin) as Sdin.
  pose proof (same_shape3_of_zip3 _ _ _ _ Edout) as Sdout.
  pose proof (same_shape3_of_zip3 _ _ _ _ Edelta) as Sdelta.
  pose proof (same_shape3_of_zip3 _ _ _ _ Escaled) as Sscaled.
  destruct (zip3_Some _ _ _ _ Edin) as [-> Ldin].
  destruct (zip3_Some _ _ _ _ Edout) as [-> Ldout].
  destruct (zip3_Some _ _ _ _ Edelta) as [-> Ldelta].
  destruct (zip3_Some _ _ _ _ Escaled) as [-> Lscaled].
  set (din := map2 (map2 (map2 Qcminus)) (firstn B x) (skipn B x)) in *.
  set (dout := map2 (map2 (map2 Qcminus))
                 (firstn B (map (map (map sigma)) x))
                 (skipn B (map (map (map sigma)) x))) in *.
  assert (LfB : length (firstn B x) = B)
    by (rewrite length_firstn; lia).
  assert (LsB : length (skipn B x) = B)
    by (rewrite length_skipn; lia).
  assert (Lin : length din = B)
    by (unfold din; rewrite length_map2; lia).
  assert (Lout : length dout = B).
  { unfold dout. rewrite length_map2;
      rewrite ?length_firstn, ?length_skipn, ?length_map; lia. }
  assert (Lgo : length go = (2 * B)%nat).
  { rewrite Lscaled, length_map2; rewrite !length_app; lia. }
  assert (Lix : length (abs_lt (din ++ din) eps) = (2 * B)%nat).
  { unfold abs_lt. rewrite length_map, length_app. lia. }
  assert (Lgi : length gi = (2 * B)%nat).
  { rewrite <- (same_shape3_length _ _ Ew1). exact Lix. }
  (* the pieces of pair [b] *)
  assert (Ndin : nth b (din ++ din) []
                 = map2 (map2 Qcminus) (nth b x []) (nth (B + b) x [])).
  { rewrite app_nth1 by lia. unfold din.
    rewrite (nth_map2 _ [] [] []) by lia.
    rewrite nth_firstn_lt by exact Hb. rewrite nth_skipn_add. reflexivity. }
  assert (Ndout : nth b (dout ++ dout) []
                  = map2 (map2 Qcminus) (map (map sigma) (nth b x []))
                      (map (map sigma) (nth (B + b) x []))).
  { rewrite app_nth1 by lia. unfold dout.
    rewrite (nth_map2 _ [] [] [])
      by (rewrite ?length_firstn, ?length_skipn, ?length_map; lia).
    rewrite nth_firstn_lt by exact Hb. rewrite nth_skipn_add.
    rewrite !(nth_map_default _ x []) by lia. reflexivity. }
  assert (Sx : same_shape2 (nth b x []) (nth (B + b) x []) = true).
  { pose proof (same_shape3_nth _ _ b Sdin ltac:(lia)) as S.
    rewrite nth_firstn_lt in S by exact Hb. rewrite nth_skipn_add in S.
    exact S. }
  assert (Sdinb : same_shape2 (nth b (din ++ din) []) (nth b x []) = true)
    by (rewrite Ndin; apply same_shape2_map2_l, Sx).
  assert (Sgi : same_shape2 (nth b gi []) (nth b x []) = true).
  { pose proof (same_shape3_nth _ _ b Ew1 ltac:(lia)) as S.
    unfold abs_lt in S. rewrite (nth_map_default _ _ []) in S
      by (rewrite length_app; lia).
    rewrite same_shape2_sym in S.
    eapply same_shape2_trans; [exact S|].
    eapply same_shape2_trans; [apply same_shape2_map|exact Sdinb]. }
  assert (Sgo : same_shape2 (nth b go []) (nth b x []) = true).
  { pose proof (same_shape3_nth _ _ b Sscaled ltac:(lia)) as S.
    rewrite (nth_map2 _ [] [] []) in S by (rewrite !length_app; lia).
    eapply same_shape2_trans; [exact S|].
    pose proof (same_shape3_nth _ _ b Sdelta
                  ltac:(rewrite length_app; lia)) as S'.
    eapply same_shape2_trans; [apply same_shape2_map2_l, S'|].
    rewrite Ndout.
    eapply same_shape2_trans; [apply same_shape2_map2_l|].
    - eapply same_shape2_trans; [apply same_shape2_map|].
      eapply same_shape2_trans; [exact Sx|].
      rewrite same_shape2_sym. apply same_shape2_map.
    - apply same_shape2_map. }
  split; [|auto].
  unfold rescaled_pair.
  rewrite (nth_map2 _ [] [] [])
    by (rewrite ?length_map2; rewrite ?length_map2, ?length_app; lia).
  unfold abs_lt at 1.
  rewrite (nth_map_default _ _ []) by (rewrite length_app; lia).
  rewrite (nth_map2 _ [] [] [])
    by (rewrite ?length_map2; rewrite ?length_map2, ?length_app; lia).
  rewrite (nth_map2 _ [] [] [])
    by (rewrite ?length_map2; rewrite ?length_app; lia).
  rewrite (nth_map2 _ [] [] []) by (rewrite !length_app; lia).
  rewrite Ndin, Ndout. reflexivity.
Qed.

Lemma register_hooks_ready (s s0 : DeepLiftShap) (id pos : nat)
  (m : Module) :
  _NON_LINEAR_OPS s = _NON_LINEAR_OPS s0 ->
  hook_free m -> rescaled_layer s0 m ->
  ready s0 (snd (_register_hooks s id pos m)).
Proof.
  intros Ho Hf Hr. unfold hook_free, hooks_view in Hf.
  injection Hf as Hfw Hpre Hbw.
  unfold _register_hooks. rewrite Hbw, Ho.
  change (0 <? length (@nil (nat * hook)))%nat with false. cbv iota.
  destruct Hr as [[Ha Hn]|[Ha Hs]].
  - rewrite Hn. cbn [snd]. left. split; [exact Ha|].
    unfold hook_kinds. rewrite Hfw, Hpre, Hbw. reflexivity.
  - rewrite Hs. unfold register_hook. cbn [fst snd]. right.
    split; [exact Ha|]. split; [|exact Hs].
    unfold hook_kinds. simpl. rewrite Hfw, Hpre, Hbw. reflexivity.
Qed.

Lemma apply_register_hooks_ready (s0 : DeepLiftShap) (ms : list Module) :
  forall s id pos,
    _NON_LINEAR_OPS s = _NON_LINEAR_OPS s0 ->
    Forall hook_free ms -> Forall (rescaled_layer s0) ms ->
    Forall (ready s0) (snd (apply_register_hooks s id pos ms)).
Proof.
  induction ms as [|m ms IH]; intros s id pos Ho Hf Hr; simpl;
    [constructor|].
  inversion Hf as [|? ? Hf1 Hf2]; subst.
  inversion Hr as [|? ? Hr1 Hr2]; subst.
  pose proof (register_hooks_ready s s0 id pos m Ho Hf1 Hr1) as Hreg.
  pose proof (register_hooks_ops s id pos m) as Ho1.
  destruct (_register_hooks s id pos m) as [[s1 i1] m1].
  cbn [fst snd] in Hreg, Ho1.
  pose proof (IH s1 i1 (S pos)) as Hrest.
  destruct (apply_register_hooks s1 i1 (S pos) ms) as [[s2 i2] ms2].
  cbn [snd] in *. constructor; [exact Hreg|].
  apply Hrest; [congruence|exact Hf2|exact Hr2].
Qed.

Lemma mapM_total {A B} (f : A -> B) (l : list A) :
  mapM (fun a => Some (f a)) l = Some (map f l).
Proof.
  induction l as [|a l IH]; simpl; [reflexivity|]. rewrite IH. reflexivity.
Qed.

Lemma map_snd_nil {A B} (d : list (A * B)) : map snd d = [] -> d = [].
Proof. destruct d; [reflexivity|discriminate]. Qed.

Lemma map_snd_single {A B} (d : list (A * B)) (b : B) :
  map snd d = (b :: nil) -> exists a, d = ((a, b) :: nil).
Proof.
  destruct d as [|[a b'] [|e d]]; simpl; intros H; try discriminate.
  injection H as ->. exists a. reflexivity.
Qed.

(** Calling a module without hooks, and one with the engine's hooks. *)
Lemma call_module_plain (m : Module) (x : ten3) :
  hook_kinds m = ([], [], []) ->
  call_module m x = (m, mapM (forward m) x).
Proof.
  intros H. unfold hook_kinds in H. injection H as Hf Hp Hb.
  apply map_snd_nil in Hf, Hp.
  unfold call_module, run_pre_hooks, run_post_hooks. rewrite Hp. simpl.
  destruct (mapM (forward m) x); [rewrite Hf|]; reflexivity.
Qed.

Lemma call_module_hooked (m m' : Module) (x y : ten3) :
  hook_kinds m = ([f_hook], [fp_hook], [b_hook])%list ->
  call_module m x = (m', Some y) ->
  input m' = Some x /\ output m' = Some y /\
  cls m' = cls m /\ forward m' = forward m /\ backward m' = backward m /\
  exists i, _backward_hooks m' = ((i, b_hook) :: nil).
Proof.
  intros H Hc. unfold hook_kinds in H. injection H as Hf Hp Hb.
  destruct (map_snd_single _ _ Hf) as (i1 & Df).
  destruct (map_snd_single _ _ Hp) as (i2 & Dp).
  destruct (map_snd_single _ _ Hb) as (i3 & Db).
  unfold call_module, run_pre_hooks, run_post_hooks in Hc.
  rewrite Dp in Hc. simpl in Hc.
  destruct (mapM (forward m) x) as [y0|]; [|discriminate].
  rewrite Df in Hc. simpl in Hc. injection Hc as <- <-.
  simpl. repeat split; try reflexivity. exists i3. exact Db.
Qed.

Lemma backward_module_hooked (self : DeepLiftShap) (m : Module)
  (x g : ten3) (i : nat) :
  _backward_hooks m = ((i, b_hook) :: nil) ->
  ops_lookup (_NON_LINEAR_OPS self) (cls m) = Some _nonlinear ->
  backward_module self m x g
  = (gi <- mapM2 (backward m) x g ;; _nonlinear m gi g (eps self)).
Proof.
  intros Hb Ho. unfold backward_module. rewrite Hb.
  destruct (mapM2 (backward m) x g) as [gi|]; [|reflexivity].
  simpl. unfold _b_hook. rewrite Ho. reflexivity.
Qed.

Lemma backward_module_unhooked (self : DeepLiftShap) (m : Module)
  (x g : ten3) :
  hook_kinds m = ([], [], []) ->
  backward_module self m x g = mapM2 (backward m) x g.
Proof.
  intros H. unfold hook_kinds in H. injection H as _ _ Hb.
  apply map_snd_nil in Hb. unfold backward_module. rewrite Hb.
  destruct (mapM2 (backward m) x g); reflexivity.
Qed.

(** The backward pass telescopes: for every pair, the gradient at the
    input paired with the input difference is the gradient at the output
    paired with the output difference. *)
Lemma backward_pass_telescopes (self : DeepLiftShap) (B : nat)
  (ms : list Module) :
  forall x ms2 tape out seed g,
    Forall (ready self) ms ->
    length x = (2 * B)%nat ->
    (forall b, (b < B)%nat ->
       same_shape2 (nth b x []) (nth (B + b) x []) = true) ->
    forward_pass ms x = (ms2, Some (tape, out)) ->
    Forall2 (fun m t => hook_kinds m = ([], [], [])
                        \/ separated (eps self) B t) ms tape ->
    backward_pass self ms2 tape seed = Some g ->
    length out = (2 * B)%nat /\
    forall b, (b < B)%nat ->
      same_shape2 (nth b out []) (nth (B + b) out []) = true /\
      mdot (map2 (map2 Qcminus) (nth b x []) (nth (B + b) x []))
           (nth b g [])
      = mdot (map2 (map2 Qcminus) (nth b out []) (nth (B + b) out []))
             (nth b seed []).
Proof.
  induction ms as [|m ms IH];
    intros x ms2 tape out seed g Hr Hlen Hsh Hfw Hsep Hbw.
  - simpl in Hfw. injection Hfw as <- <- <-. simpl in Hbw.
    injection Hbw as <-. split; [exact Hlen|]. intros b Hb. auto.
  - inversion Hr as [|? ? Hm Hms]; subst.
    simpl in Hfw.
    destruct (call_module m x) as [m' [y|]] eqn:Ec; [|discriminate].
    destruct (forward_pass ms y) as [ms'' r] eqn:Ef.
    destruct r as [[tape' out']|]; [|discriminate].
    injection Hfw as <- <- <-.
    inversion Hsep as [|? ? ? ? Hsm Hsms]; subst.
    simpl in Hbw.
    destruct (backward_pass self ms'' tape' seed) as [g'|] eqn:Eb;
      [|discriminate].
    cbn [obind] in Hbw.
    destruct (call_module_spec m x m' (Some y) Ec) as (_ & _ & Ey).
    symmetry in Ey.
    assert (Ly : length y = (2 * B)%nat)
      by (rewrite (mapM_length _ _ _ Ey); exact Hlen).
    destruct Hm as [[Hadj Hk]|(Hact & Hk & Ho)].
    + (* a layer the engine leaves alone *)
      rewrite (call_module_plain m x Hk) in Ec. injection Ec as <- _.
      rewrite (backward_module_unhooked self m x g' Hk) in Hbw.
      destruct (mapM2_nth _ _ _ _ [] [] [] Hbw) as (Lg' & Lg & Hg).
      assert (Hpair : forall b, (b < B)%nat ->
                same_shape2 (nth b y []) (nth (B + b) y []) = true /\
                mdot (map2 (map2 Qcminus) (nth b x []) (nth (B + b) x []))
                     (nth b g [])
                = mdot (map2 (map2 Qcminus) (nth b y []) (nth (B + b) y []))
                       (nth b g' [])).
      { intros b Hb.
        apply (Hadj (nth b x []) (nth (B + b) x []) (nth b y [])
                 (nth (B + b) y []) (nth b g' []) (nth b g [])).
        - apply (mapM_nth _ _ _ [] [] b Ey). lia.
        - apply (mapM_nth _ _ _ [] [] (B + b) Ey). lia.
        - apply Hsh, Hb.
        - apply Hg. lia. }
      destruct (IH y ms'' tape' out' seed g' Hms Ly
                  (fun b Hb => proj1 (Hpair b Hb)) Ef Hsms Eb) as (Lo & Ht).
      split; [exact Lo|]. intros b Hb.
      destruct (Ht b Hb) as (So & Et). split; [exact So|].
      rewrite (proj2 (Hpair b Hb)). exact Et.
    + (* an activation under the generic rule *)
      destruct Hact as (sigma & Hsig).
      rewrite Hsig, mapM_total in Ey. injection Ey as Ey.
      destruct (call_module_hooked m m' x y Hk Ec)
        as (Hin & Hout & Hc & Hf' & Hb' & i & Hbh).
      rewrite (backward_module_hooked self m' x g' i Hbh) in Hbw
        by (rewrite Hc; exact Ho).
      destruct (mapM2 (backward m') x g') as [gi|] eqn:Egi; [|discriminate].
      cbn [obind] in Hbw. rewrite <- Ey in Hout.
      pose proof (nonlinear_pair sigma m' x gi g' g (eps self) B
                    Hin Hout Hlen Hbw) as Hpair.
      assert (Hsy : forall b, (b < B)%nat ->
                same_shape2 (nth b y []) (nth (B + b) y []) = true).
      { intros b Hb. rewrite <- Ey.
        rewrite !(nth_map_default _ x []) by lia.
        eapply same_shape2_trans; [apply same_shape2_map|].
        eapply same_shape2_trans; [apply Hsh, Hb|].
        rewrite same_shape2_sym. apply same_shape2_map. }
      destruct (IH y ms'' tape' out' seed g' Hms Ly Hsy Ef Hsms Eb)
        as (Lo & Ht).
      split; [exact Lo|]. intros b Hb.
      destruct (Ht b Hb) as (So & Et). split; [exact So|].
      destruct (Hpair b Hb) as (Eg & _ & Sgi & Sgo).
      destruct Hsm as [Hk0|Hsp];
        [rewrite Hk in Hk0; discriminate|].
      rewrite Eg, (rescale_mat sigma (eps self) _ _ (Hsp b Hb) _ _ Sgi Sgo).
      rewrite <- Et, <- Ey.
      rewrite !(nth_map_default _ x []) by lia. reflexivity.
Qed.

Lemma ready_same_ops (s s' : DeepLiftShap) (m : Module) :
  _NON_LINEAR_OPS s' = _NON_LINEAR_OPS s -> ready s m -> ready s' m.
Proof. unfold ready. intros ->. auto. Qed.

Lemma separation_after_registration (self : DeepLiftShap) (B : nat)
  (ms : list Module) :
  forall ms1 tape,
    Forall2 same_layer ms ms1 -> Forall (ready self) ms1 ->
    Forall2 (fun m t => ops_lookup (_NON_LINEAR_OPS self) (cls m) = None
                        \/ separated (eps self) B t) ms tape ->
    Forall2 (fun m t => hook_kinds m = ([], [], [])
                        \/ separated (eps self) B t) ms1 tape.
Proof.
  induction ms as [|m ms IH]; intros ms1 tape Hl Hr Hs;
    inversion Hl as [|? m1 ? ms1' Hm Hms]; subst;
    inversion Hs as [|? t ? tape' Ht Hts]; subst; constructor.
  - inversion Hr as [|? ? Hr1 _]; subst.
    destruct Ht as [Hn|Hsp]; [|right; exact Hsp].
    destruct Hr1 as [[_ Hk]|(_ & _ & Ho)]; [left; exact Hk|].
    destruct Hm as (Hc & _). rewrite Hc, Hn in Ho. discriminate.
  - inversion Hr; subst. apply IH; assumption.
Qed.

(** X15.  The rescale rule is exact.  On a model made of layers whose
    gradient is the adjoint of their action on differences (linear
    layers), which the engine leaves alone, and of elementwise
    activations handled by [_nonlinear], whenever [attribute] returns
    and no activation input of an example differs from that of its
    reference by an amount strictly between [0] and [eps], every pair
    satisfies the convergence law exactly: the convergence delta is
    [0]. *)
Theorem rescale_rule_convergence :
  forall (self : DeepLiftShap) (w : world) (X references : ten3)
         (target : nat) (gradients : ten3),
    Forall hook_free (modules w) ->
    Forall (rescaled_layer self) (modules w) ->
    (forall tape out,
       forward_tape (modules w) (X ++ references) = Some (tape, out) ->
       Forall2 (fun m t =>
                  ops_lookup (_NON_LINEAR_OPS self) (cls m) = None
                  \/ separated (eps self) (length X) t)
               (modules w) tape) ->
    fst (fst (attribute self w X references target)) = Ok gradients ->
    forall b, (b < length X)%nat ->
      convergence_delta (modules w) target (nth b X [])
        (nth b references []) (nth b gradients []) = Some 0.
Proof.
  intros self w X references target gradients Hfree Hlay Hsep H b Hb.
  destruct (attribute self w X references target) as [[res self'] w'] eqn:E.
  cbn [fst] in H. subst res.
  destruct (attribute_Ok_inv _ _ _ _ _ _ _ _ E)
    as (_ & id1 & ms1 & ms2 & tape & out & y & g & od & diffs & contribs &
        d & E1 & E2 & Ey & Eg & -> & _ & Ed & _).
  (* the engine and the modules after registration *)
  pose proof (apply_register_hooks_ops (modules w) self (next_id w) 0) as Ho.
  pose proof (apply_register_hooks_ready self (modules w) self (next_id w) 0
                eq_refl Hfree Hlay) as Hready.
  destruct (apply_register_hooks_spec _ _ _ _ _ _ _ E1)
    as (_ & Hl1 & (Heps & _) & _).
  rewrite E1 in Ho, Hready. cbn [fst snd] in Ho, Hready.
  assert (Hl1' : Forall2 same_layer (modules w) ms1)
    by (eapply Forall2_weaken; [|exact Hl1]; intros ? ? (Hx & _); exact Hx).
  assert (Hready' : Forall (ready self') ms1).
  { eapply Forall_impl; [|exact Hready].
    intros m. apply ready_same_ops. exact Ho. }
  (* the forward pass is the hook-free one *)
  destruct (forward_pass_spec _ _ _ _ E2) as [_ R2]. symmetry in R2.
  rewrite (forward_tape_same_layer _ _ Hl1') in R2.
  pose proof (Hsep tape out R2) as Hsep1.
  pose proof (same_shape3_of_zip3 _ _ _ _ Ed) as HsXR.
  destruct (zip3_Some _ _ _ _ Ed) as [_ LXR].
  (* the telescoping sum *)
  destruct (backward_pass_telescopes self' (length X) ms1 (X ++ references)
              ms2 tape out (seed_gradient out target) g Hready')
    with (3 := E2) (5 := Eg) as (Lout & Htel).
  - rewrite length_app. lia.
  - intros c Hc. rewrite app_nth1 by exact Hc.
    rewrite app_nth2 by lia.
    replace (length X + c - length X)%nat with c by lia.
    apply same_shape3_nth; assumption.
  - rewrite Heps.
    apply (separation_after_registration self (length X) (modules w));
      assumption.
  - destruct (Htel b Hb) as (Sout & Et).
    rewrite app_nth1 in Et by exact Hb.
    rewrite app_nth2 in Et by lia.
    replace (length X + b - length X)%nat with b in Et by lia.
    (* the outputs of the pair *)
    pose proof (forward_tape_examples (modules w) (X ++ references)) as Hx.
    rewrite R2 in Hx. simpl in Hx. symmetry in Hx.
    pose proof (model_output_batch _ _ _ _ target b Hx Ey) as Hfx.
    rewrite app_nth1 in Hfx by exact Hb.
    rewrite length_app in Hfx. specialize (Hfx ltac:(lia)).
    pose proof (model_output_batch _ _ _ _ target (length X + b) Hx Ey)
      as Hfr.
    rewrite app_nth2 in Hfr by lia.
    replace (length X + b - length X)%nat with b in Hfr by lia.
    rewrite length_app in Hfr. specialize (Hfr ltac:(lia)).
    unfold select_target in Ey.
    pose proof (mapM_nth _ _ _ [] 0 b Ey ltac:(lia)) as Hox.
    pose proof (mapM_nth _ _ _ [] 0 (length X + b) Ey ltac:(lia)) as Hor.
    cbv beta in Hox, Hor.
    unfold seed_gradient in Et.
    rewrite (nth_map_default _ out []) in Et by lia.
    rewrite (seed_adjoint _ _ target _ _ Sout Hox Hor) in Et.
    unfold convergence_delta. rewrite Hfx, Hfr. cbn [obind].
    rewrite nth_firstn_lt by exact Hb.
    unfold mdot in Et. rewrite Et. f_equal.
    replace (nth b y 0 - nth (length X + b) y 0
             - (nth b y 0 - nth (length X + b) y 0)) with (Q2Qc 0) by ring.
    apply Qcabs_pos. apply Qcle_refl.
Qed.

Lemma rescale_rule_convergence_witness :
  convergence_delta (modules relu_world) 0 (nth 0 toy_X [])
    (nth 0 toy_references [])
    (nth 0 (match fst (fst (attribute default_engine relu_world toy_X
                              toy_references 0)) with
            | Ok g => g
            | Raise _ => []
            end) [])
  = Some 0.
Proof.
  apply (rescale_rule_convergence default_engine relu_world toy_X
           toy_references 0).
  - repeat constructor.
  - constructor; [left; split; [apply linear_layer_adjoint; right; split;
                                reflexivity|reflexivity]|].
    constructor; [left; split; [apply linear_layer_adjoint; left;
                                eexists; eexists; split; reflexivity
                               |reflexivity]|].
    constructor; [right; split; [exists relu; reflexivity|reflexivity]|].
    constructor; [left; split; [apply linear_layer_adjoint; left;
                                eexists; eexists; split; reflexivity
                               |reflexivity]|].
    constructor.
  - intros tape out H. vm_compute in H. injection H as <- _.
    constructor; [left; reflexivity|].
    constructor; [left; reflexivity|].
    constructor; [right|constructor; [left; reflexivity|constructor]].
    intros b Hb. change (length toy_X) with 1%nat in Hb.
    destruct b as [|b]; [|lia]. cbn [nth Nat.add].
    constructor; [|constructor].
    constructor; [right; vm_compute; intros Hc; discriminate Hc|].
    constructor; [right; vm_compute; intros Hc; discriminate Hc|].
    constructor.
  - vm_compute. reflexivity.
  - simpl. lia.
Defined.

(** ** What a call prints *)

Lemma attribute_raise_events (self : DeepLiftShap) (w : world)
  (X references : ten3) (target : nat) (e : exception) :
  fst (fst (attribute self w X references target)) = Raise e ->
  events (snd (attribute self w X references target)) = events w.
Proof.
  unfold attribute.
  destruct (negb (shape_eqb (shape3 X) (shape3 references)));
    [reflexivity|].
  destruct (apply_register_hooks self (next_id w) 0 (modules w))
    as [[s1 i1] ms1].
  destruct (attribute_body s1 ms1 X references target) as [ms2 r].
  destruct r as [[g evs]|e']; [discriminate|reflexivity].
Qed.

(** X16.  What a call of [attribute] adds to the output.  A call that
    returns has printed the convergence deltas if and only if [verbose]
    is set, once, after the warning if there is one, and the deltas it
    prints are those the warning test reads; a call that raises has
    neither warned nor printed. *)
Theorem attribute_prints_when_verbose :
  forall (self : DeepLiftShap) (w : world) (X references : ten3)
         (target : nat),
    let out := attribute self w X references target in
    (forall gradients,
       fst (fst out) = Ok gradients ->
       exists deltas,
         (forall b, (b < length X)%nat ->
            convergence_delta (modules w) target (nth b X [])
              (nth b references []) (nth b gradients [])
            = Some (nth b deltas 0)) /\
         events (snd out)
         = (if verbose self then (Printed deltas :: nil) else [])
           ++ (if existsb (fun x => Qc_ltb (warning_threshold self) x) deltas
               then (RuntimeWarning deltas :: nil) else [])
           ++ events w) /\
    (forall e, fst (fst out) = Raise e -> events (snd out) = events w).
Proof.
  intros self w X references target out. split.
  - intros gradients H. unfold out in *.
    destruct (attribute self w X references target) as [[res self'] w']
      eqn:E.
    cbn [fst] in H. subst res.
    destruct (attribute_deltas _ _ _ _ _ _ _ _ E)
      as (deltas & _ & _ & _ & Hd & Hev & (_ & Hth & Hv & _)).
    exists deltas. split; [exact Hd|]. cbn [snd]. rewrite Hev.
    unfold check_events. rewrite Hth, Hv, <- app_assoc. reflexivity.
  - intros e H. apply (attribute_raise_events _ _ _ _ _ e H).
Qed.

(** ** One pair in two batches: [_maxpool] *)

Lemma scatter_length (indices : list nat) :
  forall (out values r : vec),
    scatter out indices values = Some r -> length r = length out.
Proof.
  induction indices as [|i indices IH]; intros out [|v values] r H;
    simpl in H; try discriminate.
  - injection H as <-. reflexivity.
  - destruct (i <? length out)%nat; [|discriminate].
    rewrite (IH _ _ _ H). apply length_set_nth.
Qed.

Lemma unpool_row_lengths (L : nat) (w : mat) :
  forall (idx : list (list nat)) (u : mat),
    mapM2 (fun v i => scatter (zeros L) i v) w idx = Some u ->
    Forall (fun r => length r = L) u.
Proof.
  induction w as [|row w IH]; intros [|i idx] u H; simpl in H;
    try discriminate.
  - injection H as <-. constructor.
  - destruct (scatter (zeros L) i row) as [r|] eqn:Er; [|discriminate].
    cbn [obind] in H.
    destruct (mapM2 _ w idx) as [u'|] eqn:Eu; [|discriminate].
    cbn [obind] in H. injection H as <-.
    constructor; [|apply (IH idx); exact Eu].
    rewrite (scatter_length _ _ _ _ Er). unfold zeros. apply repeat_length.
Qed.

Lemma mapM2_nil_r {A B C} (f : A -> B -> option C) (l : list A)
  (r : list C) :
  mapM2 f l [] = Some r -> r = [].
Proof.
  destruct l; simpl; [|discriminate]. intros H. injection H as <-.
  reflexivity.
Qed.

(** The rows of the two members of pair [b] in what [_maxpool] returns,
    from the rows of that pair alone. *)
Lemma maxpool_pair_rows (m : Module) (x y gi go res : ten3) (eps : Qc)
  (B b : nat) :
  input m = Some x -> output m = Some y ->
  length x = (2 * B)%nat -> length y = (2 * B)%nat -> (b < B)%nat ->
  _maxpool m gi go eps = Some res ->
  let x_b := nth b x [] in
  let x_r := nth (B + b) x [] in
  let y_b := nth b y [] in
  let y_r := nth (B + b) y [] in
  let xmax := map2 (map2 Qc_max) y_b y_r in
  let din := map2 (map2 Qcminus) x_b x_r in
  exists (rx rr : list (vec * list nat)) (ux ur : mat) (L : nat),
    mapM (pool_row (kernel_size m) (stride m)) x_b = Some rx /\
    mapM (pool_row (kernel_size m) (stride m)) x_r = Some rr /\
    mapM2 (fun v i => scatter (zeros L) i v)
      (map2 (map2 Qcmult) (nth b go [])
         (map2 (map2 Qcminus) xmax y_r))
      (map snd rx) = Some ux /\
    mapM2 (fun v i => scatter (zeros L) i v)
      (map2 (map2 Qcmult) (nth (B + b) go [])
         (map2 (map2 Qcminus) y_b xmax))
      (map snd rr) = Some ur /\
    (x_b = [] \/ L = length (hd [] x_b)) /\
    same_shape2 x_b x_r = true /\
    forall i, i = b \/ i = (B + b)%nat ->
      nth i res [] =
      map2 (map2 (fun (ci : bool) (p : Qc * Qc) =>
                    if ci then fst p else snd p))
        (map (map (fun v => Qc_ltb (Qcabs v) eps)) din)
        (map2 (map2 (@pair Qc Qc)) (nth i gi [])
           (map2 (map2 Qcdiv) (map2 (map2 Qcplus) ux ur) din)).
Proof.
  intros Hin Hout Lx Ly Hb H. unfold _maxpool in H.
  destruct (cls m); try discriminate.
  rewrite Hin, Hout in H. cbn [obind] in H.
  rewrite (chunk2_even x B Lx) in H. cbn [obind] in H.
  destruct (zip3 Qcminus (firstn B x) (skipn B x)) as [din_|] eqn:Edin;
    [|discriminate].
  cbn [obind] in H.
  rewrite (chunk2_even y B Ly) in H. cbn [obind] in H.
  destruct (zip3 Qc_max (firstn B y) (skipn B y)) as [xm|] eqn:Exm;
    [|discriminate].
  cbn [obind] in H.
  destruct (zip3 Qcminus xm (skipn B y)) as [d_x|] eqn:Edx; [|discriminate].
  cbn [obind] in H.
  destruct (zip3 Qcminus (firstn B y) xm) as [d_r|] eqn:Edr; [|discriminate].
  cbn [obind] in H.
  destruct (max_pool1d x (kernel_size m) (stride m)) as [[vals indices]|]
    eqn:Epool; [|discriminate].
  cbn [obind] in H.
  destruct (zip3 Qcmult go (d_x ++ d_r)) as [weighted|] eqn:Ew;
    [|discriminate].
  cbn [obind] in H.
  destruct (max_unpool1d weighted indices (snd (shape3 x))) as [unpool_|]
    eqn:Eun; [|discriminate].
  cbn [obind] in H.
  (* lengths *)
  pose proof (same_shape3_of_zip3 _ _ _ _ Edin) as Sdin.
  destruct (zip3_Some _ _ _ _ Edin) as [-> _].
  destruct (zip3_Some _ _ _ _ Exm) as [-> _].
  destruct (zip3_Some _ _ _ _ Edx) as [-> _].
  destruct (zip3_Some _ _ _ _ Edr) as [-> _].
  destruct (zip3_Some _ _ _ _ Ew) as [-> Lgo].
  assert (Lfx : length (firstn B x) = B) by (rewrite length_firstn; lia).
  assert (Lsx : length (skipn B x) = B) by (rewrite length_skipn; lia).
  assert (Lfy : length (firstn B y) = B) by (rewrite length_firstn; lia).
  assert (Lsy : length (skipn B y) = B) by (rewrite length_skipn; lia).
  set (din_ := map2 (map2 (map2 Qcminus)) (firstn B x) (skipn B x)) in *.
  set (xm := map2 (map2 (map2 Qc_max)) (firstn B y) (skipn B y)) in *.
  set (d_x := map2 (map2 (map2 Qcminus)) xm (skipn B y)) in *.
  set (d_r := map2 (map2 (map2 Qcminus)) (firstn B y) xm) in *.
  assert (Ldin : length din_ = B) by (unfold din_; rewrite length_map2; lia).
  assert (Lxm : length xm = B) by (unfold xm; rewrite length_map2; lia).
  assert (Ldx : length d_x = B) by (unfold d_x; rewrite length_map2; lia).
  assert (Ldr : length d_r = B) by (unfold d_r; rewrite length_map2; lia).
  rewrite length_app, Ldx, Ldr in Lgo.
  set (weighted := map2 (map2 (map2 Qcmult)) go (d_x ++ d_r)) in *.
  assert (Lw : length weighted = (2 * B)%nat).
  { unfold weighted. rewrite length_map2; rewrite ?length_app; lia. }
  unfold max_unpool1d in Eun.
  destruct (mapM2_nth _ _ _ _ [] [] [] Eun) as (Lidx & Lun & Hun).
  rewrite Lw in Lidx, Lun.
  rewrite (chunk2_even unpool_ B Lun) in H. cbn [obind] in H.
  destruct (zip3 Qcplus (firstn B unpool_) (skipn B unpool_)) as [ud|]
    eqn:Eud; [|discriminate].
  cbn [obind] in H.
  destruct (zip3 Qcdiv (ud ++ ud) (din_ ++ din_)) as [quot|] eqn:Eq;
    [|discriminate].
  cbn [obind] in H.
  unfold where3 in H.
  destruct (same_shape3 (abs_lt (din_ ++ din_) eps) gi
            && same_shape3 gi quot)%bool eqn:Ewh; [|discriminate].
  injection H as <-.
  apply andb_true_iff in Ewh. destruct Ewh as [Ew1 Ew2].
  pose proof (same_shape3_of_zip3 _ _ _ _ Eud) as Sud.
  pose proof (same_shape3_of_zip3 _ _ _ _ Eq) as Sq.
  destruct (zip3_Some _ _ _ _ Eud) as [-> _].
  destruct (zip3_Some _ _ _ _ Eq) as [-> _].
  assert (Lfu : length (firstn B unpool_) = B)
    by (rewrite length_firstn; lia).
  assert (Lsu : length (skipn B unpool_) = B)
    by (rewrite length_skipn; lia).
  set (ud := map2 (map2 (map2 Qcplus)) (firstn B unpool_) (skipn B unpool_))
    in *.
  assert (Lud : length ud = B) by (unfold ud; rewrite length_map2; lia).
  assert (Lix : length (abs_lt (din_ ++ din_) eps) = (2 * B)%nat).
  { unfold abs_lt. rewrite length_map, length_app. lia. }
  assert (Lgi : length gi = (2 * B)%nat).
  { rewrite <- (same_shape3_length _ _ Ew1). exact Lix. }
  (* the rows of the pair *)
  assert (Ndin : nth b din_ []
                 = map2 (map2 Qcminus) (nth b x []) (nth (B + b) x [])).
  { unfold din_. rewrite (nth_map2 _ [] [] []) by lia.
    rewrite nth_firstn_lt by exact Hb. rewrite nth_skipn_add. reflexivity. }
  assert (Nxm : nth b xm []
                = map2 (map2 Qc_max) (nth b y []) (nth (B + b) y [])).
  { unfold xm. rewrite (nth_map2 _ [] [] []) by lia.
    rewrite nth_firstn_lt by exact Hb. rewrite nth_skipn_add. reflexivity. }
  assert (Ndx : nth b d_x []
                = map2 (map2 Qcminus)
                    (map2 (map2 Qc_max) (nth b y []) (nth (B + b) y []))
                    (nth (B + b) y [])).
  { unfold d_x. rewrite (nth_map2 _ [] [] []) by lia.
    rewrite Nxm, nth_skipn_add. reflexivity. }
  assert (Ndr : nth b d_r []
                = map2 (map2 Qcminus) (nth b y [])
                    (map2 (map2 Qc_max) (nth b y []) (nth (B + b) y []))).
  { unfold d_r. rewrite (nth_map2 _ [] [] []) by lia.
    rewrite Nxm, nth_firstn_lt by exact Hb. reflexivity. }
  assert (Nud : nth b ud []
                = map2 (map2 Qcplus) (nth b unpool_ [])
                    (nth (B + b) unpool_ [])).
  { unfold ud. rewrite (nth_map2 _ [] [] []) by lia.
    rewrite nth_firstn_lt by exact Hb. rewrite nth_skipn_add. reflexivity. }
  unfold max_pool1d in Epool.
  destruct (mapM (mapM (pool_row (kernel_size m) (stride m))) x) as [r|]
    eqn:Er; [|discriminate].
  cbn [obind] in Epool. injection Epool as _ <-.
  pose proof (mapM_length _ _ _ Er) as Lr.
  pose proof (mapM_nth _ _ _ [] [] b Er ltac:(lia)) as Hrx.
  pose proof (mapM_nth _ _ _ [] [] (B + b)%nat Er ltac:(lia)) as Hrr.
  pose proof (Hun b ltac:(lia)) as Hux.
  pose proof (Hun (B + b)%nat ltac:(lia)) as Hur.
  cbv beta in Hux, Hur.
  rewrite (nth_map_default _ r []) in Hux by lia.
  rewrite (nth_map_default _ r []) in Hur by lia.
  unfold weighted in Hux, Hur.
  rewrite (nth_map2 _ [] [] []) in Hux by (rewrite ?length_app; lia).
  rewrite (nth_map2 _ [] [] []) in Hur by (rewrite ?length_app; lia).
  rewrite app_nth1, Ndx in Hux by lia.
  rewrite app_nth2, Ldx in Hur by lia.
  replace (B + b - B)%nat with b in Hur by lia. rewrite Ndr in Hur.
  pose proof (same_shape3_nth _ _ b Sdin ltac:(lia)) as Sxb.
  rewrite nth_firstn_lt, nth_skipn_add in Sxb by exact Hb.
  cbv zeta.
  exists (nth b r []), (nth (B + b) r []),
         (nth b unpool_ []), (nth (B + b) unpool_ []), (snd (shape3 x)).
  split; [exact Hrx|]. split; [exact Hrr|].
  split; [exact Hux|]. split; [exact Hur|].
  split; [|split; [exact Sxb|]].
  - (* the length every channel is unpooled to *)
    pose proof (same_shape3_nth _ _ b Sq ltac:(rewrite length_app; lia))
      as Sqb.
    rewrite !app_nth1 in Sqb by lia. rewrite Nud, Ndin in Sqb.
    pose proof (same_shape3_nth _ _ b Sud ltac:(lia)) as Sub.
    rewrite nth_firstn_lt, nth_skipn_add in Sub by exact Hb.
    pose proof (unpool_row_lengths _ _ _ _ Hux) as Fux.
    destruct (nth b x []) as [|c0 xb']; [left; reflexivity|right].
    destruct (nth (B + b) x []) as [|c0' xr']; [discriminate Sxb|].
    simpl in Sxb. apply andb_true_iff in Sxb. destruct Sxb as [Sc _].
    unfold same_shape1 in Sc. apply Nat.eqb_eq in Sc.
    destruct (nth b unpool_ []) as [|u0 ub']; [discriminate Sqb|].
    destruct (nth (B + b) unpool_ []) as [|v0 vb']; [discriminate Sub|].
    simpl in Sqb, Sub.
    apply andb_true_iff in Sqb. destruct Sqb as [Sq0 _].
    apply andb_true_iff in Sub. destruct Sub as [Su0 _].
    unfold same_shape1 in Sq0, Su0.
    apply Nat.eqb_eq in Sq0. apply Nat.eqb_eq in Su0.
    apply Forall_inv in Fux.
    rewrite !length_map2 in Sq0 by assumption.
    simpl hd. unfold shape3 in *. cbn [snd] in *. lia.
  - intros i Hi.
    assert (Hi2 : (i < 2 * B)%nat) by (destruct Hi; lia).
    assert (Him : (i mod B = b)%nat).
    { destruct Hi as [->| ->].
      - apply Nat.mod_small, Hb.
      - replace (B + b)%nat with (b + 1 * B)%nat by lia.
        rewrite Nat.Div0.mod_add. apply Nat.mod_small, Hb. }
    assert (Lq : length (map2 (map2 (map2 Qcdiv)) (ud ++ ud) (din_ ++ din_))
                 = (2 * B)%nat)
      by (rewrite length_map2; rewrite !length_app; lia).
    assert (Lp : length (map2 (map2 (map2 (@pair Qc Qc))) gi
                           (map2 (map2 (map2 Qcdiv)) (ud ++ ud)
                              (din_ ++ din_))) = (2 * B)%nat)
      by (rewrite length_map2; lia).
    rewrite (nth_map2 _ [] [] []) by lia.
    unfold abs_lt at 1.
    rewrite (nth_map_default _ _ []) by (rewrite length_app; lia).
    rewrite (nth_map2 _ [] [] []) by lia.
    rewrite (nth_map2 _ [] [] []) by (rewrite !length_app; lia).
    rewrite (nth_app_self din_ [] B i Ldin Hi2).
    rewrite (nth_app_self ud [] B i Lud Hi2).
    rewrite Him, Ndin, Nud. reflexivity.
Qed.

Lemma maxpool_pair_local (m1 m2 : Module)
  (x1 y1 gi1 go1 res1 x2 y2 gi2 go2 res2 : ten3) (eps : Qc)
  (B1 B2 b1 b2 : nat) :
  same_layer m1 m2 ->
  input m1 = Some x1 -> output m1 = Some y1 ->
  input m2 = Some x2 -> output m2 = Some y2 ->
  length x1 = (2 * B1)%nat -> length y1 = (2 * B1)%nat ->
  length x2 = (2 * B2)%nat -> length y2 = (2 * B2)%nat ->
  (b1 < B1)%nat -> (b2 < B2)%nat ->
  nth b1 x1 [] = nth b2 x2 [] ->
  nth (B1 + b1) x1 [] = nth (B2 + b2) x2 [] ->
  nth b1 y1 [] = nth b2 y2 [] ->
  nth (B1 + b1) y1 [] = nth (B2 + b2) y2 [] ->
  nth b1 gi1 [] = nth b2 gi2 [] ->
  nth (B1 + b1) gi1 [] = nth (B2 + b2) gi2 [] ->
  nth b1 go1 [] = nth b2 go2 [] ->
  nth (B1 + b1) go1 [] = nth (B2 + b2) go2 [] ->
  _maxpool m1 gi1 go1 eps = Some res1 ->
  _maxpool m2 gi2 go2 eps = Some res2 ->
  nth b1 res1 [] = nth b2 res2 [] /\
  nth (B1 + b1) res1 [] = nth (B2 + b2) res2 [].
Proof.
  intros (_ & _ & _ & Hk & Hs) Hi1 Ho1 Hi2 Ho2 Lx1 Ly1 Lx2 Ly2 Hb1 Hb2
    Ex Exr Ey Eyr Egi Egir Ego Egor H1 H2.
  destruct (maxpool_pair_rows m1 x1 y1 gi1 go1 res1 eps B1 b1 Hi1 Ho1 Lx1 Ly1
              Hb1 H1) as (rx1 & rr1 & ux1 & ur1 & L1 & Prx1 & Prr1 & Pux1 &
                          Pur1 & HL1 & Sx1 & R1).
  destruct (maxpool_pair_rows m2 x2 y2 gi2 go2 res2 eps B2 b2 Hi2 Ho2 Lx2 Ly2
              Hb2 H2) as (rx2 & rr2 & ux2 & ur2 & L2 & Prx2 & Prr2 & Pux2 &
                          Pur2 & HL2 & Sx2 & R2).
  rewrite Hk, Hs in Prx2, Prr2.
  rewrite Ex in Prx1. rewrite Prx1 in Prx2. injection Prx2 as <-.
  rewrite Exr in Prr1. rewrite Prr1 in Prr2. injection Prr2 as <-.
  rewrite Ex, Exr in Sx1. rewrite Ex in HL1.
  rewrite Ey, Eyr, Ego in Pux1. rewrite Ey, Eyr, Egor in Pur1.
  assert (Eu : ux1 = ux2 /\ ur1 = ur2).
  { destruct (nth b2 x2 []) as [|c0 xb] eqn:Exb.
    - simpl in Prx1. injection Prx1 as <-.
      destruct (nth (B2 + b2) x2 []) as [|c0' xr] eqn:Exr2;
        [|discriminate Sx1].
      simpl in Prr1. injection Prr1 as <-.
      simpl map in Pux1, Pux2, Pur1, Pur2.
      rewrite (mapM2_nil_r _ _ _ Pux1), (mapM2_nil_r _ _ _ Pux2),
              (mapM2_nil_r _ _ _ Pur1), (mapM2_nil_r _ _ _ Pur2).
      split; reflexivity.
    - destruct HL1 as [HL1|HL1]; [discriminate HL1|].
      destruct HL2 as [HL2|HL2]; [discriminate HL2|].
      subst L1 L2.
      rewrite Pux1 in Pux2. rewrite Pur1 in Pur2.
      injection Pux2 as <-. injection Pur2 as <-. split; reflexivity. }
  destruct Eu as [<- <-].
  split.
  - rewrite (R1 b1 (or_introl eq_refl)), (R2 b2 (or_introl eq_refl)).
    rewrite Ex, Exr, Egi. reflexivity.
  - rewrite (R1 _ (or_intror eq_refl)), (R2 _ (or_intror eq_refl)).
    rewrite Ex, Exr, Egir. reflexivity.
Qed.

(** ** One pair in two batches: [_nonlinear] *)

Lemma nonlinear_pair_cached (m : Module) (x y gi go res : ten3)
  (eps : Qc) (B : nat) :
  input m = Some x -> output m = Some y ->
  length x = (2 * B)%nat -> length y = (2 * B)%nat ->
  _nonlinear m gi go eps = Some res ->
  forall b i, (b < B)%nat -> i = b \/ i = (B + b)%nat ->
    nth i res [] =
    rescaled_pair eps (nth b x []) (nth (B + b) x [])
      (nth b y []) (nth (B + b) y []) (nth i gi []) (nth i go []).
Proof.
  intros Hin Hout Hlen Hleny H b i Hb Hi. unfold _nonlinear in H.
  rewrite Hin, Hout in H. cbn [obind] in H.
  rewrite (chunk2_even x B Hlen) in H. cbn [obind] in H.
  destruct (zip3 Qcminus (firstn B x) (skipn B x)) as [din|] eqn:Edin;
    [|discriminate].
  cbn [obind] in H.
  rewrite (chunk2_even y B Hleny) in H. cbn [obind] in H.
  destruct (zip3 Qcminus (firstn B y) (skipn B y)) as [dout|] eqn:Edout;
    [|discriminate].
  cbn [obind] in H.
  destruct (zip3 Qcdiv (dout ++ dout) (din ++ din)) as [delta|] eqn:Edelta;
    [|discriminate].
  cbn [obind] in H.
  destruct (zip3 Qcmult go delta) as [scaled|] eqn:Escaled; [|discriminate].
  cbn [obind] in H.
  unfold where3 in H.
  destruct (same_shape3 (abs_lt (din ++ din) eps) gi
            && same_shape3 gi scaled)%bool eqn:Ew; [|discriminate].
  injection H as <-.
  apply andb_true_iff in Ew. destruct Ew as [Ew1 Ew2].
  destruct (zip3_Some _ _ _ _ Edin) as [-> Ldin].
  destruct (zip3_Some _ _ _ _ Edout) as [-> Ldout].
  destruct (zip3_Some _ _ _ _ Edelta) as [-> Ldelta].
  destruct (zip3_Some _ _ _ _ Escaled) as [-> Lscaled].
  set (din := map2 (map2 (map2 Qcminus)) (firstn B x) (skipn B x)) in *.
  set (dout := map2 (map2 (map2 Qcminus)) (firstn B y) (skipn B y)) in *.
  assert (Lin : length din = B).
  { unfold din. rewrite length_map2;
      rewrite ?length_firstn, ?length_skipn; lia. }
  assert (Lout : length dout = B).
  { unfold dout. rewrite length_map2;
      rewrite ?length_firstn, ?length_skipn; lia. }
  assert (Ld : length (map2 (map2 (map2 Qcdiv)) (dout ++ dout) (din ++ din))
               = (2 * B)%nat)
    by (rewrite length_map2; rewrite !length_app; lia).
  assert (Lgo : length go = (2 * B)%nat) by lia.
  assert (Ls : length (map2 (map2 (map2 Qcmult)) go
                         (map2 (map2 (map2 Qcdiv)) (dout ++ dout)
                            (din ++ din))) = (2 * B)%nat)
    by (rewrite length_map2; lia).
  assert (Lix : length (abs_lt (din ++ din) eps) = (2 * B)%nat).
  { unfold abs_lt. rewrite length_map, length_app. lia. }
  assert (Lgi : length gi = (2 * B)%nat).
  { rewrite <- (same_shape3_length _ _ Ew1). exact Lix. }
  assert (Lp : length (map2 (map2 (map2 (@pair Qc Qc))) gi
                         (map2 (map2 (map2 Qcmult)) go
                            (map2 (map2 (map2 Qcdiv)) (dout ++ dout)
                               (din ++ din)))) = (2 * B)%nat)
    by (rewrite length_map2; lia).
  assert (Hi2 : (i < 2 * B)%nat) by (destruct Hi; lia).
  assert (Him : (i mod B = b)%nat).
  { destruct Hi as [->| ->].
    - apply Nat.mod_small, Hb.
    - replace (B + b)%nat with (b + 1 * B)%nat by lia.
      rewrite Nat.Div0.mod_add. apply Nat.mod_small, Hb. }
  assert (Ndin : nth i (din ++ din) []
                 = map2 (map2 Qcminus) (nth b x []) (nth (B + b) x [])).
  { rewrite (nth_app_self din [] B i Lin Hi2), Him. unfold din.
    rewrite (nth_map2 _ [] [] [])
      by (rewrite ?length_firstn, ?length_skipn; lia).
    rewrite nth_firstn_lt by exact Hb. rewrite nth_skipn_add. reflexivity. }
  assert (Ndout : nth i (dout ++ dout) []
                  = map2 (map2 Qcminus) (nth b y []) (nth (B + b) y [])).
  { rewrite (nth_app_self dout [] B i Lout Hi2), Him. unfold dout.
    rewrite (nth_map2 _ [] [] [])
      by (rewrite ?length_firstn, ?length_skipn; lia).
    rewrite nth_firstn_lt by exact Hb. rewrite nth_skipn_add. reflexivity. }
  unfold rescaled_pair.
  rewrite (nth_map2 _ [] [] []) by lia.
  unfold abs_lt at 1.
  rewrite (nth_map_default _ _ []) by (rewrite length_app; lia).
  rewrite (nth_map2 _ [] [] []) by lia.
  rewrite (nth_map2 _ [] [] []) by lia.
  rewrite (nth_map2 _ [] [] []) by (rewrite !length_app; lia).
  rewrite Ndin, Ndout. reflexivity.
Qed.

(** A rule of the two, run on two batches that share a pair, gives the
    two members of the pair the same rows. *)
Lemma rule_pair_local (r : rule) (m1 m2 : Module)
  (x1 y1 gi1 go1 res1 x2 y2 gi2 go2 res2 : ten3) (eps : Qc)
  (B1 B2 b1 b2 : nat) :
  pairwise_rule r ->
  same_layer m1 m2 ->
  input m1 = Some x1 -> output m1 = Some y1 ->
  input m2 = Some x2 -> output m2 = Some y2 ->
  length x1 = (2 * B1)%nat -> length y1 = (2 * B1)%nat ->
  length x2 = (2 * B2)%nat -> length y2 = (2 * B2)%nat ->
  (b1 < B1)%nat -> (b2 < B2)%nat ->
  nth b1 x1 [] = nth b2 x2 [] ->
  nth (B1 + b1) x1 [] = nth (B2 + b2) x2 [] ->
  nth b1 y1 [] = nth b2 y2 [] ->
  nth (B1 + b1) y1 [] = nth (B2 + b2) y2 [] ->
  nth b1 gi1 [] = nth b2 gi2 [] ->
  nth (B1 + b1) gi1 [] = nth (B2 + b2) gi2 [] ->
  nth b1 go1 [] = nth b2 go2 [] ->
  nth (B1 + b1) go1 [] = nth (B2 + b2) go2 [] ->
  r m1 gi1 go1 eps = Some res1 ->
  r m2 gi2 go2 eps = Some res2 ->
  nth b1 res1 [] = nth b2 res2 [] /\
  nth (B1 + b1) res1 [] = nth (B2 + b2) res2 [].
Proof.
  intros [->| ->] Hl Hi1 Ho1 Hi2 Ho2 Lx1 Ly1 Lx2 Ly2 Hb1 Hb2
    Ex Exr Ey Eyr Egi Egir Ego Egor H1 H2.
  - pose proof (nonlinear_pair_cached m1 x1 y1 gi1 go1 res1 eps B1 Hi1 Ho1
                  Lx1 Ly1 H1 b1) as R1.
    pose proof (nonlinear_pair_cached m2 x2 y2 gi2 go2 res2 eps B2 Hi2 Ho2
                  Lx2 Ly2 H2 b2) as R2.
    split.
    + rewrite (R1 b1 Hb1 (or_introl eq_refl)),
              (R2 b2 Hb2 (or_introl eq_refl)).
      rewrite Ex, Exr, Ey, Eyr, Egi, Ego. reflexivity.
    + rewrite (R1 _ Hb1 (or_intror eq_refl)),
              (R2 _ Hb2 (or_intror eq_refl)).
      rewrite Ex, Exr, Ey, Eyr, Egir, Egor. reflexivity.
  - apply (maxpool_pair_local m1 m2 x1 y1 gi1 go1 res1 x2 y2 gi2 go2 res2
             eps B1 B2 b1 b2); assumption.
Qed.

Lemma same_layer_sym (a b : Module) : same_layer a b -> same_layer b a.
Proof.
  intros (H1 & H2 & H3 & H4 & H5). repeat split; symmetry; assumption.
Qed.

Lemma backward_module_rule (self : DeepLiftShap) (m : Module)
  (x g : ten3) (i : nat) (r : rule) :
  _backward_hooks m = ((i, b_hook) :: nil) ->
  ops_lookup (_NON_LINEAR_OPS self) (cls m) = Some r ->
  backward_module self m x g
  = (gi <- mapM2 (backward m) x g ;; r m gi g (eps self)).
Proof.
  intros Hb Ho. unfold backward_module. rewrite Hb.
  destruct (mapM2 (backward m) x g) as [gi|]; [|reflexivity].
  simpl. unfold _b_hook. rewrite Ho. reflexivity.
Qed.

(** The gradients of the two members of a pair do not depend on the
    batch the pair is in, nor on what earlier calls left in the
    modules. *)
Lemma backward_pass_same_pair (self : DeepLiftShap) (ms : list Module) :
  forall ms' x1 x2 ms1 ms2 tape1 tape2 out1 out2 seed1 seed2 g1 g2
         B1 B2 b1 b2,
    Forall2 paired ms ms' ->
    Forall (pairwise_ready self) ms ->
    length x1 = (2 * B1)%nat -> length x2 = (2 * B2)%nat ->
    (b1 < B1)%nat -> (b2 < B2)%nat ->
    nth b1 x1 [] = nth b2 x2 [] ->
    nth (B1 + b1) x1 [] = nth (B2 + b2) x2 [] ->
    forward_pass ms x1 = (ms1, Some (tape1, out1)) ->
    forward_pass ms' x2 = (ms2, Some (tape2, out2)) ->
    nth b1 seed1 [] = nth b2 seed2 [] ->
    nth (B1 + b1) seed1 [] = nth (B2 + b2) seed2 [] ->
    backward_pass self ms1 tape1 seed1 = Some g1 ->
    backward_pass self ms2 tape2 seed2 = Some g2 ->
    nth b1 g1 [] = nth b2 g2 [] /\
    nth (B1 + b1) g1 [] = nth (B2 + b2) g2 [].
Proof.
  induction ms as [|m ms IH];
    intros ms' x1 x2 ms1 ms2 tape1 tape2 out1 out2 seed1 seed2 g1 g2
      B1 B2 b1 b2 Hp Hr L1 L2 Hb1 Hb2 Ex Er F1 F2 Es Esr G1 G2;
    inversion Hp as [|? m' ? ms0' Hm2 Hms2]; subst.
  - simpl in F1, F2. injection F1 as <- <- <-. injection F2 as <- <- <-.
    simpl in G1, G2. injection G1 as <-. injection G2 as <-.
    split; assumption.
  - inversion Hr as [|? ? Hm Hms]; subst.
    destruct Hm2 as (Hlay & Hkk & _).
    pose proof Hlay as (Hcls & Hfw & Hbw & _).
    simpl in F1, F2.
    destruct (call_module m x1) as [m1 [y1|]] eqn:C1; [|discriminate].
    destruct (forward_pass ms y1) as [ms1' r1] eqn:F1'.
    destruct r1 as [[tape1' out1']|]; [|discriminate].
    injection F1 as <- <- <-.
    destruct (call_module m' x2) as [m2 [y2|]] eqn:C2; [|discriminate].
    destruct (forward_pass ms0' y2) as [ms2' r2] eqn:F2'.
    destruct r2 as [[tape2' out2']|]; [|discriminate].
    injection F2 as <- <- <-.
    simpl in G1, G2.
    destruct (backward_pass self ms1' tape1' seed1) as [g1'|] eqn:B1';
      [|discriminate].
    destruct (backward_pass self ms2' tape2' seed2) as [g2'|] eqn:B2';
      [|discriminate].
    cbn [obind] in G1, G2.
    destruct (call_module_spec m x1 m1 (Some y1) C1) as (Hl1 & _ & Ey1).
    destruct (call_module_spec m' x2 m2 (Some y2) C2) as (Hl2 & _ & Ey2).
    symmetry in Ey1, Ey2. rewrite Hfw in Ey2.
    assert (Ly1 : length y1 = (2 * B1)%nat)
      by (rewrite (mapM_length _ _ _ Ey1); exact L1).
    assert (Ly2 : length y2 = (2 * B2)%nat)
      by (rewrite (mapM_length _ _ _ Ey2); exact L2).
    assert (Eyx : nth b1 y1 [] = nth b2 y2 []).
    { pose proof (mapM_nth _ _ _ [] [] b1 Ey1 ltac:(lia)) as H1.
      pose proof (mapM_nth _ _ _ [] [] b2 Ey2 ltac:(lia)) as H2.
      rewrite Ex in H1. rewrite H1 in H2. injection H2 as <-. reflexivity. }
    assert (Eyr : nth (B1 + b1) y1 [] = nth (B2 + b2) y2 []).
    { pose proof (mapM_nth _ _ _ [] [] (B1 + b1) Ey1 ltac:(lia)) as H1.
      pose proof (mapM_nth _ _ _ [] [] (B2 + b2) Ey2 ltac:(lia)) as H2.
      rewrite Er in H1. rewrite H1 in H2. injection H2 as <-. reflexivity. }
    destruct (IH ms0' y1 y2 ms1' ms2' tape1' tape2' out1' out2' seed1
                seed2 g1' g2' B1 B2 b1 b2 Hms2 Hms Ly1 Ly2 Hb1 Hb2 Eyx Eyr
                F1' F2' Es Esr B1' B2') as [Eg' Egr'].
    (* what automatic differentiation gives the two members *)
    assert (Hauto : forall ma mb gi1 gi2,
               backward mb = backward ma ->
               mapM2 (backward ma) x1 g1' = Some gi1 ->
               mapM2 (backward mb) x2 g2' = Some gi2 ->
               nth b1 gi1 [] = nth b2 gi2 [] /\
               nth (B1 + b1) gi1 [] = nth (B2 + b2) gi2 []).
    { intros ma mb gi1 gi2 Hab A1 A2. rewrite Hab in A2.
      destruct (mapM2_nth _ _ _ _ [] [] [] A1) as (_ & _ & H1).
      destruct (mapM2_nth _ _ _ _ [] [] [] A2) as (_ & _ & H2).
      split.
      - specialize (H1 b1 ltac:(lia)). specialize (H2 b2 ltac:(lia)).
        rewrite Ex, Eg' in H1. rewrite H1 in H2. injection H2 as <-.
        reflexivity.
      - specialize (H1 (B1 + b1)%nat ltac:(lia)).
        specialize (H2 (B2 + b2)%nat ltac:(lia)).
        rewrite Er, Egr' in H1. rewrite H1 in H2. injection H2 as <-.
        reflexivity. }
    destruct Hm as [Hk|(Hk & r & Ho & Hrule)].
    + assert (Hk' : hook_kinds m' = ([], [], [])) by congruence.
      rewrite (call_module_plain m x1 Hk) in C1. injection C1 as <- _.
      rewrite (call_module_plain m' x2 Hk') in C2. injection C2 as <- _.
      rewrite (backward_module_unhooked self m x1 g1' Hk) in G1.
      rewrite (backward_module_unhooked self m' x2 g2' Hk') in G2.
      apply (Hauto m m' g1 g2 Hbw G1 G2).
    + assert (Hk' : hook_kinds m' = ([f_hook], [fp_hook], [b_hook])%list)
        by congruence.
      destruct (call_module_hooked m m1 x1 y1 Hk C1)
        as (Hin1 & Hout1 & Hc1 & _ & Hbw1 & i1 & Hbh1).
      destruct (call_module_hooked m' m2 x2 y2 Hk' C2)
        as (Hin2 & Hout2 & Hc2 & _ & Hbw2 & i2 & Hbh2).
      rewrite (backward_module_rule self m1 x1 g1' i1 r Hbh1) in G1
        by (rewrite Hc1; exact Ho).
      rewrite (backward_module_rule self m2 x2 g2' i2 r Hbh2) in G2
        by (rewrite Hc2, Hcls; exact Ho).
      destruct (mapM2 (backward m1) x1 g1') as [gi1|] eqn:Egi1;
        [|discriminate].
      destruct (mapM2 (backward m2) x2 g2') as [gi2|] eqn:Egi2;
        [|discriminate].
      cbn [obind] in G1, G2.
      destruct (Hauto m1 m2 gi1 gi2 ltac:(congruence) Egi1 Egi2)
        as [Egi Egir].
      apply (rule_pair_local r m1 m2 x1 y1 gi1 g1' g1 x2 y2 gi2 g2' g2
               (eps self) B1 B2 b1 b2 Hrule); try assumption.
      eapply same_layer_trans; [apply same_layer_sym, Hl1|].
      eapply same_layer_trans; [exact Hlay|exact Hl2].
Qed.

Lemma register_hooks_pairwise_ready (s s0 : DeepLiftShap) (id pos : nat)
  (m : Module) :
  _NON_LINEAR_OPS s = _NON_LINEAR_OPS s0 ->
  hook_free m -> pairwise_only s0 m ->
  pairwise_ready s0 (snd (_register_hooks s id pos m)).
Proof.
  intros Ho Hf Hr. unfold hook_free, hooks_view in Hf.
  injection Hf as Hfw Hpre Hbw.
  unfold _register_hooks. rewrite Hbw, Ho.
  change (0 <? length (@nil (nat * hook)))%nat with false. cbv iota.
  unfold pairwise_only in Hr.
  destruct (ops_lookup (_NON_LINEAR_OPS s0) (cls m)) as [r|] eqn:Er.
  - unfold register_hook. cbn [fst snd]. right.
    split; [|exists r; split; [exact Er|exact Hr]].
    unfold hook_kinds. simpl. rewrite Hfw, Hpre, Hbw. reflexivity.
  - cbn [snd]. left.
    unfold hook_kinds. rewrite Hfw, Hpre, Hbw. reflexivity.
Qed.

Lemma apply_register_hooks_pairwise_ready (s0 : DeepLiftShap)
  (ms : list Module) :
  forall s id pos,
    _NON_LINEAR_OPS s = _NON_LINEAR_OPS s0 ->
    Forall hook_free ms -> Forall (pairwise_only s0) ms ->
    Forall (pairwise_ready s0) (snd (apply_register_hooks s id pos ms)).
Proof.
  induction ms as [|m ms IH]; intros s id pos Ho Hf Hr; simpl;
    [constructor|].
  inversion Hf as [|? ? Hf1 Hf2]; subst.
  inversion Hr as [|? ? Hr1 Hr2]; subst.
  pose proof (register_hooks_pairwise_ready s s0 id pos m Ho Hf1 Hr1)
    as Hreg.
  pose proof (register_hooks_ops s id pos m) as Ho1.
  destruct (_register_hooks s id pos m) as [[s1 i1] m1].
  cbn [fst snd] in Hreg, Ho1.
  pose proof (IH s1 i1 (S pos)) as Hrest.
  destruct (apply_register_hooks s1 i1 (S pos) ms) as [[s2 i2] ms2].
  cbn [snd] in *. constructor; [exact Hreg|].
  apply Hrest; [congruence|exact Hf2|exact Hr2].
Qed.

Lemma pairwise_ready_same_ops (s s' : DeepLiftShap) (m : Module) :
  _NON_LINEAR_OPS s' = _NON_LINEAR_OPS s ->
  pairwise_ready s m -> pairwise_ready s' m.
Proof. unfold pairwise_ready. intros ->. auto. Qed.

Lemma attribute_Ok_shapes (self : DeepLiftShap) (w : world)
  (X references : ten3) (target : nat) (gradients : ten3) :
  fst (fst (attribute self w X references target)) = Ok gradients ->
  same_shape3 gradients X = true /\ same_shape3 X references = true.
Proof.
  intros H.
  destruct (attribute self w X references target) as [[res self'] w'] eqn:E.
  cbn [fst] in H. subst res.
  destruct (attribute_Ok_inv _ _ _ _ _ _ _ _ E)
    as (_ & id1 & ms1 & ms2 & tape & out & y & g & od & diffs & contribs &
        d & _ & _ & _ & _ & _ & _ & Hd & Hc & _).
  pose proof (same_shape3_of_zip3 _ _ _ _ Hd) as S1.
  pose proof (same_shape3_of_zip3 _ _ _ _ Hc) as S2.
  destruct (zip3_Some _ _ _ _ Hd) as [-> _].
  split; [|exact S1].
  rewrite same_shape3_sym.
  eapply same_shape3_trans; [|exact S2].
  rewrite same_shape3_sym. apply same_shape3_map2_l, S1.
Qed.

(** The multipliers [attribute] returns for a pair do not depend on the
    other pairs of the batch, nor on the world the call is made in. *)
Lemma attribute_same_pair (self : DeepLiftShap) (w w' : world)
  (X1 R1 X2 R2 : ten3) (target : nat) (g1 g2 : ten3) (b1 b2 : nat) :
  Forall hook_free (modules w) -> Forall hook_free (modules w') ->
  Forall2 same_layer (modules w) (modules w') ->
  Forall (pairwise_only self) (modules w) ->
  fst (fst (attribute self w X1 R1 target)) = Ok g1 ->
  fst (fst (attribute self w' X2 R2 target)) = Ok g2 ->
  (b1 < length X1)%nat -> (b2 < length X2)%nat ->
  nth b1 X1 [] = nth b2 X2 [] -> nth b1 R1 [] = nth b2 R2 [] ->
  nth b1 g1 [] = nth b2 g2 [].
Proof.
  intros Hfree Hfree' Hsame Hlay H1 H2 Hb1 Hb2 Ex Er.
  destruct (attribute self w X1 R1 target) as [[res1 s1] w1] eqn:E1.
  destruct (attribute self w' X2 R2 target) as [[res2 s2] w2] eqn:E2.
  cbn [fst] in H1, H2. subst res1 res2.
  destruct (attribute_Ok_inv _ _ _ _ _ _ _ _ E1)
    as (_ & id1 & ms1 & ms1' & tape1 & out1 & y1 & gg1 & od1 & diffs1 &
        contribs1 & d1 & Ea1 & Ef1 & Ey1 & Eg1 & -> & _ & Ed1 & _).
  destruct (attribute_Ok_inv _ _ _ _ _ _ _ _ E2)
    as (_ & id2 & ms2 & ms2' & tape2 & out2 & y2 & gg2 & od2 & diffs2 &
        contribs2 & d2 & Ea2 & Ef2 & Ey2 & Eg2 & -> & _ & Ed2 & _).
  destruct (apply_register_paired (modules w) (modules w') self self
              (next_id w) (next_id w') 0 0 Hsame Hfree Hfree'
              (same_engine_refl self)) as (Hp & Hse).
  rewrite Ea1, Ea2 in Hp, Hse. cbn [fst snd] in Hp, Hse.
  pose proof (apply_register_hooks_ops (modules w) self (next_id w) 0) as Ho.
  pose proof (apply_register_hooks_pairwise_ready self (modules w) self
                (next_id w) 0 eq_refl Hfree Hlay) as Hready.
  rewrite Ea1 in Ho, Hready. cbn [fst snd] in Ho, Hready.
  assert (Hready' : Forall (pairwise_ready s1) ms1).
  { eapply Forall_impl; [|exact Hready].
    intros m. apply pairwise_ready_same_ops. exact Ho. }
  destruct (zip3_Some _ _ _ _ Ed1) as [_ LXR1].
  destruct (zip3_Some _ _ _ _ Ed2) as [_ LXR2].
  (* the second backward pass runs with an engine that has the same
     rules and the same [eps] *)
  assert (Eg2' : backward_pass s1 ms2' tape2 (seed_gradient out2 target)
                 = Some gg2).
  { rewrite <- Eg2. clear - Hse.
    destruct Hse as (He & _ & _ & Hops).
    generalize (seed_gradient out2 target). revert tape2.
    induction ms2' as [|m ms IH]; intros tape g; simpl; [reflexivity|].
    destruct tape as [|x tape]; [reflexivity|].
    rewrite IH. destruct (backward_pass s2 ms tape g) as [g'|];
      [|reflexivity].
    cbn [obind]. unfold backward_module.
    destruct (mapM2 (backward m) x g') as [gi|]; [|reflexivity].
    cbn [obind]. f_equal.
    unfold _b_hook. rewrite He, Hops. reflexivity. }
  (* the outputs of the pair in the two batches *)
  assert (Hsame1 : Forall2 same_layer ms1 ms2).
  { eapply Forall2_weaken; [|exact Hp]. intros a b (Hab & _). exact Hab. }
  destruct (forward_pass_spec _ _ _ _ Ef1) as [_ T1]. symmetry in T1.
  destruct (forward_pass_spec _ _ _ _ Ef2) as [_ T2]. symmetry in T2.
  rewrite (forward_tape_same_layer _ _ Hsame1) in T2.
  pose proof (forward_tape_examples ms1 (X1 ++ R1)) as Hx1.
  rewrite T1 in Hx1. simpl in Hx1. symmetry in Hx1.
  pose proof (forward_tape_examples ms1 (X2 ++ R2)) as Hx2.
  rewrite T2 in Hx2. simpl in Hx2. symmetry in Hx2.
  assert (Lo1 : length out1 = (length X1 + length R1)%nat)
    by (rewrite (mapM_length _ _ _ Hx1), length_app; reflexivity).
  assert (Lo2 : length out2 = (length X2 + length R2)%nat)
    by (rewrite (mapM_length _ _ _ Hx2), length_app; reflexivity).
  assert (Eo : nth b1 out1 [] = nth b2 out2 []).
  { pose proof (mapM_nth _ _ _ [] [] b1 Hx1) as A1.
    rewrite app_nth1 in A1 by exact Hb1.
    rewrite length_app in A1. specialize (A1 ltac:(lia)).
    pose proof (mapM_nth _ _ _ [] [] b2 Hx2) as A2.
    rewrite app_nth1 in A2 by exact Hb2.
    rewrite length_app in A2. specialize (A2 ltac:(lia)).
    rewrite Ex in A1. rewrite A1 in A2. injection A2 as <-. reflexivity. }
  assert (Eor : nth (length X1 + b1) out1 [] = nth (length X2 + b2) out2 []).
  { pose proof (mapM_nth _ _ _ [] [] (length X1 + b1)%nat Hx1) as A1.
    rewrite app_nth2 in A1 by lia.
    replace (length X1 + b1 - length X1)%nat with b1 in A1 by lia.
    rewrite length_app in A1. specialize (A1 ltac:(lia)).
    pose proof (mapM_nth _ _ _ [] [] (length X2 + b2)%nat Hx2) as A2.
    rewrite app_nth2 in A2 by lia.
    replace (length X2 + b2 - length X2)%nat with b2 in A2 by lia.
    rewrite length_app in A2. specialize (A2 ltac:(lia)).
    rewrite Er in A1. rewrite A1 in A2. injection A2 as <-. reflexivity. }
  rewrite !nth_firstn_lt by assumption.
  apply (backward_pass_same_pair s1 ms1 ms2 (X1 ++ R1) (X2 ++ R2) ms1' ms2'
           tape1 tape2 out1 out2 (seed_gradient out1 target)
           (seed_gradient out2 target) gg1 gg2 (length X1) (length X2)
           b1 b2 Hp Hready'); try assumption.
  - rewrite length_app. lia.
  - rewrite length_app. lia.
  - rewrite !app_nth1 by assumption. exact Ex.
  - rewrite !app_nth2 by lia.
    replace (length X1 + b1 - length X1)%nat with b1 by lia.
    replace (length X2 + b2 - length X2)%nat with b2 by lia. exact Er.
  - unfold seed_gradient.
    rewrite (nth_map_default _ out1 []) by lia.
    rewrite (nth_map_default _ out2 []) by lia.
    rewrite Eo. reflexivity.
  - unfold seed_gradient.
    rewrite (nth_map_default _ out1 []) by lia.
    rewrite (nth_map_default _ out2 []) by lia.
    rewrite Eor. reflexivity.
Qed.

Lemma has_shape2_same_shape {A B} (a : list (list A)) :
  forall (b : list (list B)) c l,
    same_shape2 a b = true -> has_shape2 b c l -> has_shape2 a c l.
Proof.
  unfold same_shape2, has_shape2.
  induction a as [|x a IH]; intros [|y b] c l H [Hl Hf]; simpl in *;
    try discriminate.
  - split; [exact Hl|constructor].
  - apply andb_true_iff in H. destruct H as [H1 H2].
    unfold same_shape1 in H1. apply Nat.eqb_eq in H1.
    inversion Hf as [|? ? Hy Hf']; subst.
    destruct (IH b (length b) (length y) H2) as [La Fa]; [split; auto|].
    split; [lia|]. constructor; [exact H1|exact Fa].
Qed.

Lemma has_shape3_same_shape {A B} (a : list (list (list A))) :
  forall (b : list (list (list B))) n c l,
    same_shape3 a b = true -> has_shape3 b n c l -> has_shape3 a n c l.
Proof.
  unfold same_shape3, has_shape3.
  induction a as [|x a IH]; intros [|y b] n c l H [Hl Hf]; simpl in *;
    try discriminate.
  - split; [exact Hl|constructor].
  - apply andb_true_iff in H. destruct H as [H1 H2].
    inversion Hf as [|? ? Hy Hf']; subst.
    destruct (IH b (length b) c l H2) as [La Fa]; [split; auto|].
    split; [lia|]. constructor; [|exact Fa].
    apply (has_shape2_same_shape x y c l H1 Hy).
Qed.

Lemma mat_ext (a b : mat) (c l : nat) :
  has_shape2 a c l -> has_shape2 b c l ->
  (forall k j, (k < c)%nat -> (j < l)%nat -> get2 a k j = get2 b k j) ->
  a = b.
Proof.
  intros [La Fa] [Lb Fb] H.
  apply (nth_ext a b [] []); [congruence|].
  intros k Hk. rewrite La in Hk.
  assert (Ha : length (nth k a []) = l).
  { rewrite Forall_forall in Fa. apply Fa, nth_In. lia. }
  assert (Hb : length (nth k b []) = l).
  { rewrite Forall_forall in Fb. apply Fb, nth_In. lia. }
  apply (nth_ext _ _ 0 0); [congruence|].
  intros j Hj. rewrite Ha in Hj. apply (H k j Hk Hj).
Qed.

(** ... nor do the projected multipliers. *)
Lemma batch_multipliers_same_pair (target : nat) (t : Qc)
  (ops : option ops_dict) (v raw : bool) (w w' : world)
  (X1 R1 X2 R2 m1 m2 : ten3) (n1 n2 A L b1 b2 : nat) :
  Forall hook_free (modules w) -> Forall hook_free (modules w') ->
  Forall2 same_layer (modules w) (modules w') ->
  Forall (pairwise_only (DeepLiftShap_init ops default_eps t v))
         (modules w) ->
  has_shape3 X1 n1 A L -> has_shape3 X2 n2 A L ->
  fst (batch_multipliers target t ops v raw w X1 R1) = Ok m1 ->
  fst (batch_multipliers target t ops v raw w' X2 R2) = Ok m2 ->
  (b1 < n1)%nat -> (b2 < n2)%nat ->
  nth b1 X1 [] = nth b2 X2 [] -> nth b1 R1 [] = nth b2 R2 [] ->
  nth b1 m1 [] = nth b2 m2 [].
Proof.
  intros Hfree Hfree' Hsame Hlay S1 S2 H1 H2 Hb1 Hb2 Ex Er.
  unfold batch_multipliers in H1, H2. cbn [fst] in H1, H2.
  destruct (fst (fst (attribute _ w X1 R1 target))) as [g1|] eqn:E1;
    [|discriminate].
  destruct (fst (fst (attribute _ w' X2 R2 target))) as [g2|] eqn:E2;
    [|discriminate].
  cbn [rbind] in H1, H2.
  pose proof S1 as [L1 _]. pose proof S2 as [L2 _].
  assert (Eg : nth b1 g1 [] = nth b2 g2 []).
  { apply (attribute_same_pair _ w w' X1 R1 X2 R2 target g1 g2 b1 b2
             Hfree Hfree' Hsame Hlay E1 E2); try assumption; lia. }
  destruct raw.
  - injection H1 as <-. injection H2 as <-. exact Eg.
  - destruct (attribute_Ok_shapes _ _ _ _ _ _ E1) as [Sg1 Sr1].
    destruct (attribute_Ok_shapes _ _ _ _ _ _ E2) as [Sg2 Sr2].
    rewrite same_shape3_sym in Sr1, Sr2.
    pose proof (has_shape3_same_shape _ _ _ _ _ Sg1 S1) as Hg1.
    pose proof (has_shape3_same_shape _ _ _ _ _ Sg2 S2) as Hg2.
    pose proof (has_shape3_same_shape _ _ _ _ _ Sr1 S1) as Hr1.
    pose proof (has_shape3_same_shape _ _ _ _ _ Sr2 S2) as Hr2.
    destruct (hypothetical_attributions_spec g1 X1 R1 n1 A L Hg1 S1 Hr1)
      as (p1 & Ep1 & Sp1 & En1).
    destruct (hypothetical_attributions_spec g2 X2 R2 n2 A L Hg2 S2 Hr2)
      as (p2 & Ep2 & Sp2 & En2).
    rewrite Ep1 in H1. rewrite Ep2 in H2. cbn [rbind] in H1, H2.
    injection H1 as <-. injection H2 as <-.
    apply (mat_ext _ _ A L).
    + apply (has_shape3_nth _ _ _ _ _ Sp1). exact Hb1.
    + apply (has_shape3_nth _ _ _ _ _ Sp2). exact Hb2.
    + intros k j Hk Hj.
      change (get3 p1 b1 k j = get3 p2 b2 k j).
      rewrite (En1 b1 k j Hb1 Hk Hj), (En2 b2 k j Hb2 Hk Hj).
      unfold projected_entry, get3. rewrite Er, Eg. reflexivity.
Qed.

(** ** Batch size and the rules that work pair by pair *)

Lemma Forall2_seq_nth {A} (P : nat -> A -> Prop) (d : A) (l : list A) :
  forall p,
    (forall j, (j < length l)%nat -> P (p + j)%nat (nth j l d)) ->
    Forall2 P (seq p (length l)) l.
Proof.
  induction l as [|a l IH]; intros p H; simpl; constructor.
  - specialize (H 0%nat). simpl in H. rewrite Nat.add_0_r in H.
    apply H. lia.
  - apply IH. intros j Hj. specialize (H (S j)). simpl in H.
    replace (S p + j)%nat with (p + S j)%nat by lia. apply H. lia.
Qed.

Lemma Forall2_functional {A B} (P : A -> B -> Prop) (l : list A) :
  (forall a b b', P a b -> P a b' -> b = b') ->
  forall c c', Forall2 P l c -> Forall2 P l c' -> c = c'.
Proof.
  intros HP. induction l as [|a l IH]; intros c c' H H';
    inversion H; subst; inversion H'; subst; [reflexivity|].
  f_equal; [eapply HP; eassumption|apply IH; assumption].
Qed.

Lemma Forall2_same_layer_sym (a b : list Module) :
  Forall2 same_layer a b -> Forall2 same_layer b a.
Proof.
  induction 1 as [|x y a b (H1 & H2 & H3 & H4 & H5) _ IH]; constructor;
    [|exact IH].
  repeat split; symmetry; assumption.
Qed.

Lemma pairwise_only_same_layer (self : DeepLiftShap) (a b : list Module) :
  Forall2 same_layer a b ->
  Forall (pairwise_only self) a -> Forall (pairwise_only self) b.
Proof.
  induction 1 as [|x y a b (Hc & _) _ IH]; intros H; inversion H; subst;
    constructor; [|apply IH; assumption].
  unfold pairwise_only in *. rewrite Hc. assumption.
Qed.

Section PairwiseBatches.

Variables (X : ten3) (target : nat) (t : list ten3).
Variables (n_shuffles : nat) (return_references hypothetical : bool).
Variables (warning_threshold : Qc).
Variables (additional_nonlinear_ops : option ops_dict).
Variables (print_convergence_deltas raw_outputs : bool).
Variable random_state : option Z.
Variables (w0 : world) (n A L : nat).

Let R := n_shuffles_ (RefTensor t) n_shuffles.
Let N := length X.

Hypothesis model_hook_free : Forall hook_free (modules w0).
Hypothesis model_pairwise :
  Forall (pairwise_only
            (DeepLiftShap_init additional_nonlinear_ops default_eps
               warning_threshold print_convergence_deltas))
         (modules w0).
Hypothesis X_shape : has_shape3 X n A L.

(** Pair [q] of the loop is example [q / R] with reference [q mod R]. *)
Let example_of (q : nat) : mat := nth (q / R) X [].
Let reference_of (q : nat) : mat := nth (q mod R) (nth (q / R) t []) [].

(** [v] is what the engine gives pair [q] in some batch of consecutive
    pairs, run in some state the model can be in between two calls. *)
Let valid (q : nat) (v : mat) : Prop :=
  exists w p len m,
    settled w0 w /\ (p <= q)%nat /\ (q < p + len)%nat /\
    (p + len <= N * R)%nat /\
    fst (batch_multipliers target warning_threshold additional_nonlinear_ops
           print_convergence_deltas raw_outputs w
           (map example_of (seq p len)) (map reference_of (seq p len)))
    = Ok m /\
    v = nth (q - p) m [].

(** [a] is example [k] finalized from such results of its [R] pairs. *)
Let entry_ok (k : nat) (a : attribution) : Prop :=
  exists chunk,
    Forall2 valid (seq (k * R) R) chunk /\
    finalize_chunk X hypothetical raw_outputs chunk k = Ok a.

Lemma batch_shape (p len : nat) :
  (0 < R)%nat -> (p + len <= N * R)%nat ->
  has_shape3 (map example_of (seq p len)) len A L.
Proof.
  intros HR H. split; [rewrite length_map, length_seq; reflexivity|].
  apply Forall_forall. intros m Hm. apply in_map_iff in Hm.
  destruct Hm as (q & <- & Hq). apply in_seq in Hq.
  destruct X_shape as [LX FX]. rewrite Forall_forall in FX.
  apply FX, nth_In. fold N. apply Nat.Div0.div_lt_upper_bound. lia.
Qed.

Lemma valid_functional (q : nat) (v v' : mat) :
  (0 < R)%nat -> valid q v -> valid q v' -> v = v'.
Proof.
  intros HR (w & p & len & m & (Hf & Hl) & Hp1 & Hp2 & Hp3 & Hm & ->)
            (w' & p' & len' & m' & (Hf' & Hl') & Hq1 & Hq2 & Hq3 & Hm' & ->).
  apply (batch_multipliers_same_pair target warning_threshold
           additional_nonlinear_ops print_convergence_deltas raw_outputs
           w w' (map example_of (seq p len)) (map reference_of (seq p len))
           (map example_of (seq p' len')) (map reference_of (seq p' len'))
           m m' len len' A L (q - p) (q - p') Hf Hf').
  - eapply Forall2_same_layer_trans; [|exact Hl'].
    apply Forall2_same_layer_sym, Hl.
  - eapply pairwise_only_same_layer; [exact Hl|exact model_pairwise].
  - apply batch_shape; assumption.
  - apply batch_shape; assumption.
  - exact Hm.
  - exact Hm'.
  - lia.
  - lia.
  - rewrite (nth_indep _ [] (example_of 0)), map_nth, seq_nth
      by (rewrite ?length_map, ?length_seq; lia).
    rewrite (nth_indep _ [] (example_of 0)), map_nth, seq_nth
      by (rewrite ?length_map, ?length_seq; lia).
    f_equal; lia.
  - rewrite (nth_indep _ [] (reference_of 0)), map_nth, seq_nth
      by (rewrite ?length_map, ?length_seq; lia).
    rewrite (nth_indep _ [] (reference_of 0)), map_nth, seq_nth
      by (rewrite ?length_map, ?length_seq; lia).
    f_equal; lia.
Qed.

Lemma entry_ok_functional (k : nat) (a a' : attribution) :
  (0 < R)%nat -> entry_ok k a -> entry_ok k a' -> a = a'.
Proof.
  intros HR (c & Hc & Ea) (c' & Hc' & Ea').
  assert (c = c').
  { apply (Forall2_functional valid (seq (k * R) R)); [|assumption..].
    intros q b b'. apply valid_functional, HR. }
  subst c'. rewrite Ea in Ea'. injection Ea' as <-. reflexivity.
Qed.

(** The [while] loop, when it returns, has finalized examples from valid
    results only and keeps fewer than [R] of them. *)
Lemma drain_valid (fuel : nat) :
  forall m k attr atts attr' atts' z',
    (0 < R)%nat ->
    Forall2 valid (seq (k * R) m) attr ->
    Forall2 entry_ok (seq 0 k) atts ->
    drain X (RefTensor t) n_shuffles hypothetical raw_outputs fuel attr atts k
    = Ok (attr', atts', z') ->
    exists m',
      (z' * R + m' = k * R + m)%nat /\ (m' < R)%nat /\
      Forall2 valid (seq (z' * R) m') attr' /\
      Forall2 entry_ok (seq 0 z') atts'.
Proof.
  induction fuel as [|fuel IH];
    intros m k attr atts attr' atts' z' HR Hv Ha H; cbn [drain] in H;
    fold R in H;
    pose proof (Forall2_length Hv) as Hlen; rewrite length_seq in Hlen;
    rewrite <- Hlen in H.
  - destruct (R <=? m)%nat eqn:E; [discriminate|].
    apply Nat.leb_gt in E. injection H as <- <- <-.
    exists m. repeat split; auto.
  - destruct (R <=? m)%nat eqn:E.
    + apply Nat.leb_le in E.
      rewrite (seq_split (k * R) m R E) in Hv.
      apply Forall2_app_inv_l in Hv.
      destruct Hv as (c1 & c2 & Hc1 & Hc2 & ->).
      pose proof (Forall2_length Hc1) as L1. rewrite length_seq in L1.
      rewrite firstn_app, firstn_all2 in H by lia.
      rewrite <- L1, Nat.sub_diag in H. simpl firstn in H.
      rewrite app_nil_r in H.
      destruct (finalize_chunk X hypothetical raw_outputs c1 k)
        as [entry|e] eqn:Ef; [|discriminate].
      cbn [rbind] in H.
      rewrite skipn_app, skipn_all2 in H by lia.
      rewrite <- L1, Nat.sub_diag in H. simpl skipn in H.
      destruct (IH (m - R)%nat (S k) c2 (atts ++ [entry]) attr' atts' z' HR)
        as (m' & H1 & H2 & H3 & H4).
      * replace (S k * R)%nat with (k * R + R)%nat by lia. exact Hc2.
      * rewrite seq_S. apply Forall2_app; [exact Ha|].
        constructor; [|constructor].
        exists c1. split; [exact Hc1|exact Ef].
      * exact H.
      * exists m'. repeat split; auto. simpl in H1. lia.
    + apply Nat.leb_gt in E. injection H as <- <- <-.
      exists m. repeat split; auto.
Qed.

(** The loop after [i] pairs: the pairs from [p] on wait in [Xi] and
    [rj], a valid result has arrived for every pair before [p], and the
    first [k] examples are finalized from valid results. *)
Let loop_ok (i : nat) (st : loop_state) : Prop :=
  exists p k,
    (p <= i)%nat /\ (k * R <= p)%nat /\ (p < k * R + R)%nat /\
    (i = N * R -> p = N * R)%nat /\
    Xi st = map (fun q => q / R)%nat (seq p (i - p)) /\
    rj st = map (fun q => q mod R)%nat (seq p (i - p)) /\
    Forall2 valid (seq (k * R) (p - k * R)) (attr_ st) /\
    Forall2 entry_ok (seq 0 k) (attributions st) /\
    z st = k /\
    settled w0 (wld st).

Lemma loop_body_ok (batch_size i : nat) (st st' : loop_state) :
  (0 < R)%nat -> (i < N * R)%nat ->
  loop_ok i st ->
  loop_body X target batch_size (RefTensor t) n_shuffles return_references
    hypothetical warning_threshold additional_nonlinear_ops
    print_convergence_deltas raw_outputs random_state (N * R) st i
  = Ok st' ->
  loop_ok (S i) st'.
Proof.
  intros HR Hi (p & k & Hp & Hk1 & Hk2 & _ & HXi & Hrj & Hat & Hfin & Hz & Hw).
  unfold loop_body. fold R.
  cbn [Xi rj attr_ attributions z references_ wld rng].
  assert (HXi' : Xi st ++ [(i / R)%nat]
                 = map (fun q => q / R)%nat (seq p (S i - p))).
  { replace (S i - p)%nat with (S (i - p)) by lia.
    rewrite seq_S, map_app, HXi. simpl.
    replace (p + (i - p))%nat with i by lia. reflexivity. }
  assert (Hrj' : rj st ++ [(i mod R)%nat]
                 = map (fun q => q mod R)%nat (seq p (S i - p))).
  { replace (S i - p)%nat with (S (i - p)) by lia.
    rewrite seq_S, map_app, Hrj. simpl.
    replace (p + (i - p))%nat with i by lia. reflexivity. }
  rewrite HXi', Hrj'.
  destruct ((length (map (fun q => q / R)%nat (seq p (S i - p)))
             =? batch_size)%nat || (i =? N * R - 1)%nat) eqn:Erun.
  - unfold run_batch.
    cbn [Xi rj attr_ attributions z references_ wld rng].
    assert (Hex : mapM (nth_error X)
                    (map (fun q => q / R)%nat (seq p (S i - p)))
                  = Some (map example_of (seq p (S i - p)))).
    { apply (examples_found X (RefTensor t) n_shuffles HR p (S i - p)).
      fold R N. lia. }
    rewrite Hex. cbn [lift rbind].
    unfold resolve_references.
    destruct (mapM2 (fun i j => e <- nth_error t i ;; nth_error e j)
                (map (fun q => q / R)%nat (seq p (S i - p)))
                (map (fun q => q mod R)%nat (seq p (S i - p))))
      as [refs|] eqn:Er; [|discriminate].
    apply mapM2_lookup in Er. cbn [lift rbind fst snd].
    change (map (fun q => nth (q mod R) (nth (q / R) t []) []) (seq p (S i - p)))
      with (map reference_of (seq p (S i - p))) in Er.
    subst refs.
    destruct (fst (batch_multipliers target warning_threshold
                     additional_nonlinear_ops print_convergence_deltas
                     raw_outputs (wld st)
                     (map example_of (seq p (S i - p)))
                     (map reference_of (seq p (S i - p)))))
      as [m|e] eqn:Em; [|discriminate].
    cbn [rbind].
    destruct (drain X (RefTensor t) n_shuffles hypothetical raw_outputs
                (length (attr_ st ++ m)) (attr_ st ++ m) (attributions st)
                (z st)) as [[[attr' atts'] z']|e] eqn:Ed; [|discriminate].
    cbn [rbind fst snd]. intros H. injection H as <-.
    pose proof (batch_multipliers_length _ _ _ _ _ _ _ _ _ Em) as Lm.
    rewrite length_map, length_seq in Lm.
    assert (Hm : Forall2 valid (seq p (S i - p)) m).
    { rewrite <- Lm. apply (Forall2_seq_nth valid []).
      intros j Hj. exists (wld st), p, (S i - p)%nat, m.
      repeat split; try lia; try assumption.
      - apply Hw.
      - apply Hw.
      - f_equal. lia. }
    assert (Hall : Forall2 valid (seq (k * R) (S i - k * R)) (attr_ st ++ m)).
    { rewrite (seq_split (k * R) (S i - k * R) (p - k * R)) by lia.
      apply Forall2_app; [exact Hat|].
      replace (k * R + (p - k * R))%nat with p by lia.
      replace (S i - k * R - (p - k * R))%nat with (S i - p)%nat by lia.
      exact Hm. }
    rewrite Hz in Ed.
    destruct (drain_valid _ _ _ _ _ _ _ _ HR Hall Hfin Ed)
      as (m' & H1 & H2 & H3 & H4).
    pose proof (batch_multipliers_settled target warning_threshold
                  additional_nonlinear_ops print_convergence_deltas
                  raw_outputs w0 (wld st)
                  (map example_of (seq p (S i - p)))
                  (map reference_of (seq p (S i - p))) Hw) as [Hs1 Hs2].
    exists (S i), z'.
    cbn [Xi rj attr_ attributions z references_ wld rng].
    rewrite Nat.sub_diag.
    repeat split; try lia; try reflexivity; try assumption.
    replace (S i - z' * R)%nat with m' by lia. exact H3.
  - apply orb_false_iff in Erun. destruct Erun as [_ Elast].
    apply Nat.eqb_neq in Elast.
    intros H. injection H as <-.
    exists p, k. cbn [Xi rj attr_ attributions z references_ wld rng].
    repeat split; try lia; try assumption; try apply Hw.
Qed.

Lemma for_range_ok (batch_size : nat) (len : nat) :
  forall i st st',
    (0 < R)%nat -> (i + len = N * R)%nat ->
    loop_ok i st ->
    for_range
      (loop_body X target batch_size (RefTensor t) n_shuffles
         return_references hypothetical warning_threshold
         additional_nonlinear_ops print_convergence_deltas raw_outputs
         random_state (N * R)) st (seq i len)
    = Ok st' ->
    loop_ok (N * R) st'.
Proof.
  induction len as [|len IH]; intros i st st' HR Hlen Hinv H; simpl in H.
  - injection H as <-. replace (N * R)%nat with i by lia. exact Hinv.
  - destruct (loop_body X target batch_size (RefTensor t) n_shuffles
                return_references hypothetical warning_threshold
                additional_nonlinear_ops print_convergence_deltas
                raw_outputs random_state (N * R) st i) as [st1|e] eqn:E1;
      [|discriminate].
    cbn [rbind] in H.
    apply (IH (S i) st1 st' HR); [lia| |exact H].
    apply (loop_body_ok batch_size i st st1 HR); [lia|exact Hinv|exact E1].
Qed.

(** Whatever the batch size, every entry [deep_lift_shap] returns is an
    example finalized from valid results of its own pairs. *)
Lemma deep_lift_shap_entries (batch_size : nat) (w : world) (rng0 : nat)
  (a : list attribution) :
  (0 < R)%nat -> settled w0 w ->
  attributions_of
    (deep_lift_shap X target batch_size (RefTensor t) n_shuffles
       return_references hypothetical warning_threshold
       additional_nonlinear_ops print_convergence_deltas raw_outputs
       random_state w rng0) = Some a ->
  Forall2 entry_ok (seq 0 N) a.
Proof.
  intros HR Hw. unfold deep_lift_shap. fold R N.
  destruct (for_range _ _ (seq 0 (N * R))) as [st|e] eqn:E;
    [|discriminate].
  cbn [rbind].
  destruct (stack_attributions (attributions st)) as [a'|e] eqn:Es;
    [|discriminate].
  cbn [rbind attributions_of]. intros H. injection H as <-.
  apply stack_attributions_Ok in Es. subst a'.
  assert (H0 : loop_ok 0 (mkLoop [] [] [] [] 0 [] w rng0)).
  { exists 0%nat, 0%nat. simpl.
    repeat split; try lia; try constructor; apply Hw. }
  destruct (for_range_ok batch_size (N * R) 0 _ st HR (Nat.add_0_l _) H0 E)
    as (p & k & Hp & Hk1 & Hk2 & Hend & _ & _ & _ & Hfin & _).
  assert (p = N * R)%nat by (apply Hend; reflexivity). subst p.
  assert (Hk : k = N) by nia. rewrite <- Hk. exact Hfin.
Qed.


(** X17.  The batch size does not change the result of a model whose
    rules work pair by pair.  For a model without hooks whose layers are
    all either left alone by the engine or handled by [_nonlinear] or
    [_maxpool], an [X] whose examples have one shape and a tensor of
    references: if [deep_lift_shap] returns with one batch size and
    returns with another, the attributions are the same, for every
    target and choice of [hypothetical] and [raw_outputs].  (Both rules
    compute the two rows of a pair from the rows of that pair; [_softmax]
    subtracts a mean taken over the whole batch and is not among them.) *)
Theorem pairwise_rules_batch_size_independent :
  forall (b1 b2 : nat) (rng1 rng2 : nat) (a1 a2 : list attribution),
    attributions_of
      (deep_lift_shap X target b1 (RefTensor t) n_shuffles
         return_references hypothetical warning_threshold
         additional_nonlinear_ops print_convergence_deltas raw_outputs
         random_state w0 rng1) = Some a1 ->
    attributions_of
      (deep_lift_shap X target b2 (RefTensor t) n_shuffles
         return_references hypothetical warning_threshold
         additional_nonlinear_ops print_convergence_deltas raw_outputs
         random_state w0 rng2) = Some a2 ->
    a1 = a2.
Proof.
  intros b1 b2 rng1 rng2 a1 a2 H1 H2.
  assert (Hw : settled w0 w0)
    by (split; [exact model_hook_free|apply Forall2_same_layer_refl]).
  destruct (Nat.eq_dec R 0) as [E|E].
  - (* no pair at all: the loop does not run *)
    unfold deep_lift_shap in H1, H2. fold R in H1, H2.
    rewrite E, Nat.mul_0_r in H1, H2. simpl in H1, H2. discriminate.
  - assert (HR : (0 < R)%nat) by lia.
    apply (Forall2_functional entry_ok (seq 0 N)).
    + intros k a a'. apply entry_ok_functional, HR.
    + apply (deep_lift_shap_entries b1 w0 rng1 a1 HR Hw H1).
    + apply (deep_lift_shap_entries b2 w0 rng2 a2 HR Hw H2).
Qed.

End PairwiseBatches.

Lemma run_pool_eq (batch_size : nat) :
  run_pool batch_size
  = deep_lift_shap pool_X 0 batch_size (RefTensor pool_references) 20
      false true (Q2Qc (1 # 10000)) None false false None pool_world 0.
Proof. reflexivity. Qed.

Lemma pairwise_rules_batch_size_independent_witness :
  exists a1 a2,
    attributions_of (run_pool 1) = Some a1 /\
    attributions_of (run_pool 3) = Some a2 /\
    a1 = a2.
Proof.
  destruct (attributions_of (run_pool 1)) as [a1|] eqn:E1;
    [|vm_compute in E1; discriminate E1].
  destruct (attributions_of (run_pool 3)) as [a2|] eqn:E2;
    [|vm_compute in E2; discriminate E2].
  exists a1, a2. split; [reflexivity|]. split; [reflexivity|].
  rewrite run_pool_eq in E1, E2.
  assert (Hf : Forall hook_free (modules pool_world))
    by (repeat constructor).
  assert (Hl : Forall (pairwise_only
                         (DeepLiftShap_init None default_eps
                            (Q2Qc (1 # 10000)) false))
                      (modules pool_world)).
  { repeat (apply Forall_cons || apply Forall_nil);
      first [exact I | left; reflexivity | right; reflexivity]. }
  assert (Hs : has_shape3 pool_X 2 4 2) by (repeat constructor).
  exact (pairwise_rules_batch_size_independent pool_X 0 pool_references 20
           false true (Q2Qc (1 # 10000)) None false false None
           pool_world 2 4 2 Hf Hl Hs 1 3 0 0 a1 a2 E1 E2).
Defined.
